(* ===== verification/_CoqProject ===== *)
-Q . S2P
Prelude.v
GoLib.v
Config.v
Carrier.v
Metrics.v
ConsumerTag.v
Subscription.v
Topic.v
Sender.v
SenderReturns.v
Settle.v
Receiver.v
ReceiverLife.v
ReceiverDrain.v
ReceiverTags.v
Links.v
Client.v
ClientSetup.v
ClientLife.v
ClientRun.v
ClientLogic.v
ClientRunLife.v
LinkInstances.v
Builders.v
ClientAlone.v
System.v
