(* ===== verification/Prelude.v ===== *)
(** * vinculum-rabbitmq: a verification library

    ** The program

    The Go module under src/ connects a vinculum message bus to RabbitMQ. Its
    parts, and how they call each other:

    - client/client.go owns one AMQP connection. A supervisor goroutine
      ([connectAndWatch]) dials a list of brokers with backoff, opens one
      channel per sender and per receiver ([setupChannels]), installs them
      (sender [SetChannel], receiver [DeclareTopology] and [Start]), fires
      OnConnect, and repairs the connection when it is lost. A watcher
      goroutine per channel reopens a channel that died alone. [Drain] and
      [Stop] end it in two phases.
    - sender/ publishes bus events on the channel the client gave it: routing
      (topic.go, [resolveMapping]), one publish per event, publisher
      confirms, and the correlation of returned mandatory messages
      ([pending], [drainReturns]).
    - receiver/ consumes a queue: its lifecycle ([Start], [Drain], [Stop],
      [runLoop]), routing-key patterns (subscription.go), one bus event per
      delivery ([handleDelivery]), and settling (settle.go).
    - carrier/ lets trace context travel in AMQP header tables.

    What is not under src/ is a parameter: the AMQP library (its answers are
    functions of everything done so far, [Env] in each file), the bus's
    settler and the subscriber ([Bus], [OpsProg]), wire formats, topic
    matching ([topicmatch]), the trace propagator, clock and random source.

    ** The files

    - Prelude: notations ([s <| f := v |>] for Go's [s.f = v], the state
      monad), tactics ([cases], [run_M], [preserve], [split_in]), the [rmq]
      hint databases, [preserves] (what a handler leaves invariant), runs of a
      labelled step relation.
    - GoLib: the standard library functions the code uses; integer widths.
    - Config: client/config.go. [Config], [DefaultReconnectBackoff].
    - Carrier: carrier/carrier.go, [fieldsToHeaders] (sender.go),
      [headersToFields] and [traceHeaders] (receiver.go), over a heap of
      shared tables.
    - Metrics: the three metrics.go; a recording method yields data points.
    - ConsumerTag: [capConsumerTag] and the tag [Start] registers.
    - Subscription: subscription.go's [match], [matchTokens],
      [stripFieldNames], and receiver.go's [dotToSlash].
    - Topic: sender/topic.go, [resolveMapping], [contentTypeFor].
    - Sender: the rest of sender.go for one goroutine: [setChannel],
      [handleReturn], [drainReturns], [OnEvent].
    - SenderReturns: any number of [OnEvent]s in confirm mode at once, the
      broker and the library's dispatcher, as a step relation.
    - Settle: settle.go, one ops object per delivery, and [bump_epoch].
    - Receiver: [resolveTopicPart1], [handleDelivery]; the verdict contract.
    - ReceiverLife: [DeclareTopology], and [Start], [Drain], [Stop] and
      [runLoop] interleaved: a call is a thread with a program counter, one
      step per critical section, round trip or channel operation.
    - ReceiverDrain: who may cancel a loop's reading, and what a Drain hands
      over.
    - ReceiverTags: ReceiverLife and Settle as one machine: loops take
      deliveries and build their settlers, outside code settles through them
      at any time, Stops move the epoch.
    - Links: what the client requires of a sender ([SenderLink]) and of a
      receiver ([ReceiverLink]), as type classes with their laws.
    - LinkInstances: Sender and ReceiverLife keep those laws.
    - Client: client.go as state-passing functions over the two interfaces.
    - ClientSetup, ClientLife: the theorems about [setupChannels], and about
      [connect], the supervisor, [Stop], [Drain] and the recoveries.
    - ClientRun: the goroutines of client.go -- supervisor, channel watchers,
      Start, Stop, Drain -- as programs of atomic actions, in any
      interleaving; ClientAlone: run by itself a program is the function of
      Client.v; ClientLogic: how a program is checked once for all
      interleavings; ClientRunLife: the theorems about them. A goroutine that
      calls a receiver waits; the receiver answers when and what it likes.
    - System: ClientRun with the receivers of ReceiverTags behind its calls,
      every part interleaved with every other.
    - Builders: the two builder.go, and the sequences of calls a host makes.

    A record of configuration stands for the immutable part of a struct
    ([SenderCfg], [RecvCfg], [RouteCfg], [LifeCfg], [Config]), a record of
    state for the mutable part ([SState], [DState], [Sys], [CState]). An
    atomic or mutex-protected field is a field; a channel is its buffer or
    the cycle it belongs to; log messages, metrics, spans and AMQP calls are
    events of a log inside the state, oldest first.

    ** What is shown

    - Deliveries: [handleDelivery] does exactly what an abstract verdict says
      and settles, counts and dispatches each delivery once
      ([handleDelivery_verdict], [handleDelivery_counts_once]); the unsettled
      count is exact under every use of the settlers ([unsettled_counts],
      [handleDelivery_unsettled]); stale tags are refused ([Valid_stale]) and
      outside code settles nothing else ([outside_code_is_confined]).
    - Tags: a settler is good exactly until a Stop ends a cycle
      ([tag_good_until_a_stop]); a Stop that returned nil has retired every
      tag its loop handed out ([stopped_cycle_tags_refused]); after a Drain
      and a zero count there was none left to retire
      ([drained_and_settled_loses_nothing]). The machine's settlers are the
      handler's ([handler_is_a_stamp_and_settles]).
    - Lifecycle: in every interleaving a drain is final up to one stated race
      ([drain_is_final], [start_slips_past_drain]), a nil Stop has waited for
      the loop ([stop_waits]), a nil Drain has had its backlog handled
      ([drain_hands_over_backlog]), the epoch counts the Stops
      ([epoch_counts_stops]), and a drain is bounded by its deadline
      ([drain_bounded]).
    - Publishing: each event is one accounted attempt
      ([OnEvent_accounting]) carrying the event ([OnEvent_message]) in a
      message AMQP can type ([OnEvent_well_typed]);
      mandatory messages fail exactly when returned
      ([OnEvent_mandatory_outcome], and under concurrency
      [returns_correlated]); no pending entry and no return watcher leaks
      ([OnEvent_pending], [setChannel_watchers]), and a sender is connected
      exactly when its channel was given and confirms were agreed
      ([setChannel_spec]).
    - Connection: [connect_outcome] and [connect_terminates] say what a
      (re)connect does; [setupChannels_all_or_nothing] that it leaves no half
      set up connection; [Stop_outcome] what every Stop leaves, when only
      the supervisor runs beside it;
      [notifications_alternate_interleaved] and
      [stopped_client_holds_no_sender] that in every interleaving the host is
      told the truth and a stopped client keeps no sender connected, whatever
      the receivers do; [drained_client_never_consumes] that a drain outlives
      reconnects.
    - System: its runs project to runs of the goroutines ([erase_run]) and of
      each receiver ([receiver_run]), so the theorems about those hold in it;
      and after the client's Drain every receiver refuses to start, and one
      with no Start half-way never consumes again
      ([drained_system_never_consumes]).
    - Matching and encoding: [match_broker], [match_shortest],
      [resolveMapping_first_match], [resolveTopicPart1_first_match],
      [capConsumerTag_cut], [capConsumerTag_utf8], [fields_roundtrip],
      [DefaultReconnectBackoff_bounds], [DeclareTopology_outcome],
      and the two [Build]s, also after any sequence of calls
      ([sender_built_from_calls], [receiver_built_from_calls]).
    - Where the code does not do what its comments promise, a concrete run
      shows it: [start_slips_past_drain], [concurrent_starts_orphan_a_loop],
      [recovery_rollback_disconnects_sender], [recovery_outlives_stop],
      [stale_recovery_defeats_drain], [abandoned_stop_leaves_a_good_tag],
      [stop_before_start_disables_stop],
      [return_lost_when_channel_replaced], [returns_channel_can_wedge].

    ** Bounds

    [connect]'s loop has no bound in the code for a first connection, so the
    model takes fuel and a result [NoFuel]; for a repair with a limit, fuel
    limit + 1 is enough ([connect_terminates]). [watchConnAndReconnect] and
    the channel watchers, which run as long as the client, take the number of
    repairs they see; their theorems hold for every number. [call] in
    LinkInstances runs one receiver call alone; nine steps are the longest
    call. The step relations need no fuel. Unsigned and signed 64-bit
    counters wrap ([wrap_u64], [wrap_i64]).

    ** Not modelled

    Attributes of trace spans and log records, creation of metric
    instruments, conversion of durations to seconds, and the internals of the
    libraries. In ClientRun and System a sender's [SetChannel] is one action
    (its own interleavings with publishers are in SenderReturns); in Client,
    what other goroutines do between two lock regions is a parameter
    ([others], [supervisor]) or an answer of the environment (cancellation,
    draining). A deliveries channel ends behind its backlog when the consumer
    is withdrawn and loses it when the AMQP channel dies, as the comments of
    [Drain] say of the library. The returns buffer of Sender has no capacity
    (SenderReturns has its 32 slots), and [release] is one step, although a
    reader of the count may come between its two atomic operations. In System
    a declaration is over at once -- it touches nothing another goroutine
    reads -- and the death of a receiver's channel is a step of its own, which
    may come at any time, whatever the client's connection does.
    The package comments (doc.go) are prose.

    ** Next

    Real senders in System, with publishers that run while their channel is
    replaced; which channels are open through every interleaving of
    recoveries and reconnects; the channel watchers' accounting; baggage
    links between a delivery's trace and its handling. *)

From stdpp Require Export base tactics option gmap strings list relations.
From Stdlib Require Export ZArith Lia Ascii.

#[global] Open Scope string_scope.
#[global] Open Scope list_scope.
#[global] Open Scope nat_scope.

(** ** Notations *)

Declare Scope rmq_scope.
Delimit Scope rmq_scope with rmq.

(** A field update is an instance of [RecSet f], one per mutable field, so
    that Go's [s.f = v] reads [s <| f := v |>]. *)
Class RecSet {R T : Type} (f : R -> T) := { rec_set : T -> R -> R }.
#[global] Hint Mode RecSet - - ! : typeclass_instances.
Notation "s <| f := v |>" := (rec_set (f := f) v s)
  (at level 12, f at level 9, v at level 99, left associativity,
   format "s  <| f  :=  v |>") : rmq_scope.
#[global] Open Scope rmq_scope.

(** ** Hint databases and tactics *)

Create HintDb rmq discriminated.
Create Rewrite HintDb rmq_simp.

(** [split_and_destruct]: break the [let]s and [match]es a handler leaves in
    the goal, remembering each scrutinee. *)
Ltac cases :=
  repeat match goal with
         | |- context [match ?x with _ => _ end] => destruct x eqn:?; simpl in *
         | H : context [match ?x with _ => _ end] |- _ => destruct x eqn:?; simpl in *
         end.

(** Break the [match]es of one hypothesis, dropping the branches it rules out. *)
Ltac split_in H :=
  repeat match type of H with context [match ?x with _ => _ end] => destruct x eqn:? end;
  try discriminate H.

(** Rewrite with the registered equations, then try the registered lemmas. *)
Ltac rmq := repeat (autorewrite with rmq_simp in * || simplify_eq/= || case_decide || case_bool_decide);
            try done; eauto with rmq.

(** ** Lists *)

(** The first [Some] a loop body yields: the shape of a Go loop that returns
    from inside its body. *)
Fixpoint first_some {A B : Type} (f : A -> option B) (l : list A) : option B :=
  match l with
  | [] => None
  | x :: l' => match f x with Some y => Some y | None => first_some f l' end
  end.

Lemma first_some_Some {A B} (f : A -> option B) l y :
  first_some f l = Some y <->
  exists l1 x l2, l = l1 ++ x :: l2 /\ f x = Some y /\ Forall (fun z => f z = None) l1.
Proof.
  split.
  - induction l as [|a l IH]; simpl; [done|].
    destruct (f a) eqn:Ha; intros Hf; simplify_eq.
    + exists [], a, l. eauto.
    + destruct (IH Hf) as (l1 & x & l2 & -> & ? & ?).
      exists (a :: l1), x, l2. eauto.
  - intros (l1 & x & l2 & -> & Hx & Hl1).
    induction Hl1 as [|z l1 Hz _ IH]; simpl; [by rewrite Hx|by rewrite Hz].
Qed.

Lemma first_some_None {A B} (f : A -> option B) l :
  first_some f l = None <-> Forall (fun z => f z = None) l.
Proof.
  induction l as [|a l IH]; simpl; [done|].
  rewrite Forall_cons. destruct (f a); naive_solver.
Qed.

(** The prefixes of an interval split at one of its elements. *)
Lemma seq_app_cons n l1 x l2 :
  seq 0 n = l1 ++ x :: l2 -> l1 = seq 0 x /\ x < n.
Proof.
  intros H.
  assert (x = length l1 /\ length l1 < n) as [-> Hlt].
  { assert (Hl : seq 0 n !! length l1 = Some x).
    { rewrite H. by apply list_lookup_middle. }
    apply lookup_seq in Hl. lia. }
  split; [|done].
  apply (f_equal (take (length l1))) in H.
  rewrite take_app_length, take_seq, Nat.min_l in H by lia. done.
Qed.

(** ** Stateful code

    A handler is a function from the state it starts in to its result and the
    state it leaves. *)
Definition M (S A : Type) : Type := S -> A * S.

#[export] Instance M_ret S : MRet (M S) := fun A a s => (a, s).
#[export] Instance M_bind S : MBind (M S) := fun A B f m s => let '(a, s') := m s in f a s'.

Definition gets {S A} (f : S -> A) : M S A := fun s => (f s, s).
Definition modify {S} (f : S -> S) : M S unit := fun s => (tt, f s).

(** [when b m]: run [m] if [b]. *)
Definition when {S} (b : bool) (m : M S unit) : M S unit := if b then m else mret tt.

(** A range loop whose body never leaves it early. *)
Fixpoint for_each {S A} (l : list A) (body : A -> M S unit) : M S unit :=
  match l with
  | [] => mret tt
  | x :: l' => body x ;; for_each l' body
  end.

Lemma M_bind_run {S A B} (m : M S A) (f : A -> M S B) s :
  (m ≫= f) s = let '(a, s') := m s in f a s'.
Proof. done. Qed.

(** Execute the sequencing of a handler applied to a state. *)
Ltac run_M := rewrite ?M_bind_run; unfold mret, M_ret, gets, modify, when, rec_set; simpl.

(** A handler that keeps an invariant of the state, compositionally. *)
Definition preserves {S A} (I : S -> Prop) (m : M S A) : Prop := forall s, I s -> I (m s).2.

Lemma preserves_ret {S A} (I : S -> Prop) (a : A) : preserves I (mret a).
Proof. by intros s Hs. Qed.
Lemma preserves_bind {S A B} (I : S -> Prop) (m : M S A) (f : A -> M S B) :
  preserves I m -> (forall a, preserves I (f a)) -> preserves I (m ≫= f).
Proof.
  intros Hm Hf s Hs. rewrite M_bind_run. specialize (Hm s Hs). destruct (m s) as [a s']. by apply Hf.
Qed.
Lemma preserves_gets {S A} (I : S -> Prop) (f : S -> A) : preserves I (gets f).
Proof. by intros s Hs. Qed.
Lemma preserves_when {S} (I : S -> Prop) b (m : M S unit) : preserves I m -> preserves I (when b m).
Proof. intros Hm. by destruct b; [|intros s Hs]. Qed.
Lemma preserves_for_each {S A} (I : S -> Prop) (l : list A) (body : A -> M S unit) :
  (forall x, preserves I (body x)) -> preserves I (for_each l body).
Proof. intros Hb. induction l; simpl; [apply preserves_ret|by apply preserves_bind]. Qed.
#[export] Hint Resolve preserves_ret preserves_gets preserves_when preserves_for_each : rmq.

(** Push [preserves] through the sequencing and the branches of a handler. *)
Ltac preserve :=
  repeat match goal with
         | |- preserves _ (mbind _ _) => apply preserves_bind; [|intros ?]
         | |- preserves _ (when _ _) => apply preserves_when
         | |- preserves _ (if ?b then _ else _) => destruct b
         | |- preserves _ (match ?x with _ => _ end) => destruct x
         end; eauto with rmq.

(** ** Reachability *)

(** An inductive invariant of a step relation holds in every reachable state. *)
Lemma rtc_invariant {A} (R : A -> A -> Prop) (P : A -> Prop) x y :
  (forall a b, P a -> R a b -> P b) -> P x -> rtc R x y -> P y.
Proof. intros HR HP. induction 1; eauto. Qed.

(** The same along a labelled relation, with a property of the run. *)
Inductive run {L S : Type} (step : S -> L -> S -> Prop) : S -> list L -> S -> Prop :=
| run_nil s : run step s [] s
| run_cons s l s' ls s'' : step s l s' -> run step s' ls s'' -> run step s (l :: ls) s''.
#[export] Hint Constructors run : rmq.

Lemma run_app {L S} (step : S -> L -> S -> Prop) s1 l1 s2 l2 s3 :
  run step s1 l1 s2 -> run step s2 l2 s3 -> run step s1 (l1 ++ l2) s3.
Proof. induction 1; simpl; eauto with rmq. Qed.

Lemma run_invariant {L S} (step : S -> L -> S -> Prop) (P : S -> Prop) s ls s' :
  (forall a l b, P a -> step a l b -> P b) -> P s -> run step s ls s' -> P s'.
Proof. intros HR HP Hrun. induction Hrun; eauto. Qed.

(** Running an executable step function, and its step relation. *)
Fixpoint exec_all {L S} (exec : S -> L -> option S) (s : S) (ls : list L) : option S :=
  match ls with
  | [] => Some s
  | l :: ls' => s' ← exec s l; exec_all exec s' ls'
  end.

Lemma exec_all_run {L S} (exec : S -> L -> option S) (step : S -> L -> S -> Prop) s ls s' :
  (forall a l b, exec a l = Some b -> step a l b) ->
  exec_all exec s ls = Some s' -> run step s ls s'.
Proof.
  intros Hstep. revert s. induction ls as [|l ls IH]; intros s; simpl; [intros [= ->]; constructor|].
  intros (s1 & Hs & Hrun)%bind_Some. econstructor; eauto.
Qed.
