(* ===== verification/GoLib.v ===== *)
(** * The parts of Go's standard library the module uses

    Go strings are byte strings: a [string] here is a list of 8-bit
    characters. Machine integers are [Z] with their wrap-around written out.
    [strings.Split], [strings.Join], [strings.ReplaceAll] (at the one-byte
    separators the code passes), [errors.Join], [errors.Is],
    [unicode/utf8.RuneStart] and the rune syntax of UTF-8. *)

From S2P Require Import Prelude.

(** ** Machine integers *)

Definition wrap_u64 (z : Z) : Z := (z `mod` 2 ^ 64)%Z.

(** Two's complement: the representative in [-2^63, 2^63). *)
Definition wrap_i64 (z : Z) : Z := ((z + 2 ^ 63) `mod` 2 ^ 64 - 2 ^ 63)%Z.

Lemma wrap_u64_small z : (0 <= z < 2 ^ 64)%Z -> wrap_u64 z = z.
Proof. intros. by apply Z.mod_small. Qed.

Lemma wrap_i64_small z : (- 2 ^ 63 <= z < 2 ^ 63)%Z -> wrap_i64 z = z.
Proof. intros. unfold wrap_i64. rewrite Z.mod_small; lia. Qed.

(** ** Errors

    [Errorf] and [Errorfw] keep the format and its arguments apart (the [%w]
    operand last); [New] is a package-level sentinel, compared by identity;
    [LibErr] is whatever a library returned. A Go [error] is an
    [option error], [None] for nil. *)
Inductive error :=
| New (text : string)
| Errorf (format : string) (args : list string)
| Errorfw (format : string) (args : list string) (w : error)
| Joined (errs : list error)
| LibErr (what : string).

(** [errors.Join] drops nils and is nil when nothing is left. *)
Definition errors_Join (errs : list (option error)) : option error :=
  match omap id errs with
  | [] => None
  | es => Some (Joined es)
  end.

(** [errors.Is(err, target)] for a sentinel target. *)
Fixpoint errors_Is (err : error) (text : string) : bool :=
  match err with
  | New t => bool_decide (t = text)
  | Errorf _ _ => false
  | Errorfw _ _ w => errors_Is w text
  | Joined es => existsb (fun e => errors_Is e text) es
  | LibErr _ => false
  end.

Lemma errors_Join_None errs :
  errors_Join errs = None <-> Forall (fun e => e = None) errs.
Proof.
  unfold errors_Join. induction errs as [|[e|] errs IH]; simpl.
  - by rewrite Forall_nil.
  - rewrite Forall_cons. naive_solver.
  - rewrite Forall_cons. naive_solver.
Qed.

(** ** strings *)

(** [strings.Split(s, sep)] for a one-byte [sep]. *)
Fixpoint Split (sep : ascii) (s : string) : list string :=
  match s with
  | EmptyString => [""]
  | String c s' =>
      if decide (c = sep) then "" :: Split sep s'
      else match Split sep s' with
           | [] => [String c ""]
           | w :: ws => String c w :: ws
           end
  end.

(** [strings.Join(elems, sep)]. *)
Fixpoint Join (sep : string) (l : list string) : string :=
  match l with
  | [] => ""
  | [w] => w
  | w :: ws => w +:+ sep +:+ Join sep ws
  end.

(** [strings.ReplaceAll(s, old, new)] for one-byte [old] and [new]. *)
Fixpoint ReplaceAll (old new : ascii) (s : string) : string :=
  match s with
  | EmptyString => ""
  | String c s' => String (if decide (c = old) then new else c) (ReplaceAll old new s')
  end.

(** Whether byte [c] occurs in [s]. *)
Fixpoint has_byte (c : ascii) (s : string) : bool :=
  match s with
  | EmptyString => false
  | String d s' => bool_decide (d = c) || has_byte c s'
  end.

Lemma string_app_nil_r s : s +:+ "" = s.
Proof. induction s; unfold String.append in *; simpl; congruence. Qed.

Lemma string_app_cons c s t : String c s +:+ t = String c (s +:+ t).
Proof. done. Qed.
#[export] Hint Rewrite string_app_nil_r string_app_cons : rmq_simp.

Lemma Split_not_nil sep s : Split sep s <> [].
Proof. destruct s; simpl; [done|]. case_decide; [done|]. by destruct (Split sep s). Qed.

Lemma Join_cons sep w ws : ws <> [] -> Join sep (w :: ws) = w +:+ sep +:+ Join sep ws.
Proof. by destruct ws. Qed.

Lemma Join_String sep c w ws :
  Join sep (String c w :: ws) = String c (Join sep (w :: ws)).
Proof. by destruct ws. Qed.

Lemma Join_Split sep s : Join (String sep "") (Split sep s) = s.
Proof.
  induction s as [|c s IH]; simpl; [done|].
  case_decide; subst.
  - rewrite Join_cons by apply Split_not_nil. by rewrite IH.
  - pose proof (Split_not_nil sep s). destruct (Split sep s) as [|w ws]; [done|].
    by rewrite Join_String, IH.
Qed.

Lemma Split_sep_free sep s : Forall (fun w => has_byte sep w = false) (Split sep s).
Proof.
  induction s as [|c s IH]; simpl; [by repeat constructor|].
  case_decide; [by constructor|].
  destruct (Split sep s) as [|w ws]; inversion IH; subst; constructor; simpl;
    rewrite ?bool_decide_eq_false_2; auto.
Qed.

Lemma Split_free sep s : has_byte sep s = false -> Split sep s = [s].
Proof.
  induction s as [|c s IH]; simpl; [done|].
  intros [Hc Hs]%orb_false_iff. apply bool_decide_eq_false in Hc.
  rewrite decide_False by done. by rewrite IH.
Qed.

Lemma Split_app_sep sep w s :
  has_byte sep w = false -> Split sep (w +:+ String sep "" +:+ s) = w :: Split sep s.
Proof.
  induction w as [|c w IH]; simpl.
  - intros _. change (Split sep (String sep s) = "" :: Split sep s). simpl.
    by rewrite decide_True.
  - intros [Hc Hw]%orb_false_iff. apply bool_decide_eq_false in Hc.
    rewrite decide_False by done. by rewrite IH.
Qed.

Lemma Split_Join sep ws :
  ws <> [] -> Forall (fun w => has_byte sep w = false) ws ->
  Split sep (Join (String sep "") ws) = ws.
Proof.
  intros Hne Hws. induction Hws as [|w ws Hw Hws IH]; [done|].
  destruct ws as [|w' ws'].
  - simpl. by apply Split_free.
  - rewrite Join_cons, Split_app_sep by done. by rewrite IH.
Qed.

Lemma ReplaceAll_length old new s : String.length (ReplaceAll old new s) = String.length s.
Proof. induction s; simpl; congruence. Qed.

Lemma ReplaceAll_has_byte old new s : old <> new -> has_byte old (ReplaceAll old new s) = false.
Proof.
  intros Hne. induction s as [|c s IH]; simpl; [done|]. rewrite IH.
  case_decide; rewrite bool_decide_eq_false_2; [done|congruence|done|congruence].
Qed.

Lemma ReplaceAll_back old new s :
  has_byte new s = false -> ReplaceAll new old (ReplaceAll old new s) = s.
Proof.
  induction s as [|c s IH]; simpl; [done|].
  intros [Hc Hs]%orb_false_iff. apply bool_decide_eq_false in Hc. rewrite IH by done.
  repeat case_decide; congruence.
Qed.

Lemma ReplaceAll_free old new s : has_byte old s = false -> ReplaceAll old new s = s.
Proof.
  induction s as [|c s IH]; simpl; [done|].
  intros [Hc Hs]%orb_false_iff. apply bool_decide_eq_false in Hc.
  rewrite IH, decide_False by done. done.
Qed.

(** Replacing is splitting at [old] and joining with [new]. *)
Lemma ReplaceAll_Split old new s :
  ReplaceAll old new s = Join (String new "") (Split old s).
Proof.
  induction s as [|c s IH]; simpl; [done|].
  pose proof (Split_not_nil old s). case_decide; subst.
  - rewrite Join_cons by done. by rewrite IH.
  - destruct (Split old s) as [|w ws]; [done|]. by rewrite Join_String, IH.
Qed.

(** ** Byte access *)

(** [s[0] == c], false on the empty string: every use is behind a length test. *)
Definition first_byte_is (c : ascii) (s : string) : bool :=
  match s with EmptyString => false | String d _ => bool_decide (d = c) end.

(** [s[1:]] (only used where [len s > 1]). *)
Definition tail1 (s : string) : string :=
  match s with EmptyString => "" | String _ s' => s' end.

(** A [map[string]string]; a nil-able one is an [option]. *)
Abbreviation Fields := (gmap string string).

(** [if m == nil { m = make(...) }; m[k] = v]. *)
Definition map_set (k v : string) (m : option Fields) : option Fields :=
  Some (<[k := v]> (default ∅ m)).

(** [for k, v := range src { dst[k] = v }]. *)
Definition merge_into (src dst : Fields) : Fields := map_fold (fun k v m => <[k := v]> m) dst src.

Lemma merge_into_lookup src dst k :
  merge_into src dst !! k = match src !! k with Some v => Some v | None => dst !! k end.
Proof.
  unfold merge_into.
  apply (map_fold_weak_ind (fun r (m : Fields) =>
           r !! k = match m !! k with Some v => Some v | None => dst !! k end)).
  - by rewrite lookup_empty.
  - intros i x m r _ IH. rewrite !lookup_insert. by case_decide.
Qed.

(** ** Payloads and wire formats (the vinculum-wire package) *)

(** A payload, as far as the type switches look at it. *)
Inductive any :=
| AnyNil
| AnyBytes (b : string)
| AnyString (s : string)
| AnyOther (what : string).

(** wire.WireFormat: what the code calls of it. *)
Record WireFormat := {
  wf_Name : string;
  Serialize : any -> string + error;
  Deserialize : string -> any + error;
}.

(** A wire format of byte strings, for examples. *)
Definition sample_wire : WireFormat := {|
  wf_Name := "bytes";
  Serialize := fun v => match v with
                         | AnyBytes b | AnyString b => inl b
                         | _ => inr (New "not bytes")
                         end;
  Deserialize := fun b => inl (AnyBytes b);
|}.
