(* ===== verification/Config.v ===== *)
(** * Client configuration: src/client/config.go

    The [Config] record and [DefaultReconnectBackoff], with durations in
    nanoseconds as Go's int64 [time.Duration]. *)

From S2P Require Import Prelude GoLib.

Definition Second : Z := 1000000000.

(** Callbacks, loggers and providers appear as their presence: what a
    callback does is the host's code. *)
Record Config := {
  ClientName : string;
  Brokers : list string;
  Username : string;
  Password : string;
  Heartbeat : Z;
  ConnectionTimeout : Z;
  TLSClientConfig : bool;
  OnConnect : bool;
  OnDisconnect : bool;
  ReconnectBackoff : option (Z -> Z);
  MaxReconnectAttempts : Z;
  MeterProvider : bool;
}.

(** The loop [for i := 0; i < attempt; i++], with its iterations left. *)
Fixpoint backoff_loop (n : nat) (d : Z) : Z :=
  match n with
  | 0 => d
  | S n' =>
      let d := wrap_i64 (d * 2) in
      if (60 * Second <? d)%Z then (60 * Second)%Z else backoff_loop n' d
  end.

Definition DefaultReconnectBackoff (attempt : Z) : Z :=
  backoff_loop (Z.to_nat attempt) Second.

Lemma backoff_loop_spec n d :
  (0 < d <= 60 * Second)%Z -> backoff_loop n d = (Z.min (d * 2 ^ Z.of_nat n) (60 * Second))%Z.
Proof.
  unfold Second. revert d. induction n as [|n IH]; intros d Hd; cbn [backoff_loop]; [lia|].
  rewrite wrap_i64_small by lia.
  rewrite Nat2Z.inj_succ, Z.pow_succ_r by lia.
  assert (1 <= 2 ^ Z.of_nat n)%Z by (pose proof (Z.pow_pos_nonneg 2 (Z.of_nat n)); lia).
  destruct (Z.ltb_spec (60 * Second) (d * 2))%Z as [Hlt|Hge]; unfold Second in *.
  - rewrite Z.min_r; nia.
  - rewrite IH by lia. f_equal. lia.
Qed.

Lemma backoff_closed attempt :
  DefaultReconnectBackoff attempt = (Z.min (2 ^ Z.max 0 attempt) 60 * Second)%Z.
Proof.
  unfold DefaultReconnectBackoff. rewrite backoff_loop_spec by (unfold Second; lia).
  replace (Z.of_nat (Z.to_nat attempt)) with (Z.max 0 attempt) by lia.
  unfold Second. lia.
Qed.

(** ** Properties *)

(** C33: DefaultReconnectBackoff is min(2^attempt, 60) seconds: between 1 s
    and 60 s, monotone, 60 s from attempt 6, with no int64 overflow. *)
Theorem DefaultReconnectBackoff_bounds a b :
  (a <= b)%Z ->
  DefaultReconnectBackoff a = (Z.min (2 ^ Z.max 0 a) 60 * Second)%Z /\
  (Second <= DefaultReconnectBackoff a)%Z /\
  (DefaultReconnectBackoff a <= DefaultReconnectBackoff b)%Z /\
  (DefaultReconnectBackoff b <= 60 * Second)%Z /\
  (6 <= b -> DefaultReconnectBackoff b = 60 * Second)%Z.
Proof.
  intros Hab. rewrite !backoff_closed.
  pose proof (Z.pow_pos_nonneg 2 (Z.max 0 a)).
  assert (2 ^ Z.max 0 a <= 2 ^ Z.max 0 b)%Z by (apply Z.pow_le_mono_r; lia).
  unfold Second. split_and!; [lia..|].
  intros Hb. assert (2 ^ 6 <= 2 ^ Z.max 0 b)%Z by (apply Z.pow_le_mono_r; lia). lia.
Qed.

Lemma DefaultReconnectBackoff_bounds_witness :
  (2 <= 9)%Z /\ DefaultReconnectBackoff 2 = (4 * Second)%Z /\ DefaultReconnectBackoff 9 = (60 * Second)%Z.
Proof.
  split; [lia|]. split; [reflexivity|].
  apply (DefaultReconnectBackoff_bounds 2 9); lia.
Defined.
