(* ===== verification/Carrier.v ===== *)
(** * The AMQP-headers carrier: src/carrier/carrier.go, and the header tables

    Tables are shared mutable objects: [New] wraps the caller's table and
    [Set] writes through it, which is how the sender's trace injection reaches
    the message it publishes. They live in a heap here, and a table-typed
    variable is a reference, [None] for nil. The file also has the two
    conversions between tables and vinculum fields, sender.go's
    [fieldsToHeaders] and receiver.go's [headersToFields]. *)

From S2P Require Import Prelude GoLib.
From stdpp Require Import pretty.

(** ** Tables *)

(** A value of an [amqp.Table]. [VOther] is a value of any other type, as
    [fmt.Sprintf("%v")] prints it. *)
Inductive TableVal :=
| VNil
| VBool (b : bool)
| VInt (z : Z)
| VStr (s : string)
| VBytes (s : string)
| VOther (printed : string).

#[export] Instance TableVal_eq_dec : EqDecision TableVal.
Proof. solve_decision. Defined.

(** The type switch shared by [Carrier.Get] and [headersToFields]: strings and
    byte slices as they are, anything else through [%v]. *)
Definition val_string (v : TableVal) : string :=
  match v with
  | VStr s => s
  | VBytes s => s
  | VNil => "<nil>"
  | VBool true => "true"
  | VBool false => "false"
  | VInt z => pretty z
  | VOther p => p
  end.

Abbreviation Table := (gmap string TableVal).
Abbreviation Heap := (gmap nat Table).

(** ** The code *)

Record Carrier := { table : nat }.

Definition New_ (t : option nat) (h : Heap) : Carrier * Heap :=
  match t with
  | None => let l := fresh (dom h) in ({| table := l |}, <[l := ∅]> h)
  | Some l => ({| table := l |}, h)
  end.

Definition contents (l : nat) (h : Heap) : Table := default ∅ (h !! l).

Definition Get (c : Carrier) (key : string) (h : Heap) : string :=
  match contents (table c) h !! key with
  | None => ""
  | Some v => val_string v
  end.

Definition Set_ (c : Carrier) (key value : string) (h : Heap) : Heap :=
  <[table c := <[key := VStr value]> (contents (table c) h)]> h.

(** In the map's iteration order, which Go leaves unspecified. *)
Definition Keys (c : Carrier) (h : Heap) : list string :=
  (map_to_list (contents (table c) h)).*1.

Definition Table_ (c : Carrier) : nat := table c.

(** What a propagator's [Inject] does with the carrier: some [Set]s, in order. *)
Definition Inject (kvs : list (string * string)) (c : Carrier) (h : Heap) : Heap :=
  foldl (fun h '(k, v) => Set_ c k v h) h kvs.

(** ** Fields and headers *)

Definition traceHeaders : gset string := {["traceparent"; "tracestate"; "baggage"]}.

(** nil for an empty or nil map; otherwise a new table. *)
Definition fieldsToHeaders (fields : option Fields) : option Table :=
  if decide (size (default ∅ fields) = 0) then None
  else Some (map_fold (fun k v t => <[k := VStr v]> t) ∅ (default ∅ fields)).

Definition headersToFields (h : option Table) : option Fields :=
  if decide (size (default ∅ h) = 0) then None
  else
    let m := map_fold (fun k v (m : Fields) =>
                 if decide (k ∈ traceHeaders) then m else <[k := val_string v]> m)
               ∅ (default ∅ h) in
    if decide (size m = 0) then None else Some m.

(** ** Carrier lemmas *)

Lemma contents_Set c k v h l :
  contents l (Set_ c k v h) =
  if decide (l = table c) then <[k := VStr v]> (contents l h) else contents l h.
Proof.
  unfold Set_, contents. case_decide as Hl; subst.
  - by rewrite lookup_insert_eq.
  - by rewrite lookup_insert_ne.
Qed.

Lemma contents_Inject kvs c h l :
  contents l (Inject kvs c h) =
  if decide (l = table c)
  then foldl (fun t '(k, v) => <[k := VStr v]> t) (contents l h) kvs else contents l h.
Proof.
  unfold Inject. revert h. induction kvs as [|[k v] kvs IH]; intros h; simpl.
  - by case_decide.
  - rewrite IH, contents_Set. by case_decide.
Qed.

Lemma foldl_insert_lookup kvs (t : Table) k :
  foldl (fun t '(k, v) => <[k := VStr v]> t) t kvs !! k =
  match (list_to_map (reverse kvs) : Fields) !! k with
  | Some v => Some (VStr v)
  | None => t !! k
  end.
Proof.
  induction kvs as [|[k' v] kvs IH] using rev_ind; [done|].
  rewrite foldl_app, reverse_app. simpl. rewrite !lookup_insert, IH. by case_decide.
Qed.

(** ** Conversion lemmas *)

Lemma size_zero {A} (m : gmap string A) : size m = 0 <-> m = ∅.
Proof. split; [apply map_size_empty_inv|intros ->; apply map_size_empty]. Qed.

Lemma fieldsToHeaders_lookup fields k :
  default ∅ (fieldsToHeaders fields) !! k = VStr <$> default ∅ fields !! k.
Proof.
  unfold fieldsToHeaders. case_decide as Hs; simpl.
  { apply size_zero in Hs as ->. by rewrite !lookup_empty. }
  clear Hs. apply (map_fold_weak_ind (fun t m => t !! k = VStr <$> (m : Fields) !! k)).
  - done.
  - intros i x m t _ IH. rewrite !lookup_insert. by case_decide.
Qed.

Lemma headersToFields_lookup h k :
  default ∅ (headersToFields h) !! k =
  if decide (k ∈ traceHeaders) then None else val_string <$> default ∅ h !! k.
Proof.
  unfold headersToFields. case_decide as Hs; simpl.
  { apply size_zero in Hs as ->. rewrite !lookup_empty. by case_decide. }
  set (m := map_fold _ _ _).
  assert (Hm : m !! k = if decide (k ∈ traceHeaders) then None else val_string <$> default ∅ h !! k).
  { subst m. clear Hs.
    apply (map_fold_weak_ind (fun m (t : Table) =>
      m !! k = if decide (k ∈ traceHeaders) then None else val_string <$> t !! k)).
    - rewrite !lookup_empty. by case_decide.
    - intros i x t r _ IH. rewrite (lookup_insert t).
      destruct (decide (i ∈ traceHeaders)), (decide (i = k)) as [->|?];
        rewrite ?lookup_insert_eq, ?lookup_insert_ne by done;
        destruct (decide (k ∈ traceHeaders)); try done. }
  rewrite <- Hm. clearbody m. clear Hm.
  case_decide as Hz; [|done]. by apply size_zero in Hz as ->.
Qed.

(** ** Properties *)

(** Trace injection is visible in the table the publisher sends, and only there. *)
Theorem inject_through_alias kvs l h k :
  let '(c, h') := New_ (Some l) h in
  (contents (Table_ c) (Inject kvs c h') !! k =
     match (list_to_map (reverse kvs) : Fields) !! k with
     | Some v => Some (VStr v)
     | None => contents l h !! k
     end) /\
  (forall l', l' <> l -> contents l' (Inject kvs c h') = contents l' h).
Proof.
  simpl. split.
  - rewrite contents_Inject, decide_True by done. apply foldl_insert_lookup.
  - intros l' Hl. by rewrite contents_Inject, decide_False.
Qed.

(** A carrier over a nil table allocates: what is injected reaches no table the
    caller had. *)
Theorem inject_nil_is_lost kvs h l :
  l ∈ dom h ->
  let '(c, h') := New_ None h in contents l (Inject kvs c h') = contents l h.
Proof.
  intros Hl. simpl. rewrite contents_Inject. unfold contents.
  assert (l <> fresh (dom h)) as Hne.
  { intros ->. by apply (is_fresh (dom h)). }
  rewrite decide_False by done. by rewrite lookup_insert_ne.
Qed.

Theorem Get_Set c k v k' h :
  Get c k' (Set_ c k v h) = (if decide (k' = k) then v else Get c k' h) /\
  (k' ∈ Keys c (Set_ c k v h) <-> k' = k \/ k' ∈ Keys c h).
Proof.
  unfold Get, Keys. rewrite contents_Set, decide_True by done. split.
  - destruct (decide (k' = k)) as [->|]; [by rewrite lookup_insert_eq|by rewrite lookup_insert_ne].
  - rewrite !list_elem_of_fmap. setoid_rewrite elem_of_map_to_list'.
    split.
    + intros ([a x] & -> & Hx). simpl in *. apply lookup_insert_Some in Hx.
      destruct Hx as [[-> _]|[_ Hx]]; [auto|right]. by exists (a, x).
    + intros [-> |([a x] & -> & Hx)]; simpl in *.
      * exists (k, VStr v). by rewrite lookup_insert_eq.
      * destruct (decide (a = k)) as [->|].
        -- exists (k, VStr v). by rewrite lookup_insert_eq.
        -- exists (a, x). by rewrite lookup_insert_ne.
Qed.

(** C32: What a field map becomes after a broker hop: it comes back whole, less the
    reserved trace keys, whatever the propagator injected. *)
Theorem fields_roundtrip fields kvs l h k :
  (forall k v, (k, v) ∈ kvs -> k ∈ traceHeaders) ->
  contents l h = default ∅ (fieldsToHeaders fields) ->
  let '(c, h') := New_ (Some l) h in
  default ∅ (headersToFields (Some (contents l (Inject kvs c h')))) !! k =
  if decide (k ∈ traceHeaders) then None else default ∅ fields !! k.
Proof.
  intros Hkvs Hl. simpl. rewrite headersToFields_lookup. case_decide as Hk; [done|]. simpl.
  rewrite contents_Inject, decide_True, foldl_insert_lookup by done.
  destruct ((list_to_map (reverse kvs) : Fields) !! k) as [v|] eqn:Hv.
  - apply elem_of_list_to_map_2 in Hv. rewrite elem_of_reverse in Hv. by apply Hkvs in Hv.
  - rewrite Hl, fieldsToHeaders_lookup. by destruct (default ∅ fields !! k).
Qed.

Lemma fields_roundtrip_witness :
  (forall k v, (k, v) ∈ [("traceparent", "00-1"); ("baggage", "a=b")] -> k ∈ traceHeaders) /\
  default ∅ (headersToFields (Some (contents 0
     (Inject [("traceparent", "00-1"); ("baggage", "a=b")] {| table := 0 |}
        {[0 := {["device" := VStr "d1"; "baggage" := VStr "x"]}]})))) !! "device" = Some "d1".
Proof.
  assert (H : forall k v, (k, v) ∈ [("traceparent", "00-1"); ("baggage", "a=b")] -> k ∈ traceHeaders).
  { intros k v Hin. unfold traceHeaders. set_solver. }
  split; [exact H|].
  exact (fields_roundtrip (Some {["device" := "d1"; "baggage" := "x"]})
           [("traceparent", "00-1"); ("baggage", "a=b")] 0
           {[0 := {["device" := VStr "d1"; "baggage" := VStr "x"]}]} "device" H eq_refl).
Defined.
