(* ===== verification/Metrics.v ===== *)
(** * Metrics: metrics.go of the client, sender and receiver packages

    Recording is an effect: each method yields the data points it hands to
    the OpenTelemetry instruments, in order. A nil metrics pointer is [None]
    and records nothing. Durations stay in nanoseconds ([d.Seconds()] is not
    modelled), gauges are 0 or 1. *)

From S2P Require Import Prelude GoLib.

Definition KeyValue : Type := string * string.

Inductive Point :=
| CounterAdd (instrument : string) (incr : Z) (attrs : list KeyValue)
| HistogramRecord (instrument : string) (d : Z) (attrs : list KeyValue)
| GaugeRecord (instrument : string) (v : Z) (attrs : list KeyValue).

#[export] Instance Point_eq_dec : EqDecision Point.
Proof. solve_decision. Defined.

Definition attrs_of (p : Point) : list KeyValue :=
  match p with CounterAdd _ _ a | HistogramRecord _ _ a | GaugeRecord _ _ a => a end.

(** ** src/client/metrics.go *)

Module Client.
Record ClientMetrics := { baseAttrs : list KeyValue }.

Definition NewClientMetrics (clientName : string) (meter : bool) : option ClientMetrics :=
  if meter then Some {| baseAttrs := [("messaging.system", "rabbitmq");
                                      ("vinculum.client.name", clientName)] |}
  else None.

Definition SetConnected (m : option ClientMetrics) (up : bool) : list Point :=
  match m with
  | None => []
  | Some m => [GaugeRecord "rabbitmq.client.connected" (if up then 1 else 0)%Z (baseAttrs m)]
  end.

Definition IncrReconnections (m : option ClientMetrics) : list Point :=
  match m with
  | None => []
  | Some m => [CounterAdd "rabbitmq.client.reconnections" 1 (baseAttrs m)]
  end.

Definition IncrChannelReopens (m : option ClientMetrics) : list Point :=
  match m with
  | None => []
  | Some m => [CounterAdd "rabbitmq.client.channel_reopens" 1 (baseAttrs m)]
  end.
End Client.

(** ** src/sender/metrics.go *)

Module Sender.
Record SenderMetrics := { clientTag : KeyValue }.

Definition NewSenderMetrics (clientName : string) (meter : bool) : option SenderMetrics :=
  if meter then Some {| clientTag := ("vinculum.client.name", clientName) |} else None.

Definition sendAttrs (m : SenderMetrics) (exchange errType : string) (extra : list KeyValue)
    : list KeyValue :=
  [("messaging.system", "rabbitmq");
   ("messaging.destination.name", exchange);
   ("messaging.operation.name", "send");
   clientTag m]
  ++ (if decide (errType <> "") then [("error.type", errType)] else [])
  ++ extra.

Definition RecordPublish (m : option SenderMetrics) (exchange : string) (d : Z) (errType : string)
    : list Point :=
  match m with
  | None => []
  | Some m =>
      [CounterAdd "messaging.client.sent.messages" 1 (sendAttrs m exchange errType []);
       HistogramRecord "messaging.client.operation.duration" d
         (sendAttrs m exchange errType [("messaging.operation.type", "publish")])]
  end.

Definition RecordReturned (m : option SenderMetrics) (exchange : string) : list Point :=
  match m with
  | None => []
  | Some m =>
      [CounterAdd "rabbitmq.publisher.returned" 1
         [("messaging.system", "rabbitmq"); ("messaging.destination.name", exchange); clientTag m]]
  end.
End Sender.

(** ** src/receiver/metrics.go *)

Module Receiver.
Record ReceiverMetrics := { clientTag : KeyValue }.

Definition NewReceiverMetrics (clientName : string) (meter : bool) : option ReceiverMetrics :=
  if meter then Some {| clientTag := ("vinculum.client.name", clientName) |} else None.

Definition queueAttrs (m : ReceiverMetrics) (queue opName errType : string) : list KeyValue :=
  [("messaging.system", "rabbitmq");
   ("messaging.destination.name", queue);
   ("messaging.operation.name", opName);
   clientTag m]
  ++ (if decide (errType <> "") then [("error.type", errType)] else []).

Definition RecordReceived (m : option ReceiverMetrics) (queue errType : string) : list Point :=
  match m with
  | None => []
  | Some m => [CounterAdd "messaging.client.consumed.messages" 1 (queueAttrs m queue "receive" errType)]
  end.

Definition RecordProcessDuration (m : option ReceiverMetrics) (queue : string) (d : Z) (errType : string)
    : list Point :=
  match m with
  | None => []
  | Some m => [HistogramRecord "messaging.process.duration" d (queueAttrs m queue "process" errType)]
  end.

Definition RecordNack (m : option ReceiverMetrics) (queue : string) : list Point :=
  match m with
  | None => []
  | Some m =>
      [CounterAdd "rabbitmq.consumer.nacks" 1
         [("messaging.system", "rabbitmq"); ("messaging.destination.name", queue); clientTag m]]
  end.
End Receiver.

(** ** Reading the recorded points *)

(** How many times a counter was incremented. *)
Definition counted (instrument : string) (ps : list Point) : Z :=
  foldr (fun p acc => match p with
                      | CounterAdd i n _ => if decide (i = instrument) then n + acc else acc
                      | _ => acc
                      end)%Z 0%Z ps.

(** The error type a point carries, [""] when it has none. *)
Definition error_type (p : Point) : string :=
  default "" (snd <$> list_find (fun kv => kv.1 = "error.type") (attrs_of p) ≫= fun kv => Some kv.2).

Lemma counted_app i ps qs : counted i (ps ++ qs) = (counted i ps + counted i qs)%Z.
Proof.
  induction ps as [|p ps IH]; simpl; [done|].
  destruct p; [case_decide|..]; rewrite IH; lia.
Qed.
#[export] Hint Rewrite counted_app : rmq_simp.

(** ** Properties *)

(** Every publish record carries its error type on both points, and no error
    type on success. *)
Theorem RecordPublish_attrs clientName meter exchange d errType :
  let ps := Sender.RecordPublish (Sender.NewSenderMetrics clientName meter) exchange d errType in
  counted "messaging.client.sent.messages" ps = (if meter then 1 else 0)%Z /\
  Forall (fun p => error_type p = errType /\
                   ("messaging.destination.name", exchange) ∈ attrs_of p /\
                   ("vinculum.client.name", clientName) ∈ attrs_of p) ps.
Proof.
  destruct meter; simpl; [|done]. split; [done|].
  unfold error_type. repeat apply Forall_cons_2; [..|constructor]; simpl.
  all: unfold Sender.sendAttrs; split; [|simpl; set_solver].
  all: destruct (decide (errType <> "")) as [|He]; simpl; try done.
  all: by apply dec_stable in He.
Qed.
