(* ===== verification/ConsumerTag.v ===== *)
(** * Consumer tags: capConsumerTag of src/receiver/receiver.go

    A consumer tag travels as an AMQP shortstr, whose length is one byte. The
    receiver truncates the tag it registers under at 255 bytes, backing up to
    a rune boundary. This file defines the truncation and the tag [Start]
    registers, the rune syntax of UTF-8 (Go's utf8.Valid), and shows that a
    well-formed tag stays well formed and loses at most three bytes more than
    it has to. *)

From S2P Require Import Prelude GoLib.

(** ** unicode/utf8 *)

Definition byte_val (b : ascii) : N := N_of_ascii b.

(** [b&0xC0 != 0x80]. *)
Definition RuneStart (b : ascii) : bool := negb (N.land (byte_val b) 0xC0 =? 0x80)%N.

Definition in_range (lo hi : N) (b : ascii) : bool :=
  ((lo <=? byte_val b) && (byte_val b <=? hi))%N.

Definition cont : ascii -> bool := in_range 0x80 0xBF.

(** The byte sequences of one rune: the accept ranges of [utf8.Valid], with no
    overlong form and no surrogate half. *)
Definition valid_rune (r : list ascii) : bool :=
  match r with
  | [b] => in_range 0 0x7F b
  | [b; c] => in_range 0xC2 0xDF b && cont c
  | [b; c; d] =>
      cont d &&
      ((in_range 0xE0 0xE0 b && in_range 0xA0 0xBF c) ||
       (in_range 0xE1 0xEC b && cont c) ||
       (in_range 0xED 0xED b && in_range 0x80 0x9F c) ||
       (in_range 0xEE 0xEF b && cont c))
  | [b; c; d; e] =>
      cont d && cont e &&
      ((in_range 0xF0 0xF0 b && in_range 0x90 0xBF c) ||
       (in_range 0xF1 0xF3 b && cont c) ||
       (in_range 0xF4 0xF4 b && in_range 0x80 0x8F c))
  | _ => false
  end.

Inductive utf8 : list ascii -> Prop :=
| utf8_nil : utf8 []
| utf8_rune r s : valid_rune r = true -> utf8 s -> utf8 (r ++ s).

Definition valid_string (s : string) : Prop := utf8 (String.list_ascii_of_string s).

(** ** The code *)

(** [s[i]], which panics out of range; every use below is in range. *)
Definition byte_at (s : string) (i : nat) : ascii := default "000"%char (String.get i s).

Definition maxTag : nat := 255.

(** [for cut > 0 && !utf8.RuneStart(tag[cut]) { cut-- }]. *)
Fixpoint cut_back (tag : string) (cut : nat) : nat :=
  match cut with
  | 0 => 0
  | S c => if RuneStart (byte_at tag cut) then cut else cut_back tag c
  end.

Definition capConsumerTag (tag : string) : string :=
  if String.length tag <=? maxTag then tag
  else String.substring 0 (cut_back tag maxTag) tag.

(** The tag [Start] passes to [Consume]. *)
Definition startTag (consumerTag clientName queue : string) : string :=
  capConsumerTag
    (if decide (consumerTag = "")
     then "vinculum-" +:+ clientName +:+ "-" +:+ queue
     else consumerTag).

(** ** Strings as byte lists *)

Abbreviation bytes := String.list_ascii_of_string.

Lemma length_bytes s : length (bytes s) = String.length s.
Proof. induction s; simpl; congruence. Qed.

Lemma bytes_get s i : String.get i s = bytes s !! i.
Proof. revert i. induction s as [|c s IH]; intros [|i]; simpl; auto. Qed.

Lemma bytes_substring n s : bytes (String.substring 0 n s) = take n (bytes s).
Proof. revert n. induction s as [|c s IH]; intros [|n]; simpl; by rewrite ?IH. Qed.

Lemma bytes_inj s t : bytes s = bytes t -> s = t.
Proof. revert t. induction s as [|c s IH]; intros [|d t]; simpl; intros; simplify_eq; f_equal; auto. Qed.

Lemma byte_at_lookup s i : i < String.length s -> bytes s !! i = Some (byte_at s i).
Proof.
  intros Hi. unfold byte_at. rewrite bytes_get.
  rewrite <- length_bytes in Hi. apply lookup_lt_is_Some in Hi as [b ->]. done.
Qed.

(** ** Runes *)

Lemma cont_not_start b : cont b = true -> RuneStart b = false.
Proof. destruct b as [[] [] [] [] [] [] [] []]; vm_compute; congruence. Qed.

Lemma in_range_cont lo hi b : (0x80 <= lo)%N -> (hi <= 0xBF)%N -> in_range lo hi b = true -> cont b = true.
Proof.
  unfold cont, in_range. intros ?? [?%N.leb_le ?%N.leb_le]%andb_true_iff.
  apply andb_true_iff. rewrite !N.leb_le. lia.
Qed.

Lemma ascii_start b : in_range 0 0x7F b = true -> RuneStart b = true.
Proof. destruct b as [[] [] [] [] [] [] [] []]; vm_compute; congruence. Qed.

Lemma lead_start lo hi b : (0xC0 <= lo)%N -> in_range lo hi b = true -> RuneStart b = true.
Proof.
  intros Hlo [Hb%N.leb_le _]%andb_true_iff.
  assert (0xC0 <= byte_val b)%N as H by lia. apply N.leb_le in H. revert H. clear.
  destruct b as [[] [] [] [] [] [] [] []]; vm_compute; congruence.
Qed.

Ltac rune_cases :=
  repeat match goal with
         | H : _ && _ = true |- _ => apply andb_true_iff in H as [? ?]
         | H : _ || _ = true |- _ => apply orb_true_iff in H as [H|H]
         end.

(** A rune is a start byte and at most three continuation bytes. *)
Lemma valid_rune_shape r :
  valid_rune r = true ->
  exists b cs, r = b :: cs /\ RuneStart b = true /\ Forall (fun c => RuneStart c = false) cs /\
    length cs <= 3.
Proof.
  intros Hr. destruct r as [|b cs]; [done|]. exists b, cs. split; [done|].
  destruct cs as [|c [|d [|e [|? ?]]]]; simpl in Hr; [| | | |done]; rune_cases;
    (split; [first [by apply ascii_start | eapply lead_start; [|done]; lia]|]);
    (split; [|simpl; lia]); repeat constructor;
    apply cont_not_start; first [done | eapply in_range_cont; [| |done]; lia].
Qed.

Lemma utf8_take l i b : utf8 l -> l !! i = Some b -> RuneStart b = true -> utf8 (take i l).
Proof.
  intros Hl. revert i. induction Hl as [|r s Hr Hs IH]; intros i Hi Hb.
  { by rewrite take_nil; constructor. }
  destruct (valid_rune_shape _ Hr) as (b0 & cs & -> & Hb0 & Hcs & _).
  destruct i as [|i]; [constructor|]. simpl in Hi.
  destruct (decide (i < length cs)) as [Hlt|Hge].
  - rewrite lookup_app_l in Hi by done. rewrite Forall_lookup in Hcs.
    by rewrite (Hcs _ _ Hi) in Hb.
  - rewrite lookup_app_r in Hi by lia. rewrite take_app_ge by (simpl; lia).
    constructor; [done|]. apply IH; [|done]. by replace (S i - _) with (i - length cs) by (simpl; lia).
Qed.

(** Any four consecutive bytes contain the start of a rune. *)
Lemma utf8_start_near l i :
  utf8 l -> i + 3 < length l ->
  exists j b, i <= j <= i + 3 /\ l !! j = Some b /\ RuneStart b = true.
Proof.
  intros Hl. revert i. induction Hl as [|r s Hr Hs IH]; intros i Hi; [simpl in Hi; lia|].
  destruct (valid_rune_shape _ Hr) as (b0 & cs & -> & Hb0 & _ & Hlen).
  rewrite length_app in Hi. simpl in Hi.
  destruct (decide (i = 0)) as [->|Hi0]; [exists 0, b0; split; [lia|done]|].
  destruct (decide (S (length cs) <= i)) as [Hge|Hlt].
  - destruct (IH (i - S (length cs))) as (j & b & Hj & Hlk & Hb); [lia|].
    exists (S (length cs) + j), b. split; [lia|]. split; [|done].
    rewrite lookup_app_r by (simpl; lia). rewrite <- Hlk. f_equal. simpl. lia.
  - inversion Hs as [|r' s' Hr' Hs' Heq]; subst; [simpl in Hi; lia|].
    destruct (valid_rune_shape _ Hr') as (b1 & cs' & -> & Hb1 & _ & _).
    exists (S (length cs)), b1. split; [lia|]. split; [|done].
    rewrite lookup_app_r by done. simpl. by rewrite Nat.sub_diag.
Qed.

(** ** The loop *)

Lemma cut_back_le tag n : cut_back tag n <= n.
Proof. induction n as [|n IH]; [done|]. cbn. destruct (RuneStart _); lia. Qed.

Lemma cut_back_stops tag n : cut_back tag n = 0 \/ RuneStart (byte_at tag (cut_back tag n)) = true.
Proof. induction n as [|n IH]; [auto|]. cbn. destruct (RuneStart (byte_at tag (S n))) eqn:?; auto. Qed.

Lemma cut_back_ge tag n j : j <= n -> RuneStart (byte_at tag j) = true -> j <= cut_back tag n.
Proof.
  intros Hj Hb. induction n as [|n IH]; [cbn; lia|]. cbn.
  destruct (RuneStart (byte_at tag (S n))) eqn:Hs; [lia|].
  apply IH. destruct (decide (j = S n)) as [->|]; [congruence|lia].
Qed.

Lemma capConsumerTag_length tag :
  maxTag < String.length tag -> String.length (capConsumerTag tag) = cut_back tag maxTag.
Proof.
  intros Hlt. unfold capConsumerTag. rewrite (proj2 (Nat.leb_gt _ _)) by done.
  rewrite <- length_bytes, bytes_substring, length_take, length_bytes.
  pose proof (cut_back_le tag maxTag). lia.
Qed.

(** ** Properties *)

(** C30: [capConsumerTag] leaves a tag that fits alone, and cuts any other where the
    last of its characters starts that does not end within 255 bytes: the
    byte after the cut starts a rune and no later one, up to the 256th, does.
    Only a tag with no such byte, which no well-formed one is, loses
    everything. *)
Theorem capConsumerTag_cut tag :
  let t := capConsumerTag tag in
  String.length t <= 255 /\ bytes t = take (String.length t) (bytes tag) /\
  (String.length tag <= 255 -> t = tag) /\
  (255 < String.length tag ->
   (t = "" \/ RuneStart (byte_at tag (String.length t)) = true) /\
   forall i, String.length t < i <= 255 -> RuneStart (byte_at tag i) = false).
Proof.
  cbv zeta. destruct (decide (maxTag < String.length tag)) as [Hlt|Hge].
  - pose proof (cut_back_le tag maxTag) as Hle. rewrite capConsumerTag_length by done.
    split_and!; [done| |unfold maxTag in Hlt; lia|].
    + unfold capConsumerTag. rewrite (proj2 (Nat.leb_gt _ _)) by done. apply bytes_substring.
    + intros _. split.
      * destruct (cut_back_stops tag maxTag) as [H0|]; [left|by right].
        apply bytes_inj. unfold capConsumerTag. by rewrite (proj2 (Nat.leb_gt _ _)), bytes_substring, H0 by done.
      * intros i [Hi Hi']. destruct (RuneStart (byte_at tag i)) eqn:Hs; [|done].
        pose proof (cut_back_ge tag maxTag i Hi' Hs). lia.
  - unfold maxTag in *. assert (capConsumerTag tag = tag) as ->.
    { unfold capConsumerTag. by rewrite (proj2 (Nat.leb_le _ _)) by (unfold maxTag; lia). }
    split_and!; [lia|by rewrite take_ge by (by rewrite length_bytes)|done|lia].
Qed.

(** C31: capConsumerTag keeps valid UTF-8 valid and loses at most three bytes
    more than it must. *)
Theorem capConsumerTag_utf8 tag :
  valid_string tag ->
  valid_string (capConsumerTag tag) /\
  (255 < String.length tag -> 252 <= String.length (capConsumerTag tag)).
Proof.
  intros Hv. destruct (decide (maxTag < String.length tag)) as [Hlt|Hge].
  - split.
    + unfold capConsumerTag. rewrite (proj2 (Nat.leb_gt _ _)) by done.
      unfold valid_string. rewrite bytes_substring.
      destruct (cut_back_stops tag maxTag) as [-> |Hs]; [constructor|].
      eapply utf8_take; [done| |done]. apply byte_at_lookup.
      pose proof (cut_back_le tag maxTag). lia.
    + intros _. rewrite capConsumerTag_length by done.
      destruct (utf8_start_near (bytes tag) 252) as (j & b & Hj & Hlk & Hb); [done| |].
      { rewrite length_bytes. unfold maxTag in *. lia. }
      rewrite byte_at_lookup in Hlk by (unfold maxTag in *; lia). simplify_eq.
      etrans; [apply Hj|]. apply cut_back_ge; [unfold maxTag; lia|done].
  - unfold maxTag in *. split; [|lia]. unfold capConsumerTag.
    by rewrite (proj2 (Nat.leb_le _ _)) by (unfold maxTag; lia).
Qed.

(** Two hundred two-byte characters. *)
Definition long_tag : string := String.string_of_list_ascii (concat (replicate 200 ["195"%char; "169"%char])).

Lemma capConsumerTag_utf8_witness :
  valid_string (capConsumerTag long_tag) /\ 252 <= String.length (capConsumerTag long_tag).
Proof.
  assert (valid_string long_tag) as Hv.
  { unfold valid_string, long_tag. rewrite String.list_ascii_of_string_of_list_ascii.
    generalize 200. intros n. induction n as [|n IH]; simpl; [constructor|].
    apply (utf8_rune ["195"%char; "169"%char]); [vm_compute; reflexivity|exact IH]. }
  destruct (capConsumerTag_utf8 long_tag Hv) as [H1 H2]. split; [exact H1|].
  apply H2. vm_compute. repeat constructor.
Defined.

Theorem capConsumerTag_empty tag :
  capConsumerTag tag = "" <->
  tag = "" \/ (255 < String.length tag /\
               forall i, 1 <= i <= 255 -> RuneStart (byte_at tag i) = false).
Proof.
  assert (Hnil : forall s, s = "" <-> String.length s = 0) by (intros []; simpl; split; done).
  destruct (decide (maxTag < String.length tag)) as [Hlt|Hge].
  - rewrite Hnil, capConsumerTag_length by done. split.
    + intros Hz. right. split; [done|]. intros i Hi.
      destruct (RuneStart (byte_at tag i)) eqn:Hs; [|done].
      pose proof (cut_back_ge tag maxTag i) as H. unfold maxTag in *.
      rewrite Hz in H. specialize (H ltac:(lia) Hs). lia.
    + intros [-> |[_ Hno]]; [unfold maxTag in Hlt; simpl in Hlt; lia|].
      destruct (cut_back_stops tag maxTag) as [|Hs]; [done|].
      destruct (decide (cut_back tag maxTag = 0)) as [|Hne]; [done|].
      pose proof (cut_back_le tag maxTag). rewrite Hno in Hs; [done|]. unfold maxTag in *. lia.
  - unfold maxTag in *. unfold capConsumerTag. rewrite (proj2 (Nat.leb_le _ _)) by (unfold maxTag; lia).
    split; [auto|]. intros [|[? _]]; [done|lia].
Qed.

(** The generated tag is never empty, whatever the client and queue names. *)
Theorem startTag_default_named clientName queue :
  exists rest, startTag "" clientName queue = "vinculum" +:+ rest.
Proof.
  unfold startTag. rewrite decide_True by done.
  set (tag := "vinculum-" +:+ _).
  assert (Hpre : exists s, tag = "vinculum-" +:+ s) by (subst tag; eauto).
  destruct Hpre as [s Hs]. clearbody tag. subst tag.
  destruct (decide (maxTag < String.length ("vinculum-" +:+ s))) as [Hlt|Hge].
  - unfold capConsumerTag. rewrite (proj2 (Nat.leb_gt _ _)) by done.
    assert (8 <= cut_back ("vinculum-" +:+ s) maxTag) as [n ->]%Nat.le_sum.
    { apply cut_back_ge; [unfold maxTag; lia|done]. }
    eexists. cbn. reflexivity.
  - unfold capConsumerTag. rewrite (proj2 (Nat.leb_le _ _)) by lia. by eexists.
Qed.
