(* ===== verification/Subscription.v ===== *)
(** * Routing-key patterns: src/receiver/subscription.go

    [match] (here [match_], a keyword in Gallina) filters the deliveries of a
    queue by AMQP topic pattern and extracts the named captures;
    [stripFieldNames] turns such a pattern into the plain binding pattern a
    broker understands. The file defines both as the code has them, the
    broker's own matching relation for topic exchanges, and the reading of a
    match as an assignment of words to pattern tokens; it shows that the code
    decides the broker's relation and returns the captures of the shortest
    assignment. *)

From S2P Require Import Prelude GoLib.

(** ** The code *)

Inductive DefaultRoutingKeyTransform :=
| DefaultRKDotToSlash
| DefaultRKVerbatim
| DefaultRKError
| DefaultRKIgnore
| DefaultRKOther (n : Z). (* any other value of the Go int type *)

#[export] Instance DefaultRoutingKeyTransform_eq_dec : EqDecision DefaultRoutingKeyTransform.
Proof. solve_decision. Defined.

(** [splitDot]: nil for the empty string. *)
Definition splitDot (s : string) : list string :=
  if decide (s = "") then [] else Split "." s.

(** [p == "#" || (len(p) > 1 && p[0] == '#')], and the same with ['*']. *)
Definition wildcard (c : ascii) (p : string) : bool :=
  bool_decide (p = String c "") || ((1 <? String.length p) && first_byte_is c p).

(** The capture of a wildcard token: [if len(p) > 1 { fields[p[1:]] = v }]. *)
Definition capture (p v : string) (fields : option Fields) : option Fields :=
  if 1 <? String.length p then map_set (tail1 p) v fields else fields.

(** [None] is the code's [(nil, false)]; [Some fields] its [(fields, true)],
    with [fields] possibly nil. *)
Fixpoint matchTokens (pattern key : list string) : option (option Fields) :=
  match pattern with
  | [] => if decide (length key = 0) then Some None else None
  | p :: rest =>
      if wildcard "#" p then
        first_some (fun i =>
            fields ← matchTokens rest (drop i key);
            Some (capture p (Join "." (take i key)) fields))
          (seq 0 (S (length key)))
      else
        match key with
        | [] => None
        | k :: key' =>
            if wildcard "*" p then
              fields ← matchTokens rest key';
              Some (capture p k fields)
            else if decide (p = k) then matchTokens rest key'
            else None
        end
  end.

Definition match_ (pattern routingKey : string) : option (option Fields) :=
  matchTokens (splitDot pattern) (splitDot routingKey).

(** One iteration of the loop of [stripFieldNames]. *)
Definition stripToken (t : string) : string :=
  match t with
  | String c (String _ _) => if decide (c = "*"%char \/ c = "#"%char) then String c "" else t
  | _ => t
  end.

Definition stripFieldNames (pattern : string) : string :=
  Join "." (map stripToken (splitDot pattern)).

Definition dotToSlash (routingKey : string) : string := ReplaceAll "." "/" routingKey.

(** ** The broker's relation

    AMQP 0-9-1 topic exchanges: a star stands for exactly one word, a hash
    for zero or more, anything else for itself. *)
Inductive amqp_match : list string -> list string -> Prop :=
| am_nil : amqp_match [] []
| am_star w ps ws : amqp_match ps ws -> amqp_match ("*" :: ps) (w :: ws)
| am_hash_zero ps ws : amqp_match ps ws -> amqp_match ("#" :: ps) ws
| am_hash_more w ps ws : amqp_match ("#" :: ps) ws -> amqp_match ("#" :: ps) (w :: ws)
| am_word w ps ws : w <> "*" -> w <> "#" -> amqp_match ps ws -> amqp_match (w :: ps) (w :: ws).
#[export] Hint Constructors amqp_match : rmq.

(** ** Assignments of words to tokens *)

(** The words a token may stand for. *)
Definition token_covers (p : string) (seg : list string) : Prop :=
  if wildcard "#" p then True
  else if wildcard "*" p then length seg = 1
  else seg = [p].

Definition assignment (pattern : list string) (segs : list (list string)) (key : list string) : Prop :=
  Forall2 token_covers pattern segs /\ mjoin segs = key.

(** The named captures of an assignment, in pattern order. *)
Fixpoint captures (pattern : list string) (segs : list (list string)) : list (string * string) :=
  match pattern, segs with
  | p :: ps, seg :: segs' =>
      (if (wildcard "#" p || wildcard "*" p) && (1 <? String.length p)
       then [(tail1 p, Join "." seg)] else []) ++ captures ps segs'
  | _, _ => []
  end.

(** The map of a capture list: nil when it is empty, and otherwise the first
    pair of a name wins. *)
Definition capture_map (l : list (string * string)) : option Fields :=
  match l with [] => None | _ => Some (list_to_map l) end.

(** Lexicographic order on the lengths of the segments. *)
Fixpoint lens_le (a b : list (list string)) : Prop :=
  match a, b with
  | x :: a', y :: b' => length x < length y \/ (length x = length y /\ lens_le a' b')
  | _, _ => True
  end.

(** The non-greedy assignment: no other one gives an earlier token fewer words. *)
Definition shortest (pattern : list string) (segs : list (list string)) (key : list string) : Prop :=
  assignment pattern segs key /\ forall segs', assignment pattern segs' key -> lens_le segs segs'.

(** ** Tokens *)

Lemma wildcard_spec c p :
  wildcard c p = true <-> exists s, p = String c s.
Proof.
  unfold wildcard. destruct p as [|d s]; simpl; split.
  - done.
  - by intros [s ?].
  - intros [->%bool_decide_eq_true|[_ ->%bool_decide_eq_true]%andb_true_iff]%orb_true_iff.
    + by eexists.
    + by eexists.
  - intros [s' [= -> ->]]. destruct s'; simpl; [by rewrite bool_decide_eq_true_2|].
    apply orb_true_iff. right. by apply bool_decide_eq_true_2.
Qed.

Lemma wildcard_hash_star p : wildcard "#" p = true -> wildcard "*" p = false.
Proof.
  intros [s ->]%wildcard_spec. destruct (wildcard "*" _) eqn:H; [|done].
  by apply wildcard_spec in H as [? ?].
Qed.

Lemma capture_map_cons p seg l :
  (wildcard "#" p || wildcard "*" p) = true ->
  capture p (Join "." seg) (capture_map l)
  = capture_map ((if (wildcard "#" p || wildcard "*" p) && (1 <? String.length p)
                  then [(tail1 p, Join "." seg)] else []) ++ l).
Proof.
  intros ->. unfold capture, map_set. destruct (1 <? String.length p); simpl; [|done].
  by destruct l.
Qed.

(** ** The matcher computes the shortest assignment *)

Lemma assignment_nil segs key : assignment [] segs key <-> segs = [] /\ key = [].
Proof.
  unfold assignment. split.
  - intros [->%Forall2_nil_inv_l <-]. done.
  - intros [-> ->]. split; [constructor|done].
Qed.

Lemma assignment_cons p ps segs key :
  assignment (p :: ps) segs key <->
  exists seg segs' key', segs = seg :: segs' /\ key = seg ++ key' /\
    token_covers p seg /\ assignment ps segs' key'.
Proof.
  unfold assignment. split.
  - intros [(seg & segs' & ? & ? & ->)%Forall2_cons_inv_l <-].
    exists seg, segs', (mjoin segs'). eauto.
  - intros (seg & segs' & key' & -> & -> & Hc & Hf & <-). split; [by constructor|done].
Qed.

Lemma shortest_nil : shortest [] [] [].
Proof. split; [by apply assignment_nil|]. by intros segs' _. Qed.

(** A token with one possible segment contributes nothing to the order. *)
Lemma shortest_cons_fixed p ps seg segs key :
  token_covers p seg -> (forall seg', token_covers p seg' -> length seg' = length seg) ->
  shortest ps segs key -> shortest (p :: ps) (seg :: segs) (seg ++ key).
Proof.
  intros Hc Hfix [Ha Hmin]. split.
  { apply assignment_cons. eauto 10. }
  intros segs' (seg' & segs'' & key' & -> & Heq & Hc' & Ha')%assignment_cons.
  simpl. right. split; [by rewrite (Hfix seg')|].
  apply Hmin. apply app_inj_1 in Heq as [-> ->]; [done|]. by rewrite (Hfix seg').
Qed.

(** A multi-word token takes the first length that lets the rest match. *)
Lemma shortest_cons_hash p ps i segs key :
  wildcard "#" p = true -> i <= length key -> shortest ps segs (drop i key) ->
  (forall j, j < i -> forall segs', ~ assignment ps segs' (drop j key)) ->
  shortest (p :: ps) (take i key :: segs) key.
Proof.
  intros Hp Hi [Ha Hmin] Hless. split.
  { apply assignment_cons. exists (take i key), segs, (drop i key).
    unfold token_covers. rewrite Hp. by rewrite take_drop. }
  intros segs' (seg' & segs'' & key' & -> & -> & _ & Ha')%assignment_cons.
  simpl. rewrite length_take, Nat.min_l by done.
  assert (i <= length seg') as Hle.
  { destruct (decide (length seg' < i)) as [Hlt|]; [|lia].
    destruct (Hless _ Hlt segs''). by rewrite drop_app_length. }
  destruct (decide (i = length seg')) as [->|]; [|lia].
  right. split; [done|]. apply Hmin. by rewrite drop_app_length.
Qed.

Lemma matchTokens_None pattern key :
  matchTokens pattern key = None -> forall segs, ~ assignment pattern segs key.
Proof.
  revert key. induction pattern as [|p rest IH]; intros key; cbn [matchTokens].
  { case_decide as Hk; [done|]. intros _ segs [_ ->]%assignment_nil. by destruct Hk. }
  destruct (wildcard "#" p) eqn:Hh.
  - intros Hnone%first_some_None segs (seg & segs' & key' & _ & -> & _ & Ha)%assignment_cons.
    rewrite Forall_forall in Hnone.
    specialize (Hnone (length seg)). rewrite drop_app_length in Hnone.
    destruct (matchTokens rest key') eqn:Hm.
    + discriminate Hnone. apply elem_of_seq. rewrite length_app. lia.
    + by eapply IH.
  - intros Hnone segs (seg & segs' & key' & -> & -> & Hc & Ha)%assignment_cons.
    unfold token_covers in Hc. rewrite Hh in Hc.
    destruct (wildcard "*" p) eqn:Hs.
    + destruct seg as [|k [|??]]; [done| |done]. cbn in Hnone.
      destruct (matchTokens rest key') eqn:Hm; [done|]. by eapply IH.
    + subst seg. cbn in Hnone. rewrite decide_True in Hnone by done. by eapply IH.
Qed.

Lemma matchTokens_Some pattern key fields :
  matchTokens pattern key = Some fields ->
  exists segs, shortest pattern segs key /\ fields = capture_map (captures pattern segs).
Proof.
  revert key fields. induction pattern as [|p rest IH]; intros key fields; cbn [matchTokens].
  { case_decide as Hk; [|done]. intros [= <-]. apply length_zero_iff_nil in Hk as ->.
    exists []. split; [apply shortest_nil|done]. }
  destruct (wildcard "#" p) eqn:Hh.
  - intros (l1 & i & l2 & Hseq & Hi & Hpre)%first_some_Some.
    apply seq_app_cons in Hseq as [-> Hlt].
    apply bind_Some in Hi as (f' & Hm & [= <-]).
    destruct (IH _ _ Hm) as (segs & Hshort & ->).
    exists (take i key :: segs). split.
    + apply shortest_cons_hash; [done|lia|done|].
      intros j Hj segs' Ha. rewrite Forall_forall in Hpre.
      specialize (Hpre j). rewrite elem_of_seq in Hpre.
      destruct (matchTokens rest (drop j key)) eqn:Hmj.
      * discriminate Hpre. lia.
      * by eapply matchTokens_None.
    + rewrite capture_map_cons by (by rewrite Hh). done.
  - destruct key as [|k key']; [done|].
    destruct (wildcard "*" p) eqn:Hs.
    + intros (f' & Hm & [= <-])%bind_Some. destruct (IH _ _ Hm) as (segs & Hshort & ->).
      exists ([k] :: segs). split.
      * apply (shortest_cons_fixed p rest [k]); [| |done];
          unfold token_covers; rewrite Hh, Hs; done.
      * change k with (Join "." [k]) at 1. rewrite capture_map_cons by (by rewrite Hs, orb_true_r).
        done.
    + case_decide as Hpk; [|done]. subst p. intros Hm.
      destruct (IH _ _ Hm) as (segs & Hshort & ->).
      exists ([k] :: segs). split.
      * apply (shortest_cons_fixed k rest [k]); [| |done];
          unfold token_covers; rewrite Hh, Hs; [done|by intros ? ->].
      * cbn. by rewrite Hh, Hs.
Qed.

(** ** Stripping and the broker *)

Lemma stripToken_hash t : wildcard "#" t = true -> stripToken t = "#".
Proof.
  intros [s ->]%wildcard_spec. by destruct s.
Qed.

Lemma stripToken_star t : wildcard "*" t = true -> stripToken t = "*".
Proof.
  intros [s ->]%wildcard_spec. by destruct s.
Qed.

Lemma stripToken_word t :
  wildcard "#" t = false -> wildcard "*" t = false -> stripToken t = t /\ t <> "*" /\ t <> "#".
Proof.
  intros Hh Hs. split_and!; [|by intros ->..].
  destruct t as [|c [|d s]]; simpl; [done|done|].
  assert (Hw : forall b, wildcard b (String b (String d s)) = true).
  { intros b. apply wildcard_spec. eauto. }
  rewrite decide_False; [done|]. intros [->| ->].
  - by rewrite Hw in Hs.
  - by rewrite Hw in Hh.
Qed.

Lemma stripToken_idemp t : stripToken (stripToken t) = stripToken t.
Proof.
  destruct (wildcard "#" t) eqn:Hh; [by rewrite (stripToken_hash t)|].
  destruct (wildcard "*" t) eqn:Hs; [by rewrite (stripToken_star t)|].
  destruct (stripToken_word t) as [E _]; [done..|]. by rewrite !E.
Qed.

Lemma stripToken_dot_free t : has_byte "." t = false -> has_byte "." (stripToken t) = false.
Proof.
  destruct (wildcard "#" t) eqn:Hh; [by rewrite (stripToken_hash t)|].
  destruct (wildcard "*" t) eqn:Hs; [by rewrite (stripToken_star t)|].
  by destruct (stripToken_word t) as [-> _].
Qed.

Lemma stripToken_empty t : stripToken t = "" -> t = "".
Proof. destruct t as [|c [|d s]]; simpl; [done..|]. by case_decide. Qed.

Lemma splitDot_join ws :
  ws <> [""] -> Forall (fun w => has_byte "." w = false) ws -> splitDot (Join "." ws) = ws.
Proof.
  intros Hne Hfree. unfold splitDot.
  destruct ws as [|w [|w' ws']]; [done|simpl|].
  - rewrite decide_False by congruence. apply Split_free. by inversion Hfree.
  - rewrite decide_False by (destruct w; done). by apply Split_Join.
Qed.

Lemma join_splitDot s : Join "." (splitDot s) = s.
Proof. unfold splitDot. case_decide; [done|]. apply Join_Split. Qed.

Lemma splitDot_dot_free s : Forall (fun w => has_byte "." w = false) (splitDot s).
Proof. unfold splitDot. case_decide; [constructor|apply Split_sep_free]. Qed.

Lemma splitDot_not_blank s : splitDot s <> [""].
Proof.
  unfold splitDot. case_decide as Hs; [done|].
  intros H. apply Hs. by rewrite <- (Join_Split "." s), H.
Qed.

Lemma splitDot_strip pattern :
  splitDot (stripFieldNames pattern) = map stripToken (splitDot pattern).
Proof.
  unfold stripFieldNames. apply splitDot_join.
  - pose proof (splitDot_not_blank pattern) as Hb. intros H. apply Hb.
    destruct (splitDot pattern) as [|t [|??]]; simpl in H; simplify_eq.
    by f_equal; apply stripToken_empty.
  - apply Forall_map. eapply Forall_impl; [apply splitDot_dot_free|apply stripToken_dot_free].
Qed.

(** What a token covers is read off its stripped form. *)
Lemma token_covers_strip p seg :
  token_covers p seg <->
  if decide (stripToken p = "#") then True
  else if decide (stripToken p = "*") then length seg = 1 else seg = [stripToken p].
Proof.
  unfold token_covers. destruct (wildcard "#" p) eqn:Hh; [by rewrite stripToken_hash|].
  destruct (wildcard "*" p) eqn:Hs; [by rewrite stripToken_star|].
  destruct (stripToken_word p) as (E & ? & ?); [done..|].
  by rewrite E, !decide_False.
Qed.

(** The broker's relation on the stripped tokens is having an assignment. *)
Lemma amqp_match_assignment pattern key :
  amqp_match (map stripToken pattern) key <-> exists segs, assignment pattern segs key.
Proof.
  split.
  - remember (map stripToken pattern) as bare eqn:Hb. intros Hm. revert pattern Hb.
    induction Hm as [|w ps ws _ IH|ps ws _ IH|w ps ws _ IH|w ps ws Hs Hh _ IH];
      intros [|p pattern] [=].
    + exists []. by apply assignment_nil.
    + destruct (IH pattern) as [segs Ha]; [done|]. exists ([w] :: segs).
      apply assignment_cons. exists [w], segs, ws. rewrite token_covers_strip. rmq.
    + destruct (IH pattern) as [segs Ha]; [done|]. exists ([] :: segs).
      apply assignment_cons. exists [], segs, ws. rewrite token_covers_strip. rmq.
    + destruct (IH (p :: pattern)) as [segs Ha]; [simpl; congruence|].
      apply assignment_cons in Ha as (seg & segs' & key' & -> & -> & Hc & Ha).
      exists ((w :: seg) :: segs'). apply assignment_cons. exists (w :: seg), segs', key'.
      rewrite token_covers_strip in *. rmq.
    + destruct (IH pattern) as [segs Ha]; [done|]. exists ([w] :: segs).
      apply assignment_cons. exists [w], segs, ws. rewrite token_covers_strip. rmq.
  - intros [segs Ha]. revert segs key Ha.
    induction pattern as [|p pattern IH]; intros segs key.
    { intros [_ ->]%assignment_nil. constructor. }
    intros (seg & segs' & key' & -> & -> & Hc & Ha)%assignment_cons.
    specialize (IH _ _ Ha). simpl. apply token_covers_strip in Hc.
    destruct (decide (stripToken p = "#")) as [->|].
    { induction seg as [|w seg IHs]; simpl; eauto with rmq. }
    destruct (decide (stripToken p = "*")) as [->|].
    { destruct seg as [|w [|??]]; [done| |done]. simpl. eauto with rmq. }
    subst seg. simpl. eauto with rmq.
Qed.

(** ** Properties *)

(** C20: match decides AMQP topic matching of the stripped binding pattern: a
    routing key matches exactly when a topic exchange bound with
    stripFieldNames of the pattern would route it. *)
Theorem match_broker pattern routingKey :
  is_Some (match_ pattern routingKey) <->
  amqp_match (splitDot (stripFieldNames pattern)) (splitDot routingKey).
Proof.
  rewrite splitDot_strip, amqp_match_assignment. unfold match_.
  destruct (matchTokens _ _) eqn:Hm.
  - apply matchTokens_Some in Hm as (segs & [Ha _] & _). split; eauto.
  - split; [by intros [? ?]|]. intros [segs Ha]. by destruct (matchTokens_None _ _ Hm segs).
Qed.

(** C21: match fails exactly when no assignment of words to tokens exists, and
    otherwise returns the captures of the assignment in which each # is as
    short as possible, left to right. *)
Theorem match_shortest pattern routingKey :
  match match_ pattern routingKey with
  | None => forall segs, ~ assignment (splitDot pattern) segs (splitDot routingKey)
  | Some fields => exists segs, shortest (splitDot pattern) segs (splitDot routingKey) /\
                     fields = capture_map (captures (splitDot pattern) segs)
  end.
Proof.
  unfold match_. destruct (matchTokens _ _) eqn:Hm.
  - by apply matchTokens_Some.
  - by apply matchTokens_None.
Qed.

Theorem stripFieldNames_idemp pattern :
  stripFieldNames (stripFieldNames pattern) = stripFieldNames pattern /\
  splitDot (stripFieldNames pattern) = map stripToken (splitDot pattern).
Proof.
  split; [|apply splitDot_strip].
  unfold stripFieldNames at 1 3. rewrite splitDot_strip, map_map.
  f_equal. apply map_ext, stripToken_idemp.
Qed.

(** The names a pattern captures. *)
Definition capture_names (pattern : list string) : list string :=
  omap (fun p => if (wildcard "#" p || wildcard "*" p) && (1 <? String.length p)
                 then Some (tail1 p) else None) pattern.

Lemma captures_names pattern segs :
  length pattern = length segs -> (captures pattern segs).*1 = capture_names pattern.
Proof.
  revert segs. induction pattern as [|p ps IH]; intros [|seg segs] Hl; simplify_eq/=; [done|].
  rewrite fmap_app, IH by done. by destruct (_ && _).
Qed.

Theorem match_captures pattern routingKey fields :
  match_ pattern routingKey = Some fields ->
  dom (default ∅ fields) = list_to_set (C := gset string) (capture_names (splitDot pattern)) /\
  (fields = None <-> capture_names (splitDot pattern) = []).
Proof.
  intros (segs & [[Hf _] _] & ->)%matchTokens_Some.
  apply Forall2_length in Hf. rewrite <- (captures_names _ _ Hf).
  destruct (captures _ segs) as [|kv l]; simpl; [by rewrite dom_empty_L|].
  rewrite dom_insert_L, dom_list_to_map_L. done.
Qed.
