(* ===== verification/Topic.v ===== *)
(** * Outbound routing: src/sender/topic.go and resolveMapping, contentTypeFor of src/sender/sender.go

    Which exchange and routing key an event goes to. Topic matching is the
    [topicmatch] package of vinculum-bus, a parameter here; a mapping's
    [RoutingKeyFunc] is the host's code, which is handed a map it may write
    to, so it also yields the map as it leaves it. *)

From S2P Require Import Prelude GoLib.

Inductive DefaultTopicTransform :=
| DefaultTopicSlashToDot
| DefaultTopicVerbatim
| DefaultTopicError
| DefaultTopicIgnore
| DefaultTopicOther (n : Z).

#[export] Instance DefaultTopicTransform_eq_dec : EqDecision DefaultTopicTransform.
Proof. solve_decision. Defined.

(** The routing key or an error, and the fields map on return. *)
Definition RoutingKeyFunc : Type :=
  string -> any -> option Fields -> (string + error) * option Fields.

Record TopicMapping := {
  Pattern : string;
  mRoutingKeyFunc : option RoutingKeyFunc;
  mExchange : string;
  mPersistent : option bool;
}.

Definition slashToDot (topic : string) : string := ReplaceAll "/" "." topic.

Definition contentTypeFor (wf : WireFormat) (msg : any) : string :=
  if decide (wf_Name wf = "json") then "application/json"
  else if decide (wf_Name wf = "string") then "text/plain"
  else if decide (wf_Name wf = "bytes") then "application/octet-stream"
  else if decide (wf_Name wf = "auto") then
    match msg with
    | AnyBytes _ => "application/octet-stream"
    | AnyString _ => "text/plain"
    | _ => "application/json"
    end
  else "".

(** The results of [resolveMapping]; [rFields] is the caller's fields map as
    the call leaves it. *)
Record Resolved := {
  rExchange : string;
  rRoutingKey : string;
  rPersistent : bool;
  rDrop : bool;
  rErr : option error;
  rFields : option Fields;
}.

Section resolve.
(** topicmatch.Matches and topicmatch.Extract, of pattern and topic. *)
Context (Matches : string -> string -> bool) (Extract : string -> string -> Fields).
(** The sender's configuration that routing reads. *)
Context (s_exchange : string) (s_persistent : bool) (s_xform : DefaultTopicTransform).

(** The body of the loop for a mapping whose pattern matched. *)
Definition apply_mapping (m : TopicMapping) (topic : string) (msg : any) (fields : option Fields)
    : Resolved :=
  let extracted := Extract (Pattern m) topic in
  let copied := bool_decide (0 < size extracted) in
  let mergedFields := if copied
    then Some (merge_into extracted (merge_into (default ∅ fields) ∅)) else fields in
  let exchange := if decide (mExchange m <> "") then mExchange m else s_exchange in
  let persistent := default s_persistent (mPersistent m) in
  match mRoutingKeyFunc m with
  | Some f =>
      let '(r, after) := f topic msg mergedFields in
      let fields' := if copied then fields else after in
      match r with
      | inr err =>
          {| rExchange := ""; rRoutingKey := ""; rPersistent := false; rDrop := false;
             rErr := Some (Errorfw "rabbitmq sender: resolve routing key for %q: %w" [topic] err);
             rFields := fields' |}
      | inl key =>
          {| rExchange := exchange; rRoutingKey := key; rPersistent := persistent;
             rDrop := false; rErr := None; rFields := fields' |}
      end
  | None =>
      {| rExchange := exchange; rRoutingKey := slashToDot topic; rPersistent := persistent;
         rDrop := false; rErr := None; rFields := fields |}
  end.

(** The switch after the loop. *)
Definition apply_default (topic : string) (fields : option Fields) : Resolved :=
  match s_xform with
  | DefaultTopicIgnore =>
      {| rExchange := ""; rRoutingKey := ""; rPersistent := false; rDrop := true;
         rErr := None; rFields := fields |}
  | DefaultTopicError =>
      {| rExchange := ""; rRoutingKey := ""; rPersistent := false; rDrop := false;
         rErr := Some (Errorf "rabbitmq sender: no topic mapping matched for topic %q and default_topic_transform is error" [topic]);
         rFields := fields |}
  | DefaultTopicVerbatim =>
      {| rExchange := s_exchange; rRoutingKey := topic; rPersistent := s_persistent;
         rDrop := false; rErr := None; rFields := fields |}
  | _ =>
      {| rExchange := s_exchange; rRoutingKey := slashToDot topic; rPersistent := s_persistent;
         rDrop := false; rErr := None; rFields := fields |}
  end.

Fixpoint resolveMapping (topicMappings : list TopicMapping) (topic : string) (msg : any)
    (fields : option Fields) : Resolved :=
  match topicMappings with
  | [] => apply_default topic fields
  | m :: ms =>
      if negb (Matches (Pattern m) topic) then resolveMapping ms topic msg fields
      else apply_mapping m topic msg fields
  end.

(** ** Lemmas *)

(** A run of non-matching mappings is skipped. *)
Lemma resolveMapping_skip ms1 ms2 topic msg fields :
  Forall (fun m => Matches (Pattern m) topic = false) ms1 ->
  resolveMapping (ms1 ++ ms2) topic msg fields = resolveMapping ms2 topic msg fields.
Proof. induction 1 as [|m ms Hm _ IH]; simpl; [done|]. by rewrite Hm. Qed.

Definition fmt_resolve : string := "rabbitmq sender: resolve routing key for %q: %w".
Definition fmt_no_mapping : string :=
  "rabbitmq sender: no topic mapping matched for topic %q and default_topic_transform is error".

(** Every routing error is one of two. *)
Lemma resolveMapping_err ms topic msg fields e :
  rErr (resolveMapping ms topic msg fields) = Some e ->
  (exists w, e = Errorfw fmt_resolve [topic] w) \/ e = Errorf fmt_no_mapping [topic].
Proof.
  induction ms as [|m ms IH]; simpl.
  - unfold apply_default. destruct s_xform; naive_solver.
  - destruct (Matches (Pattern m) topic); simpl; [|done].
    unfold apply_mapping. destruct (mRoutingKeyFunc m) as [f|]; [|done].
    destruct (f _ _ _) as [[|] ?]; naive_solver.
Qed.

(** ** Properties *)

(** First match wins; with no match the default transform decides. *)
Theorem resolveMapping_first_match ms topic msg fields :
  (exists ms1 m ms2, ms = ms1 ++ m :: ms2 /\
     Forall (fun m' => Matches (Pattern m') topic = false) ms1 /\
     Matches (Pattern m) topic = true /\
     resolveMapping ms topic msg fields = apply_mapping m topic msg fields) \/
  (Forall (fun m' => Matches (Pattern m') topic = false) ms /\
     resolveMapping ms topic msg fields = apply_default topic fields).
Proof.
  induction ms as [|m ms IH]; [right; auto|].
  destruct (Matches (Pattern m) topic) eqn:Hm.
  - left. exists [], m, ms. simpl. by rewrite Hm.
  - simpl. rewrite Hm. simpl.
    destruct IH as [(ms1 & m' & ms2 & -> & ? & ? & ?)|[? ?]]; [left|right; auto].
    exists (m :: ms1), m', ms2. auto.
Qed.

(** What the routing callback sees: captures over the event's own fields;
    and it can only reach the event's map when nothing was captured. *)
Theorem routing_key_fields m f topic msg fields k :
  mRoutingKeyFunc m = Some f ->
  exists seen, rFields (apply_mapping m topic msg fields)
               = (if decide (Extract (Pattern m) topic = ∅)
                  then (f topic msg seen).2 else fields) /\
    (forall key, (f topic msg seen).1 = inl key ->
       rRoutingKey (apply_mapping m topic msg fields) = key /\
       rErr (apply_mapping m topic msg fields) = None) /\
    default ∅ seen !! k = match Extract (Pattern m) topic !! k with
                          | Some v => Some v
                          | None => default ∅ fields !! k
                          end.
Proof.
  intros Hf. unfold apply_mapping. rewrite Hf.
  set (e := Extract (Pattern m) topic).
  assert (Hc : bool_decide (0 < size e) = negb (bool_decide (e = ∅))).
  { destruct (decide (e = ∅)) as [He|He].
    - rewrite He. done.
    - rewrite bool_decide_eq_true_2, bool_decide_eq_false_2; [done..|].
      apply map_size_non_empty_iff in He. lia. }
  rewrite Hc. destruct (decide (e = ∅)) as [He|He].
  - rewrite bool_decide_eq_true_2 by done. simpl. exists fields.
    rewrite He, lookup_empty.
    destruct (f topic msg fields) as [[key|err] after]; (split_and!; [done| |done]); intros ? [=]; by subst.
  - rewrite bool_decide_eq_false_2 by done. simpl. exists (Some (merge_into e (merge_into (default ∅ fields) ∅))).
    split_and!.
    + destruct (f topic msg _) as [[key|err] after]; done.
    + intros key. destruct (f topic msg _) as [[key'|err] after]; intros [=]; by subst.
    + simpl. rewrite !merge_into_lookup, lookup_empty.
      destruct (e !! k); [done|]. by destruct (default ∅ fields !! k).
Qed.
End resolve.

(** The two default transforms are inverse on topics without dots. *)
Theorem slashToDot_roundtrip topic :
  has_byte "." topic = false -> ReplaceAll "." "/" (slashToDot topic) = topic.
Proof. apply ReplaceAll_back. Qed.
