(* ===== verification/Sender.v ===== *)
(** * The sender: src/sender/sender.go

    [RMQSender] publishes vinculum events on the AMQP channel the client
    injects. The struct's configuration is [SenderCfg], its mutable part
    [SState] together with the returns channels' buffers and the log of
    everything the sender does to the outside. The AMQP library, the random
    source, the clock and the trace propagator answer through [Env], whose
    answers may depend on the whole log. Concurrent publishers are in
    SenderReturns.v. *)

From S2P Require Import Prelude GoLib Carrier Metrics Topic.

(** ** Data *)

Record Return_ := {
  rtExchange : string;
  rtRoutingKey : string;
  rtReplyCode : Z;
  rtReplyText : string;
  rtMessageId : string;
}.

Record Publishing := {
  Headers : Table;
  ContentType : string;
  DeliveryMode : Z;
  MessageId : string;
  Body : string;
}.

(** Effects, oldest first in the log. Channels and stop signals are numbers. *)
Inductive Event :=
| EMetric (p : Point)
| ELog (msg : string)
| ESpanStart (name : string)
| ESpanError (errType : string)
| ESpanEnd
| EConfirm (c : nat)
| ENotifyReturn (c : nat) (chan : nat)
| ECloseStop (stop : nat)
| EGoWatchReturns (chan stop : nat)
| EPublish (confirm : bool) (c : nat) (exchange key : string) (mandatory : bool) (pub : Publishing)
| EWaitConfirm.

Record SenderCfg := {
  clientName : string;
  exchange_ : string;
  topicMappings : list TopicMapping;
  defaultXform : DefaultTopicTransform;
  mandatory_ : bool;
  persistent_ : bool;
  confirmMode : bool;
  wireFormat : WireFormat;
  metrics_ : option Metrics.Sender.SenderMetrics;
}.

(** [pending] maps a MessageId to its entry's [ret] pointer. *)
Record SState := {
  ch_ : option nat;
  returnsCh : option nat;
  returnStop : option nat;
  pending : gmap string (option Return_);
  bufs : gmap nat (list Return_);
  nextChan : nat;
  slog : list Event;
}.

#[export] Instance set_ch : RecSet ch_ := {| rec_set := fun v s =>
  Build_SState v (returnsCh s) (returnStop s) (pending s) (bufs s) (nextChan s) (slog s) |}.
#[export] Instance set_returnsCh : RecSet returnsCh := {| rec_set := fun v s =>
  Build_SState (ch_ s) v (returnStop s) (pending s) (bufs s) (nextChan s) (slog s) |}.
#[export] Instance set_returnStop : RecSet returnStop := {| rec_set := fun v s =>
  Build_SState (ch_ s) (returnsCh s) v (pending s) (bufs s) (nextChan s) (slog s) |}.
#[export] Instance set_pending : RecSet pending := {| rec_set := fun v s =>
  Build_SState (ch_ s) (returnsCh s) (returnStop s) v (bufs s) (nextChan s) (slog s) |}.
#[export] Instance set_bufs : RecSet bufs := {| rec_set := fun v s =>
  Build_SState (ch_ s) (returnsCh s) (returnStop s) (pending s) v (nextChan s) (slog s) |}.
#[export] Instance set_nextChan : RecSet nextChan := {| rec_set := fun v s =>
  Build_SState (ch_ s) (returnsCh s) (returnStop s) (pending s) (bufs s) v (slog s) |}.
#[export] Instance set_slog : RecSet slog := {| rec_set := fun v s =>
  Build_SState (ch_ s) (returnsCh s) (returnStop s) (pending s) (bufs s) (nextChan s) v |}.

(** The answers of everything that is not the sender. [envWait] is what
    [WaitContext] returns with the returns the library dispatched, by channel,
    while it waited. *)
Record Env := {
  envMatches : string -> string -> bool;
  envExtract : string -> string -> Fields;
  envConfirm : list Event -> option error;
  envNotifyReturn : list Event -> nat -> nat;
  envPublish : list Event -> option error;
  envWait : list Event -> list (nat * Return_) * (bool * option error);
  envRand : list Event -> string;
  envSince : list Event -> Z;
  envInject : list Event -> list (string * string);
}.

Definition emit (e : Event) : M SState unit := modify (fun s => s <| slog := slog s ++ [e] |>).
Definition record_points (ps : list Point) : M SState unit :=
  modify (fun s => s <| slog := slog s ++ map EMetric ps |>).

(** [make(chan ...)]. *)
Definition make_chan : M SState nat := fun s => (nextChan s, s <| nextChan := S (nextChan s) |>).

Definition deliver_returns (rs : list (nat * Return_)) (b : gmap nat (list Return_)) :
    gmap nat (list Return_) :=
  foldl (fun b '(c, r) => <[c := default [] (b !! c) ++ [r]]> b) b rs.

(** ** MessageIds *)

Definition hex_digit (n : N) : ascii :=
  ascii_of_N (if (n <? 10)%N then n + 48 else n + 87)%N.

(** [hex.EncodeToString]. *)
Fixpoint hex_encode (s : string) : string :=
  match s with
  | EmptyString => ""
  | String b s' =>
      String (hex_digit (N_of_ascii b / 16)) (String (hex_digit (N_of_ascii b mod 16)) (hex_encode s'))
  end.

Section sender.
Context (cfg : SenderCfg) (env : Env).

Definition since : M SState Z := gets (fun s => envSince env (slog s)).

Definition recordPublish (exchange errType : string) : M SState unit :=
  d ← since;
  record_points (Metrics.Sender.RecordPublish (metrics_ cfg) exchange d errType).

(** [crypto/rand] fills sixteen bytes. *)
Definition newMessageId : M SState string :=
  gets (fun s => hex_encode (envRand env (slog s))).

(** ** SetChannel *)

Definition enableConfirms (c : nat) : M SState (option error) :=
  emit (EConfirm c) ;; gets (fun s => envConfirm env (slog s)).

Definition subscribeReturns (c chan : nat) : M SState nat :=
  emit (ENotifyReturn c chan) ;; gets (fun s => envNotifyReturn env (slog s) chan).

Definition setChannel (c : option nat) : M SState unit :=
  stop ← gets returnStop;
  match stop with
  | Some st => emit (ECloseStop st) ;; modify (fun s => s <| returnStop := None |>)
  | None => mret tt
  end ;;
  modify (fun s => s <| returnsCh := None |>) ;;
  match c with
  | None => modify (fun s => s <| ch_ := None |>)
  | Some c =>
      err ← (if confirmMode cfg then enableConfirms c else mret None);
      match err with
      | Some _ =>
          emit (ELog "rabbitmq sender: enable confirms failed; sender remains disconnected") ;;
          modify (fun s => s <| ch_ := None |>)
      | None =>
          chan ← make_chan;
          returns ← subscribeReturns c chan;
          (if confirmMode cfg then modify (fun s => s <| returnsCh := Some returns |>)
           else
             stop ← make_chan;
             modify (fun s => s <| returnStop := Some stop |>) ;;
             emit (EGoWatchReturns returns stop)) ;;
          modify (fun s => s <| ch_ := Some c |>)
      end
  end.

(** The nil check that keeps a nil *amqp.Channel from becoming a non-nil
    interface. *)
Definition SetChannel (c : option nat) : M SState unit :=
  match c with
  | None => setChannel None
  | Some c => setChannel (Some c)
  end.

(** ** Returns *)

Definition store_return (ret : Return_) (p : gmap string (option Return_)) :
    gmap string (option Return_) :=
  match p !! rtMessageId ret with
  | Some _ => <[rtMessageId ret := Some ret]> p
  | None => p
  end.

Definition handleReturn (ret : Return_) : M SState unit :=
  emit (ELog "rabbitmq sender: mandatory message returned by broker") ;;
  record_points (Metrics.Sender.RecordReturned (metrics_ cfg) (rtExchange ret)) ;;
  modify (fun s => s <| pending := store_return ret (pending s) |>).

(** What the select of [watchReturns] picks on one turn. *)
Inductive Watched := WStop | WReturn (r : Return_) | WClosed.

Fixpoint watchReturns (picks : list Watched) : M SState unit :=
  match picks with
  | WReturn r :: picks' => handleReturn r ;; watchReturns picks'
  | _ => mret tt
  end.

(** [ret := <-ch] of a non-empty buffer. *)
Definition receive (chan : nat) : M SState unit :=
  modify (fun s => s <| bufs := alter tail chan (bufs s) |>).

(** Undisturbed by other publishers, the loop empties the buffer it finds; an
    empty and a closed channel both end it. *)
Definition drainReturns : M SState unit :=
  chan ← gets returnsCh;
  match chan with
  | None => mret tt
  | Some chan =>
      buffered ← gets (fun s => default [] (bufs s !! chan));
      for_each buffered (fun ret => receive chan ;; handleReturn ret)
  end.

(** ** OnEvent *)

Definition failPublish (exchange errType : string) : M SState unit :=
  emit (ESpanError errType) ;; recordPublish exchange errType.

Definition publish (confirm : bool) (c : nat) (exchange key : string) (pub : Publishing) :
    M SState (option error) :=
  emit (EPublish confirm c exchange key (mandatory_ cfg) pub) ;;
  gets (fun s => envPublish env (slog s)).

Definition waitConfirm : M SState (bool * option error) :=
  emit EWaitConfirm ;;
  answer ← gets (fun s => envWait env (slog s));
  modify (fun s => s <| bufs := deliver_returns answer.1 (bufs s) |>) ;;
  mret answer.2.

Definition fmt_publish : string := "rabbitmq sender: publish to exchange=%q key=%q: %w".
Definition fmt_confirm : string := "rabbitmq sender: wait for confirm of exchange=%q key=%q: %w".
Definition fmt_nack : string := "rabbitmq sender: broker nack'd publish to exchange=%q key=%q".
Definition fmt_returned : string :=
  "rabbitmq sender: mandatory message returned by broker: exchange=%q routing_key=%q reply_code=%d reply_text=%q".
Definition fmt_serialize : string := "rabbitmq sender: serialize payload: %w".
Definition fmt_not_connected : string := "rabbitmq sender: not yet connected".

Definition returned_error (ret : Return_) : error :=
  Errorf fmt_returned [rtExchange ret; rtRoutingKey ret; pretty.pretty (rtReplyCode ret); rtReplyText ret].

(** The confirm-mode publish from the call on; [mid] is the pending entry's
    key when there is one. *)
Definition publishConfirmed (c : nat) (exchange key : string) (pub : Publishing) (mid : option string) :
    M SState (option error) :=
  perr ← publish true c exchange key pub;
  match perr with
  | Some e =>
      failPublish exchange "publish" ;; mret (Some (Errorfw fmt_publish [exchange; key] e))
  | None =>
      w ← waitConfirm;
      let '(acked, werr) := w in
      match werr with
      | Some e =>
          failPublish exchange "confirm" ;; mret (Some (Errorfw fmt_confirm [exchange; key] e))
      | None =>
          if negb acked then
            failPublish exchange "nack" ;; mret (Some (Errorf fmt_nack [exchange; key]))
          else
            drainReturns ;;
            ret ← gets (fun s => mid ≫= fun m => mjoin (pending s !! m));
            match ret with
            | Some r => failPublish exchange "returned" ;; mret (Some (returned_error r))
            | None => recordPublish exchange "" ;; mret None
            end
      end
  end.

Definition with_MessageId (pub : Publishing) (mid : string) : Publishing :=
  {| Headers := Headers pub; ContentType := ContentType pub; DeliveryMode := DeliveryMode pub;
     MessageId := mid; Body := Body pub |}.

(** From [if s.confirmMode] to the end of [OnEvent]. *)
Definition doPublish (c : nat) (exchange key : string) (pub : Publishing) : M SState (option error) :=
  if confirmMode cfg then
    if mandatory_ cfg then
      mid ← newMessageId;
      modify (fun s => s <| pending := <[mid := None]> (pending s) |>) ;;
      err ← publishConfirmed c exchange key (with_MessageId pub mid) (Some mid);
      modify (fun s => s <| pending := delete mid (pending s) |>) ;;
      mret err
    else publishConfirmed c exchange key pub None
  else
    perr ← publish false c exchange key pub;
    match perr with
    | Some e =>
        failPublish exchange "publish" ;; mret (Some (Errorfw fmt_publish [exchange; key] e))
    | None => recordPublish exchange "" ;; mret None
    end.

(** Nil headers become a fresh table before the propagator writes to it. *)
Definition headers_with_trace (fields : option Fields) (kvs : list (string * string)) : Table :=
  let '(l, h) := (0, {[0 := default ∅ (fieldsToHeaders fields)]} : Heap) in
  let '(c, h) := New_ (Some l) h in
  contents l (Inject kvs c h).

Definition resolve (topic : string) (msg : any) (fields : option Fields) : Resolved :=
  resolveMapping (envMatches env) (envExtract env) (exchange_ cfg) (persistent_ cfg)
    (defaultXform cfg) (topicMappings cfg) topic msg fields.

Definition OnEvent (topic : string) (msg : any) (fields : option Fields) : M SState (option error) :=
  ch ← gets ch_;
  match ch with
  | None =>
      recordPublish (exchange_ cfg) "not_connected" ;; mret (Some (Errorf fmt_not_connected []))
  | Some c =>
      let r := resolve topic msg fields in
      match rErr r with
      | Some e => recordPublish (exchange_ cfg) "routing" ;; mret (Some e)
      | None =>
          if rDrop r then mret None
          else
            match Serialize (wireFormat cfg) msg with
            | inr e =>
                recordPublish (rExchange r) "serialize" ;; mret (Some (Errorfw fmt_serialize [] e))
            | inl body =>
                emit (ESpanStart ("send " +:+ rExchange r)) ;;
                kvs ← gets (fun s => envInject env (slog s));
                let pub := {| Headers := headers_with_trace (rFields r) kvs;
                              ContentType := contentTypeFor (wireFormat cfg) msg;
                              DeliveryMode := if rPersistent r then 2 else 1;
                              MessageId := ""; Body := body |} in
                err ← doPublish c (rExchange r) (rRoutingKey r) pub;
                emit ESpanEnd ;;
                mret err
            end
      end
  end.
End sender.

(** ** Reading the log *)

Definition points (evs : list Event) : list Point :=
  omap (fun e => match e with EMetric p => Some p | _ => None end) evs.

Definition is_publish (e : Event) : bool :=
  match e with EPublish _ _ _ _ _ _ => true | _ => false end.

Definition publishes (evs : list Event) : list Event := filter (fun e => is_publish e = true) evs.

(** The [error.type] category of an [OnEvent] result. *)
Definition errType_of (err : option error) : string :=
  match err with
  | None => ""
  | Some (Errorf f _) =>
      if decide (f = fmt_not_connected) then "not_connected"
      else if decide (f = fmt_nack) then "nack"
      else if decide (f = fmt_returned) then "returned" else "routing"
  | Some (Errorfw f _ _) =>
      if decide (f = fmt_serialize) then "serialize"
      else if decide (f = fmt_publish) then "publish"
      else if decide (f = fmt_confirm) then "confirm" else "routing"
  | Some _ => "routing"
  end.

Lemma points_app a b : points (a ++ b) = points a ++ points b.
Proof. apply omap_app. Qed.

Lemma points_EMetric ps : points (map EMetric ps) = ps.
Proof. induction ps; simpl; congruence. Qed.

Lemma publishes_app a b : publishes (a ++ b) = publishes a ++ publishes b.
Proof. apply filter_app. Qed.

Lemma publishes_EMetric ps : publishes (map EMetric ps) = [].
Proof. by induction ps. Qed.
#[export] Hint Rewrite points_app points_EMetric publishes_app publishes_EMetric : rmq_simp.

Lemma for_each_cons {S A} (x : A) l (body : A -> M S unit) s :
  for_each (x :: l) body s = for_each l body (body x s).2.
Proof. cbn. unfold mbind, M_bind. by destruct (body x s) as [[] s']. Qed.

(** ** Draining *)

Section drain.
Context (cfg : SenderCfg).

(** What handling one return adds to the log. *)
Definition return_events (r : Return_) : list Event :=
  ELog "rabbitmq sender: mandatory message returned by broker"
    :: map EMetric (Metrics.Sender.RecordReturned (metrics_ cfg) (rtExchange r)).

Definition buffered (s : SState) : list Return_ :=
  match returnsCh s with None => [] | Some c => default [] (bufs s !! c) end.

Definition drained_bufs (s : SState) : gmap nat (list Return_) :=
  match returnsCh s with None => bufs s | Some c => alter (drop (length (buffered s))) c (bufs s) end.

Lemma alter_tail_drop n c (b : gmap nat (list Return_)) :
  alter (drop n) c (alter tail c b) = alter (drop (S n)) c b.
Proof.
  rewrite alter_alter_eq. apply alter_ext. intros [|r l] _; [apply drop_nil|done].
Qed.

Lemma drain_one_spec c r s :
  ((receive c ;; handleReturn cfg r) s).2 =
  Build_SState (ch_ s) (returnsCh s) (returnStop s) (store_return r (pending s))
    (alter tail c (bufs s)) (nextChan s) (slog s ++ return_events r).
Proof.
  unfold receive, handleReturn, emit, record_points. do 3 run_M. by rewrite <- app_assoc.
Qed.

Lemma drain_loop_spec c l s :
  (for_each l (fun ret => receive c ;; handleReturn cfg ret) s).2 =
  Build_SState (ch_ s) (returnsCh s) (returnStop s)
    (foldl (fun p r => store_return r p) (pending s) l)
    (alter (drop (length l)) c (bufs s)) (nextChan s)
    (slog s ++ mjoin (map return_events l)).
Proof.
  revert s. induction l as [|r l IH]; intros s.
  - simpl. rewrite app_nil_r, alter_id by done. by destruct s.
  - rewrite for_each_cons, drain_one_spec, IH. cbn [ch_ returnsCh returnStop pending bufs nextChan slog].
    rewrite alter_tail_drop. by rewrite <- app_assoc.
Qed.

Lemma drainReturns_spec s :
  drainReturns cfg s =
  (tt, Build_SState (ch_ s) (returnsCh s) (returnStop s)
         (foldl (fun p r => store_return r p) (pending s) (buffered s))
         (drained_bufs s) (nextChan s)
         (slog s ++ mjoin (map return_events (buffered s)))).
Proof.
  unfold drainReturns, drained_bufs, buffered. do 2 run_M. destruct (returnsCh s) as [c|] eqn:Hc; run_M.
  - pose proof (drain_loop_spec c (default [] (bufs s !! c)) s) as H.
    destruct (for_each _ _ s) as [[] s']. cbn in H. by rewrite H, Hc.
  - destruct s. cbn in *. subst. by rewrite app_nil_r.
Qed.

Lemma points_returns l :
  points (mjoin (map return_events l))
  = mjoin (map (fun r => Metrics.Sender.RecordReturned (metrics_ cfg) (rtExchange r)) l).
Proof. induction l as [|r l IH]; simpl; [done|]. by autorewrite with rmq_simp; rewrite IH. Qed.

Lemma publishes_returns l : publishes (mjoin (map return_events l)) = [].
Proof.
  induction l as [|r l IH]; [done|].
  change (publishes (map EMetric (Metrics.Sender.RecordReturned (metrics_ cfg) (rtExchange r))
            ++ mjoin (map return_events l)) = []).
  by rewrite publishes_app, publishes_EMetric, IH.
Qed.

(** The last return buffered for a MessageId. *)
Definition last_return (mid : string) (l : list Return_) : option Return_ :=
  last (filter (fun r => rtMessageId r = mid) l).

Lemma store_returns_lookup l p mid :
  foldl (fun p r => store_return r p) p l !! mid =
  match p !! mid with
  | None => None
  | Some old => Some (match last_return mid l with Some r => Some r | None => old end)
  end.
Proof.
  unfold last_return.
  induction l as [|r l IH] using rev_ind; simpl; [by destruct (p !! mid)|].
  rewrite foldl_app, filter_app, last_app. cbn.
  set (q := foldl _ p l) in *. unfold store_return.
  destruct (decide (rtMessageId r = mid)) as [<-|Hne].
  - cbn. clearbody q. destruct (p !! rtMessageId r); rewrite IH;
      [by rewrite lookup_insert_eq|done].
  - cbn. destruct (q !! rtMessageId r); [rewrite lookup_insert_ne by done|]; apply IH.
Qed.

Lemma store_returns_dom l p : dom (foldl (fun p r => store_return r p) p l) = dom p.
Proof.
  apply set_eq. intros mid. rewrite !elem_of_dom, store_returns_lookup.
  destruct (p !! mid); simpl; [|done]. split; intros _; by eexists.
Qed.
End drain.
#[export] Hint Rewrite points_returns publishes_returns : rmq_simp.

(** ** One publish attempt *)

Section account.
Context (cfg : SenderCfg) (env : Env).

Definition returned_points (rets : list Return_) : list Point :=
  mjoin (map (fun r => Metrics.Sender.RecordReturned (metrics_ cfg) (rtExchange r)) rets).

(** The effects of a step that ends in result [err]: one publish record with
    [err]'s category, after the records of the returns it handled, and the
    publish calls [pubs]. *)
Definition attempted (exchange : string) (err : option error) (pubs : list Event) (s s' : SState) : Prop :=
  exists rets d evs,
    slog s' = slog s ++ evs /\
    points evs = returned_points rets
      ++ Metrics.Sender.RecordPublish (metrics_ cfg) exchange d (errType_of err) /\
    publishes evs = pubs.

Lemma recordPublish_run exchange errType s :
  recordPublish cfg env exchange errType s =
  (tt, s <| slog := slog s ++ map EMetric
         (Metrics.Sender.RecordPublish (metrics_ cfg) exchange (envSince env (slog s)) errType) |>).
Proof. done. Qed.

Lemma failPublish_run exchange errType s :
  failPublish cfg env exchange errType s =
  recordPublish cfg env exchange errType (s <| slog := slog s ++ [ESpanError errType] |>).
Proof. done. Qed.

Lemma publish_run confirm c exchange key pub s :
  publish cfg env confirm c exchange key pub s =
  let l := slog s ++ [EPublish confirm c exchange key (mandatory_ cfg) pub] in
  (envPublish env l, s <| slog := l |>).
Proof. done. Qed.

Lemma waitConfirm_run s :
  waitConfirm env s =
  let l := slog s ++ [EWaitConfirm] in
  ((envWait env l).2, s <| slog := l |> <| bufs := deliver_returns (envWait env l).1 (bufs s) |>).
Proof. done. Qed.

(** Close an [attempted] goal whose end state is explicit. *)
Ltac attempt rets :=
  exists rets; eexists _, _; unfold rec_set; simpl;
  (split; [rewrite <- ?app_assoc; reflexivity|]);
  autorewrite with rmq_simp; simpl; rewrite ?app_nil_r; done.

Lemma publishConfirmed_attempt c exchange key pub mid s :
  let '(err, s') := publishConfirmed cfg env c exchange key pub mid s in
  attempted exchange err [EPublish true c exchange key (mandatory_ cfg) pub] s s'.
Proof.
  unfold publishConfirmed. rewrite M_bind_run, publish_run. cbv zeta.
  destruct (envPublish _ _) as [e|]; [attempt (@nil Return_)|].
  rewrite M_bind_run, waitConfirm_run. cbv zeta. destruct (envWait _ _) as [rs [acked werr]].
  cbn [fst snd]. destruct werr as [e|]; [attempt (@nil Return_)|].
  destruct acked; cbn [negb]; [|attempt (@nil Return_)].
  rewrite M_bind_run, drainReturns_spec, M_bind_run. set (b := buffered _).
  unfold gets. destruct (mid ≫= _) as [r|]; attempt b.
Qed.

Definition mid_at (s : SState) : string := hex_encode (envRand env (slog s)).

Definition outgoing (pub : Publishing) (s : SState) : Publishing :=
  if confirmMode cfg && mandatory_ cfg then with_MessageId pub (mid_at s) else pub.

Lemma doPublish_attempt c exchange key pub s :
  let '(err, s') := doPublish cfg env c exchange key pub s in
  attempted exchange err
    [EPublish (confirmMode cfg) c exchange key (mandatory_ cfg) (outgoing pub s)] s s'.
Proof.
  unfold doPublish, outgoing, mid_at. destruct (confirmMode cfg); [destruct (mandatory_ cfg) eqn:Hm|].
  - rewrite !M_bind_run. unfold newMessageId, gets, modify. cbv beta iota zeta. rewrite M_bind_run.
    set (s1 := s <| pending := _ |>). rewrite M_bind_run.
    pose proof (publishConfirmed_attempt c exchange key
                  (with_MessageId pub (hex_encode (envRand env (slog s))))
                  (Some (hex_encode (envRand env (slog s)))) s1) as H.
    destruct (publishConfirmed _ _ _ _ _ _ _ s1) as [err s2]. rewrite Hm in H. exact H.
  - pose proof (publishConfirmed_attempt c exchange key pub None s) as H.
    destruct (publishConfirmed _ _ _ _ _ _ _ s) as [err s2]. by rewrite Hm in H.
  - rewrite M_bind_run, publish_run. cbv zeta. simpl.
    destruct (envPublish _ _) as [e|]; attempt (@nil Return_).
Qed.

(** The message [OnEvent] hands to the channel. *)
Definition message (r : Resolved) (msg : any) (body : string) (s : SState) : Publishing :=
  let s := s <| slog := slog s ++ [ESpanStart ("send " +:+ rExchange r)] |> in
  outgoing {| Headers := headers_with_trace (rFields r) (envInject env (slog s));
              ContentType := contentTypeFor (wireFormat cfg) msg;
              DeliveryMode := if rPersistent r then 2 else 1;
              MessageId := ""; Body := body |} s.

(** [OnEvent] past routing and serialization. *)
Lemma OnEvent_publishing c topic msg fields body s :
  let r := resolve cfg env topic msg fields in
  ch_ s = Some c -> rErr r = None -> rDrop r = false -> Serialize (wireFormat cfg) msg = inl body ->
  let '(err, s') := OnEvent cfg env topic msg fields s in
  attempted (rExchange r) err
    [EPublish (confirmMode cfg) c (rExchange r) (rRoutingKey r) (mandatory_ cfg)
       (message r msg body s)] s s'.
Proof.
  intros r Hc Hr Hd Hb. unfold OnEvent. rewrite M_bind_run. unfold gets at 1. rewrite Hc.
  fold r. rewrite Hr, Hd, Hb, M_bind_run. cbv beta iota zeta delta [emit modify gets].
  rewrite M_bind_run. cbv beta iota zeta. rewrite M_bind_run. unfold message.
  set (s1 := s <| slog := _ |>). set (pub := Build_Publishing _ _ _ _ _).
  pose proof (doPublish_attempt c (rExchange r) (rRoutingKey r) pub s1) as H.
  destruct (doPublish _ _ _ _ _ pub s1) as [err s2]. rewrite M_bind_run.
  destruct H as (rets & d & evs & Hl & Hp & Hpub).
  exists rets, d, (ESpanStart ("send " +:+ rExchange r) :: evs ++ [ESpanEnd]).
  unfold rec_set. simpl. rewrite Hl. subst s1. unfold rec_set. simpl.
  autorewrite with rmq_simp. rewrite <- !app_assoc. split; [done|].
  split; [by rewrite Hp, <- app_assoc, app_nil_r|].
  change (publishes (ESpanStart _ :: evs ++ [ESpanEnd])) with (publishes (evs ++ [ESpanEnd])).
  by autorewrite with rmq_simp; rewrite Hpub.
Qed.
End account.

(** ** Properties *)

(** Whether [OnEvent] drops the event: connected, and the default transform
    says to ignore it. *)
Definition dropped (cfg : SenderCfg) (env : Env) (topic : string) (msg : any) (fields : option Fields)
    (s : SState) : bool :=
  let r := resolve cfg env topic msg fields in
  bool_decide (ch_ s <> None) && bool_decide (rErr r = None) && rDrop r.

(** C2: Every OnEvent either drops the event silently (default transform
    ignore) or is one accounted attempt: one sent.messages point whose
    error.type matches the error returned, one duration, and the publishes it
    made. *)
Theorem OnEvent_accounting cfg env topic msg fields s :
  let '(err, s') := OnEvent cfg env topic msg fields s in
  if dropped cfg env topic msg fields s then err = None /\ s' = s
  else exists exchange pubs, attempted cfg exchange err pubs s s'.
Proof.
  destruct (OnEvent cfg env topic msg fields s) as [err s'] eqn:Hrun. unfold dropped.
  set (r := resolve cfg env topic msg fields).
  destruct (ch_ s) as [c|] eqn:Hc; simpl.
  - destruct (rErr r) as [e|] eqn:He; simpl.
    + unfold OnEvent in Hrun. rewrite M_bind_run in Hrun. unfold gets at 1 in Hrun.
      rewrite Hc in Hrun. fold r in Hrun. rewrite He, M_bind_run, recordPublish_run in Hrun.
      injection Hrun as <- <-. exists (exchange_ cfg), [], [], (envSince env (slog s)). eexists.
      split; [reflexivity|]. autorewrite with rmq_simp.
      by apply resolveMapping_err in He as [[w ->]| ->].
    + destruct (rDrop r) eqn:Hd.
      * unfold OnEvent in Hrun. rewrite M_bind_run in Hrun. unfold gets at 1 in Hrun.
        rewrite Hc in Hrun. fold r in Hrun. rewrite He, Hd in Hrun. by injection Hrun as <- <-.
      * destruct (Serialize (wireFormat cfg) msg) as [body|e] eqn:Hb.
        -- exists (rExchange r). eexists.
           pose proof (OnEvent_publishing cfg env c topic msg fields body s Hc He Hd Hb) as H.
           rewrite Hrun in H. exact H.
        -- unfold OnEvent in Hrun. rewrite M_bind_run in Hrun. unfold gets at 1 in Hrun.
           rewrite Hc in Hrun. fold r in Hrun.
           rewrite He, Hd, Hb, M_bind_run, recordPublish_run in Hrun.
           injection Hrun as <- <-. exists (rExchange r), [], [], (envSince env (slog s)). eexists.
           split; [reflexivity|]. by autorewrite with rmq_simp.
  - unfold OnEvent in Hrun. rewrite M_bind_run in Hrun. unfold gets at 1 in Hrun.
    rewrite Hc, M_bind_run, recordPublish_run in Hrun. injection Hrun as <- <-.
    exists (exchange_ cfg), [], [], (envSince env (slog s)). eexists.
    split; [reflexivity|]. by autorewrite with rmq_simp.
Qed.

(** The message on the wire. *)
Lemma headers_with_trace_lookup fields kvs k :
  headers_with_trace fields kvs !! k =
  match (list_to_map (reverse kvs) : Fields) !! k with
  | Some v => Some (VStr v)
  | None => VStr <$> default ∅ fields !! k
  end.
Proof.
  unfold headers_with_trace. simpl.
  rewrite contents_Inject, decide_True, foldl_insert_lookup by done.
  unfold contents. rewrite lookup_singleton_eq. simpl. by rewrite fieldsToHeaders_lookup.
Qed.

Lemma hex_encode_length s : String.length (hex_encode s) = 2 * String.length s.
Proof. induction s as [|b s IH]; simpl; [done|]. rewrite IH. lia. Qed.

(** A message as AMQP types it: string headers, delivery mode transient or
    persistent, a content type the receiver knows or none, and a MessageId
    that is empty or thirty-two lower-case hexadecimal digits. *)
Definition lower_hex (c : ascii) : bool :=
  let n := N_of_ascii c in ((48 <=? n) && (n <=? 57) || (97 <=? n) && (n <=? 102))%N.

Definition message_id_ok (mid : string) : Prop :=
  mid = "" \/ (String.length mid = 32 /\ Forall (fun c => lower_hex c = true) (String.list_ascii_of_string mid)).

Record well_typed (pub : Publishing) : Prop := {
  wt_headers : map_Forall (fun _ v => exists h, v = VStr h) (Headers pub);
  wt_mode : DeliveryMode pub = 1%Z \/ DeliveryMode pub = 2%Z;
  wt_content : ContentType pub ∈ ["application/json"; "text/plain"; "application/octet-stream"; ""];
  wt_id : message_id_ok (MessageId pub);
}.

Definition publish_typed (cfg : SenderCfg) (e : Event) : Prop :=
  match e with
  | EPublish confirm _ _ _ mandatory pub =>
      confirm = confirmMode cfg /\ mandatory = mandatory_ cfg /\ well_typed pub /\
      (MessageId pub = "" <-> confirmMode cfg && mandatory_ cfg = false)
  | _ => True
  end.

Lemma hex_digit_lower n : (n < 16)%N -> lower_hex (hex_digit n) = true.
Proof.
  intros Hn. unfold lower_hex, hex_digit.
  rewrite N_ascii_embedding by (case_match; [apply N.ltb_lt in H|apply N.ltb_ge in H]; lia).
  destruct (n <? 10)%N eqn:H; [apply N.ltb_lt in H|apply N.ltb_ge in H]; apply orb_true_iff; [left|right];
    apply andb_true_iff; rewrite !N.leb_le; lia.
Qed.

Lemma hex_encode_lower s : Forall (fun c => lower_hex c = true) (String.list_ascii_of_string (hex_encode s)).
Proof.
  induction s as [|b s IH]; simpl; [constructor|].
  pose proof (N_ascii_bounded b) as Hb. repeat constructor; [..|done]; apply hex_digit_lower.
  - by apply N.Div0.div_lt_upper_bound.
  - by apply N.mod_lt.
Qed.

Lemma contentTypeFor_known wf msg :
  contentTypeFor wf msg ∈ ["application/json"; "text/plain"; "application/octet-stream"; ""].
Proof. unfold contentTypeFor. repeat case_decide; try destruct msg; set_solver. Qed.

Lemma message_typed cfg env r msg body s :
  (forall log, String.length (envRand env log) = 16) ->
  well_typed (message cfg env r msg body s) /\
  (MessageId (message cfg env r msg body s) = "" <-> confirmMode cfg && mandatory_ cfg = false).
Proof.
  intros Hrand. unfold message, outgoing. set (s0 := s <| slog := _ |>). clearbody s0.
  assert (forall mid, message_id_ok mid -> well_typed {|
      Headers := headers_with_trace (rFields r) (envInject env (slog s0));
      ContentType := contentTypeFor (wireFormat cfg) msg;
      DeliveryMode := if rPersistent r then 2 else 1; MessageId := mid; Body := body |}) as Hwt.
  { intros mid Hmid. split; simpl; [|by destruct (rPersistent r); auto|apply contentTypeFor_known|done].
    intros k v. rewrite headers_with_trace_lookup. destruct (_ !! k); [intros [= <-]; eauto|].
    intros (h & _ & ->)%fmap_Some. eauto. }
  destruct (confirmMode cfg && mandatory_ cfg); simpl; (split; [apply Hwt|]).
  - right. unfold mid_at. rewrite hex_encode_length, Hrand. split; [done|apply hex_encode_lower].
  - split; [|done]. intros Hmid. pose proof (hex_encode_length (envRand env (slog s0))) as Hl.
    unfold mid_at in Hmid. rewrite Hmid, Hrand in Hl. done.
  - by left.
  - done.
Qed.

(** C18: On every path of OnEvent, whatever the event, its fields, the mappings and
    the library do, each message handed to the channel is well typed: string
    headers only, delivery mode 1 or 2, a known content type, and a MessageId
    exactly when the sender waits for returns -- thirty-two lower-case hex
    digits; and at most one is published. *)
Theorem OnEvent_well_typed cfg env topic msg fields s :
  (forall log, String.length (envRand env log) = 16) ->
  exists evs, slog (OnEvent cfg env topic msg fields s).2 = slog s ++ evs /\
    Forall (publish_typed cfg) evs /\ length (publishes evs) <= 1.
Proof.
  intros Hrand.
  enough (exists evs, slog (OnEvent cfg env topic msg fields s).2 = slog s ++ evs /\
      Forall (publish_typed cfg) (publishes evs) /\ length (publishes evs) <= 1) as (evs & Hl & Hf & Hn).
  { exists evs. split_and!; [done| |done]. apply Forall_forall. intros e He. rewrite Forall_forall in Hf.
    destruct (is_publish e) eqn:Hp; [|by destruct e].
    apply Hf. by apply list_elem_of_filter. }
  assert (forall s', slog s' = slog s -> exists evs, slog s' = slog s ++ evs /\
      Forall (publish_typed cfg) (publishes evs) /\ length (publishes evs) <= 1) as Hnone.
  { intros s' ->. exists []. rewrite app_nil_r. split_and!; simpl; [done|constructor|lia]. }
  assert (forall ex et, exists evs, slog (recordPublish cfg env ex et s).2 = slog s ++ evs /\
      Forall (publish_typed cfg) (publishes evs) /\ length (publishes evs) <= 1) as Hrec.
  { intros ex et. rewrite recordPublish_run. eexists. split; [reflexivity|].
    rewrite publishes_EMetric. simpl. split; [constructor|lia]. }
  set (r := resolve cfg env topic msg fields).
  destruct (ch_ s) as [c|] eqn:Hc;
    [destruct (rErr r) as [e|] eqn:He; [|destruct (rDrop r) eqn:Hd; [|destruct (Serialize (wireFormat cfg) msg) as [body|e] eqn:Hb]]|].
  3:{ pose proof (OnEvent_publishing cfg env c topic msg fields body s Hc He Hd Hb) as H. fold r in H.
      destruct (OnEvent cfg env topic msg fields s) as [err s']. destruct H as (rets & d & evs & Hl & _ & Hpub).
      exists evs. rewrite Hpub. split_and!; [done| |simpl; lia].
      apply Forall_singleton. simpl. split_and!; [done..| |]; by apply message_typed. }
  all: unfold OnEvent; rewrite M_bind_run; unfold gets at 1; rewrite Hc; fold r.
  all: rewrite ?He, ?Hd, ?Hb, ?M_bind_run.
  - specialize (Hrec (exchange_ cfg) "routing"). by destruct (recordPublish _ _ _ _ s).
  - by apply Hnone.
  - specialize (Hrec (rExchange r) "serialize"). by destruct (recordPublish _ _ _ _ s).
  - specialize (Hrec (exchange_ cfg) "not_connected"). by destruct (recordPublish _ _ _ _ s).
Qed.

(** C17: One publish call, with the resolved destination, for every event that is
    routed and serialized; the message carries the event. *)
Theorem OnEvent_message cfg env c topic msg fields body s :
  let r := resolve cfg env topic msg fields in
  ch_ s = Some c -> rErr r = None -> rDrop r = false -> Serialize (wireFormat cfg) msg = inl body ->
  String.length (envRand env (slog s ++ [ESpanStart ("send " +:+ rExchange r)])) = 16 ->
  exists evs pub,
    slog (OnEvent cfg env topic msg fields s).2 = slog s ++ evs /\
    publishes evs = [EPublish (confirmMode cfg) c (rExchange r) (rRoutingKey r) (mandatory_ cfg) pub] /\
    Body pub = body /\
    DeliveryMode pub = (if rPersistent r then 2 else 1)%Z /\
    ContentType pub = contentTypeFor (wireFormat cfg) msg /\
    String.length (MessageId pub) = (if confirmMode cfg && mandatory_ cfg then 32 else 0) /\
    (forall k, (forall log kv, kv ∈ envInject env log -> kv.1 <> k) ->
       Headers pub !! k = VStr <$> default ∅ (rFields r) !! k).
Proof.
  intros r Hc Hr Hd Hb Hrand.
  pose proof (OnEvent_publishing cfg env c topic msg fields body s Hc Hr Hd Hb) as H.
  destruct (OnEvent cfg env topic msg fields s) as [err s'].
  destruct H as (rets & d & evs & Hl & _ & Hpub). fold r in Hpub.
  exists evs, (message cfg env r msg body s). split; [done|]. split; [done|].
  unfold message, outgoing, mid_at. simpl.
  assert (Hh : forall k, (forall log kv, kv ∈ envInject env log -> kv.1 <> k) ->
    headers_with_trace (rFields r) (envInject env (slog s ++ [ESpanStart ("send " +:+ rExchange r)])) !! k
    = VStr <$> default ∅ (rFields r) !! k).
  { intros k Hk. rewrite headers_with_trace_lookup.
    destruct ((list_to_map (reverse _) : Fields) !! k) as [v|] eqn:Hv; [|done].
    apply elem_of_list_to_map_2 in Hv. rewrite elem_of_reverse in Hv. by apply Hk in Hv. }
  destruct (confirmMode cfg && mandatory_ cfg); simpl; [|done].
  split_and!; [done..| |done]. unfold rec_set. simpl. by rewrite hex_encode_length, Hrand.
Qed.

(** ** The pending map *)

Lemma publishConfirmed_pending_spec cfg env c exchange key pub mid s :
  dom (pending (publishConfirmed cfg env c exchange key pub mid s).2) = dom (pending s).
Proof.
  unfold publishConfirmed. rewrite M_bind_run, publish_run. cbv zeta.
  destruct (envPublish _ _) as [e|]; [done|].
  rewrite M_bind_run, waitConfirm_run. cbv zeta. destruct (envWait _ _) as [rs [acked werr]].
  cbn [fst snd]. destruct werr as [e|]; [done|]. destruct acked; cbn [negb]; [|done].
  rewrite M_bind_run, drainReturns_spec, M_bind_run. set (b := buffered _). unfold gets.
  destruct (mid ≫= _) as [r|]; simpl; apply store_returns_dom.
Qed.

(** C27: No publish leaves an entry behind, on any path. *)
Theorem OnEvent_pending cfg env topic msg fields s :
  (forall log, hex_encode (envRand env log) ∉ dom (pending s)) ->
  dom (pending (OnEvent cfg env topic msg fields s).2) = dom (pending s).
Proof.
  intros Hfresh. unfold OnEvent. rewrite M_bind_run. unfold gets at 1.
  destruct (ch_ s) as [c|]; [|done]. set (r := resolve _ _ _ _ _).
  destruct (rErr r); [done|]. destruct (rDrop r); [done|].
  destruct (Serialize _ _) as [body|e]; [|done].
  rewrite M_bind_run. cbv beta iota zeta delta [emit modify gets].
  rewrite M_bind_run. cbv beta iota zeta. rewrite M_bind_run.
  set (s1 := s <| slog := _ |>). set (pub := Build_Publishing _ _ _ _ _).
  assert (Hdo : dom (pending (doPublish cfg env c (rExchange r) (rRoutingKey r) pub s1).2) = dom (pending s)).
  { unfold doPublish. destruct (confirmMode cfg); [destruct (mandatory_ cfg)|].
    - rewrite M_bind_run. unfold newMessageId, gets, modify. cbv beta iota zeta. rewrite M_bind_run.
      set (mid := hex_encode _). set (s2 := s1 <| pending := _ |>). rewrite M_bind_run.
      pose proof (publishConfirmed_pending_spec cfg env c (rExchange r) (rRoutingKey r)
                    (with_MessageId pub mid) (Some mid) s2) as H.
      destruct (publishConfirmed _ _ _ _ _ _ _ s2) as [err s3]. rewrite M_bind_run.
      unfold rec_set. simpl in *. rewrite dom_delete_L, H. subst s2. unfold rec_set. simpl.
      rewrite dom_insert_L. specialize (Hfresh (slog s1)). subst mid s1. unfold rec_set in *.
      simpl in *. set_solver.
    - etrans; [apply publishConfirmed_pending_spec|done].
    - rewrite M_bind_run, publish_run. cbv zeta. simpl. by destruct (envPublish _ _). }
  destruct (doPublish _ _ _ _ _ _ s1) as [err s2]. exact Hdo.
Qed.

(** ** Mandatory returns *)

(** C19: In confirm mode an acked mandatory publish fails exactly when the broker
    returned it: the error is the last return for its MessageId that was
    dispatched before the ack. *)
Theorem OnEvent_mandatory_outcome cfg env c rc topic msg fields body s rand rs :
  let r := resolve cfg env topic msg fields in
  confirmMode cfg = true -> mandatory_ cfg = true ->
  ch_ s = Some c -> returnsCh s = Some rc ->
  rErr r = None -> rDrop r = false -> Serialize (wireFormat cfg) msg = inl body ->
  (forall log, envRand env log = rand) -> (forall log, envPublish env log = None) ->
  (forall log, envWait env log = (rs, (true, None))) ->
  (OnEvent cfg env topic msg fields s).1 =
  returned_error <$> last_return (hex_encode rand) (default [] (deliver_returns rs (bufs s) !! rc)).
Proof.
  intros r Hcm Hm Hc Hrc Hr Hd Hb Hrand Hpub Hwait.
  unfold OnEvent. rewrite M_bind_run. unfold gets at 1. rewrite Hc. fold r. rewrite Hr, Hd, Hb.
  rewrite M_bind_run. cbv beta iota zeta delta [emit modify gets].
  rewrite M_bind_run. cbv beta iota zeta. rewrite M_bind_run.
  set (s1 := s <| slog := _ |>). set (pub := Build_Publishing _ _ _ _ _).
  assert (Hdo : (doPublish cfg env c (rExchange r) (rRoutingKey r) pub s1).1
    = returned_error <$> last_return (hex_encode rand) (default [] (deliver_returns rs (bufs s) !! rc))).
  { unfold doPublish. rewrite Hcm, Hm, M_bind_run. unfold newMessageId, gets, modify.
    cbv beta iota zeta. rewrite M_bind_run, Hrand. set (mid := hex_encode rand).
    set (s2 := s1 <| pending := _ |>). rewrite M_bind_run.
    unfold publishConfirmed. rewrite M_bind_run, publish_run. cbv zeta. rewrite Hpub.
    rewrite M_bind_run, waitConfirm_run. cbv zeta. rewrite Hwait. cbn [fst snd negb].
    rewrite M_bind_run, drainReturns_spec, M_bind_run. unfold gets.
    subst s2 s1. unfold rec_set, buffered. simpl. rewrite Hrc, store_returns_lookup, lookup_insert_eq.
    destruct (last_return mid _) as [ret|]; done. }
  destruct (doPublish _ _ _ _ _ _ s1) as [err s2]. exact Hdo.
Qed.

(** ** SetChannel *)

(** A sender with no channel holds no return machinery; a connected one holds
    the kind its mode needs. *)
Definition channel_wf (cfg : SenderCfg) (s : SState) : Prop :=
  match ch_ s with
  | None => returnsCh s = None /\ returnStop s = None
  | Some _ =>
      (is_Some (returnsCh s) <-> confirmMode cfg = true) /\
      (is_Some (returnStop s) <-> confirmMode cfg = false)
  end.

(** The watcher goroutines started and not told to stop are the one
    [returnStop] belongs to. *)
Definition live_watcher (l : list Event) (stop : nat) : Prop :=
  (exists chan, EGoWatchReturns chan stop ∈ l) /\ ECloseStop stop ∉ l.

Record watch_inv (s : SState) : Prop := {
  wi_started : forall chan stop, EGoWatchReturns chan stop ∈ slog s -> stop < nextChan s;
  wi_stopped : forall stop, ECloseStop stop ∈ slog s -> stop < nextChan s;
  wi_live : forall stop, live_watcher (slog s) stop <-> returnStop s = Some stop;
}.

(** The first half of [setChannel]: tear down the previous returns state. *)
Definition torn_down (s : SState) : SState :=
  s <| slog := slog s ++ (match returnStop s with Some st => [ECloseStop st] | None => [] end) |>
    <| returnStop := None |> <| returnsCh := None |>.

Lemma enableConfirms_run env c s :
  enableConfirms env c s
  = let l := slog s ++ [EConfirm c] in (envConfirm env l, s <| slog := l |>).
Proof. done. Qed.

Lemma setChannel_run cfg env c s :
  (setChannel cfg env c s).2 =
  let s := torn_down s in
  match c with
  | None => s <| ch_ := None |>
  | Some c =>
      let l := if confirmMode cfg then slog s ++ [EConfirm c] else slog s in
      match (if confirmMode cfg then envConfirm env l else None) with
      | Some _ =>
          s <| slog := l ++ [ELog "rabbitmq sender: enable confirms failed; sender remains disconnected"] |>
            <| ch_ := None |>
      | None =>
          let n := nextChan s in
          let l := l ++ [ENotifyReturn c n] in
          if confirmMode cfg then
            s <| slog := l |> <| nextChan := S n |> <| returnsCh := Some (envNotifyReturn env l n) |>
              <| ch_ := Some c |>
          else
            s <| slog := l ++ [EGoWatchReturns (envNotifyReturn env l n) (S n)] |>
              <| nextChan := S (S n) |> <| returnStop := Some (S n) |> <| ch_ := Some c |>
      end
  end.
Proof.
  unfold setChannel, torn_down, rec_set. rewrite M_bind_run. unfold gets at 1.
  rewrite M_bind_run.
  destruct s as [ch rc [st|] p b n l]; simpl; rewrite ?app_nil_r;
    (destruct c as [c|]; [|done]); simpl;
    rewrite M_bind_run; destruct (confirmMode cfg); simpl; try done;
    rewrite M_bind_run, enableConfirms_run; unfold rec_set; simpl;
    destruct (envConfirm env _); done.
Qed.

Lemma watch_inv_torn_down s : watch_inv s -> watch_inv (torn_down s).
Proof.
  intros [Ha Hb Hl]. unfold torn_down, rec_set. constructor; simpl.
  - intros chan stop [Hin|Hin]%elem_of_app; [eauto|]. destruct (returnStop s); set_solver.
  - intros stop [Hin|Hin]%elem_of_app; [eauto|].
    destruct (returnStop s) as [st|] eqn:Hs; [|set_solver].
    assert (st = stop) as -> by set_solver. destruct (proj2 (Hl stop) eq_refl) as [[chan ?] _]. eauto.
  - intros stop. split; [|done]. intros [[chan Hin] Hno]. exfalso.
    assert (returnStop s = Some stop) as Hs.
    { apply Hl. split; [|set_solver]. exists chan. destruct (returnStop s); set_solver. }
    rewrite Hs in Hno. set_solver.
Qed.

(** Appending events that neither start nor stop a watcher. *)
Lemma live_watcher_quiet l l' stop :
  (forall chan st, EGoWatchReturns chan st ∉ l') -> (forall st, ECloseStop st ∉ l') ->
  live_watcher (l ++ l') stop <-> live_watcher l stop.
Proof. unfold live_watcher. setoid_rewrite elem_of_app. naive_solver. Qed.

(** C28: Across any SetChannel the return watchers started and not stopped are
    exactly the one the sender's stop signal belongs to: no watcher leaks. *)
Theorem setChannel_watchers cfg env c s :
  watch_inv s -> watch_inv (setChannel cfg env c s).2.
Proof.
  intros Hinv%watch_inv_torn_down. rewrite setChannel_run. cbv zeta.
  set (t := torn_down s) in *. assert (Hnone : returnStop t = None) by done. clearbody t. clear s.
  destruct Hinv as [Ha Hb Hl].
  destruct c as [c|]; [|by constructor].
  destruct (confirmMode cfg); [destruct (envConfirm env _)|].
  - unfold rec_set. constructor; simpl.
    + intros chan stop. rewrite !elem_of_app. intros [[?|?]|?]; [eauto|set_solver..].
    + intros stop. rewrite !elem_of_app. intros [[?|?]|?]; [eauto|set_solver..].
    + intros stop. rewrite !live_watcher_quiet by set_solver. apply Hl.
  - unfold rec_set. constructor; simpl.
    + intros chan stop. rewrite !elem_of_app. intros [[?|?]|?]; [|set_solver..].
      apply Nat.lt_lt_succ_r. eauto.
    + intros stop. rewrite !elem_of_app. intros [[?|?]|?]; [|set_solver..].
      apply Nat.lt_lt_succ_r. eauto.
    + intros stop. rewrite !live_watcher_quiet by set_solver. apply Hl.
  - unfold rec_set. constructor; simpl.
    + intros chan stop. rewrite !elem_of_app. intros [[H|H]|H]; [|set_solver|].
      * apply Ha in H. lia.
      * apply list_elem_of_singleton in H as [= _ ->]. lia.
    + intros stop. rewrite !elem_of_app. intros [[H|H]|H]; [|set_solver..].
      apply Hb in H. lia.
    + intros stop. split.
      * intros [[chan Hin] Hno]. rewrite !elem_of_app in Hin. destruct Hin as [[Hin|?]|Hin]; [|set_solver|].
        -- exfalso. assert (returnStop t = Some stop) as Hs; [|congruence].
           apply Hl. split; [eauto|set_solver].
        -- by apply list_elem_of_singleton in Hin as [= _ ->].
      * intros [= <-]. split.
        { eexists. apply elem_of_app. right. by apply list_elem_of_singleton. }
        rewrite !elem_of_app. intros [[H|H]|H]; [|set_solver..]. apply Hb in H. lia.
Qed.

(** C29: setChannel stops the watcher of the channel it replaces and keeps the
    pending map. It installs the channel it is given, in confirm mode only
    once the broker has agreed to confirms -- otherwise the sender is left
    disconnected -- with exactly the return machinery the mode needs, and
    with none when disconnected; the returns a publish drains come from a
    buffer made for the new channel. *)
Theorem setChannel_spec cfg env c s :
  let s' := (setChannel cfg env c s).2 in
  channel_wf cfg s' /\ pending s' = pending s /\
  (forall st, returnStop s = Some st -> ECloseStop st ∈ slog s') /\
  ch_ s' = match c with
           | Some k =>
               if confirmMode cfg && bool_decide (is_Some (envConfirm env (slog (torn_down s) ++ [EConfirm k])))
               then None else Some k
           | None => None
           end /\
  (forall r, returnsCh s' = Some r -> exists k l, c = Some k /\ slog s' = l ++ [EConfirm k; ENotifyReturn k (nextChan s)] /\
     r = envNotifyReturn env (slog s') (nextChan s)).
Proof.
  simpl. rewrite setChannel_run. cbv zeta. unfold channel_wf, torn_down, rec_set.
  assert (forall st l, returnStop s = Some st -> ECloseStop st ∈
    (slog s ++ match returnStop s with Some st => [ECloseStop st] | None => [] end) ++ l) as Hst.
  { intros st l ->. rewrite !elem_of_app. left. right. by apply list_elem_of_singleton. }
  destruct c as [c|]; simpl.
  2: { split_and!; auto; [|done]. intros st Hs. specialize (Hst st [] Hs). by rewrite app_nil_r in Hst. }
  destruct (confirmMode cfg) eqn:Hm; [destruct (envConfirm env _) eqn:He|]; simpl.
  - split_and!; try done. intros st Hs. rewrite <- app_assoc. by apply Hst.
  - split_and!; try done.
    + intros st Hs. rewrite <- app_assoc. by apply Hst.
    + intros r [= <-]. exists c. eexists. split_and!; [done|by rewrite <- app_assoc|done].
  - split_and!; try done. intros st Hs. rewrite <- app_assoc. by apply Hst.
Qed.

(** ** Witnesses *)

Definition sample_cfg : SenderCfg :=
  {| clientName := "c"; exchange_ := "ex"; topicMappings := []; defaultXform := DefaultTopicSlashToDot;
     mandatory_ := true; persistent_ := true; confirmMode := true; wireFormat := sample_wire;
     metrics_ := Metrics.Sender.NewSenderMetrics "c" true |}.

Definition sample_return : Return_ := {| rtReplyCode := 312; rtReplyText := "NO_ROUTE"; rtExchange := "ex";
  rtRoutingKey := "a.b"; rtMessageId := hex_encode "0123456789abcdef" |}.

(** The broker acknowledges every publish, after returning it on channel 5. *)
Definition sample_env : Env :=
  {| envMatches := fun _ _ => false; envExtract := fun _ _ => ∅; envConfirm := fun _ => None;
     envNotifyReturn := fun _ chan => chan; envPublish := fun _ => None;
     envWait := fun _ => ([(5, sample_return)], (true, None)); envRand := fun _ => "0123456789abcdef";
     envSince := fun _ => 0%Z; envInject := fun _ => [("traceparent", "00-1-2-01")] |}.

Definition sample_state : SState :=
  {| ch_ := Some 1; returnsCh := Some 5; returnStop := None; pending := {["other" := None]}; bufs := ∅;
     nextChan := 6; slog := [] |}.

Lemma OnEvent_message_witness :
  exists evs pub,
    slog (OnEvent sample_cfg sample_env "a/b" (AnyString "hi") (Some {["h" := "v"]}) sample_state).2
      = slog sample_state ++ evs /\
    publishes evs = [EPublish true 1 "ex" "a.b" true pub] /\ Body pub = "hi" /\
    String.length (MessageId pub) = 32 /\ Headers pub !! "h" = Some (VStr "v").
Proof.
  destruct (OnEvent_message sample_cfg sample_env 1 "a/b" (AnyString "hi") (Some {["h" := "v"]}) "hi" sample_state)
    as (evs & pub & Hl & Hp & Hb & _ & _ & Hm & Hh); try (vm_compute; reflexivity).
  exists evs, pub. split_and!; [exact Hl|exact Hp|exact Hb|exact Hm|].
  rewrite (Hh "h"); [vm_compute; reflexivity|].
  intros log kv Hkv. simpl in Hkv. apply list_elem_of_singleton in Hkv as ->. discriminate.
Defined.

Lemma OnEvent_well_typed_witness :
  exists evs, slog (OnEvent sample_cfg sample_env "a/b" (AnyString "hi") None sample_state).2 = slog sample_state ++ evs /\
    Forall (publish_typed sample_cfg) evs.
Proof.
  destruct (OnEvent_well_typed sample_cfg sample_env "a/b" (AnyString "hi") None sample_state) as (evs & Hl & Hf & _).
  - intros log. vm_compute. reflexivity.
  - exists evs. split; [exact Hl|exact Hf].
Defined.

Lemma OnEvent_pending_witness :
  dom (pending (OnEvent sample_cfg sample_env "a/b" (AnyString "hi") None sample_state).2) = {["other"]}.
Proof.
  rewrite (OnEvent_pending sample_cfg sample_env "a/b" (AnyString "hi") None sample_state).
  - vm_compute. reflexivity.
  - intros log. apply not_elem_of_dom. vm_compute. reflexivity.
Defined.

Lemma OnEvent_mandatory_outcome_witness :
  (OnEvent sample_cfg sample_env "a/b" (AnyString "hi") None sample_state).1 = Some (returned_error sample_return).
Proof.
  rewrite (OnEvent_mandatory_outcome sample_cfg sample_env 1 5 "a/b" (AnyString "hi") None "hi" sample_state
    "0123456789abcdef" [(5, sample_return)]); intros; vm_compute; reflexivity.
Defined.

Definition unconnected : SState :=
  {| ch_ := None; returnsCh := None; returnStop := None; pending := ∅; bufs := ∅; nextChan := 0; slog := [] |}.

Definition plain_cfg : SenderCfg :=
  {| clientName := "c"; exchange_ := "ex"; topicMappings := []; defaultXform := DefaultTopicSlashToDot;
     mandatory_ := false; persistent_ := true; confirmMode := false; wireFormat := sample_wire; metrics_ := None |}.

Lemma setChannel_watchers_witness :
  let s := (setChannel plain_cfg sample_env (Some 1) unconnected).2 in
  watch_inv s /\ live_watcher (slog s) 1.
Proof.
  intros s. assert (watch_inv unconnected) as H0.
  { split; simpl.
    - intros chan stop H. by apply elem_of_nil in H.
    - intros stop H. by apply elem_of_nil in H.
    - intros stop. split; [|discriminate]. intros [[chan H] _]. by apply elem_of_nil in H. }
  assert (watch_inv s) as H by exact (setChannel_watchers plain_cfg sample_env (Some 1) unconnected H0).
  split; [exact H|]. apply (wi_live s H). vm_compute. reflexivity.
Defined.
