(* ===== verification/SenderReturns.v ===== *)
(** * Concurrent publishers and mandatory returns: src/sender/sender.go

    [OnEvent] runs on many goroutines at once. In confirm mode they share the
    [pending] map and the buffered returns channel, and each one drains that
    channel for everybody after its own ack. This file interleaves them at
    the granularity of the code's shared accesses, together with the broker
    and the library's dispatcher, and shows that an acknowledged publish
    reports a return exactly when the broker returned that message -- as long
    as the sender's channel is not replaced meanwhile. A run that replaces it
    shows the return being lost.

    Each goroutine is named by its MessageId, which is fresh. *)

From S2P Require Import Prelude GoLib Sender.

(** Where a publishing goroutine is, between two shared accesses of
    [OnEvent] lines 327 to 368 and [drainReturns]. *)
Inductive Outcome := OOk | OReturned (r : Return_) | ONack | OConfirmErr.

Inductive PC :=
| Registered                        (* s.pending.Store(mid, pending) done *)
| Waiting                           (* published; in deferred.WaitContext *)
| Acked                             (* the wait returned an ack *)
| HaveChan (c : option nat)         (* drainReturns has read s.returnsCh *)
| Draining (c : nat)                (* holds drainMu, at the select *)
| Handling (c : nat) (r : Return_)  (* holds drainMu, received r, in handleReturn *)
| Checking                          (* drained; about to read pending.ret *)
| Done (o : Outcome).               (* entry deleted, OnEvent returned *)

(** What the broker sends, in the order it sends it. *)
Inductive Frame :=
| FReturn (r : Return_)
| FConfirm (mid : string) (ack : bool).

Record CState := {
  cPending : gmap string (option Return_);
  cReturnsCh : option nat;
  cBufs : gmap nat (list Return_);
  cDrainMu : option string;
  cPC : gmap string PC;
  cWire : list Frame;
  bReturned : gmap string Return_;
  bConfirmed : gset string;
}.

#[export] Instance Return_eq_dec : EqDecision Return_.
Proof. solve_decision. Defined.
#[export] Instance Outcome_eq_dec : EqDecision Outcome.
Proof. solve_decision. Defined.
#[export] Instance PC_eq_dec : EqDecision PC.
Proof. solve_decision. Defined.
#[export] Instance Frame_eq_dec : EqDecision Frame.
Proof. solve_decision. Defined.

Definition buf (s : CState) (c : nat) : list Return_ := default [] (cBufs s !! c).

(** [make(chan amqp.Return, 32)]. *)
Definition returns_cap : nat := 32.

(** [if ret := pending.ret.Load(); ret != nil]. *)
Definition check_entry (e : option (option Return_)) : Outcome :=
  match e with Some (Some r) => OReturned r | _ => OOk end.

Inductive label :=
| LRegister (mid : string) | LPublish (mid : string)
| LBrokerReturn (r : Return_) | LBrokerConfirm (mid : string) (ack : bool)
| LDispatch | LGiveUp (mid : string) | LReadChan (mid : string) | LLock (mid : string)
| LReceive (mid : string) | LHandle (mid : string) | LUnlock (mid : string) | LCheck (mid : string)
| LSwapChannel (c : option nat).

Section returns.
(** The returns channel registered on the AMQP channel everyone publishes on. *)
Context (notify : nat).

Inductive step : CState -> label -> CState -> Prop :=
| st_register p rc b mu pc w br bc mid :
    pc !! mid = None ->
    step (Build_CState p rc b mu pc w br bc) (LRegister mid)
         (Build_CState (<[mid := None]> p) rc b mu (<[mid := Registered]> pc) w br bc)
| st_publish p rc b mu pc w br bc mid :
    pc !! mid = Some Registered ->
    step (Build_CState p rc b mu pc w br bc) (LPublish mid)
         (Build_CState p rc b mu (<[mid := Waiting]> pc) w br bc)
(** The broker returns a message at most once, after it was published and
    before it confirms it. *)
| st_broker_return p rc b mu pc w br bc r x :
    pc !! rtMessageId r = Some x -> x <> Registered ->
    br !! rtMessageId r = None -> rtMessageId r ∉ bc ->
    step (Build_CState p rc b mu pc w br bc) (LBrokerReturn r)
         (Build_CState p rc b mu pc (w ++ [FReturn r]) (<[rtMessageId r := r]> br) bc)
| st_broker_confirm p rc b mu pc w br bc mid ack x :
    pc !! mid = Some x -> x <> Registered -> mid ∉ bc ->
    step (Build_CState p rc b mu pc w br bc) (LBrokerConfirm mid ack)
         (Build_CState p rc b mu pc (w ++ [FConfirm mid ack]) br ({[mid]} ∪ bc))
(** The library takes frames off the wire in order; a full returns channel
    blocks it. *)
| st_dispatch_return p rc b mu pc w br bc r :
    length (default [] (b !! notify)) < returns_cap ->
    step (Build_CState p rc b mu pc (FReturn r :: w) br bc) LDispatch
         (Build_CState p rc (<[notify := default [] (b !! notify) ++ [r]]> b) mu pc w br bc)
| st_dispatch_ack p rc b mu pc w br bc mid :
    pc !! mid = Some Waiting ->
    step (Build_CState p rc b mu pc (FConfirm mid true :: w) br bc) LDispatch
         (Build_CState p rc b mu (<[mid := Acked]> pc) w br bc)
| st_dispatch_nack p rc b mu pc w br bc mid :
    pc !! mid = Some Waiting ->
    step (Build_CState p rc b mu pc (FConfirm mid false :: w) br bc) LDispatch
         (Build_CState (delete mid p) rc b mu (<[mid := Done ONack]> pc) w br bc)
(** A confirm nobody waits for any more. *)
| st_dispatch_late p rc b mu pc w br bc mid ack :
    pc !! mid <> Some Waiting ->
    step (Build_CState p rc b mu pc (FConfirm mid ack :: w) br bc) LDispatch
         (Build_CState p rc b mu pc w br bc)
(** The wait's context expires, or the publish itself failed. *)
| st_give_up p rc b mu pc w br bc mid :
    pc !! mid = Some Registered \/ pc !! mid = Some Waiting ->
    step (Build_CState p rc b mu pc w br bc) (LGiveUp mid)
         (Build_CState (delete mid p) rc b mu (<[mid := Done OConfirmErr]> pc) w br bc)
| st_read_chan p rc b mu pc w br bc mid :
    pc !! mid = Some Acked ->
    step (Build_CState p rc b mu pc w br bc) (LReadChan mid)
         (Build_CState p rc b mu
            (<[mid := match rc with None => Checking | Some _ => HaveChan rc end]> pc) w br bc)
| st_lock p rc b pc w br bc mid c :
    pc !! mid = Some (HaveChan (Some c)) ->
    step (Build_CState p rc b None pc w br bc) (LLock mid)
         (Build_CState p rc b (Some mid) (<[mid := Draining c]> pc) w br bc)
| st_receive p rc b mu pc w br bc mid c r rs :
    pc !! mid = Some (Draining c) -> b !! c = Some (r :: rs) ->
    step (Build_CState p rc b mu pc w br bc) (LReceive mid)
         (Build_CState p rc (<[c := rs]> b) mu (<[mid := Handling c r]> pc) w br bc)
| st_handle p rc b mu pc w br bc mid c r :
    pc !! mid = Some (Handling c r) ->
    step (Build_CState p rc b mu pc w br bc) (LHandle mid)
         (Build_CState (store_return r p) rc b mu (<[mid := Draining c]> pc) w br bc)
| st_unlock p rc b pc w br bc mid c :
    pc !! mid = Some (Draining c) -> default [] (b !! c) = [] ->
    step (Build_CState p rc b (Some mid) pc w br bc) (LUnlock mid)
         (Build_CState p rc b None (<[mid := Checking]> pc) w br bc)
| st_check p rc b mu pc w br bc mid :
    pc !! mid = Some Checking ->
    step (Build_CState p rc b mu pc w br bc) (LCheck mid)
         (Build_CState (delete mid p) rc b mu
            (<[mid := Done (check_entry (p !! mid))]> pc) w br bc)
(** [SetChannel] with another channel, or with nil. *)
| st_swap p rc b mu pc w br bc c :
    step (Build_CState p rc b mu pc w br bc) (LSwapChannel c)
         (Build_CState p c b mu pc w br bc).

Definition init : CState := Build_CState ∅ (Some notify) ∅ None ∅ [] ∅ ∅.

(** ** The invariant *)

(** Past its confirm. *)
Definition confirmed_pc (x : PC) : bool :=
  match x with
  | Registered | Waiting | Done OConfirmErr => false
  | _ => true
  end.

Definition holds_lock (x : PC) : bool :=
  match x with Draining _ | Handling _ _ => true | _ => false end.

(** Still has its pending entry. *)
Definition live_pc (x : PC) : bool := match x with Done _ => false | _ => true end.

(** The returns channel a draining goroutine works on. *)
Definition chan_of (x : PC) : option (option nat) :=
  match x with
  | HaveChan c => Some c
  | Draining c | Handling c _ => Some (Some c)
  | _ => None
  end.

(** A return not yet stored in a pending entry. *)
Definition in_flight (b : gmap nat (list Return_)) (pc : gmap string PC) (w : list Frame)
    (r : Return_) : Prop :=
  FReturn r ∈ w \/ r ∈ default [] (b !! notify) \/ exists mid c, pc !! mid = Some (Handling c r).

(** No frame for [mid] follows its confirm. *)
Fixpoint ordered (w : list Frame) : Prop :=
  match w with
  | [] => True
  | FConfirm mid _ :: w' => (forall r, FReturn r ∈ w' -> rtMessageId r <> mid) /\ ordered w'
  | FReturn _ :: w' => ordered w'
  end.

Record inv (s : CState) : Prop := {
  i_chan : cReturnsCh s = Some notify;
  i_pcchan : forall mid x c, cPC s !! mid = Some x -> chan_of x = Some c -> c = Some notify;
  i_lock : forall mid x, cPC s !! mid = Some x -> holds_lock x = true -> cDrainMu s = Some mid;
  i_live : forall mid, is_Some (cPending s !! mid) <-> exists x, cPC s !! mid = Some x /\ live_pc x = true;
  i_wired : forall mid ack, FConfirm mid ack ∈ cWire s -> mid ∈ bConfirmed s;
  i_confirmed : forall mid x, cPC s !! mid = Some x -> confirmed_pc x = true ->
    mid ∈ bConfirmed s /\ forall r, FReturn r ∈ cWire s -> rtMessageId r <> mid;
  i_ordered : ordered (cWire s);
  i_sound : forall r, in_flight (cBufs s) (cPC s) (cWire s) r -> bReturned s !! rtMessageId r = Some r;
  i_stored : forall mid r, cPending s !! mid = Some (Some r) -> bReturned s !! mid = Some r;
  i_complete : forall mid x r, cPC s !! mid = Some x -> live_pc x = true ->
    bReturned s !! mid = Some r -> in_flight (cBufs s) (cPC s) (cWire s) r \/ cPending s !! mid = Some (Some r);
  i_checking : forall mid r, cPC s !! mid = Some Checking -> bReturned s !! mid = Some r ->
    cPending s !! mid = Some (Some r);
  i_known : forall mid r, bReturned s !! mid = Some r -> rtMessageId r = mid;
  i_fresh : forall mid, mid ∈ bConfirmed s \/ is_Some (bReturned s !! mid) ->
    exists x, cPC s !! mid = Some x /\ x <> Registered;
  i_ok : forall mid, cPC s !! mid = Some (Done OOk) -> bReturned s !! mid = None;
  i_returned : forall mid r, cPC s !! mid = Some (Done (OReturned r)) -> bReturned s !! mid = Some r;
}.

(** ** Preservation *)

(** Case on each lookup in an updated map. *)
Ltac upd :=
  repeat match goal with
         | H : <[_ := _]> _ !! _ = Some _ |- _ => apply lookup_insert_Some in H as [[? ?]|[? H]]; subst
         | H : <[?k := _]> _ !! ?k = Some _ |- _ => rewrite lookup_insert_eq in H
         end.

Definition is_handling (x : PC) : bool := match x with Handling _ _ => true | _ => false end.

Lemma in_flight_pc b (pc : gmap string PC) w mid x y r :
  pc !! mid = Some x -> is_handling x = false -> is_handling y = false ->
  in_flight b (<[mid := y]> pc) w r <-> in_flight b pc w r.
Proof.
  intros Hx Hhx Hhy. unfold in_flight. split.
  - intros [?|[?|(m & c & Hm)]]; [auto..|]. upd; [done|]. eauto 10.
  - intros [?|[?|(m & c & Hm)]]; [auto..|]. right. right. exists m, c.
    rewrite lookup_insert_ne; [done|]. intros <-. by simplify_eq.
Qed.

(** A goroutine moves on, touching neither the entries nor the buffers. *)
Lemma inv_pc p rc b mu mu' pc w br bc mid x y :
  inv (Build_CState p rc b mu pc w br bc) ->
  pc !! mid = Some x -> live_pc x = true -> live_pc y = true ->
  is_handling x = false -> is_handling y = false -> y <> Registered ->
  (confirmed_pc y = true -> mid ∈ bc /\ forall r, FReturn r ∈ w -> rtMessageId r <> mid) ->
  (forall c, chan_of y = Some c -> c = Some notify) ->
  (holds_lock y = true -> mu' = Some mid) ->
  (forall m z, m <> mid -> pc !! m = Some z -> holds_lock z = true -> mu' = Some m) ->
  (forall r, y = Checking -> br !! mid = Some r -> p !! mid = Some (Some r)) ->
  inv (Build_CState p rc b mu' (<[mid := y]> pc) w br bc).
Proof.
  intros [] Hx Hlx Hly Hhx Hhy Hreg Hconf Hchan Hl1 Hl2 Hchk. simpl in *.
  constructor; simpl; try done.
  - intros m z c Hm. upd; eauto.
  - intros m z Hm. upd; eauto.
  - intros m. rewrite i_live0. split; intros (z & Hz & Hlz).
    + destruct (decide (m = mid)) as [->|]; [exists y; by rewrite lookup_insert_eq|].
      exists z. by rewrite lookup_insert_ne.
    + upd; [by exists x|by exists z].
  - intros m z Hm. upd; eauto.
  - intros r Hr. eapply i_sound0. by apply (in_flight_pc _ _ _ _ _ _ _ Hx Hhx Hhy).
  - intros m z r Hm Hlz Hr.
    assert (in_flight b pc w r \/ p !! m = Some (Some r)) as [H|H]; [|left|auto].
    + upd; eauto.
    + by apply (in_flight_pc _ _ _ _ _ _ _ Hx Hhx Hhy).
  - intros m r Hm Hr. upd; eauto.
  - intros m Hm. destruct (i_fresh0 m Hm) as (z & Hz & Hzr).
    destruct (decide (m = mid)) as [->|]; [exists y; by rewrite lookup_insert_eq|].
    exists z. by rewrite lookup_insert_ne.
  - intros m Hm. upd; [done|eauto].
  - intros m r Hm. upd; [done|eauto].
Qed.

(** A goroutine returns and its entry goes. *)
Lemma inv_done p rc b mu pc w br bc mid x o :
  inv (Build_CState p rc b mu pc w br bc) ->
  pc !! mid = Some x -> live_pc x = true -> is_handling x = false -> holds_lock x = false ->
  (confirmed_pc (Done o) = true -> mid ∈ bc /\ forall r, FReturn r ∈ w -> rtMessageId r <> mid) ->
  (o = OOk -> br !! mid = None) -> (forall r, o = OReturned r -> br !! mid = Some r) ->
  inv (Build_CState (delete mid p) rc b mu (<[mid := Done o]> pc) w br bc).
Proof.
  intros [] Hx Hlx Hhx Hkx Hconf Hok Hret. simpl in *.
  assert (Hhy : is_handling (Done o) = false) by done. constructor; simpl; try done.
  - intros m z c Hm. upd; [done|eauto].
  - intros m z Hm. upd; [done|eauto].
  - intros m. destruct (decide (m = mid)) as [->|].
    + rewrite lookup_delete_eq. split; [by intros [? ?]|]. intros (z & Hz & Hlz). by upd.
    + rewrite lookup_delete_ne, lookup_insert_ne by done. apply i_live0.
  - intros m z Hm. upd; eauto.
  - intros r Hr. eapply i_sound0. by apply (in_flight_pc _ _ _ _ _ _ _ Hx Hhx Hhy).
  - intros m r [? ?]%lookup_delete_Some. eauto.
  - intros m z r Hm Hlz Hr. upd; [done|].
    destruct (i_complete0 _ _ _ Hm Hlz Hr) as [H'|H']; [left|right].
    + by apply (in_flight_pc _ _ _ _ _ _ _ Hx Hhx Hhy).
    + by rewrite lookup_delete_ne.
  - intros m r Hm Hr. upd; [done|]. rewrite lookup_delete_ne; eauto.
  - intros m Hm. destruct (i_fresh0 m Hm) as (z & Hz & Hzr).
    destruct (decide (m = mid)) as [->|]; [exists (Done o); by rewrite lookup_insert_eq|].
    exists z. by rewrite lookup_insert_ne.
  - intros m Hm. upd; [|eauto]. apply Hok. congruence.
  - intros m r Hm. upd; [|eauto]. apply Hret. congruence.
Qed.

(** A confirm leaves the wire. *)
Lemma inv_pop_confirm p rc b mu pc w br bc mid ack :
  inv (Build_CState p rc b mu pc (FConfirm mid ack :: w) br bc) ->
  inv (Build_CState p rc b mu pc w br bc) /\
  mid ∈ bc /\ (forall r, FReturn r ∈ w -> rtMessageId r <> mid).
Proof.
  intros []. simpl in *. destruct i_ordered0 as [Hno Hord]. split; [|split; [|done]].
  - constructor; simpl; try done.
    + intros m a Hin. apply (i_wired0 m a). by right.
    + intros m z Hm Hc. destruct (i_confirmed0 m z Hm Hc) as [Hmb Hw]. split; [done|].
      intros r Hr. apply Hw. by right.
    + intros r [Hr|Hr]; apply i_sound0; [left; by right|right; exact Hr].
    + intros m z r Hm Hl Hr. destruct (i_complete0 _ _ _ Hm Hl Hr) as [[H|H]|H]; [|left; right; exact H|auto].
      left. left. by apply elem_of_cons in H as [?|?].
  - apply (i_wired0 mid ack). left.
Qed.

(** Anything known of a MessageId means its goroutine has published. *)
Lemma fresh_unknown p rc b mu pc w br bc mid :
  inv (Build_CState p rc b mu pc w br bc) -> pc !! mid = None -> br !! mid = None /\ mid ∉ bc.
Proof.
  intros Hi Hm. pose proof (i_fresh _ Hi mid) as H. simpl in H. split.
  - destruct (br !! mid) eqn:Hb; [|done]. destruct H as (? & ? & ?); [eauto|congruence].
  - intros Hc. destruct H as (? & ? & ?); [auto|congruence].
Qed.

Lemma inv_register p rc b mu pc w br bc mid :
  inv (Build_CState p rc b mu pc w br bc) -> pc !! mid = None ->
  inv (Build_CState (<[mid := None]> p) rc b mu (<[mid := Registered]> pc) w br bc).
Proof.
  intros Hi Hm. destruct (fresh_unknown _ _ _ _ _ _ _ _ _ Hi Hm) as [Hbr Hbc].
  destruct Hi. simpl in *.
  assert (Hfl : forall r, in_flight b (<[mid := Registered]> pc) w r <-> in_flight b pc w r).
  { intros r. unfold in_flight. split.
    - intros [?|[?|(m & c & H)]]; [auto..|]. upd; [done|]. eauto 10.
    - intros [?|[?|(m & c & H)]]; [auto..|]. right. right. exists m, c.
      rewrite lookup_insert_ne; [done|]. intros <-. congruence. }
  constructor; simpl; try done.
  - intros m z c H. upd; [done|eauto].
  - intros m z H. upd; [done|eauto].
  - intros m. destruct (decide (m = mid)) as [->|].
    + rewrite !lookup_insert_eq. split; intros _; [by exists Registered|by eexists].
    + rewrite !lookup_insert_ne by done. apply i_live0.
  - intros m z H. upd; [done|eauto].
  - intros r H. by apply i_sound0, Hfl.
  - intros m r H. upd; [done|eauto].
  - intros m z r H Hl Hr. upd; [congruence|].
    destruct (i_complete0 _ _ _ H Hl Hr); [left; by apply Hfl|right; by rewrite lookup_insert_ne].
  - intros m r H Hr. upd; [done|]. rewrite lookup_insert_ne by done. eauto.
  - intros m H. destruct (i_fresh0 m H) as (z & Hz & Hzr). exists z.
    rewrite lookup_insert_ne; [done|]. intros <-. congruence.
  - intros m H. upd; [done|eauto].
  - intros m r H. upd; [done|eauto].
Qed.

Lemma ordered_app_return w r :
  ordered w -> (forall ack, FConfirm (rtMessageId r) ack ∉ w) -> ordered (w ++ [FReturn r]).
Proof.
  induction w as [|[r'|m a] w IH]; simpl; intros Ho Hno; [done|..].
  - apply IH; [done|]. intros ack Hin. apply (Hno ack). by right.
  - destruct Ho as [Hm Ho]. split.
    + intros r' [?|Heq]%elem_of_app; [auto|]. apply list_elem_of_singleton in Heq as [= ->].
      intros <-. apply (Hno a). left.
    + apply IH; [done|]. intros ack Hin. apply (Hno ack). by right.
Qed.

Lemma ordered_app_confirm w mid ack : ordered w -> ordered (w ++ [FConfirm mid ack]).
Proof.
  induction w as [|[r'|m a] w IH]; simpl; [set_solver|done|].
  intros [Hm Ho]. split; [|auto]. intros r' [?|Heq]%elem_of_app; [auto|].
  by apply list_elem_of_singleton in Heq.
Qed.

Lemma inv_broker_return p rc b mu pc w br bc r x :
  inv (Build_CState p rc b mu pc w br bc) ->
  pc !! rtMessageId r = Some x -> x <> Registered ->
  br !! rtMessageId r = None -> rtMessageId r ∉ bc ->
  inv (Build_CState p rc b mu pc (w ++ [FReturn r]) (<[rtMessageId r := r]> br) bc).
Proof.
  intros [] Hx Hxr Hbr Hbc. simpl in *.
  assert (Hcf : forall z, pc !! rtMessageId r = Some z -> confirmed_pc z = false).
  { intros z Hz. destruct (confirmed_pc z) eqn:Hc; [|done]. by destruct (i_confirmed0 _ _ Hz Hc). }
  assert (Hfl : forall r', in_flight b pc (w ++ [FReturn r]) r' <-> r' = r \/ in_flight b pc w r').
  { intros r'. unfold in_flight. rewrite elem_of_app, list_elem_of_singleton. naive_solver. }
  constructor; simpl; try done.
  - intros m a [?|H]%elem_of_app; [eauto|]. by apply list_elem_of_singleton in H.
  - intros m z Hm Hc. destruct (i_confirmed0 m z Hm Hc) as [Hmb Hw]. split; [done|].
    intros r' [?|H]%elem_of_app; [auto|]. apply list_elem_of_singleton in H as [= ->].
    intros <-. congruence.
  - apply ordered_app_return; [done|]. intros ack H. by apply i_wired0 in H.
  - intros r' [->|H]%Hfl; [by rewrite lookup_insert_eq|].
    apply i_sound0 in H. rewrite lookup_insert_ne; [done|]. congruence.
  - intros m r' H. apply i_stored0 in H. rewrite lookup_insert_ne; [done|]. congruence.
  - intros m z r' Hm Hl Hr. rewrite Hfl. upd; [auto|].
    destruct (i_complete0 _ _ _ Hm Hl Hr); auto.
  - intros m r' Hm Hr. upd; [|eauto]. by apply Hcf in Hm.
  - intros m r' H. upd; eauto.
  - intros m H. destruct (decide (m = rtMessageId r)) as [->|]; [eauto|].
    apply i_fresh0. by rewrite lookup_insert_ne in H.
  - intros m H. rewrite lookup_insert_ne; [eauto|]. intros <-. by apply Hcf in H.
  - intros m r' H. rewrite lookup_insert_ne; [eauto|]. intros <-. by apply Hcf in H.
Qed.

Lemma inv_broker_confirm p rc b mu pc w br bc mid ack x :
  inv (Build_CState p rc b mu pc w br bc) -> pc !! mid = Some x -> x <> Registered -> mid ∉ bc ->
  inv (Build_CState p rc b mu pc (w ++ [FConfirm mid ack]) br ({[mid]} ∪ bc)).
Proof.
  intros [] Hx Hxr Hbc. simpl in *.
  assert (Hfl : forall r', in_flight b pc (w ++ [FConfirm mid ack]) r' <-> in_flight b pc w r').
  { intros r'. unfold in_flight. rewrite elem_of_app, list_elem_of_singleton. naive_solver. }
  constructor; simpl; try done.
  - intros m a [H|H]%elem_of_app; [apply i_wired0 in H; set_solver|].
    apply list_elem_of_singleton in H as [= -> _]. set_solver.
  - intros m z Hm Hc. destruct (i_confirmed0 m z Hm Hc) as [Hmb Hw]. split; [set_solver|].
    intros r' [?|H]%elem_of_app; [auto|]. by apply list_elem_of_singleton in H.
  - by apply ordered_app_confirm.
  - intros r' H. by apply i_sound0, Hfl.
  - intros m z r' Hm Hl Hr. rewrite Hfl. eauto.
  - intros m [H|H]; [|auto]. apply elem_of_union in H as [->%elem_of_singleton|H]; [eauto|auto].
Qed.

Lemma inv_dispatch_return p rc b mu pc w br bc r :
  inv (Build_CState p rc b mu pc (FReturn r :: w) br bc) ->
  inv (Build_CState p rc (<[notify := default [] (b !! notify) ++ [r]]> b) mu pc w br bc).
Proof.
  intros []. simpl in *.
  assert (Hfl : forall r', in_flight (<[notify := default [] (b !! notify) ++ [r]]> b) pc w r'
                           <-> in_flight b pc (FReturn r :: w) r').
  { intros r'. unfold in_flight. rewrite lookup_insert_eq, elem_of_cons. simpl.
    rewrite elem_of_app, list_elem_of_singleton. naive_solver. }
  constructor; simpl; try done.
  - intros m a H. eapply i_wired0. by right.
  - intros m z Hm Hc. destruct (i_confirmed0 m z Hm Hc) as [Hmb Hw]. split; [done|].
    intros r' H. apply Hw. by right.
  - intros r' H. by apply i_sound0, Hfl.
  - intros m z r' Hm Hl Hr. rewrite Hfl. eauto.
Qed.

(** The lock holder's pc changes between [Draining] and [Handling]. *)
Lemma holder_live (pc : gmap string PC) mid x y m :
  pc !! mid = Some x -> live_pc x = true -> live_pc y = true ->
  (exists z, <[mid := y]> pc !! m = Some z /\ live_pc z = true) <->
  (exists z, pc !! m = Some z /\ live_pc z = true).
Proof.
  intros Hx Hlx Hly. split; intros (z & Hz & Hlz).
  - upd; [by exists x|by exists z].
  - destruct (decide (m = mid)) as [->|]; [exists y; by rewrite lookup_insert_eq|].
    exists z. by rewrite lookup_insert_ne.
Qed.

Lemma holder_fresh (pc : gmap string PC) mid y m :
  y <> Registered ->
  (exists z, pc !! m = Some z /\ z <> Registered) ->
  exists z, <[mid := y]> pc !! m = Some z /\ z <> Registered.
Proof.
  intros Hy (z & Hz & Hr). destruct (decide (m = mid)) as [->|].
  - exists y. by rewrite lookup_insert_eq.
  - exists z. by rewrite lookup_insert_ne.
Qed.

Lemma inv_receive p rc b mu pc w br bc mid c r rs :
  inv (Build_CState p rc b mu pc w br bc) ->
  pc !! mid = Some (Draining c) -> b !! c = Some (r :: rs) ->
  inv (Build_CState p rc (<[c := rs]> b) mu (<[mid := Handling c r]> pc) w br bc).
Proof.
  intros [] Hx Hb. simpl in *.
  assert (c = notify) as -> by (by injection (i_pcchan0 _ _ _ Hx eq_refl)).
  assert (Hfl : forall r', in_flight (<[notify := rs]> b) (<[mid := Handling notify r]> pc) w r'
                           <-> in_flight b pc w r').
  { intros r'. unfold in_flight. rewrite lookup_insert_eq, Hb. simpl. rewrite elem_of_cons. split.
    - intros [?|[?|(m & c & H)]]; [auto..|]. upd; [|eauto 10].
      assert (r' = r) by congruence. auto.
    - intros [?|[[->|?]|(m & c & H)]]; [auto| |auto|]; right; right.
      + exists mid, notify. by rewrite lookup_insert_eq.
      + exists m, c. rewrite lookup_insert_ne; [done|]. intros <-. congruence. }
  constructor; simpl; try done.
  - intros m z c' H. upd; [by intros [= <-]|eauto].
  - intros m z H. upd; eauto.
  - intros m. rewrite (holder_live pc mid (Draining notify)) by done. apply i_live0.
  - intros m z H. upd; eauto.
  - intros r' H. by apply i_sound0, Hfl.
  - intros m z r' H Hl Hr. rewrite Hfl. upd; eauto.
  - intros m r' H Hr. upd; [done|eauto].
  - intros m H. apply holder_fresh; [done|auto].
  - intros m H. upd; [done|eauto].
  - intros m r' H. upd; [done|eauto].
Qed.

Lemma store_return_lookup r p m :
  store_return r p !! m =
  if decide (m = rtMessageId r) then (fun _ => Some r) <$> p !! m else p !! m.
Proof.
  unfold store_return. case_decide as Hm; subst.
  - destruct (p !! rtMessageId r) eqn:H; [by rewrite lookup_insert_eq|by rewrite H].
  - destruct (p !! rtMessageId r); [by rewrite lookup_insert_ne|done].
Qed.

Lemma inv_handle p rc b mu pc w br bc mid c r :
  inv (Build_CState p rc b mu pc w br bc) -> pc !! mid = Some (Handling c r) ->
  inv (Build_CState (store_return r p) rc b mu (<[mid := Draining c]> pc) w br bc).
Proof.
  intros [] Hx. simpl in *.
  assert (Hbr : br !! rtMessageId r = Some r).
  { apply i_sound0. right. right. eauto. }
  assert (Hback : forall r', in_flight b (<[mid := Draining c]> pc) w r' -> in_flight b pc w r').
  { intros r' [?|[?|(m & c' & H)]]; unfold in_flight; [auto..|]. upd; [done|]. eauto 10. }
  assert (Hfwd : forall r', in_flight b pc w r' -> r' = r \/ in_flight b (<[mid := Draining c]> pc) w r').
  { intros r' [?|[?|(m & c' & H)]]; unfold in_flight; [auto..|].
    destruct (decide (m = mid)) as [->|]; [left; congruence|].
    right. right. right. exists m, c'. by rewrite lookup_insert_ne. }
  assert (Hst : forall m r', p !! m = Some (Some r') -> br !! m = Some r' ->
                  store_return r p !! m = Some (Some r')).
  { intros m r' Hm Hr. rewrite store_return_lookup. case_decide; subst; [|done].
    rewrite Hm. simpl. congruence. }
  constructor; simpl; try done.
  - intros m z c' H. upd; [intros [= <-]; by eapply i_pcchan0|eauto].
  - intros m z H. upd; eauto.
  - intros m. rewrite (holder_live pc mid (Handling c r)) by done. rewrite <- i_live0.
    rewrite store_return_lookup. case_decide; [|done]. by rewrite fmap_is_Some.
  - intros m z H. upd; eauto.
  - intros r' H. by apply i_sound0, Hback.
  - intros m r'. rewrite store_return_lookup. case_decide as Hm; [|apply i_stored0]. subst.
    destruct (p !! rtMessageId r); simpl; congruence.
  - intros m z r' H Hl Hr.
    assert (exists z, pc !! m = Some z /\ live_pc z = true) as (z' & Hz' & Hlz').
    { eapply (holder_live pc mid (Handling c r) (Draining c)); [done..|]. eauto. }
    destruct (i_complete0 _ _ _ Hz' Hlz' Hr) as [[->|?]%Hfwd|Hp]; [right|auto|auto].
    rewrite store_return_lookup, decide_True by (symmetry; eauto).
    assert (is_Some (p !! m)) as [e ->] by (apply i_live0; eauto). done.
  - intros m r' H Hr. upd; [done|]. apply Hst; eauto.
  - intros m H. apply holder_fresh; [done|auto].
  - intros m H. upd; [done|eauto].
  - intros m r' H. upd; [done|eauto].
Qed.

Lemma inv_init : inv init.
Proof.
  constructor; simpl; try done; unfold in_flight.
  - intros mid. rewrite !lookup_empty. split; [by intros [? ?]|]. by intros (? & ? & ?).
  - intros mid ack H. by apply elem_of_nil in H.
  - intros r [H|[H|(m & c & H)]]; [by apply elem_of_nil in H|by apply elem_of_nil in H|done].
  - intros mid [H|[? H]]; [set_solver|done].
Qed.

Definition is_swap (l : label) : bool := match l with LSwapChannel _ => true | _ => false end.

Lemma step_inv s l s' : inv s -> step s l s' -> is_swap l = false -> inv s'.
Proof.
  intros Hi Hstep Hl. destruct Hstep; try done.
  - by apply inv_register.
  - eapply inv_pc; try done. intros m z _ Hz Hh. by apply (i_lock _ Hi _ _ Hz).
  - by eapply inv_broker_return.
  - by eapply inv_broker_confirm.
  - by apply (inv_dispatch_return _ _ _ _ _ _ _ _ r).
  - destruct (inv_pop_confirm _ _ _ _ _ _ _ _ _ _ Hi) as (Hi' & ? & ?).
    eapply inv_pc; try done. intros m z _ Hz Hh. by apply (i_lock _ Hi _ _ Hz).
  - destruct (inv_pop_confirm _ _ _ _ _ _ _ _ _ _ Hi) as (Hi' & ? & ?).
    by eapply inv_done.
  - by destruct (inv_pop_confirm _ _ _ _ _ _ _ _ _ _ Hi).
  - destruct H; by eapply inv_done.
  - assert (rc = Some notify) as -> by apply (i_chan _ Hi).
    destruct (i_confirmed _ Hi _ _ H eq_refl).
    eapply inv_pc; try done.
    + by intros c [= <-].
    + intros m z _ Hz Hh. by apply (i_lock _ Hi _ _ Hz).
  - destruct (i_confirmed _ Hi _ _ H eq_refl).
    eapply inv_pc; try done.
    + intros c' [= <-]. by apply (i_pcchan _ Hi _ _ _ H).
    + intros m z Hne Hz Hh. by pose proof (i_lock _ Hi _ _ Hz Hh).
  - by eapply inv_receive.
  - by eapply inv_handle.
  - destruct (i_confirmed _ Hi _ _ H eq_refl) as [Hbc Hw].
    eapply inv_pc; try done.
    + intros m z Hne Hz Hh. pose proof (i_lock _ Hi _ _ Hz Hh) as Hmu. simpl in Hmu. congruence.
    + intros r _ Hr. assert (c = notify) as -> by (by injection (i_pcchan _ Hi _ _ _ H eq_refl)).
      destruct (i_complete _ Hi _ _ _ H eq_refl Hr) as [[Hf|[Hf|(m & c & Hm)]]|Hp]; [..|done].
      * simpl in Hf. apply Hw in Hf. by apply (i_known _ Hi) in Hr.
      * simpl in Hf. rewrite H0 in Hf. by apply elem_of_nil in Hf.
      * simpl in Hm. pose proof (i_lock _ Hi _ _ Hm eq_refl) as Hmu. simpl in Hmu.
        simplify_eq.
  - eapply inv_done; try done.
    + intros _. by destruct (i_confirmed _ Hi _ _ H eq_refl).
    + intros Ho. destruct (br !! mid) as [r|] eqn:Hr; [|done].
      pose proof (i_checking _ Hi _ _ H Hr) as Hp. simpl in Hp. by rewrite Hp in Ho.
    + intros r Ho. apply (i_stored _ Hi). simpl.
      destruct (p !! mid) as [[r'|]|]; simpl in Ho; congruence.
Qed.
End returns.

(** ** Running it *)

Definition exec (notify : nat) (s : CState) (l : label) : option CState :=
  let '(Build_CState p rc b mu pc w br bc) := s in
  match l with
  | LRegister mid =>
      match pc !! mid with
      | None => Some (Build_CState (<[mid := None]> p) rc b mu (<[mid := Registered]> pc) w br bc)
      | _ => None
      end
  | LPublish mid =>
      match pc !! mid with
      | Some Registered => Some (Build_CState p rc b mu (<[mid := Waiting]> pc) w br bc)
      | _ => None
      end
  | LBrokerReturn r =>
      let mid := rtMessageId r in
      match pc !! mid, br !! mid with
      | Some Registered, _ | None, _ | _, Some _ => None
      | Some _, None =>
          if decide (mid ∈ bc) then None
          else Some (Build_CState p rc b mu pc (w ++ [FReturn r]) (<[mid := r]> br) bc)
      end
  | LBrokerConfirm mid ack =>
      match pc !! mid with
      | Some Registered | None => None
      | Some _ =>
          if decide (mid ∈ bc) then None
          else Some (Build_CState p rc b mu pc (w ++ [FConfirm mid ack]) br ({[mid]} ∪ bc))
      end
  | LDispatch =>
      match w with
      | FReturn r :: w' =>
          if decide (length (default [] (b !! notify)) < returns_cap) then
            Some (Build_CState p rc (<[notify := default [] (b !! notify) ++ [r]]> b) mu pc w' br bc)
          else None
      | FConfirm mid ack :: w' =>
          match pc !! mid, ack with
          | Some Waiting, true => Some (Build_CState p rc b mu (<[mid := Acked]> pc) w' br bc)
          | Some Waiting, false =>
              Some (Build_CState (delete mid p) rc b mu (<[mid := Done ONack]> pc) w' br bc)
          | _, _ => Some (Build_CState p rc b mu pc w' br bc)
          end
      | [] => None
      end
  | LGiveUp mid =>
      match pc !! mid with
      | Some Registered | Some Waiting =>
          Some (Build_CState (delete mid p) rc b mu (<[mid := Done OConfirmErr]> pc) w br bc)
      | _ => None
      end
  | LReadChan mid =>
      match pc !! mid with
      | Some Acked =>
          Some (Build_CState p rc b mu
                  (<[mid := match rc with None => Checking | Some _ => HaveChan rc end]> pc) w br bc)
      | _ => None
      end
  | LLock mid =>
      match pc !! mid, mu with
      | Some (HaveChan (Some c)), None =>
          Some (Build_CState p rc b (Some mid) (<[mid := Draining c]> pc) w br bc)
      | _, _ => None
      end
  | LReceive mid =>
      match pc !! mid with
      | Some (Draining c) =>
          match b !! c with
          | Some (r :: rs) =>
              Some (Build_CState p rc (<[c := rs]> b) mu (<[mid := Handling c r]> pc) w br bc)
          | _ => None
          end
      | _ => None
      end
  | LHandle mid =>
      match pc !! mid with
      | Some (Handling c r) =>
          Some (Build_CState (store_return r p) rc b mu (<[mid := Draining c]> pc) w br bc)
      | _ => None
      end
  | LUnlock mid =>
      match pc !! mid, mu with
      | Some (Draining c), Some m =>
          if decide (m = mid /\ default [] (b !! c) = [])
          then Some (Build_CState p rc b None (<[mid := Checking]> pc) w br bc) else None
      | _, _ => None
      end
  | LCheck mid =>
      match pc !! mid with
      | Some Checking =>
          Some (Build_CState (delete mid p) rc b mu
                  (<[mid := Done (check_entry (p !! mid))]> pc) w br bc)
      | _ => None
      end
  | LSwapChannel c => Some (Build_CState p c b mu pc w br bc)
  end.

Lemma exec_step notify s l s' : exec notify s l = Some s' -> step notify s l s'.
Proof.
  destruct s as [p rc b mu pc w br bc]. intros H.
  destruct l; simpl in H; repeat (case_match; simplify_eq); simplify_eq; destruct_and?; subst;
    try (by econstructor; eauto; congruence).
Qed.

Lemma crun notify s ls s' : exec_all (exec notify) s ls = Some s' -> run (step notify) s ls s'.
Proof. apply exec_all_run, exec_step. Qed.

(** ** Properties *)

(** C10: With the channel in place, an acknowledged publish reports a return
    exactly when the broker returned its message, whoever drained it. *)
Theorem returns_correlated notify ls s mid o :
  run (step notify) (init notify) ls s -> Forall (fun l => is_swap l = false) ls ->
  cPC s !! mid = Some (Done o) -> o <> ONack -> o <> OConfirmErr ->
  o = match bReturned s !! mid with Some r => OReturned r | None => OOk end.
Proof.
  intros Hrun Hls Hpc Hn Hc.
  assert (inv notify s) as Hi.
  { clear Hpc. revert Hls Hrun. generalize (inv_init notify). generalize (init notify).
    intros s0 Hi0 Hls Hrun. induction Hrun as [|s0 l s1 ls s2 Hs Hrun IH]; [done|].
    apply Forall_cons in Hls as [Hl Hls]. apply IH; [|done]. by eapply step_inv. }
  destruct o as [|r| |]; [|..|done|done].
  - by rewrite (i_ok _ _ Hi _ Hpc).
  - by rewrite (i_returned _ _ Hi _ _ Hpc).
Qed.

(** Two publishers: the second one's drain picks up the first one's return. *)
Definition ret (mid : string) : Return_ :=
  {| rtExchange := "ex"; rtRoutingKey := "k"; rtReplyCode := 312; rtReplyText := "NO_ROUTE";
     rtMessageId := mid |}.

Definition crossed_run : list label :=
  [LRegister "a"; LRegister "b"; LPublish "a"; LPublish "b";
   LBrokerReturn (ret "a"); LBrokerConfirm "b" true; LBrokerConfirm "a" true;
   LDispatch; LDispatch; LReadChan "b"; LLock "b"; LReceive "b"; LDispatch; LReadChan "a";
   LHandle "b"; LUnlock "b"; LLock "a"; LUnlock "a"; LCheck "a"; LCheck "b"].

Definition final (ls : list label) : CState := default (init 0) (exec_all (exec 0) (init 0) ls).

Lemma returns_correlated_witness :
  cPC (final crossed_run) !! "a" = Some (Done (OReturned (ret "a"))) /\
  OReturned (ret "a") = match bReturned (final crossed_run) !! "a" with
                        | Some r => OReturned r | None => OOk end /\
  OOk = match bReturned (final crossed_run) !! "b" with
        | Some r => OReturned r | None => OOk end.
Proof.
  assert (Hrun : run (step 0) (init 0) crossed_run (final crossed_run)).
  { apply crun. vm_compute. reflexivity. }
  split; [vm_compute; reflexivity|]. split.
  - apply (returns_correlated 0 crossed_run (final crossed_run) "a");
      [exact Hrun|repeat constructor|vm_compute; reflexivity|discriminate|discriminate].
  - apply (returns_correlated 0 crossed_run (final crossed_run) "b");
      [exact Hrun|repeat constructor|vm_compute; reflexivity|discriminate|discriminate].
Defined.

(** Replacing the sender's channel between an ack and its drain loses the
    return: the publish is reported delivered though the broker returned it. *)
Definition swapped_run : list label :=
  [LRegister "a"; LPublish "a"; LBrokerReturn (ret "a"); LBrokerConfirm "a" true;
   LDispatch; LDispatch; LSwapChannel (Some 1); LReadChan "a"; LLock "a"; LUnlock "a"; LCheck "a"].

(** C39: When the sender's channel is replaced between a publish's ack and its
    drain, its return stays in the old buffer and the publish reports success. *)
Theorem return_lost_when_channel_replaced :
  exists s, run (step 0) (init 0) swapped_run s /\
    bReturned s !! "a" = Some (ret "a") /\ cPC s !! "a" = Some (Done OOk) /\
    buf s 0 = [ret "a"].
Proof.
  exists (final swapped_run). split; [apply crun; vm_compute; reflexivity|].
  split_and!; vm_compute; reflexivity.
Qed.

(** Thirty-three mandatory publishes the broker returns before confirming any. *)
Definition name (i : nat) : string := String (ascii_of_nat (65 + i)) "".

Definition backlog_run : list label :=
  flat_map (fun i => [LRegister (name i); LPublish (name i); LBrokerReturn (ret (name i))]) (seq 0 33)
  ++ map (fun i => LBrokerConfirm (name i) true) (seq 0 33)
  ++ replicate 32 LDispatch.

(** C40: The returns channel is full, nothing can be dispatched, and every
    publisher is still waiting for a confirm queued behind the blocked return. *)
Theorem returns_channel_can_wedge :
  exists s, run (step 0) (init 0) backlog_run s /\
    (forall s', ~ step 0 s LDispatch s') /\
    Forall (fun i => cPC s !! name i = Some Waiting /\ FConfirm (name i) true ∈ cWire s) (seq 0 33).
Proof.
  exists (final backlog_run). split; [apply crun; vm_compute; reflexivity|]. split.
  - intros s' Hs. set (s := final backlog_run) in *.
    assert (Hw : exists r w, cWire s = FReturn r :: w) by (vm_compute; eauto).
    assert (Hfull : ~ length (default [] (cBufs s !! 0)) < returns_cap) by (vm_compute; lia).
    clearbody s. destruct Hw as (r & w & Hw). inversion Hs; subst; simpl in *; simplify_eq; done.
  - apply (bool_decide_unpack _). vm_compute. exact I.
Qed.
