(* ===== verification/Settle.v ===== *)
(** * Settling deliveries: src/receiver/settle.go

    One [deliverySettleOps] per delivery, the epoch that invalidates it, and
    the receiver's count of unsettled deliveries. Everything outside the
    receiver -- the bus's settler, the subscriber, whatever it hands the
    settler to -- reaches a delivery only through the four methods of the ops
    object, so a piece of outside code is an [OpsProg]: any finite sequence of
    those calls, each depending on the answers so far. Theorems about outside
    code quantify over all of them. *)

From S2P Require Import Prelude GoLib Carrier Metrics.

(** ** Data *)

Inductive AckMode := AckAfterHandling | AckManual | AckNone | AckModeOther (n : Z).

#[export] Instance AckMode_eq_dec : EqDecision AckMode.
Proof. solve_decision. Defined.

Record Delivery := {
  dTag : Z;
  dRoutingKey : string;
  dExchange : string;
  dHeaders : option Table;
  dBody : option string;
}.

(** What the receiver does to the outside, oldest first. [EAck] and [ENack]
    are calls on the delivery's Acknowledger. *)
Inductive Event :=
| EAck (tag : Z) (multiple : bool)
| ENack (tag : Z) (multiple requeue : bool)
| EMetric (p : Point)
| ELog (msg : string)
| EDecodeHook (raw topic : string) (fields : option Fields)
| ESpanStart (name : string)
| ESpanError (errType : string)
| ESpanEnd
| EOnEvent (topic : string) (msg : any) (fields : option Fields) (settler : bool).

(** [deliverySettleOps]: the delivery, the epoch stamp and the released flag. *)
Record Ops := {
  oDelivery : Delivery;
  oEpoch : Z;
  oReleased : bool;
}.

(** The part of [RMQReceiver] settling touches; [ops] is every ops object ever
    built, by identity. *)
Record DState := {
  epoch : Z;
  unsettled : Z;
  ops : gmap nat Ops;
  rlog : list Event;
}.

#[export] Instance set_epoch : RecSet epoch := {| rec_set := fun v s =>
  Build_DState v (unsettled s) (ops s) (rlog s) |}.
#[export] Instance set_unsettled : RecSet unsettled := {| rec_set := fun v s =>
  Build_DState (epoch s) v (ops s) (rlog s) |}.
#[export] Instance set_ops : RecSet ops := {| rec_set := fun v s =>
  Build_DState (epoch s) (unsettled s) v (rlog s) |}.
#[export] Instance set_rlog : RecSet rlog := {| rec_set := fun v s =>
  Build_DState (epoch s) (unsettled s) (ops s) v |}.

Record RecvCfg := {
  rClientName : string;
  queue_ : string;
  ackMode : AckMode;
  rMetrics : option Metrics.Receiver.ReceiverMetrics;
}.

(** The broker's side of an acknowledgement, and the clock. *)
Record Env := {
  envAck : list Event -> option error;
  envNack : list Event -> option error;
  envSince : list Event -> Z;
}.

Definition emit (e : Event) : M DState unit := modify (fun s => s <| rlog := rlog s ++ [e] |>).
Definition record_points (ps : list Point) : M DState unit :=
  modify (fun s => s <| rlog := rlog s ++ map EMetric ps |>).

(** ** Outside code *)

Inductive OpsProg (A : Type) :=
| ODone (a : A)
| OValid (k : bool -> string -> OpsProg A)
| OAck (k : option error -> OpsProg A)
| ONack (reason : string) (k : option error -> OpsProg A)
| OKeepalive (k : bool -> option error -> OpsProg A).
Arguments ODone {A} a.
Arguments OValid {A} k.
Arguments OAck {A} k.
Arguments ONack {A} reason k.
Arguments OKeepalive {A} k.

Section settle.
Context (cfg : RecvCfg) (env : Env).

(** ** The code *)

(** [if o.released.CompareAndSwap(false, true) { o.r.unsettled.Add(-1) }]. *)
Definition release (o : nat) : M DState unit := fun s =>
  match ops s !! o with
  | Some x =>
      if oReleased x then (tt, s)
      else (tt, s <| ops := <[o := {| oDelivery := oDelivery x; oEpoch := oEpoch x; oReleased := true |}]> (ops s) |>
                  <| unsettled := wrap_i64 (unsettled s - 1) |>)
  | None => (tt, s)
  end.

(** The object's immutable fields. *)
Definition tag_of (s : DState) (o : nat) : Z :=
  match ops s !! o with Some x => dTag (oDelivery x) | None => 0%Z end.

Definition Ack (o : nat) : M DState (option error) :=
  tag ← gets (fun s => tag_of s o);
  emit (EAck tag false) ;;
  err ← gets (fun s => envAck env (rlog s));
  release o ;;
  mret err.

Definition Nack (o : nat) (reason : string) : M DState (option error) :=
  tag ← gets (fun s => tag_of s o);
  emit (ENack tag false false) ;;
  err ← gets (fun s => envNack env (rlog s));
  match err with
  | Some _ => mret tt
  | None =>
      record_points (Metrics.Receiver.RecordNack (rMetrics cfg) (queue_ cfg)) ;;
      when (bool_decide (reason <> "")) (emit (ELog "rabbitmq receiver: message nacked"))
  end ;;
  release o ;;
  mret err.

Definition Keepalive (o : nat) : M DState (bool * option error) := mret (false, None).

Definition Valid (o : nat) : M DState (bool * string) :=
  stale ← gets (fun s => match ops s !! o with
                         | Some x => bool_decide (oEpoch x <> epoch s)
                         | None => true
                         end);
  if stale : bool then release o ;; mret (false, "channel reconnected")
  else mret (true, "").

(** The ops object of one delivery, or none under AckNone; whether the bus's
    settler over it settles by itself is [auto_settle]. *)
Definition newSettler (d : Delivery) : M DState (option nat) :=
  if decide (ackMode cfg = AckNone) then mret None
  else fun s =>
    let o := fresh (dom (ops s)) in
    (Some o, s <| ops := <[o := {| oDelivery := d; oEpoch := epoch s; oReleased := false |}]> (ops s) |>
               <| unsettled := wrap_i64 (unsettled s + 1) |>).

Definition auto_settle : bool := bool_decide (ackMode cfg = AckAfterHandling).

(** [r.epoch.Add(1)]. *)
Definition bump_epoch : M DState unit := modify (fun s => s <| epoch := wrap_u64 (epoch s + 1) |>).

(** Outside code running against the ops object [o]. *)
Fixpoint run_ops {A} (o : nat) (p : OpsProg A) : M DState A :=
  match p with
  | ODone a => mret a
  | OValid k => v ← Valid o; run_ops o (k v.1 v.2)
  | OAck k => err ← Ack o; run_ops o (k err)
  | ONack reason k => err ← Nack o reason; run_ops o (k err)
  | OKeepalive k => v ← Keepalive o; run_ops o (k v.1 v.2)
  end.

(** ** The count *)

Definition open_ops (m : gmap nat Ops) : gmap nat Ops := filter (fun kv => oReleased kv.2 = false) m.

(** [Unsettled] is the number of ops objects not released, as an int64. *)
Definition counted_ok (s : DState) : Prop :=
  unsettled s = wrap_i64 (Z.of_nat (size (open_ops (ops s)))).

Lemma wrap_i64_add x y : wrap_i64 (wrap_i64 x + y) = wrap_i64 (x + y).
Proof.
  unfold wrap_i64. replace (_ + y + 2 ^ 63)%Z with ((x + 2 ^ 63) `mod` 2 ^ 64 + y)%Z by lia.
  rewrite Zplus_mod_idemp_l. do 2 f_equal. lia.
Qed.

Lemma size_open_insert m o x :
  m !! o = None -> oReleased x = false ->
  size (open_ops (<[o := x]> m)) = S (size (open_ops m)).
Proof.
  intros Hm Hx. unfold open_ops. rewrite map_filter_insert_True by done.
  apply map_size_insert_None. apply map_lookup_filter_None. by left.
Qed.

Lemma size_open_release m o x x' :
  m !! o = Some x -> oReleased x = false -> oReleased x' = true ->
  S (size (open_ops (<[o := x']> m))) = size (open_ops m).
Proof.
  intros Hm Hx Hx'. unfold open_ops. rewrite map_filter_insert_False by (simpl; congruence).
  rewrite map_filter_delete, map_size_delete.
  assert (filter (fun kv => oReleased kv.2 = false) m !! o = Some x) as Hf.
  { by apply map_lookup_filter_Some. }
  rewrite Hf. assert (size (filter (fun kv => oReleased kv.2 = false) m) <> 0) as Hz.
  { intros Hz%map_size_empty_inv. by rewrite Hz in Hf. }
  lia.
Qed.

Lemma release_counted o s : counted_ok s -> counted_ok (release o s).2.
Proof.
  unfold release, counted_ok. destruct (ops s !! o) as [x|] eqn:Ho; [|done].
  destruct (oReleased x) eqn:Hx; [done|]. unfold rec_set. simpl. intros ->.
  replace (_ - 1)%Z with (wrap_i64 (Z.of_nat (size (open_ops (ops s)))) + -1)%Z by lia.
  rewrite wrap_i64_add. f_equal.
  rewrite <- (size_open_release (ops s) o x {| oDelivery := oDelivery x; oEpoch := oEpoch x; oReleased := true |})
    by done. lia.
Qed.

Lemma newSettler_counted d s : counted_ok s -> counted_ok (newSettler d s).2.
Proof.
  unfold newSettler, counted_ok. case_decide; [done|]. unfold rec_set. simpl. intros ->.
  rewrite wrap_i64_add. f_equal. rewrite size_open_insert; [lia| |done].
  apply not_elem_of_dom, is_fresh.
Qed.

(** Only the log grows in the calls around a release. *)
Lemma Ack_run o s :
  Ack o s =
  let l := rlog s ++ [EAck (tag_of s o) false] in
  (envAck env l, (release o (s <| rlog := l |>)).2).
Proof.
  unfold Ack. rewrite M_bind_run. unfold gets at 1. rewrite M_bind_run. unfold emit, modify.
  rewrite M_bind_run. unfold gets. rewrite M_bind_run. cbv zeta.
  by destruct (release o _) as [[] ?].
Qed.

Definition nacked_log (o : nat) (reason : string) (s : DState) : list Event :=
  let l := rlog s ++ [ENack (tag_of s o) false false] in
  match envNack env l with
  | Some _ => l
  | None => l ++ map EMetric (Metrics.Receiver.RecordNack (rMetrics cfg) (queue_ cfg))
              ++ (if bool_decide (reason <> "") then [ELog "rabbitmq receiver: message nacked"] else [])
  end.

Lemma Nack_run o reason s :
  Nack o reason s =
  (envNack env (rlog s ++ [ENack (tag_of s o) false false]),
   (release o (s <| rlog := nacked_log o reason s |>)).2).
Proof.
  unfold Nack, nacked_log. rewrite M_bind_run. unfold gets at 1. rewrite M_bind_run.
  unfold emit at 1, modify at 1. rewrite M_bind_run. unfold gets at 1. cbv beta iota zeta.
  rewrite M_bind_run. unfold rec_set. simpl.
  destruct (envNack env _) as [e|]; simpl.
  - rewrite M_bind_run. unfold rec_set. by destruct (release o _) as [[] ?].
  - rewrite M_bind_run. unfold record_points, modify. unfold when.
    destruct (bool_decide (reason <> "")); unfold emit, modify, rec_set; simpl;
      rewrite M_bind_run, ?app_nil_r, ?app_assoc; by destruct (release o _) as [[] ?].
Qed.

Lemma Valid_run o s :
  Valid o s =
  if match ops s !! o with Some x => bool_decide (oEpoch x <> epoch s) | None => true end
  then ((false, "channel reconnected"), (release o s).2) else ((true, ""), s).
Proof.
  unfold Valid. rewrite M_bind_run. unfold gets.
  destruct (match ops s !! o with Some x => _ | None => _ end); [|done].
  rewrite M_bind_run. by destruct (release o s) as [[] ?].
Qed.

(** ** Invariants of outside code *)

(** A property of states kept by each ops method is kept by outside code. *)
Lemma run_ops_invariant (P : DState -> Prop) o {A} (p : OpsProg A) s :
  (forall s, P s -> P (release o s).2) ->
  (forall s, P s -> P (s <| rlog := rlog s ++ [EAck (tag_of s o) false] |>)) ->
  (forall s reason, P s -> P (s <| rlog := nacked_log o reason s |>)) ->
  P s -> P (run_ops o p s).2.
Proof.
  intros Hrel Hack Hnack. revert s.
  induction p as [a|k IH|k IH|reason k IH|k IH]; intros s Hs; cbn [run_ops]; [done|..];
    rewrite M_bind_run.
  - rewrite Valid_run. destruct (match ops s !! o with Some x => _ | None => _ end);
      apply IH; auto.
  - rewrite Ack_run. cbv zeta. apply IH; auto.
  - rewrite Nack_run. apply IH; auto.
  - apply IH; auto.
Qed.

Lemma run_ops_counted o {A} (p : OpsProg A) s : counted_ok s -> counted_ok (run_ops o p s).2.
Proof. apply run_ops_invariant; [apply release_counted|done|done]. Qed.

Lemma release_frame o s :
  epoch (release o s).2 = epoch s /\ rlog (release o s).2 = rlog s.
Proof.
  unfold release. destruct (ops s !! o) as [x|]; [|done]. by destruct (oReleased x).
Qed.

Lemma run_ops_epoch o {A} (p : OpsProg A) s : epoch (run_ops o p s).2 = epoch s.
Proof.
  apply (run_ops_invariant (fun s' => epoch s' = epoch s)); try done.
  intros s' <-. apply release_frame.
Qed.
End settle.

(** ** Properties *)

(** Everything that can happen to the count: deliveries arriving, outside code
    running against any of them in any order, and Stop moving the epoch. *)
Inductive dstep (cfg : RecvCfg) (env : Env) : DState -> DState -> Prop :=
| ds_new d s : dstep cfg env s (newSettler cfg d s).2
| ds_ops A o (p : OpsProg A) s : dstep cfg env s (run_ops cfg env o p s).2
| ds_bump s : dstep cfg env s (bump_epoch s).2.

Definition d_init : DState := {| epoch := 0; unsettled := 0; ops := ∅; rlog := [] |}.

(** C13: The count is the number of deliveries handed out and not let go of, in
    every interleaving; in particular it never goes negative and a delivery
    settled twice, or settled and then found stale, is counted down once. *)
Theorem unsettled_counts cfg env s :
  rtc (dstep cfg env) d_init s ->
  (Z.of_nat (size (open_ops (ops s))) < 2 ^ 63)%Z ->
  unsettled s = Z.of_nat (size (open_ops (ops s))).
Proof.
  intros Hrun Hsmall. assert (counted_ok s) as ->.
  { revert Hrun. apply rtc_invariant; [|done].
    intros s1 s2 Hs1 Hst. destruct Hst; [by apply newSettler_counted|by apply run_ops_counted|done]. }
  apply wrap_i64_small. lia.
Qed.

Definition sample_delivery : Delivery :=
  {| dTag := 7; dRoutingKey := "a.b"; dExchange := "ex"; dHeaders := None; dBody := Some "x" |}.

Definition sample_cfg : RecvCfg :=
  {| rClientName := "c"; queue_ := "q"; ackMode := AckManual; rMetrics := None |}.

Definition sample_env : Env :=
  {| envAck := fun _ => Some (LibErr "closed"); envNack := fun _ => None; envSince := fun _ => 0%Z |}.

(** A failed ack, retried, then found stale. *)
Definition sample_prog : OpsProg unit := OAck (fun _ => OAck (fun _ => OValid (fun _ _ => ODone tt))).

Lemma unsettled_counts_witness :
  let s1 := (newSettler sample_cfg sample_delivery d_init).2 in
  let s2 := (newSettler sample_cfg sample_delivery s1).2 in
  let s3 := (run_ops sample_cfg sample_env 0 sample_prog s2).2 in
  unsettled s3 = 1%Z.
Proof.
  intros s1 s2 s3. change 1%Z with (Z.of_nat (size (open_ops (ops s3)))).
  apply (unsettled_counts sample_cfg sample_env).
  - eapply rtc_l; [apply (ds_new sample_cfg sample_env sample_delivery)|].
    eapply rtc_l; [apply (ds_new sample_cfg sample_env sample_delivery)|].
    eapply rtc_l; [apply (ds_ops sample_cfg sample_env unit 0 sample_prog)|apply rtc_refl].
  - vm_compute. reflexivity.
Defined.

(** A delivery left behind by [k] channel generations is refused, and let go
    of, until the 64-bit epoch would come round again. *)
Theorem Valid_stale env_epoch o x k s :
  ops s !! o = Some x -> (0 <= oEpoch x < 2 ^ 64)%Z -> (0 <= k < 2 ^ 64)%Z ->
  env_epoch = wrap_u64 (oEpoch x + k) -> epoch s = env_epoch ->
  (Valid o s).1 = (if decide (k = 0%Z) then (true, "") else (false, "channel reconnected")) /\
  (k <> 0%Z -> oReleased <$> ops (Valid o s).2 !! o = Some true).
Proof.
  intros Ho He Hk -> Hs. rewrite Valid_run, Ho, Hs. unfold wrap_u64.
  case_decide as Hk0; subst.
  - rewrite Z.add_0_r, Z.mod_small by done. by rewrite bool_decide_eq_false_2 by tauto.
  - rewrite bool_decide_eq_true_2.
    + split; [done|]. intros _. unfold release. rewrite Ho.
      destruct (oReleased x) eqn:Hx; unfold rec_set; simpl; [by rewrite Ho; simpl; rewrite Hx|].
      by rewrite lookup_insert_eq.
    + intros Heq. assert (oEpoch x + k < 2 ^ 64 \/ 2 ^ 64 <= oEpoch x + k)%Z as [Hlt|Hge] by lia.
      * rewrite Z.mod_small in Heq by lia. lia.
      * rewrite <- (Z.mod_add _ (-1)), Z.mod_small in Heq by lia. lia.
Qed.

Lemma Valid_stale_witness :
  let s := (newSettler sample_cfg sample_delivery d_init).2 in
  let s' := (bump_epoch s).2 in
  (Valid 0 s').1 = (false, "channel reconnected").
Proof.
  intros s s'.
  destruct (Valid_stale 1 0 {| oDelivery := sample_delivery; oEpoch := 0; oReleased := false |} 1 s')
    as [H _]; [vm_compute; reflexivity|simpl; lia|lia|vm_compute; reflexivity|vm_compute; reflexivity|].
  exact H.
Defined.

(** What outside code can do to the broker through one delivery: acknowledge
    or reject that very delivery, singly, and never requeue it. *)
Definition own_settle (tag : Z) (e : Event) : Prop :=
  match e with
  | EAck t multiple => t = tag /\ multiple = false
  | ENack t multiple requeue => t = tag /\ multiple = false /\ requeue = false
  | EMetric (CounterAdd i _ _) => i = "rabbitmq.consumer.nacks"
  | ELog _ => True
  | _ => False
  end.

Lemma release_tag o o' s : tag_of (release o s).2 o' = tag_of s o'.
Proof.
  unfold release, tag_of. destruct (ops s !! o) as [x|] eqn:Ho; [|done].
  destruct (oReleased x); [done|]. unfold rec_set. simpl. rewrite lookup_insert.
  case_decide; subst; [by rewrite Ho|done].
Qed.

Lemma run_ops_confined cfg env o A (p : OpsProg A) s :
  exists evs, rlog (run_ops cfg env o p s).2 = rlog s ++ evs /\ Forall (own_settle (tag_of s o)) evs.
Proof.
  set (P := fun s' => tag_of s' o = tag_of s o /\
    exists evs, rlog s' = rlog s ++ evs /\ Forall (own_settle (tag_of s o)) evs).
  assert (P (run_ops cfg env o p s).2) as [_ H]; [|done].
  assert (Hext : forall s' evs, P s' -> Forall (own_settle (tag_of s o)) evs ->
                 P (s' <| rlog := rlog s' ++ evs |>)).
  { intros s' evs [Ht (evs0 & Hl & Hf)] Hevs. split; [done|]. unfold rec_set. simpl. rewrite Hl.
    exists (evs0 ++ evs). rewrite app_assoc. split; [done|]. by apply Forall_app. }
  apply run_ops_invariant.
  - intros s' [Ht Hl]. split; [by rewrite release_tag|].
    by destruct (release_frame o s') as [_ ->].
  - intros s' Hp. apply Hext; [done|]. destruct Hp as [Ht _]. by repeat constructor.
  - intros s' reason Hp. unfold nacked_log. destruct Hp as [Ht Hl]. destruct (envNack env _).
    + apply Hext; [done|]. by repeat constructor.
    + rewrite <- !app_assoc. apply Hext; [done|]. apply Forall_cons. split; [by simpl|].
      apply Forall_app. split; [by destruct (rMetrics cfg); repeat constructor|].
      case_bool_decide; by repeat constructor.
  - split; [done|]. exists []. by rewrite app_nil_r.
Qed.

(** C26: Outside code, whatever it does with a delivery, settles only that one and
    never requeues it, and cannot move the epoch. *)
Theorem outside_code_is_confined cfg env o A (p : OpsProg A) s :
  epoch (run_ops cfg env o p s).2 = epoch s /\
  exists evs, rlog (run_ops cfg env o p s).2 = rlog s ++ evs /\ Forall (own_settle (tag_of s o)) evs.
Proof. split; [apply run_ops_epoch|apply run_ops_confined]. Qed.
