(* ===== verification/Receiver.v ===== *)
(** * Handling deliveries: src/receiver/receiver.go

    [resolveTopicPart1], [headersToFields] (in Carrier.v) and
    [handleDelivery], which turns one AMQP delivery into one vinculum event
    and answers for the deliveries it does not hand over. The bus's settler
    and the subscriber are parameters ([Bus]): outside code over the ops
    object of Settle.v. The last part is the abstract contract -- a verdict
    per delivery -- and the refinement theorem. *)

From S2P Require Import Prelude GoLib Subscription Carrier Metrics Settle.

(** ** Data *)

(** The topic or an error, and the fields map as the callback leaves it. *)
Definition VinculumTopicFunc : Type :=
  string -> string -> option Fields -> any -> (string + error) * option Fields.

Record Subscription := {
  RoutingKeyPattern : string;
  sVinculumTopicFunc : option VinculumTopicFunc;
}.

Inductive fallbackAction := fallbackNone | fallbackIgnore | fallbackError.

#[export] Instance fallbackAction_eq_dec : EqDecision fallbackAction.
Proof. solve_decision. Defined.

(** The rest of the receiver's configuration. *)
Record RouteCfg := {
  subscriptions : list Subscription;
  defaultXform : DefaultRoutingKeyTransform;
  wireFormat : WireFormat;
  onDecodeError : bool;
}.

(** The named results of [resolveTopicPart1]. *)
Record Part1 := {
  p1Topic : string;
  p1Extracted : option Fields;
  p1Sub : option Subscription;
  p1Fallback : fallbackAction;
  p1Err : option error;
}.

(** The bus package and the subscriber, over an abstract settler [St].
    [OnEvent] and [SettleOnReturn] see the settler the delivery's context
    carries; without one they reach no delivery. *)
Record Bus (St : Type) := {
  busNewSettler : bool -> St;
  busAck : St -> OpsProg (bool * option error * St);
  busNack : St -> string -> OpsProg (bool * option error * St);
  busOnEvent : St -> string -> any -> option Fields -> OpsProg (option error * St);
  busOnEventBare : string -> any -> option Fields -> option error;
  busSettleOnReturn : St -> option error -> OpsProg St;
  busObserved : bool;
}.
Arguments busNewSettler {St}. Arguments busAck {St}. Arguments busNack {St}.
Arguments busOnEvent {St}. Arguments busOnEventBare {St}. Arguments busSettleOnReturn {St}.
Arguments busObserved {St}.

(** ** The code *)

Section receiver.
Context {St : Type} (cfg : RecvCfg) (rcfg : RouteCfg) (env : Env) (bus : Bus St).

Definition resolveDefault (routingKey : string) : Part1 :=
  let part topic fa := {| p1Topic := topic; p1Extracted := None; p1Sub := None;
                          p1Fallback := fa; p1Err := None |} in
  match defaultXform rcfg with
  | DefaultRKDotToSlash => part (dotToSlash routingKey) fallbackNone
  | DefaultRKVerbatim => part routingKey fallbackNone
  | DefaultRKError => part "" fallbackError
  | DefaultRKIgnore => part "" fallbackIgnore
  | DefaultRKOther _ => part (dotToSlash routingKey) fallbackNone
  end.

Fixpoint resolveTopicPart1 (subs : list Subscription) (routingKey : string) : Part1 :=
  match subs with
  | [] => resolveDefault routingKey
  | sub :: subs' =>
      match match_ (RoutingKeyPattern sub) routingKey with
      | Some f => {| p1Topic := ""; p1Extracted := f; p1Sub := Some sub;
                     p1Fallback := fallbackNone; p1Err := None |}
      | None => resolveTopicPart1 subs' routingKey
      end
  end.

(** A delivery's settler: the ops object and the bus's settler over it. *)
Definition Settler : Type := nat * St.

Definition ack (settler : option Settler) : M DState unit :=
  match settler with
  | None => mret tt
  | Some (o, st) =>
      r ← run_ops cfg env o (busAck bus st);
      match r.1.2 with
      | Some _ => emit (ELog "rabbitmq receiver: ack failed")
      | None => mret tt
      end
  end.

Definition nack (settler : option Settler) : M DState unit :=
  match settler with
  | None => mret tt
  | Some (o, st) =>
      r ← run_ops cfg env o (busNack bus st "");
      match r.1.2 with
      | Some _ => emit (ELog "rabbitmq receiver: nack failed")
      | None => mret tt
      end
  end.

Definition recordReceived (errType : string) : M DState unit :=
  record_points (Metrics.Receiver.RecordReceived (rMetrics cfg) (queue_ cfg) errType).

Definition recordProcessDuration (d : Z) (errType : string) : M DState unit :=
  record_points (Metrics.Receiver.RecordProcessDuration (rMetrics cfg) (queue_ cfg) d errType).

(** Captures over headers; nil stays nil when there are none of either. *)
Definition merge_fields (h : option Table) (extracted : option Fields) : option Fields :=
  let mergedFields := headersToFields h in
  if decide (size (default ∅ extracted) = 0) then mergedFields
  else Some (merge_into (default ∅ extracted) (default ∅ mergedFields)).

(** From the span to the end of [handleDelivery]. *)
Definition dispatch (settler : option Settler) (vinculumTopic : string) (msg : any)
    (fields : option Fields) : M DState unit :=
  emit (ESpanStart ("process " +:+ vinculumTopic)) ;;
  emit (EOnEvent vinculumTopic msg fields (bool_decide (is_Some settler))) ;;
  err ← match settler with
        | Some (o, st) =>
            r ← run_ops cfg env o (busOnEvent bus st vinculumTopic msg fields);
            run_ops cfg env o (busSettleOnReturn bus r.2 r.1) ;;
            when (busObserved bus) (release o) ;;
            mret r.1
        | None => mret (busOnEventBare bus vinculumTopic msg fields)
        end;
  elapsed ← gets (fun s => envSince env (rlog s));
  match err with
  | Some _ =>
      emit (ELog "rabbitmq receiver: subscriber.OnEvent") ;;
      emit (ESpanError "subscriber") ;;
      recordProcessDuration elapsed "subscriber" ;;
      recordReceived "subscriber"
  | None =>
      recordProcessDuration elapsed "" ;;
      recordReceived ""
  end ;;
  emit ESpanEnd.

(** The matched subscription's topic, with dot_to_slash standing in for a nil
    function and for an empty answer. *)
Definition subscription_topic (sub : option Subscription) (fallback : string) (d : Delivery)
    (fields : option Fields) (msg : any) : (string + error) * option Fields :=
  match sub with
  | None => (inl fallback, fields)
  | Some sub =>
      match sVinculumTopicFunc sub with
      | None => (inl (dotToSlash (dRoutingKey d)), fields)
      | Some f =>
          let '(r, fields') := f (dRoutingKey d) (dExchange d) fields msg in
          match r with
          | inr terr => (inr terr, fields')
          | inl t => (inl (if decide (t <> "") then t else dotToSlash (dRoutingKey d)), fields')
          end
      end
  end.

(** nil stays nil; any other body must decode. *)
Definition decode_body (body : option string) : any + error :=
  match body with None => inl AnyNil | Some b => Deserialize (wireFormat rcfg) b end.

Definition handleDelivery (d : Delivery) : M DState unit :=
  o ← newSettler cfg d;
  let settler := (fun o => (o, busNewSettler bus (auto_settle cfg))) <$> (o : option nat) in
  let p := resolveTopicPart1 (subscriptions rcfg) (dRoutingKey d) in
  match p1Err p with
  | Some _ =>
      emit (ELog "rabbitmq receiver: routing") ;; recordReceived "routing" ;; nack settler
  | None =>
      match p1Fallback p with
      | fallbackIgnore => recordReceived "" ;; ack settler
      | fallbackError =>
          emit (ELog "rabbitmq receiver: no subscription matched and default_routing_key_transform is error") ;;
          recordReceived "no_subscription" ;; nack settler
      | fallbackNone =>
          let mergedFields := merge_fields (dHeaders d) (p1Extracted p) in
          match decode_body (dBody d) with
          | inr _ =>
              emit (ELog "rabbitmq receiver: deserialize failed") ;;
              recordReceived "deserialize" ;;
              when (onDecodeError rcfg)
                (emit (EDecodeHook (default "" (dBody d)) (p1Topic p) mergedFields)) ;;
              nack settler
          | inl msg =>
              match subscription_topic (p1Sub p) (p1Topic p) d mergedFields msg with
              | (inr _, _) =>
                  emit (ELog "rabbitmq receiver: vinculum_topic eval") ;;
                  recordReceived "vinculum_topic" ;; nack settler
              | (inl vinculumTopic, fields) => dispatch settler vinculumTopic msg fields
              end
          end
      end
  end.
End receiver.

(** ** The contract *)

(** What becomes of a delivery. *)
Inductive Verdict :=
| VIgnore
| VReject (errType : string)
| VDispatch (topic : string) (msg : any) (fields : option Fields).

Definition verdict (rcfg : RouteCfg) (d : Delivery) : Verdict :=
  let p := resolveTopicPart1 rcfg (subscriptions rcfg) (dRoutingKey d) in
  match p1Fallback p with
  | fallbackIgnore => VIgnore
  | fallbackError => VReject "no_subscription"
  | fallbackNone =>
      let fields := merge_fields (dHeaders d) (p1Extracted p) in
      match decode_body rcfg (dBody d) with
      | inr _ => VReject "deserialize"
      | inl msg =>
          match subscription_topic (p1Sub p) (p1Topic p) d fields msg with
          | (inr _, _) => VReject "vinculum_topic"
          | (inl topic, fields') => VDispatch topic msg fields'
          end
      end
  end.

Definition is_settle (e : Event) : bool :=
  match e with EAck _ _ | ENack _ _ _ => true | _ => false end.
Definition is_onevent (e : Event) : bool := match e with EOnEvent _ _ _ _ => true | _ => false end.

Definition settles (evs : list Event) : list Event := filter (fun e => is_settle e = true) evs.
Definition onevents (evs : list Event) : list Event := filter (fun e => is_onevent e = true) evs.
Definition points (evs : list Event) : list Point :=
  omap (fun e => match e with EMetric p => Some p | _ => None end) evs.

(** How often the delivery was counted as consumed. *)
Definition consumed (evs : list Event) : Z := counted "messaging.client.consumed.messages" (points evs).

Lemma settles_app a b : settles (a ++ b) = settles a ++ settles b.
Proof. apply filter_app. Qed.
Lemma onevents_app a b : onevents (a ++ b) = onevents a ++ onevents b.
Proof. apply filter_app. Qed.
Lemma consumed_app a b : consumed (a ++ b) = (consumed a + consumed b)%Z.
Proof. unfold consumed, points. by rewrite omap_app, counted_app. Qed.
Lemma settles_metric ps : settles (map EMetric ps) = [].
Proof. by induction ps. Qed.
Lemma onevents_metric ps : onevents (map EMetric ps) = [].
Proof. by induction ps. Qed.
Lemma points_metric ps : points (map EMetric ps) = ps.
Proof. induction ps; simpl; congruence. Qed.
Lemma consumed_metric ps :
  consumed (map EMetric ps) = counted "messaging.client.consumed.messages" ps.
Proof. unfold consumed. by rewrite points_metric. Qed.
#[export] Hint Rewrite settles_app onevents_app consumed_app settles_metric onevents_metric
  consumed_metric : rmq_simp.

(** What one consumption adds to the count: nothing without a meter. *)
Definition metered (cfg : RecvCfg) : Z := match rMetrics cfg with Some _ => 1 | None => 0 end.

(** The bus's settler, fresh: it asks whether the delivery is still valid, and
    if so makes exactly the one call it was asked for. *)
Definition fresh_settler_law {St} (bus : Bus St) : Prop :=
  forall auto,
  (exists f g, busAck bus (busNewSettler bus auto)
     = OValid (fun ok reason => if ok then OAck (fun e => ODone (f e)) else ODone (g reason))) /\
  (forall r, exists f g, busNack bus (busNewSettler bus auto) r
     = OValid (fun ok reason => if ok then ONack r (fun e => ODone (f e)) else ODone (g reason))).

Section contract.
Context {St : Type} (cfg : RecvCfg) (rcfg : RouteCfg) (env : Env) (bus : Bus St).

(** An event list that holds no broker call, dispatch or consumption. *)
Definition quiet (evs : list Event) : Prop :=
  settles evs = [] /\ onevents evs = [] /\ consumed evs = 0%Z.

(** The consumption records of one delivery. *)
Definition received (errType : string) : list Point :=
  Metrics.Receiver.RecordReceived (rMetrics cfg) (queue_ cfg) errType.

Lemma resolveTopicPart1_no_error subs rk : p1Err (resolveTopicPart1 rcfg subs rk) = None.
Proof.
  induction subs as [|sub subs IH]; simpl.
  - unfold resolveDefault. by destruct (defaultXform rcfg).
  - by destruct (match_ _ _).
Qed.

(** [handleDelivery] is: build the settler, then act on the verdict. *)
Definition act (settler : option (nat * St)) (d : Delivery) (v : Verdict) (pre : M DState unit) :
    M DState unit :=
  match v with
  | VIgnore => recordReceived cfg "" ;; ack cfg env bus settler
  | VReject e => pre ;; nack cfg env bus settler
  | VDispatch t m f => dispatch cfg env bus settler t m f
  end.

Lemma record_points_run ps s :
  record_points ps s = (tt, s <| rlog := rlog s ++ map EMetric ps |>).
Proof. done. Qed.

(** Answering for a delivery whose ops object is fresh. *)
Definition fresh_op (o : nat) (s : DState) : Prop :=
  exists x, ops s !! o = Some x /\ oEpoch x = epoch s /\ oReleased x = false.

Definition closed_op (o : nat) (s : DState) : Prop := oReleased <$> ops s !! o = Some true.

Lemma release_fresh o s :
  fresh_op o s ->
  closed_op o (release o s).2 /\ unsettled (release o s).2 = wrap_i64 (unsettled s - 1).
Proof.
  intros (x & Hx & _ & Hr). unfold release, closed_op. rewrite Hx, Hr. unfold rec_set. simpl.
  by rewrite lookup_insert_eq.
Qed.

(** The settle itself, as the only broker call of the answer. *)
Definition answered (o : nat) (call : Event) (s s' : DState) : Prop :=
  exists evs, rlog s' = rlog s ++ evs /\ settles evs = [call] /\ onevents evs = [] /\
    consumed evs = 0%Z /\ closed_op o s' /\ unsettled s' = wrap_i64 (unsettled s - 1).

Lemma answered_log o call s (b : bool) evs msg :
  settles evs = [call] -> onevents evs = [] -> consumed evs = 0%Z -> fresh_op o s ->
  let s1 := (release o (s <| rlog := rlog s ++ evs |>)).2 in
  answered o call s (if b then s1 <| rlog := rlog s1 ++ [ELog msg] |> else s1).
Proof.
  intros Hs Ho Hc Hf s1.
  destruct (release_fresh o (s <| rlog := rlog s ++ evs |>)) as [Hcl Hu]; [done|].
  destruct (release_frame o (s <| rlog := rlog s ++ evs |>)) as [_ Hl].
  fold s1 in Hcl, Hu, Hl. unfold rec_set in Hl, Hu. simpl in Hl, Hu. destruct b.
  - exists (evs ++ [ELog msg]). unfold rec_set. simpl. rewrite Hl, app_assoc.
    autorewrite with rmq_simp. rewrite Hs, Ho, Hc. done.
  - exists evs. rewrite Hl. done.
Qed.

Lemma run_ops_Valid o x {A} (k : bool -> string -> OpsProg A) s :
  ops s !! o = Some x -> oEpoch x = epoch s ->
  run_ops cfg env o (OValid k) s = run_ops cfg env o (k true "") s.
Proof.
  intros Hx He. cbn [run_ops]. rewrite M_bind_run, Valid_run, Hx.
  by rewrite bool_decide_eq_false_2 by tauto.
Qed.

Lemma ack_answers o s auto :
  fresh_settler_law bus -> fresh_op o s ->
  answered o (EAck (tag_of s o) false) s (ack cfg env bus (Some (o, busNewSettler bus auto)) s).2.
Proof.
  intros Hlaw Hf. destruct (proj1 (Hlaw auto)) as (f & g & Hk).
  pose proof Hf as (x & Hx & He & Hr).
  unfold ack. rewrite M_bind_run, Hk, (run_ops_Valid _ x) by done.
  cbn [run_ops]. rewrite M_bind_run, Ack_run. cbv zeta. unfold mret, M_ret.
  pose proof (answered_log o (EAck (tag_of s o) false) s
    (match (f (envAck env (rlog s ++ [EAck (tag_of s o) false]))).1.2 with
     | Some _ => true | None => false end)
    [EAck (tag_of s o) false] "rabbitmq receiver: ack failed") as H.
  specialize (H eq_refl eq_refl eq_refl Hf). cbv zeta in H.
  destruct ((f _).1.2); exact H.
Qed.

Lemma nack_answers o s auto :
  fresh_settler_law bus -> fresh_op o s ->
  answered o (ENack (tag_of s o) false false) s
    (nack cfg env bus (Some (o, busNewSettler bus auto)) s).2.
Proof.
  intros Hlaw Hf. destruct (proj2 (Hlaw auto) "") as (f & g & Hk).
  pose proof Hf as (x & Hx & He & Hr).
  unfold nack. rewrite M_bind_run, Hk, (run_ops_Valid _ x) by done.
  cbn [run_ops]. rewrite M_bind_run, Nack_run. unfold mret, M_ret, nacked_log.
  set (l := rlog s ++ [ENack (tag_of s o) false false]).
  set (evs := match envNack env l with
              | Some _ => []
              | None => map EMetric (Metrics.Receiver.RecordNack (rMetrics cfg) (queue_ cfg)) end).
  assert (Hl : match envNack env l with
               | Some _ => l
               | None => l ++ map EMetric (Metrics.Receiver.RecordNack (rMetrics cfg) (queue_ cfg))
                           ++ (if bool_decide ("" <> "") then [ELog "rabbitmq receiver: message nacked"] else [])
               end = rlog s ++ ENack (tag_of s o) false false :: evs).
  { subst evs l. destruct (envNack _ _); [done|]. simpl. by rewrite app_nil_r, <- app_assoc. }
  rewrite Hl.
  pose proof (answered_log o (ENack (tag_of s o) false false) s
    (match (f (envNack env l)).1.2 with Some _ => true | None => false end)
    (ENack (tag_of s o) false false :: evs) "rabbitmq receiver: nack failed") as H.
  assert (Hq : quiet evs).
  { subst evs. unfold quiet. destruct (envNack _ _); [done|]. autorewrite with rmq_simp.
    by destruct (rMetrics cfg). }
  destruct Hq as (Hq1 & Hq2 & Hq3). unfold settles, onevents in *.
  rewrite !filter_cons, decide_True, decide_False in H by done.
  specialize (H ltac:(by rewrite Hq1) Hq2 Hq3 Hf). cbv zeta in H.
  destruct ((f _).1.2); exact H.
Qed.

(** ** Running [handleDelivery] *)

Lemma newSettler_run d s :
  newSettler cfg d s =
  if decide (ackMode cfg = AckNone) then (None, s)
  else let o := fresh (dom (ops s)) in
       (Some o, s <| ops := <[o := {| oDelivery := d; oEpoch := epoch s; oReleased := false |}]> (ops s) |>
                  <| unsettled := wrap_i64 (unsettled s + 1) |>).
Proof. unfold newSettler. by case_decide. Qed.

(** The state [newSettler] leaves, and its settler. *)
Definition opened (d : Delivery) (s : DState) : option (nat * St) * DState :=
  let '(o, s1) := newSettler cfg d s in
  ((fun o => (o, busNewSettler bus (auto_settle cfg))) <$> o, s1).

(** The events before the answer on each rejecting path. *)
Definition reject_events (e : string) (d : Delivery) : list Event :=
  let p := resolveTopicPart1 rcfg (subscriptions rcfg) (dRoutingKey d) in
  match verdict rcfg d with
  | VReject _ =>
      match p1Fallback p with
      | fallbackError =>
          [ELog "rabbitmq receiver: no subscription matched and default_routing_key_transform is error"]
          ++ map EMetric (received e)
      | _ =>
          match decode_body rcfg (dBody d) with
          | inr _ =>
              [ELog "rabbitmq receiver: deserialize failed"] ++ map EMetric (received e)
              ++ (if onDecodeError rcfg
                  then [EDecodeHook (default "" (dBody d)) (p1Topic p) (merge_fields (dHeaders d) (p1Extracted p))]
                  else [])
          | inl _ => [ELog "rabbitmq receiver: vinculum_topic eval"] ++ map EMetric (received e)
          end
      end
  | _ => map EMetric (received e)
  end.

Lemma handleDelivery_run d s :
  handleDelivery cfg rcfg env bus d s =
  let '(settler, s1) := opened d s in
  match verdict rcfg d with
  | VIgnore => ack cfg env bus settler (s1 <| rlog := rlog s1 ++ map EMetric (received "") |>)
  | VReject e => nack cfg env bus settler (s1 <| rlog := rlog s1 ++ reject_events e d |>)
  | VDispatch t m f => dispatch cfg env bus settler t m f s1
  end.
Proof.
  unfold handleDelivery, opened, reject_events. rewrite M_bind_run.
  destruct (newSettler cfg d s) as [o s1]. unfold verdict.
  rewrite resolveTopicPart1_no_error.
  set (p := resolveTopicPart1 _ _ _).
  destruct (p1Fallback p).
  - destruct (decode_body rcfg (dBody d)) as [msg|e].
    + destruct (subscription_topic _ _ _ _ _) as [[t|e] f]; [done|].
      rewrite M_bind_run. unfold emit, modify. rewrite M_bind_run. unfold recordReceived.
      rewrite record_points_run. unfold rec_set. simpl. by rewrite <- app_assoc.
    + rewrite M_bind_run. unfold emit at 1, modify at 1. rewrite M_bind_run. unfold recordReceived.
      rewrite record_points_run, M_bind_run. unfold when, emit, modify, rec_set.
      destruct (onDecodeError rcfg); simpl; by rewrite ?app_nil_r, <- ?app_assoc.
  - rewrite M_bind_run. unfold recordReceived. by rewrite record_points_run.
  - rewrite M_bind_run. unfold emit, modify. rewrite M_bind_run. unfold recordReceived.
    rewrite record_points_run. unfold rec_set. simpl. by rewrite <- app_assoc.
Qed.

Lemma reject_events_spec e d :
  settles (reject_events e d) = [] /\ onevents (reject_events e d) = [] /\
  points (reject_events e d) = received e.
Proof.
  unfold reject_events. set (p := resolveTopicPart1 _ _ _).
  assert (H : forall pre post, settles pre = [] -> onevents pre = [] -> points pre = [] ->
    settles post = [] -> onevents post = [] -> points post = [] ->
    settles (pre ++ map EMetric (received e) ++ post) = [] /\
    onevents (pre ++ map EMetric (received e) ++ post) = [] /\
    points (pre ++ map EMetric (received e) ++ post) = received e).
  { intros pre post H1 H2 H3 H4 H5 H6. unfold points in *. rewrite !omap_app, H3, H6.
    autorewrite with rmq_simp. rewrite H1, H2, H4, H5. simpl.
    rewrite app_nil_r. split_and!; [done..|apply points_metric]. }
  destruct (verdict rcfg d).
  1, 3: by destruct (H [] []) as (Ha & Hb & Hc); rewrite ?app_nil_r in *.
  destruct (p1Fallback p); [destruct (decode_body _ _) as [msg|err]|destruct (decode_body _ _) as [msg|err]|].
  1, 3, 5: by destruct (H [ELog "rabbitmq receiver: vinculum_topic eval"] [])
    as (Ha & Hb & Hc); rewrite ?app_nil_r in *.
  all: apply H; try done; by destruct (onDecodeError rcfg).
Qed.
End contract.

(** ** Lemmas for the properties *)

Section contract_lemmas.
Context {St : Type} (cfg : RecvCfg) (rcfg : RouteCfg) (env : Env) (bus : Bus St).

Lemma opened_fresh d s :
  ackMode cfg <> AckNone ->
  exists o s1, opened cfg bus d s = (Some (o, busNewSettler bus (auto_settle cfg)), s1) /\
    fresh_op o s1 /\ tag_of s1 o = dTag d /\ rlog s1 = rlog s /\ epoch s1 = epoch s /\
    unsettled s1 = wrap_i64 (unsettled s + 1).
Proof.
  intros Hm. unfold opened. rewrite newSettler_run, decide_False by done. cbv zeta.
  eexists _, _. split; [reflexivity|]. unfold rec_set, fresh_op, tag_of. simpl.
  rewrite lookup_insert_eq. split_and!; [|done..]. eexists. split; [reflexivity|done].
Qed.

Lemma opened_none d s : ackMode cfg = AckNone -> opened cfg bus d s = (None, s).
Proof. intros Hm. unfold opened. by rewrite newSettler_run, decide_True. Qed.

(** An answered delivery, seen from before its settler was built. *)
Lemma answered_outcome o call pre ps s s1 s' :
  settles pre = [] -> onevents pre = [] -> points pre = ps ->
  rlog s1 = rlog s -> unsettled s1 = wrap_i64 (unsettled s + 1) ->
  (- 2 ^ 63 <= unsettled s < 2 ^ 63)%Z ->
  answered o call (s1 <| rlog := rlog s1 ++ pre |>) s' ->
  exists evs rest, rlog s' = rlog s ++ evs /\ settles evs = [call] /\ onevents evs = [] /\
    points evs = ps ++ rest /\ counted "messaging.client.consumed.messages" rest = 0%Z /\
    unsettled s' = unsettled s.
Proof.
  intros Hs Ho Hp Hl Hu Hr (evs & Hl' & Hs' & Ho' & Hc' & _ & Hu').
  unfold rec_set in *. simpl in *. exists (pre ++ evs), (points evs).
  rewrite Hl', Hl, app_assoc. autorewrite with rmq_simp. rewrite Hs, Ho, Hs', Ho'.
  unfold points in *. rewrite omap_app, Hp. split_and!; [done..|].
  rewrite Hu', Hu. replace (_ - 1)%Z with (wrap_i64 (unsettled s + 1) + -1)%Z by lia.
  rewrite wrap_i64_add. replace (_ + -1)%Z with (unsettled s) by lia. by apply wrap_i64_small.
Qed.

(** Confined outside code neither dispatches nor counts consumption. *)
Lemma confined_quiet tag evs :
  Forall (own_settle tag) evs -> onevents evs = [] /\ consumed evs = 0%Z.
Proof.
  induction 1 as [|e evs He _ [IH1 IH2]]; [done|].
  change (e :: evs) with ([e] ++ evs). rewrite onevents_app, consumed_app, IH1, IH2.
  by destruct e as [| |[]| | | | | |]; simpl in He; subst.
Qed.

(** The subscriber's part of [dispatch]: whatever it and the bus do. *)
Definition handled (settler : option (nat * St)) (t : string) (msg : any) (f : option Fields) :
    M DState (option error) :=
  match settler with
  | Some (o, st) =>
      r ← run_ops cfg env o (busOnEvent bus st t msg f);
      run_ops cfg env o (busSettleOnReturn bus r.2 r.1) ;;
      when (busObserved bus) (release o) ;;
      mret r.1
  | None => mret (busOnEventBare bus t msg f)
  end.

Lemma handled_run o st t msg f s :
  (handled (Some (o, st)) t msg f s).2 =
  let '(r, s1) := run_ops cfg env o (busOnEvent bus st t msg f) s in
  let s2 := (run_ops cfg env o (busSettleOnReturn bus r.2 r.1) s1).2 in
  if busObserved bus then (release o s2).2 else s2.
Proof.
  unfold handled. rewrite M_bind_run. destruct (run_ops _ _ _ _ s) as [r s1].
  rewrite M_bind_run. destruct (run_ops _ _ _ _ s1) as [r' s2]. rewrite M_bind_run. unfold when.
  destruct (busObserved bus); [|done]. cbn [snd]. by destruct (release o s2) as [[] s3].
Qed.

Lemma handled_confined settler t msg f s :
  exists evs, rlog (handled settler t msg f s).2 = rlog s ++ evs /\
    onevents evs = [] /\ consumed evs = 0%Z /\ (settler = None -> evs = []).
Proof.
  destruct settler as [[o st]|].
  - rewrite handled_run.
    destruct (run_ops_confined cfg env o _ (busOnEvent bus st t msg f) s) as (e1 & Hl1 & Hf1).
    destruct (run_ops cfg env o (busOnEvent bus st t msg f) s) as [r s1]. simpl in Hl1.
    destruct (run_ops_confined cfg env o _ (busSettleOnReturn bus r.2 r.1) s1) as (e2 & Hl2 & Hf2).
    apply confined_quiet in Hf1 as [Ho1 Hc1]. apply confined_quiet in Hf2 as [Ho2 Hc2].
    exists (e1 ++ e2). autorewrite with rmq_simp. rewrite Ho1, Ho2, Hc1, Hc2, app_assoc, <- Hl1, <- Hl2.
    split; [|done]. cbv zeta. destruct (busObserved bus); [|done]. apply release_frame.
  - exists []. by rewrite app_nil_r.
Qed.

Lemma handled_counted settler t msg f s : counted_ok s -> counted_ok (handled settler t msg f s).2.
Proof.
  intros Hs. destruct settler as [[o st]|]; [|done]. rewrite handled_run.
  pose proof (run_ops_counted cfg env o (busOnEvent bus st t msg f) s Hs) as H1.
  destruct (run_ops cfg env o (busOnEvent bus st t msg f) s) as [r s1]. cbv zeta.
  pose proof (run_ops_counted cfg env o (busSettleOnReturn bus r.2 r.1) s1 H1) as H2.
  destruct (busObserved bus); [by apply release_counted|done].
Qed.

(** The records after the subscriber returned [err]. *)
Definition after_events (d : Z) (err : option error) : list Event :=
  match err with
  | Some _ =>
      [ELog "rabbitmq receiver: subscriber.OnEvent"; ESpanError "subscriber"]
      ++ map EMetric (Metrics.Receiver.RecordProcessDuration (rMetrics cfg) (queue_ cfg) d "subscriber"
                      ++ received cfg "subscriber")
  | None =>
      map EMetric (Metrics.Receiver.RecordProcessDuration (rMetrics cfg) (queue_ cfg) d ""
                   ++ received cfg "")
  end ++ [ESpanEnd].

Lemma dispatch_run settler t msg f s :
  let s1 := s <| rlog := rlog s ++ [ESpanStart ("process " +:+ t);
                                    EOnEvent t msg f (bool_decide (is_Some settler))] |> in
  (dispatch cfg env bus settler t msg f s).2 =
  let '(err, s2) := handled settler t msg f s1 in
  s2 <| rlog := rlog s2 ++ after_events (envSince env (rlog s2)) err |>.
Proof.
  unfold dispatch. rewrite M_bind_run. unfold emit at 1, modify at 1. rewrite M_bind_run.
  unfold emit at 1, modify at 1. rewrite M_bind_run. cbv zeta.
  change (match settler with Some (o, st) => _ | None => _ end) with (handled settler t msg f).
  unfold rec_set at 1 2. simpl. rewrite <- app_assoc. unfold rec_set. simpl.
  destruct (handled settler t msg f _) as [err s2]. rewrite M_bind_run. unfold gets.
  unfold after_events, received. destruct err; rewrite M_bind_run; unfold recordProcessDuration, recordReceived,
    record_points, emit, modify, rec_set; simpl; by rewrite ?map_app, <- ?app_assoc.
Qed.

Lemma after_events_spec d err :
  settles (after_events d err) = [] /\ onevents (after_events d err) = [] /\
  consumed (after_events d err) = metered cfg.
Proof. unfold after_events, received, metered. by destruct err, (rMetrics cfg). Qed.

Lemma dispatch_spec settler t msg f s :
  exists evs, rlog (dispatch cfg env bus settler t msg f s).2 = rlog s ++ evs /\
    onevents evs = [EOnEvent t msg f (bool_decide (is_Some settler))] /\
    consumed evs = metered cfg /\ (settler = None -> settles evs = []).
Proof.
  rewrite dispatch_run. cbv zeta. set (s1 := s <| rlog := _ |>).
  destruct (handled_confined settler t msg f s1) as (evs & Hl & Ho & Hc & Hn).
  destruct (handled settler t msg f s1) as [err s2]. simpl in Hl.
  set (after := after_events (envSince env (rlog s2)) err).
  destruct (after_events_spec (envSince env (rlog s2)) err) as (Hs' & Ho' & Hc').
  fold after in Hs', Ho', Hc'. clearbody after.
  exists ([ESpanStart ("process " +:+ t); EOnEvent t msg f (bool_decide (is_Some settler))]
     ++ evs ++ after).
  unfold rec_set. simpl rlog. rewrite Hl. subst s1. unfold rec_set. simpl rlog.
  autorewrite with rmq_simp. rewrite Ho, Hc, Ho', Hc'. split; [by rewrite <- !app_assoc|].
  split_and!; [done..|]. intros Hnone. rewrite (Hn Hnone), Hs'. done.
Qed.
End contract_lemmas.


(** Settling one delivery leaves the other ops objects alone. *)
Lemma delete_release o s : delete o (ops (release o s).2) = delete o (ops s).
Proof.
  unfold release. destruct (ops s !! o) as [x|]; [|done]. destruct (oReleased x); [done|].
  unfold rec_set. simpl. apply delete_insert_eq.
Qed.

Lemma run_ops_others cfg env o {A} (p : OpsProg A) s :
  delete o (ops (run_ops cfg env o p s).2) = delete o (ops s).
Proof.
  apply (run_ops_invariant cfg env (fun s' => delete o (ops s') = delete o (ops s))); try done.
  intros s' <-. apply delete_release.
Qed.

(** Once an ops object is closed, the open ones are the others. *)
Lemma closed_open o s : closed_op o s -> open_ops (ops s) = open_ops (delete o (ops s)).
Proof.
  unfold closed_op, open_ops. intros Ho. rewrite map_filter_delete.
  symmetry. apply delete_id. apply map_lookup_filter_None. right.
  intros x Hx Hr. rewrite Hx in Ho. simpl in *. congruence.
Qed.

Lemma release_closed o s : is_Some (ops s !! o) -> closed_op o (release o s).2.
Proof.
  intros [x Hx]. unfold release, closed_op. rewrite Hx. destruct (oReleased x) eqn:Hr.
  - simpl. rewrite Hx. simpl. by rewrite Hr.
  - unfold rec_set. simpl. by rewrite lookup_insert_eq.
Qed.

(** Ops objects are never forgotten. *)
Lemma run_ops_keeps cfg env o o' {A} (p : OpsProg A) s :
  is_Some (ops s !! o') -> is_Some (ops (run_ops cfg env o p s).2 !! o').
Proof.
  apply (run_ops_invariant cfg env (fun s' => is_Some (ops s' !! o'))); try done.
  intros s' Hs'. unfold release. destruct (ops s' !! o) as [x|] eqn:Hx; [|done].
  destruct (oReleased x); [done|]. unfold rec_set. simpl.
  rewrite lookup_insert. by case_decide.
Qed.

(** Answering [ack]/[nack] with any bus: still only that delivery. *)
Lemma ack_confined {St} cfg env (bus : Bus St) settler s :
  exists evs, rlog (ack cfg env bus settler s).2 = rlog s ++ evs /\ onevents evs = [] /\
    consumed evs = 0%Z /\ (settler = None -> evs = []).
Proof.
  destruct settler as [[o st]|]; [|by exists []; rewrite app_nil_r].
  unfold ack. rewrite M_bind_run.
  destruct (run_ops_confined cfg env o _ (busAck bus st) s) as (evs & Hl & Hf).
  destruct (run_ops cfg env o (busAck bus st) s) as [r s1]. simpl in Hl.
  apply confined_quiet in Hf as [Ho Hc]. destruct (r.1.2).
  - exists (evs ++ [ELog "rabbitmq receiver: ack failed"]). unfold emit, modify, rec_set. simpl.
    autorewrite with rmq_simp. rewrite Hl, Ho, Hc, app_assoc. done.
  - by exists evs.
Qed.

Lemma nack_confined {St} cfg env (bus : Bus St) settler s :
  exists evs, rlog (nack cfg env bus settler s).2 = rlog s ++ evs /\ onevents evs = [] /\
    consumed evs = 0%Z /\ (settler = None -> evs = []).
Proof.
  destruct settler as [[o st]|]; [|by exists []; rewrite app_nil_r].
  unfold nack. rewrite M_bind_run.
  destruct (run_ops_confined cfg env o _ (busNack bus st "") s) as (evs & Hl & Hf).
  destruct (run_ops cfg env o (busNack bus st "") s) as [r s1]. simpl in Hl.
  apply confined_quiet in Hf as [Ho Hc]. destruct (r.1.2).
  - exists (evs ++ [ELog "rabbitmq receiver: nack failed"]). unfold emit, modify, rec_set. simpl.
    autorewrite with rmq_simp. rewrite Hl, Ho, Hc, app_assoc. done.
  - by exists evs.
Qed.

Lemma ack_counted {St} cfg env (bus : Bus St) settler s :
  counted_ok s -> counted_ok (ack cfg env bus settler s).2.
Proof.
  intros Hs. destruct settler as [[o st]|]; [|done]. unfold ack. rewrite M_bind_run.
  pose proof (run_ops_counted cfg env o (busAck bus st) s Hs) as H.
  destruct (run_ops _ _ _ _ s) as [r s1]. by destruct (r.1.2).
Qed.

Lemma nack_counted {St} cfg env (bus : Bus St) settler s :
  counted_ok s -> counted_ok (nack cfg env bus settler s).2.
Proof.
  intros Hs. destruct settler as [[o st]|]; [|done]. unfold nack. rewrite M_bind_run.
  pose proof (run_ops_counted cfg env o (busNack bus st "") s Hs) as H.
  destruct (run_ops _ _ _ _ s) as [r s1]. by destruct (r.1.2).
Qed.

(** Logging does not disturb the count. *)
Lemma log_counted s evs : counted_ok s -> counted_ok (s <| rlog := rlog s ++ evs |>).
Proof. done. Qed.

Lemma dispatch_counted {St} cfg env (bus : Bus St) settler t msg f s :
  counted_ok s -> counted_ok (dispatch cfg env bus settler t msg f s).2.
Proof.
  intros Hs. rewrite dispatch_run. cbv zeta. set (s1 := s <| rlog := _ |>).
  pose proof (handled_counted cfg env bus settler t msg f s1 Hs) as H.
  destruct (handled cfg env bus settler t msg f s1) as [err s2]. by apply log_counted.
Qed.

Lemma opened_counted {St} cfg (bus : Bus St) d s : counted_ok s -> counted_ok (opened cfg bus d s).2.
Proof.
  intros Hs. unfold opened. pose proof (newSettler_counted cfg d s Hs) as H.
  by destruct (newSettler cfg d s).
Qed.

Lemma handleDelivery_counted {St} cfg rcfg env (bus : Bus St) d s :
  counted_ok s -> counted_ok (handleDelivery cfg rcfg env bus d s).2.
Proof.
  intros Hs. rewrite handleDelivery_run. pose proof (opened_counted cfg bus d s Hs) as H.
  destruct (opened cfg bus d s) as [settler s1]. destruct (verdict rcfg d).
  - by apply ack_counted, log_counted.
  - by apply nack_counted, log_counted.
  - by apply dispatch_counted.
Qed.

(** ** Letting go of a delivery *)

Lemma fresh_op_log o s l : fresh_op o s -> fresh_op o (s <| rlog := l |>).
Proof. done. Qed.

Lemma opened_let_go {St} cfg (bus : Bus St) d s o st s1 s' :
  opened cfg bus d s = (Some (o, st), s1) -> delete o (ops s') = delete o (ops s1) -> closed_op o s' ->
  open_ops (ops s') = open_ops (ops s).
Proof.
  unfold opened. rewrite newSettler_run. case_decide; [done|]. intros Ho Hd Hc.
  injection Ho as <- _ <-. rewrite (closed_open _ _ Hc), Hd. unfold rec_set. simpl.
  rewrite delete_insert_id; [done|]. apply not_elem_of_dom, is_fresh.
Qed.

Lemma ack_others {St} cfg env (bus : Bus St) o st s :
  delete o (ops (ack cfg env bus (Some (o, st)) s).2) = delete o (ops s).
Proof.
  unfold ack. rewrite M_bind_run. pose proof (run_ops_others cfg env o (busAck bus st) s) as H.
  destruct (run_ops _ _ _ _ s) as [r s1]. by destruct (r.1.2).
Qed.

Lemma nack_others {St} cfg env (bus : Bus St) o st s :
  delete o (ops (nack cfg env bus (Some (o, st)) s).2) = delete o (ops s).
Proof.
  unfold nack. rewrite M_bind_run. pose proof (run_ops_others cfg env o (busNack bus st "") s) as H.
  destruct (run_ops _ _ _ _ s) as [r s1]. by destruct (r.1.2).
Qed.

Lemma handled_lets_go {St} cfg env (bus : Bus St) o st t msg f s :
  busObserved bus = true -> is_Some (ops s !! o) ->
  let s' := (handled cfg env bus (Some (o, st)) t msg f s).2 in
  delete o (ops s') = delete o (ops s) /\ closed_op o s'.
Proof.
  intros Hob Hx. cbv zeta. rewrite handled_run.
  pose proof (run_ops_others cfg env o (busOnEvent bus st t msg f) s) as H1.
  apply (run_ops_keeps cfg env o o (busOnEvent bus st t msg f)) in Hx.
  destruct (run_ops cfg env o (busOnEvent bus st t msg f) s) as [r s1]. cbv zeta. rewrite Hob.
  rewrite delete_release, run_ops_others. split; [done|]. by apply release_closed, run_ops_keeps.
Qed.

(** The ops table after one delivery whose subscriber only observes. *)
Lemma handleDelivery_lets_go {St} cfg rcfg env (bus : Bus St) d s :
  busObserved bus = true -> fresh_settler_law bus ->
  open_ops (ops (handleDelivery cfg rcfg env bus d s).2) = open_ops (ops s).
Proof.
  intros Hob Hlaw. rewrite handleDelivery_run.
  destruct (decide (ackMode cfg = AckNone)) as [Hm|Hm].
  { rewrite opened_none by done. destruct (verdict rcfg d); [done..|].
    rewrite dispatch_run. done. }
  destruct (opened_fresh cfg bus d s Hm) as (o & s1 & Hop & Hf & _). rewrite Hop.
  destruct (verdict rcfg d) as [|e|t m f]; eapply (opened_let_go cfg bus d s); try exact Hop.
  - by rewrite ack_others.
  - by destruct (ack_answers cfg env bus o (s1 <| rlog := rlog s1 ++ map EMetric (received cfg "") |>)
      (auto_settle cfg) Hlaw (fresh_op_log _ _ _ Hf)) as (? & _ & _ & _ & _ & Hc & _).
  - by rewrite nack_others.
  - by destruct (nack_answers cfg env bus o (s1 <| rlog := rlog s1 ++ reject_events cfg rcfg e d |>)
      (auto_settle cfg) Hlaw (fresh_op_log _ _ _ Hf)) as (? & _ & _ & _ & _ & Hc & _).
  - rewrite dispatch_run. cbv zeta. set (s2 := s1 <| rlog := _ |>).
    destruct (handled_lets_go cfg env bus o (busNewSettler bus (auto_settle cfg)) t m f s2 Hob) as [Hd _].
    { destruct Hf as (x & Hx & _). exists x. exact Hx. }
    destruct (handled _ _ _ _ _ _ _ s2). exact Hd.
  - rewrite dispatch_run. cbv zeta. set (s2 := s1 <| rlog := _ |>).
    destruct (handled_lets_go cfg env bus o (busNewSettler bus (auto_settle cfg)) t m f s2 Hob) as [_ Hc].
    { destruct Hf as (x & Hx & _). exists x. exact Hx. }
    destruct (handled _ _ _ _ _ _ _ s2). exact Hc.
Qed.

(** ** Properties *)

(** The events of one delivery that concern the subscriber. *)
Definition promised_onevents (cfg : RecvCfg) (rcfg : RouteCfg) (d : Delivery) : list Event :=
  match verdict rcfg d with
  | VDispatch t m f => [EOnEvent t m f (bool_decide (ackMode cfg <> AckNone))]
  | _ => []
  end.

(** C1: [handleDelivery] is its verdict: ignored deliveries are acknowledged,
    rejected ones are nacked without requeue under their own error type, both
    exactly once, never reaching the subscriber and no longer counted as
    unsettled; the others reach the subscriber once, with the settler. *)
Theorem handleDelivery_verdict {St} cfg rcfg env (bus : Bus St) d s :
  ackMode cfg <> AckNone -> fresh_settler_law bus -> (- 2 ^ 63 <= unsettled s < 2 ^ 63)%Z ->
  let s' := (handleDelivery cfg rcfg env bus d s).2 in
  exists evs, rlog s' = rlog s ++ evs /\
  let answer call e := settles evs = [call] /\ onevents evs = [] /\ unsettled s' = unsettled s /\
    exists rest, points evs = received cfg e ++ rest /\
                 counted "messaging.client.consumed.messages" rest = 0%Z in
  match verdict rcfg d with
  | VIgnore => answer (EAck (dTag d) false) ""
  | VReject e => answer (ENack (dTag d) false false) e
  | VDispatch t m f => onevents evs = [EOnEvent t m f true]
  end.
Proof.
  intros Hm Hlaw Hr. cbv zeta. rewrite handleDelivery_run.
  destruct (opened_fresh cfg bus d s Hm) as (o & s1 & -> & Hf & Ht & Hl & _ & Hu).
  assert (forall l, fresh_op o (s1 <| rlog := l |>)) as Hfl by done.
  assert (forall l, tag_of (s1 <| rlog := l |>) o = dTag d) as Htl by (intros l; by rewrite <- Ht).
  destruct (verdict rcfg d) as [|e|t m f].
  - pose proof (ack_answers cfg env bus o _ (auto_settle cfg) Hlaw (Hfl (rlog s1 ++ map EMetric (received cfg "")))) as H.
    rewrite Htl in H.
    destruct (answered_outcome o _ _ (received cfg "") s s1 _ (settles_metric _) (onevents_metric _)
                (points_metric _) Hl Hu Hr H) as (evs & rest & ? & ? & ? & ? & ? & ?).
    exists evs. eauto 10.
  - destruct (reject_events_spec cfg rcfg e d) as (Hs & Ho & Hp).
    pose proof (nack_answers cfg env bus o _ (auto_settle cfg) Hlaw (Hfl (rlog s1 ++ reject_events cfg rcfg e d))) as H.
    rewrite Htl in H.
    destruct (answered_outcome o _ _ _ s s1 _ Hs Ho Hp Hl Hu Hr H) as (evs & rest & ? & ? & ? & ? & ? & ?).
    exists evs. eauto 10.
  - destruct (dispatch_spec cfg env bus (Some (o, busNewSettler bus (auto_settle cfg))) t m f s1)
      as (evs & Hl' & Ho & _). exists evs. by rewrite Hl', Hl.
Qed.

(** C16: Whatever the bus and the subscriber do, one delivery is counted as consumed
    exactly once and dispatched exactly when its verdict says so. *)
Theorem handleDelivery_counts_once {St} cfg rcfg env (bus : Bus St) d s :
  exists evs, rlog (handleDelivery cfg rcfg env bus d s).2 = rlog s ++ evs /\
    consumed evs = metered cfg /\ onevents evs = promised_onevents cfg rcfg d /\
    (ackMode cfg = AckNone -> settles evs = []).
Proof.
  rewrite handleDelivery_run. unfold promised_onevents.
  assert (exists settler s1, opened cfg bus d s = (settler, s1) /\ rlog s1 = rlog s /\
    bool_decide (is_Some settler) = bool_decide (ackMode cfg <> AckNone) /\
    (ackMode cfg = AckNone -> settler = None)) as (settler & s1 & -> & Hl & Hb & Hn).
  { destruct (decide (ackMode cfg = AckNone)) as [Hm|Hm].
    - exists None, s. split_and!; [by apply opened_none|done| |done]. by rewrite !bool_decide_eq_false_2 by (rewrite ?is_Some_alt; tauto).
    - destruct (opened_fresh cfg bus d s Hm) as (o & s1 & Ho & _ & _ & Hl & _).
      eexists _, s1. split_and!; [exact Ho|done| |done]. by rewrite !bool_decide_eq_true_2 by eauto. }
  assert (forall e, consumed (map EMetric (received cfg e)) = metered cfg) as Hrc.
  { intros e. rewrite consumed_metric. unfold received, metered. by destruct (rMetrics cfg). }
  destruct (verdict rcfg d) as [|e|t m f].
  - destruct (ack_confined cfg env bus settler (s1 <| rlog := rlog s1 ++ map EMetric (received cfg "") |>))
      as (evs & -> & Ho & Hc & Hnil).
    exists (map EMetric (received cfg "") ++ evs). unfold rec_set. simpl.
    autorewrite with rmq_simp. rewrite Hl, Ho, Hc, app_assoc. setoid_rewrite consumed_metric in Hrc.
    rewrite Hrc. split_and!; [done|lia|done|]. intros Hm. by rewrite Hnil by auto.
  - destruct (nack_confined cfg env bus settler (s1 <| rlog := rlog s1 ++ reject_events cfg rcfg e d |>))
      as (evs & -> & Ho & Hc & Hnil).
    destruct (reject_events_spec cfg rcfg e d) as (Hs' & Ho' & Hp').
    exists (reject_events cfg rcfg e d ++ evs). unfold rec_set. simpl.
    autorewrite with rmq_simp. rewrite Hl, Ho, Hc, Ho', app_assoc, Hs'.
    split_and!; [done| |done|intros Hm; by rewrite Hnil by auto].
    unfold consumed. rewrite Hp'. specialize (Hrc e). rewrite consumed_metric in Hrc. lia.
  - destruct (dispatch_spec cfg env bus settler t m f s1) as (evs & -> & Ho & Hc & Hnil).
    exists evs. rewrite Hl, Hc, Ho. split_and!; [done..| |auto]. do 2 f_equal. exact Hb.
Qed.

(** The count of unsettled deliveries stays the number of ops objects not let
    go of, through any delivery; and one whose subscriber only observes is let
    go of before [handleDelivery] returns. *)
Theorem handleDelivery_unsettled {St} cfg rcfg env (bus : Bus St) d s :
  counted_ok s ->
  let s' := (handleDelivery cfg rcfg env bus d s).2 in
  counted_ok s' /\
  (busObserved bus = true -> fresh_settler_law bus -> open_ops (ops s') = open_ops (ops s) /\
     unsettled s' = unsettled s).
Proof.
  intros Hs s'. assert (counted_ok s') as Hs' by by apply handleDelivery_counted.
  split; [done|]. intros Hob Hlaw.
  assert (open_ops (ops s') = open_ops (ops s)) as Hopen;
    [|split; [done|]; unfold counted_ok in *; congruence].
  by apply handleDelivery_lets_go.
Qed.

(** The routing decision: the first subscription whose pattern matches, with
    its captures, or the default transform when none does; and it never
    produces an error, so the "routing" error path is dead. *)
Theorem resolveTopicPart1_first_match rcfg subs rk :
  let p := resolveTopicPart1 rcfg subs rk in
  p1Err p = None /\
  match p1Sub p with
  | Some sub =>
      p1Topic p = "" /\ p1Fallback p = fallbackNone /\
      match_ (RoutingKeyPattern sub) rk = Some (p1Extracted p) /\
      exists l1 l2, subs = l1 ++ sub :: l2 /\
        Forall (fun sub' => match_ (RoutingKeyPattern sub') rk = None) l1
  | None =>
      p = resolveDefault rcfg rk /\ Forall (fun sub' => match_ (RoutingKeyPattern sub') rk = None) subs
  end.
Proof.
  cbv zeta. split; [apply resolveTopicPart1_no_error|].
  assert (p1Sub (resolveDefault rcfg rk) = None) as Hd
    by (unfold resolveDefault; by destruct (defaultXform rcfg)).
  induction subs as [|sub subs IH]; simpl; [by rewrite Hd|].
  destruct (match_ (RoutingKeyPattern sub) rk) as [f|] eqn:Hm; simpl.
  - split_and!; [done..|]. exists [], subs. eauto.
  - destruct (p1Sub (resolveTopicPart1 rcfg subs rk)) as [sub'|].
    + destruct IH as (? & ? & ? & l1 & l2 & -> & Hf). split_and!; [done..|].
      exists (sub :: l1), l2. eauto.
    + destruct IH as [-> Hf]. eauto.
Qed.

Lemma ReplaceAll_empty a b s : ReplaceAll a b s = "" -> s = "".
Proof. by destruct s. Qed.

Lemma resolveTopicPart1_topic rcfg rk subs :
  let p := resolveTopicPart1 rcfg subs rk in
  p1Sub p = None -> p1Fallback p = fallbackNone -> p1Topic p = dotToSlash rk \/ p1Topic p = rk.
Proof.
  cbv zeta. induction subs as [|sub subs IH]; simpl.
  - unfold resolveDefault. destruct (defaultXform rcfg); simpl; auto; discriminate.
  - by destruct (match_ _ _).
Qed.

(** A dispatched event has a topic whenever the delivery has a routing key,
    and its message is the body decoded by the configured wire format. *)
Theorem dispatch_topic_nonempty rcfg d t m f :
  verdict rcfg d = VDispatch t m f -> dRoutingKey d <> "" ->
  t <> "" /\ decode_body rcfg (dBody d) = inl m.
Proof.
  unfold verdict. pose proof (resolveTopicPart1_topic rcfg (dRoutingKey d)) as Hdef.
  specialize (Hdef (subscriptions rcfg)). revert Hdef. cbv zeta.
  set (p := resolveTopicPart1 _ _ _). intros Hdef Hv Hrk.
  destruct (p1Fallback p) eqn:Hfa; [|done..]. destruct (decode_body _ _) as [msg|]; [|done].
  destruct (subscription_topic _ _ _ _ _) as [[topic|] fs] eqn:Hst; simplify_eq. split; [|done].
  revert Hst. unfold subscription_topic.
  assert (dotToSlash (dRoutingKey d) <> "") as Hds by (intros H; by apply Hrk, (ReplaceAll_empty _ _ _ H)).
  destruct (p1Sub p) as [sub|].
  - destruct (sVinculumTopicFunc sub) as [v|]; [|by intros ?; simplify_eq].
    destruct (v _ _ _ _) as [[t'|] ?]; [|done]. case_decide; intros ?; by simplify_eq.
  - intros ?; simplify_eq. destruct (Hdef eq_refl eq_refl) as [-> | ->]; done.
Qed.

(** ** Witnesses *)

(** A bus settler that settles once: the flag is its claim, given back when the
    broker refuses; the subscriber handles everything and settles nothing. *)
Definition sample_bus (observed : bool) : Bus bool :=
  {| busNewSettler := fun _ => false;
     busAck := fun claimed =>
       if claimed then ODone (false, None, true)
       else OValid (fun ok _ => if ok
         then OAck (fun e => ODone (match e with None => true | _ => false end, e, match e with None => true | _ => false end))
         else ODone (false, None, false));
     busNack := fun claimed reason =>
       if claimed then ODone (false, None, true)
       else OValid (fun ok _ => if ok
         then ONack reason (fun e => ODone (match e with None => true | _ => false end, e, match e with None => true | _ => false end))
         else ODone (false, None, false));
     busOnEvent := fun claimed _ _ _ => ODone (None, claimed);
     busOnEventBare := fun _ _ _ => None;
     busSettleOnReturn := fun claimed _ => ODone claimed;
     busObserved := observed |}.

Lemma sample_bus_law observed : fresh_settler_law (sample_bus observed).
Proof.
  intros auto. split; [|intros r];
    eexists (fun e => (match e with None => true | _ => false end, e, match e with None => true | _ => false end)),
            (fun _ => (false, None, false)); reflexivity.
Qed.

(** One subscription on [a.*], everything else refused. *)
Definition sample_rcfg : RouteCfg :=
  {| subscriptions := [{| RoutingKeyPattern := "x.*who"; sVinculumTopicFunc := None |}];
     defaultXform := DefaultRKError; wireFormat := sample_wire; onDecodeError := false |}.

Lemma handleDelivery_verdict_witness :
  let s' := (handleDelivery sample_cfg sample_rcfg sample_env (sample_bus false) sample_delivery d_init).2 in
  settles (rlog s') = [ENack 7 false false] /\ onevents (rlog s') = [] /\ unsettled s' = 0%Z.
Proof.
  intros s'.
  destruct (handleDelivery_verdict sample_cfg sample_rcfg sample_env (sample_bus false) sample_delivery d_init)
    as (evs & Hl & H); [done|apply sample_bus_law|simpl; lia|].
  change (rlog s' = evs) in Hl. rewrite Hl. cbv zeta in H.
  change (verdict sample_rcfg sample_delivery) with (VReject "no_subscription") in H.
  destruct H as (Hs & Ho & Hu & _). split_and!; [exact Hs|exact Ho|exact Hu].
Defined.

Lemma handleDelivery_unsettled_witness :
  let s1 := (newSettler sample_cfg sample_delivery d_init).2 in
  unsettled (handleDelivery sample_cfg sample_rcfg sample_env (sample_bus true) sample_delivery s1).2 = 1%Z.
Proof.
  intros s1.
  destruct (handleDelivery_unsettled sample_cfg sample_rcfg sample_env (sample_bus true) sample_delivery s1)
    as [_ H]; [vm_compute; reflexivity|].
  destruct H as [_ ->]; [reflexivity|apply sample_bus_law|reflexivity].
Defined.

Lemma dispatch_topic_nonempty_witness :
  let d := {| dTag := 7; dRoutingKey := "x.y"; dExchange := "ex"; dHeaders := None; dBody := None |} in
  verdict sample_rcfg d = VDispatch "x/y" AnyNil (Some {[ "who" := "y" ]}) /\ "x/y" <> "".
Proof.
  intros d. assert (verdict sample_rcfg d = VDispatch "x/y" AnyNil (Some {[ "who" := "y" ]})) as H
    by (vm_compute; reflexivity).
  split; [exact H|].
  exact (proj1 (dispatch_topic_nonempty sample_rcfg d _ _ _ H ltac:(discriminate))).
Defined.
