(* ===== verification/ReceiverLife.v ===== *)
(** * The receiver's lifecycle: src/receiver/receiver.go

    [DeclareTopology], [Start], [Drain], [Stop] and [runLoop], interleaved. The
    receiver's mutex is released between the parts of each method, so a call is
    a thread whose program counter ([PC]) names the part it runs next; each
    part -- one critical section, one broker round trip, one channel operation
    -- is one atomic step of [exec], and any number of calls run at once. A
    cycle is what one [Start] creates: the two contexts, the deliveries channel
    and the loop. The broker's answers, the deadline and the scheduler are the
    choices in the labels. *)

From stdpp Require Import pretty.
From S2P Require Import Prelude GoLib ConsumerTag Settle.

(** ** Data *)

Record Declare_ := { Durable : bool; AutoDelete : bool }.
Record Binding := { bRoutingKey : string; bExchange : string }.

Record LifeCfg := {
  lClientName : string;
  queue : string;
  prefetch : Z;
  exclusive : bool;
  lAckMode : AckMode;
  consumerTag : string;
  declare : option Declare_;
  bindings : list Binding;
}.

(** Calls on a channel, oldest first. *)
Inductive WEvent :=
| EQueueDeclare (ch : nat) (name : string) (durable autoDelete : bool)
| EQueueDeclarePassive (ch : nat) (name : string) (durable : bool)
| EQueueBind (ch : nat) (name key exchange : string)
| EQos (ch : nat) (prefetchCount : Z)
| EConsume (ch : nat) (queue consumer : string) (autoAck exclusive : bool)
| ECancel (ch : nat) (consumer : string)
| EWarn (msg : string).

(** One cycle: whether each context is cancelled, the loop's goroutine, the
    deliveries channel, and what went through it. [cyExited] is [done] closed;
    [cyDied] that the AMQP channel under it is gone. *)
Record Cycle := {
  cyRead : bool;
  cyWork : bool;
  cySpawned : bool;
  cyExited : bool;
  cyClosed : bool;
  cySent : list Delivery;
  cyBacklog : list Delivery;
  cyBusy : option Delivery;
  cyHandled : list Delivery;
  cyDied : bool;
}.

#[export] Instance set_cyRead : RecSet cyRead := {| rec_set := fun v c =>
  Build_Cycle v (cyWork c) (cySpawned c) (cyExited c) (cyClosed c) (cySent c)
    (cyBacklog c) (cyBusy c) (cyHandled c) (cyDied c) |}.
#[export] Instance set_cyWork : RecSet cyWork := {| rec_set := fun v c =>
  Build_Cycle (cyRead c) v (cySpawned c) (cyExited c) (cyClosed c) (cySent c)
    (cyBacklog c) (cyBusy c) (cyHandled c) (cyDied c) |}.
#[export] Instance set_cySpawned : RecSet cySpawned := {| rec_set := fun v c =>
  Build_Cycle (cyRead c) (cyWork c) v (cyExited c) (cyClosed c) (cySent c)
    (cyBacklog c) (cyBusy c) (cyHandled c) (cyDied c) |}.
#[export] Instance set_cyExited : RecSet cyExited := {| rec_set := fun v c =>
  Build_Cycle (cyRead c) (cyWork c) (cySpawned c) v (cyClosed c) (cySent c)
    (cyBacklog c) (cyBusy c) (cyHandled c) (cyDied c) |}.
#[export] Instance set_cyClosed : RecSet cyClosed := {| rec_set := fun v c =>
  Build_Cycle (cyRead c) (cyWork c) (cySpawned c) (cyExited c) v (cySent c)
    (cyBacklog c) (cyBusy c) (cyHandled c) (cyDied c) |}.
#[export] Instance set_cySent : RecSet cySent := {| rec_set := fun v c =>
  Build_Cycle (cyRead c) (cyWork c) (cySpawned c) (cyExited c) (cyClosed c) v
    (cyBacklog c) (cyBusy c) (cyHandled c) (cyDied c) |}.
#[export] Instance set_cyBacklog : RecSet cyBacklog := {| rec_set := fun v c =>
  Build_Cycle (cyRead c) (cyWork c) (cySpawned c) (cyExited c) (cyClosed c) (cySent c)
    v (cyBusy c) (cyHandled c) (cyDied c) |}.
#[export] Instance set_cyBusy : RecSet cyBusy := {| rec_set := fun v c =>
  Build_Cycle (cyRead c) (cyWork c) (cySpawned c) (cyExited c) (cyClosed c) (cySent c)
    (cyBacklog c) v (cyHandled c) (cyDied c) |}.
#[export] Instance set_cyHandled : RecSet cyHandled := {| rec_set := fun v c =>
  Build_Cycle (cyRead c) (cyWork c) (cySpawned c) (cyExited c) (cyClosed c) (cySent c)
    (cyBacklog c) (cyBusy c) v (cyDied c) |}.
#[export] Instance set_cyDied : RecSet cyDied := {| rec_set := fun v c =>
  Build_Cycle (cyRead c) (cyWork c) (cySpawned c) (cyExited c) (cyClosed c) (cySent c)
    (cyBacklog c) (cyBusy c) (cyHandled c) v |}.

Definition new_cycle : Cycle :=
  {| cyRead := false; cyWork := false; cySpawned := false; cyExited := false; cyClosed := false;
     cySent := []; cyBacklog := []; cyBusy := None; cyHandled := []; cyDied := false |}.

(** Which call a thread made; a [Stop] remembers whether it ended a cycle. *)
Inductive Kind := KStart | KDrain | KStop (took : bool).

(** Where a call is. *)
Inductive PC :=
| PStart (ch : nat)
| PQos (ch : nat)
| PConsume (ch : nat)
| PInstall (ch : nat) (tag : string) (c : nat)
| PDrain
| PDrainProbe
| PDrainCancel (stopRead : nat) (ch : option nat) (tag : string) (done : option nat)
| PDrainCheck (stopRead : nat) (done : option nat) (timedOut : bool)
| PDrainWait (stopRead : nat) (done : nat)
| PStop
| PStopProbe
| PStopWork (stopWork : nat) (done : option nat)
| PStopDecide (done : option nat)
| PStopAbandon
| PStopWait (done : option nat)
| PStopBump
| PReturned (k : Kind) (err : option error).

(** The receiver, its cycles, the calls in progress and the wire. Cancel
    functions and [done] channels are named by the cycle they belong to. *)
Record Sys := {
  drained : bool;
  stopRead : option nat;
  stopWork : option nat;
  loopDone : option nat;
  ch_ : option nat;
  activeTag : string;
  epoch_ : Z;
  stillDelivering : option nat;
  cycles : gmap nat Cycle;
  threads : gmap nat PC;
  wire : list WEvent;
}.

#[export] Instance set_drained : RecSet drained := {| rec_set := fun v s =>
  Build_Sys v (stopRead s) (stopWork s) (loopDone s) (ch_ s) (activeTag s) (epoch_ s) (stillDelivering s)
    (cycles s) (threads s) (wire s) |}.
#[export] Instance set_stopRead : RecSet stopRead := {| rec_set := fun v s =>
  Build_Sys (drained s) v (stopWork s) (loopDone s) (ch_ s) (activeTag s) (epoch_ s) (stillDelivering s)
    (cycles s) (threads s) (wire s) |}.
#[export] Instance set_stopWork : RecSet stopWork := {| rec_set := fun v s =>
  Build_Sys (drained s) (stopRead s) v (loopDone s) (ch_ s) (activeTag s) (epoch_ s) (stillDelivering s)
    (cycles s) (threads s) (wire s) |}.
#[export] Instance set_loopDone : RecSet loopDone := {| rec_set := fun v s =>
  Build_Sys (drained s) (stopRead s) (stopWork s) v (ch_ s) (activeTag s) (epoch_ s) (stillDelivering s)
    (cycles s) (threads s) (wire s) |}.
#[export] Instance set_ch : RecSet ch_ := {| rec_set := fun v s =>
  Build_Sys (drained s) (stopRead s) (stopWork s) (loopDone s) v (activeTag s) (epoch_ s) (stillDelivering s)
    (cycles s) (threads s) (wire s) |}.
#[export] Instance set_activeTag : RecSet activeTag := {| rec_set := fun v s =>
  Build_Sys (drained s) (stopRead s) (stopWork s) (loopDone s) (ch_ s) v (epoch_ s) (stillDelivering s)
    (cycles s) (threads s) (wire s) |}.
#[export] Instance set_epoch : RecSet epoch_ := {| rec_set := fun v s =>
  Build_Sys (drained s) (stopRead s) (stopWork s) (loopDone s) (ch_ s) (activeTag s) v (stillDelivering s)
    (cycles s) (threads s) (wire s) |}.
#[export] Instance set_stillDelivering : RecSet stillDelivering := {| rec_set := fun v s =>
  Build_Sys (drained s) (stopRead s) (stopWork s) (loopDone s) (ch_ s) (activeTag s) (epoch_ s) v
    (cycles s) (threads s) (wire s) |}.
#[export] Instance set_cycles : RecSet cycles := {| rec_set := fun v s =>
  Build_Sys (drained s) (stopRead s) (stopWork s) (loopDone s) (ch_ s) (activeTag s) (epoch_ s) (stillDelivering s)
    v (threads s) (wire s) |}.
#[export] Instance set_threads : RecSet threads := {| rec_set := fun v s =>
  Build_Sys (drained s) (stopRead s) (stopWork s) (loopDone s) (ch_ s) (activeTag s) (epoch_ s) (stillDelivering s)
    (cycles s) v (wire s) |}.
#[export] Instance set_wire : RecSet wire := {| rec_set := fun v s =>
  Build_Sys (drained s) (stopRead s) (stopWork s) (loopDone s) (ch_ s) (activeTag s) (epoch_ s) (stillDelivering s)
    (cycles s) (threads s) v |}.

Definition init : Sys :=
  {| drained := false; stopRead := None; stopWork := None; loopDone := None; ch_ := None; activeTag := "";
     epoch_ := 0; stillDelivering := None; cycles := ∅; threads := ∅; wire := [] |}.

(** What the outside decides at a step: a round trip succeeds, fails, or the
    call's deadline comes first. *)
Inductive Choice := COk | CErr (e : error) | CTimeout.

Inductive label :=
| LCall (t : nat) (p : PC)
| LGo (t : nat) (x : Choice)
| LSend (c : nat) (d : Delivery)
| LClose (c : nat)
| LDie (c : nat)
| LCtx (c : nat)
| LTake (c : nat)
| LFinish (c : nat)
| LExit (c : nat).

(** ** The code *)

Definition fmt_drained : string := "rabbitmq receiver: drained, not restarting for queue %q".
Definition fmt_already : string := "rabbitmq receiver: already started for queue %q".
Definition fmt_qos : string := "rabbitmq receiver: qos prefetch=%d: %w".
Definition fmt_consume : string := "rabbitmq receiver: consume %q: %w".
Definition fmt_still : string := "rabbitmq receiver: still delivering for queue %q".
Definition fmt_drain : string := "rabbitmq receiver: drain queue %q: %w".
Definition fmt_stopped : string := "rabbitmq receiver: stopped with a delivery still running for queue %q".
Definition fmt_declare : string := "rabbitmq receiver: declare queue %q: %w".
Definition fmt_passive : string := "rabbitmq receiver: passive declare queue %q: %w".
Definition fmt_bind : string := "rabbitmq receiver: bind queue %q to exchange %q key %q: %w".

(** The declarations [DeclareTopology] makes, first the queue, then each
    binding, each with the error it reports; [answer] is the broker's, given
    the calls so far. *)
Definition declarations (cfg : LifeCfg) (ch : nat) : list (WEvent * (error -> error)) :=
  match declare cfg with
  | Some d => (EQueueDeclare ch (queue cfg) (Durable d) (AutoDelete d), Errorfw fmt_declare [queue cfg])
  | None => (EQueueDeclarePassive ch (queue cfg) true, Errorfw fmt_passive [queue cfg])
  end ::
  map (fun b => (EQueueBind ch (queue cfg) (bRoutingKey b) (bExchange b),
                 Errorfw fmt_bind [queue cfg; bExchange b; bRoutingKey b])) (bindings cfg).

Fixpoint declare_all (answer : list WEvent -> option error) (calls : list (WEvent * (error -> error)))
    (w : list WEvent) : option error * list WEvent :=
  match calls with
  | [] => (None, w)
  | (e, wrap) :: calls' =>
      let w' := w ++ [e] in
      match answer w' with
      | Some err => (Some (wrap err), w')
      | None => declare_all answer calls' w'
      end
  end.

Definition DeclareTopology (cfg : LifeCfg) (answer : list WEvent -> option error) (ch : nat)
    (w : list WEvent) : option error * list WEvent :=
  declare_all answer (declarations cfg ch) w.

(** [done] closed. *)
Definition exited (s : Sys) (c : nat) : bool :=
  match cycles s !! c with Some y => cyExited y | None => false end.

Definition stillRunning (s : Sys) : bool :=
  match stillDelivering s with None => false | Some c => negb (exited s c) end.

Definition upd_cycle (c : nat) (f : Cycle -> Cycle) (s : Sys) : Sys :=
  s <| cycles := alter f c (cycles s) |>.

(** [stopRead()] and [stopWork()]: the read context derives from the work one. *)
Definition cancel_read (c : nat) : Sys -> Sys := upd_cycle c (fun y => y <| cyRead := true |>).
Definition cancel_work (c : nat) : Sys -> Sys :=
  upd_cycle c (fun y => y <| cyRead := true |> <| cyWork := true |>).

Definition log (e : WEvent) (s : Sys) : Sys := s <| wire := wire s ++ [e] |>.
Definition at_pc (t : nat) (p : PC) (s : Sys) : Sys := s <| threads := <[t := p]> (threads s) |>.

Section life.
Context (cfg : LifeCfg).

Definition returned (t : nat) (k : Kind) (err : option error) (s : Sys) : option Sys :=
  Some (at_pc t (PReturned k err) s).
Definition goto (t : nat) (p : PC) (s : Sys) : option Sys := Some (at_pc t p s).

(** Start, up to its first unlock. *)
Definition start_check (t ch : nat) (s : Sys) : option Sys :=
  if drained s then returned t KStart (Some (Errorf fmt_drained [queue cfg])) s
  else match stopWork s with
       | Some _ => returned t KStart (Some (Errorf fmt_already [queue cfg])) s
       | None => goto t (if (0 <? prefetch cfg)%Z then PQos ch else PConsume ch) s
       end.

Definition start_qos (t ch : nat) (x : Choice) (s : Sys) : option Sys :=
  let s' := log (EQos ch (prefetch cfg)) s in
  match x with
  | COk => goto t (PConsume ch) s'
  | CErr e => returned t KStart (Some (Errorfw fmt_qos [pretty (prefetch cfg)] e)) s'
  | CTimeout => None
  end.

(** The consume round trip; on success the deliveries channel exists. *)
Definition start_consume (t ch : nat) (x : Choice) (s : Sys) : option Sys :=
  let tag := startTag (consumerTag cfg) (lClientName cfg) (queue cfg) in
  let s' := log (EConsume ch (queue cfg) tag (bool_decide (lAckMode cfg = AckNone)) (exclusive cfg)) s in
  match x with
  | COk =>
      let c := fresh (dom (cycles s)) in
      goto t (PInstall ch tag c) (s' <| cycles := <[c := new_cycle]> (cycles s) |>)
  | CErr e => returned t KStart (Some (Errorfw fmt_consume [queue cfg] e)) s'
  | CTimeout => None
  end.

(** The second critical section, and the [go] statement. *)
Definition start_install (t ch : nat) (tag : string) (c : nat) (s : Sys) : option Sys :=
  returned t KStart None
    (upd_cycle c (fun y => y <| cySpawned := true |>)
      (s <| stopWork := Some c |> <| stopRead := Some c |> <| loopDone := Some c |>
         <| ch_ := Some ch |> <| activeTag := tag |>)).

(** Drain's critical section. *)
Definition drain_take (t : nat) (s : Sys) : option Sys :=
  let s := s <| drained := true |> in
  match stopRead s with
  | None => goto t PDrainProbe s
  | Some r =>
      let s' := s <| stopRead := None |> in
      goto t (PDrainCancel r (ch_ s) (activeTag s) (loopDone s))
        (match loopDone s with
         | Some c => s' <| stillDelivering := Some c |>
         | None => s'
         end)
  end.

Definition drain_probe (t : nat) (s : Sys) : option Sys :=
  returned t KDrain (if stillRunning s then Some (Errorf fmt_still [queue cfg]) else None) s.

(** Withdrawing the consumer, off the lock and bounded by the deadline, and
    ending the loop the other way when that did not work. *)
Definition drain_cancel (t r : nat) (ch : option nat) (tag : string) (done : option nat) (x : Choice)
    (s : Sys) : option Sys :=
  match ch with
  | None => goto t (PDrainCheck r done false) (cancel_read r s)
  | Some ch =>
      let s := log (ECancel ch tag) s in
      match x with
      | COk => goto t (PDrainCheck r done false) s
      | CErr _ =>
          goto t (PDrainCheck r done false)
            (log (EWarn "rabbitmq receiver: could not withdraw the consumer") (cancel_read r s))
      | CTimeout => goto t (PDrainCheck r done true) (cancel_read r s)
      end
  end.

(** [ctx.Err()], which stays set once the deadline has been seen to pass. *)
Definition drain_check (t r : nat) (done : option nat) (timedOut : bool) (x : Choice) (s : Sys) : option Sys :=
  let late := returned t KDrain (Some (Errorfw fmt_drain [queue cfg] (New "context deadline exceeded"))) s in
  match x with
  | CTimeout => late
  | _ =>
      if timedOut then late
      else match done with
           | None => returned t KDrain None s
           | Some c => goto t (PDrainWait r c) s
           end
  end.

Definition drain_wait (t r c : nat) (x : Choice) (s : Sys) : option Sys :=
  match x with
  | CTimeout =>
      returned t KDrain (Some (Errorfw fmt_drain [queue cfg] (New "context deadline exceeded"))) s
  | _ => if exited s c then returned t KDrain None (cancel_read r s) else None
  end.

(** Stop's critical section. *)
Definition stop_take (t : nat) (s : Sys) : option Sys :=
  let s' := s <| stopRead := None |> <| stopWork := None |> <| loopDone := None |> <| ch_ := None |> in
  match stopWork s with
  | None => goto t PStopProbe s'
  | Some w => goto t (PStopWork w (loopDone s)) s'
  end.

Definition stoppedWithDeliveryRunning (s : Sys) : option error :=
  if stillRunning s then Some (Errorf fmt_stopped [queue cfg]) else None.

Definition stop_decide (t : nat) (done : option nat) (s : Sys) : option Sys :=
  match stoppedWithDeliveryRunning s with
  | Some _ => goto t PStopAbandon s
  | None => goto t (PStopWait done) s
  end.

Definition stop_wait (t : nat) (done : option nat) (s : Sys) : option Sys :=
  match done with
  | None => goto t PStopBump s
  | Some c => if exited s c then goto t PStopBump s else None
  end.

Definition stop_bump (t : nat) (err : option error) (s : Sys) : option Sys :=
  returned t (KStop true) err (s <| epoch_ := wrap_u64 (epoch_ s + 1) |>).

(** One part of a call. *)
Definition go (t : nat) (p : PC) (x : Choice) (s : Sys) : option Sys :=
  match p with
  | PStart ch => start_check t ch s
  | PQos ch => start_qos t ch x s
  | PConsume ch => start_consume t ch x s
  | PInstall ch tag c => start_install t ch tag c s
  | PDrain => drain_take t s
  | PDrainProbe => drain_probe t s
  | PDrainCancel r ch tag done => drain_cancel t r ch tag done x s
  | PDrainCheck r done timedOut => drain_check t r done timedOut x s
  | PDrainWait r c => drain_wait t r c x s
  | PStop => stop_take t s
  | PStopProbe => returned t (KStop false) (stoppedWithDeliveryRunning s) s
  | PStopWork w done => goto t (PStopDecide done) (cancel_work w s)
  | PStopDecide done => stop_decide t done s
  | PStopAbandon => stop_bump t (Some (Errorf fmt_stopped [queue cfg])) s
  | PStopWait done => stop_wait t done s
  | PStopBump => stop_bump t None s
  | PReturned _ _ => None
  end.

Definition is_entry (p : PC) : bool := match p with PStart _ | PDrain | PStop => true | _ => false end.

(** The loop of a cycle: its select takes a ready delivery or leaves. As for
    any Go channel, that the deliveries channel is closed is seen only behind
    what is still in it. *)
Definition loop_take (y : Cycle) : option Cycle :=
  match cySpawned y, cyExited y, cyBusy y, cyBacklog y with
  | true, false, None, d :: ds => Some (y <| cyBusy := Some d |> <| cyBacklog := ds |>)
  | _, _, _, _ => None
  end.

Definition loop_finish (y : Cycle) : option Cycle :=
  match cyBusy y with
  | Some d => Some (y <| cyBusy := None |> <| cyHandled := cyHandled y ++ [d] |>)
  | None => None
  end.

Definition loop_exit (y : Cycle) : option Cycle :=
  match cySpawned y, cyExited y, cyBusy y with
  | true, false, None =>
      if cyRead y || (cyClosed y && bool_decide (cyBacklog y = []))
      then Some (y <| cyExited := true |>) else None
  | _, _, _ => None
  end.

Definition broker_send (d : Delivery) (y : Cycle) : option Cycle :=
  if cyClosed y then None
  else Some (y <| cySent := cySent y ++ [d] |> <| cyBacklog := cyBacklog y ++ [d] |>).

(** The deliveries channel ends in one of two ways. The consumer is withdrawn,
    by [basic.cancel] or by the broker: the library closes it behind what it
    already holds. Or the AMQP channel dies, with its connection or alone: the
    library abandons what it has not handed over. *)
Definition withdrawn (y : Cycle) : Cycle := y <| cyClosed := true |>.
Definition died (y : Cycle) : Cycle := y <| cyClosed := true |> <| cyBacklog := [] |> <| cyDied := true |>.

Definition on_cycle (c : nat) (f : Cycle -> option Cycle) (s : Sys) : option Sys :=
  y ← cycles s !! c; y' ← f y; Some (s <| cycles := <[c := y']> (cycles s) |>).

Definition exec (s : Sys) (l : label) : option Sys :=
  match l with
  | LCall t p =>
      match threads s !! t with
      | None => if is_entry p then goto t p s else None
      | Some _ => None
      end
  | LGo t x => p ← threads s !! t; go t p x s
  | LSend c d => on_cycle c (broker_send d) s
  | LClose c => on_cycle c (fun y => Some (withdrawn y)) s
  | LDie c => on_cycle c (fun y => Some (died y)) s
  | LCtx c => on_cycle c (fun y => Some (y <| cyRead := true |> <| cyWork := true |>)) s
  | LTake c => on_cycle c loop_take s
  | LFinish c => on_cycle c loop_finish s
  | LExit c => on_cycle c loop_exit s
  end.

Definition lstep (s : Sys) (l : label) (s' : Sys) : Prop := exec s l = Some s'.

Lemma lrun s ls s' : exec_all exec s ls = Some s' -> run lstep s ls s'.
Proof. by apply exec_all_run. Qed.
End life.

(** ** Invariants *)

Section inv.
Context (cfg : LifeCfg).

(** Unfold one step of a call into its outcomes. *)
Ltac step_cases H :=
  cbv [lstep exec go goto returned start_check start_qos start_consume start_install drain_take drain_probe
       drain_cancel drain_check drain_wait stop_take stop_decide stop_wait stop_bump] in H;
  split_in H; injection H as <-.

Lemma on_cycle_Some c f s s' :
  on_cycle c f s = Some s' ->
  exists y y', cycles s !! c = Some y /\ f y = Some y' /\ s' = s <| cycles := <[c := y']> (cycles s) |>.
Proof.
  unfold on_cycle. intros (y & Hy & (y' & Hy' & [= <-])%bind_Some)%bind_Some. eauto.
Qed.

(** What the loop, the broker and the life context do to a cycle. *)
Inductive cycle_step (y : Cycle) : Cycle -> Prop :=
| cs_send d y' : broker_send d y = Some y' -> cycle_step y y'
| cs_close : cycle_step y (withdrawn y)
| cs_die : cycle_step y (died y)
| cs_ctx : cycle_step y (y <| cyRead := true |> <| cyWork := true |>)
| cs_take y' : loop_take y = Some y' -> cycle_step y y'
| cs_finish y' : loop_finish y = Some y' -> cycle_step y y'
| cs_exit y' : loop_exit y = Some y' -> cycle_step y y'.

(** A step either touches one cycle, starts a call, or runs a part of one. *)
Lemma lstep_cases s l s' :
  lstep cfg s l s' ->
  (exists c y y', cycles s !! c = Some y /\ cycle_step y y' /\
     s' = s <| cycles := <[c := y']> (cycles s) |>) \/
  (exists t p, l = LCall t p /\ threads s !! t = None /\ is_entry p = true /\ s' = at_pc t p s) \/
  (exists t x p, l = LGo t x /\ threads s !! t = Some p /\ go cfg t p x s = Some s').
Proof.
  destruct l; unfold lstep; cbn [exec]; intros H.
  3-9: left; apply on_cycle_Some in H as (y & y' & Hy & Hf & ->);
       exists c, y, y'; split_and!; [done| |done]; simplify_eq; by econstructor.
  - right. left. destruct (threads s !! t) eqn:Ht; [done|]. destruct (is_entry p) eqn:Hp; [|done].
    injection H as <-. eauto 10.
  - right. right. apply bind_Some in H as (p & Hp & H). eauto 10.
Qed.

(** The receiver's fields are set and cleared together: what is still to be
    stopped, read or withdrawn is one cycle, and a cycle no longer read
    is the one a drain waits for. *)
Record linked (s : Sys) : Prop := {
  l_read : forall c, stopRead s = Some c -> stopWork s = Some c;
  l_done : loopDone s = stopWork s;
  l_ch : is_Some (ch_ s) <-> is_Some (stopWork s);
  l_taken : forall c, stopWork s = Some c -> stopRead s = None -> stillDelivering s = Some c;
  l_still : is_Some (stillDelivering s) -> drained s = true;
}.

Lemma linked_step s l s' : linked s -> lstep cfg s l s' -> linked s'.
Proof.
  intros [H1 H2 H3 H4 H5] [(c & y & y' & _ & _ & ->)|[(t & p & _ & _ & _ & ->)|(t & x & p & _ & Hp & Hgo)]]%lstep_cases;
    [done..|].
  destruct p; step_cases Hgo; split; unfold rec_set, is_Some in *; simpl in *;
    try done; try congruence; naive_solver congruence.
Qed.

Lemma linked_run s ls s' : run (lstep cfg) s ls s' -> linked s -> linked s'.
Proof. intros Hrun Hs. revert Hrun. by apply run_invariant; [intros; eapply linked_step|]. Qed.

Lemma linked_init : linked init.
Proof. split; simpl; try done; by intros [? ?]. Qed.

(** What a part of a call does to the cycles: nothing, a new one, or a flag
    of one of them. *)
Definition flags (f : Cycle -> Cycle) : Prop :=
  f = (fun y => y <| cyRead := true |>) \/ f = (fun y => y <| cyRead := true |> <| cyWork := true |>) \/
  f = (fun y => y <| cySpawned := true |>).

Lemma go_cycles t p x s s' :
  go cfg t p x s = Some s' ->
  cycles s' = cycles s \/
  (exists ch, p = PConsume ch /\ cycles s' = <[fresh (dom (cycles s)) := new_cycle]> (cycles s)) \/
  (exists c f, flags f /\ cycles s' = alter f c (cycles s)).
Proof.
  intros Hgo. unfold flags. destruct p; step_cases Hgo; unfold rec_set; simpl; eauto 10.
Qed.

(** A part of one call moves no other call. *)
Lemma go_threads t p x s s' t' : go cfg t p x s = Some s' -> t' <> t -> threads s' !! t' = threads s !! t'.
Proof.
  intros Hgo Ht. destruct p; step_cases Hgo; unfold rec_set; simpl; by rewrite lookup_insert_ne by done.
Qed.

(** Accounting of one cycle: what was sent was handled, is being handled, is
    waiting, or was lost with the AMQP channel; the loop leaves only when told
    to or when nothing is left. *)
Record cycle_ok (y : Cycle) : Prop := {
  y_sent : exists lost, cySent y = cyHandled y ++ option_list (cyBusy y) ++ cyBacklog y ++ lost /\
                        (cyDied y = false -> lost = []);
  y_died : cyDied y = true -> cyClosed y = true;
  y_idle : cyExited y = true -> cyBusy y = None;
  y_exit : cyExited y = true -> cyRead y = true \/ (cyClosed y = true /\ cyBacklog y = []);
}.

Lemma cycle_ok_step y y' : cycle_ok y -> cycle_step y y' -> cycle_ok y'.
Proof.
  intros [(lost & H1 & Hl) H0 H2 H3] Hst. destruct Hst as [d y' H| | | |y' H|y' H|y' H].
  - unfold broker_send in H. destruct (cyClosed y) eqn:Hc; simplify_eq.
    assert (cyDied y = false) as Hd by (destruct (cyDied y); [discriminate (H0 eq_refl)|done]).
    split; simpl; [|by rewrite Hd|done|].
    + exists []. rewrite Hl, app_nil_r in H1 by done. split; [|done]. by rewrite H1, app_nil_r, <- !app_assoc.
    + intros [?|[? _]]%H3; [by left|congruence].
  - unfold withdrawn. split; simpl; [by exists lost|done|done|]. intros [?|[? ?]]%H3; auto.
  - unfold died. split; simpl; [|done|done|by auto]. by exists (cyBacklog y ++ lost).
  - split; simpl; [by exists lost|by auto..].
  - unfold loop_take in H. split_in H. injection H as <-. split; simpl; [|done|congruence..].
    exists lost. split; [|done]. rewrite H1. by destruct y; simpl in *; subst.
  - unfold loop_finish in H. split_in H. injection H as <-. split; simpl; [|by auto..].
    exists lost. split; [|done]. rewrite H1, <- app_assoc. by destruct y; simpl in *; subst.
  - unfold loop_exit in H. split_in H. injection H as <-.
    split; simpl; [by exists lost; rewrite Heqo|done|by auto|].
    intros _. destruct (cyRead y); [by left|]. right. by destruct (cyClosed y), (cyBacklog y).
Qed.

Lemma cycle_ok_flags f y : flags f -> cycle_ok y -> cycle_ok (f y).
Proof. intros [-> | [-> | ->]] [H1 H0 H2 H3]; split; simpl; auto. Qed.

(** A loop that has left, not told to and with its AMQP channel alive, has
    handled everything. *)
Lemma all_handled y :
  cycle_ok y -> cyExited y = true -> cyRead y = false -> cyDied y = false -> cyHandled y = cySent y.
Proof.
  intros [(lost & -> & Hl) _ H2 H3] He Hr Hd. rewrite (H2 He), Hl by done.
  destruct (H3 He) as [|[_ ->]]; [congruence|]. simpl. by rewrite app_nil_r.
Qed.

(** A property of cycles that holds of a new one and is kept by the loop, the
    broker and the flags holds of every cycle. *)
Lemma cycles_invariant (P : Cycle -> Prop) s l s' :
  (forall y y', P y -> cycle_step y y' -> P y') -> (forall f y, flags f -> P y -> P (f y)) ->
  P new_cycle -> map_Forall (fun _ => P) (cycles s) -> lstep cfg s l s' ->
  map_Forall (fun _ => P) (cycles s').
Proof.
  intros Hst Hfl Hnew Hs
    [(c & y & y' & Hy & Hyy & ->)|[(t & p & _ & _ & _ & ->)|(t & x & p & _ & _ & Hgo)]]%lstep_cases; [|done|].
  - apply map_Forall_insert_2; [|done]. eapply Hst; [|done]. by eapply Hs.
  - apply go_cycles in Hgo as [-> | [(ch & _ & ->)|(c & f & Hf & ->)]]; [done|by apply map_Forall_insert_2|].
    intros c' y [(-> & y0 & Hy0 & ->)|[_ Hy]]%lookup_alter_Some; [|by eapply Hs].
    apply Hfl; [done|]. by eapply Hs.
Qed.

Lemma cycles_ok_run s ls s' :
  run (lstep cfg) s ls s' -> map_Forall (fun _ => cycle_ok) (cycles s) -> map_Forall (fun _ => cycle_ok) (cycles s').
Proof.
  intros Hrun Hs.
  refine (run_invariant (lstep cfg) (fun s => map_Forall (fun _ => cycle_ok) (cycles s)) s ls s' _ Hs Hrun).
  intros a l b Ha Hab. eapply cycles_invariant; [apply cycle_ok_step|apply cycle_ok_flags| |done|done].
  split; [by exists []|done..].
Qed.

(** A relation between a cycle's past and its future. *)
Lemma cycle_future (P : Cycle -> Prop) c s ls s' :
  (forall y y', P y -> cycle_step y y' -> P y') -> (forall f y, flags f -> P y -> P (f y)) ->
  run (lstep cfg) s ls s' -> (exists y, cycles s !! c = Some y /\ P y) ->
  exists y, cycles s' !! c = Some y /\ P y.
Proof.
  intros Hst Hfl Hrun Hs.
  refine (run_invariant (lstep cfg) (fun s => exists y, cycles s !! c = Some y /\ P y) s ls s' _ Hs Hrun).
  intros a l b (y & Hy & HP)
    [(c' & y1 & y' & Hy1 & Hyy & ->)|[(t & p & _ & _ & _ & ->)|(t & x & p & _ & _ & Hgo)]]%lstep_cases;
    [|by exists y|].
  - unfold rec_set. simpl. destruct (decide (c' = c)) as [->|Hne].
    + rewrite lookup_insert_eq. exists y'. split; [done|]. simplify_eq. eauto.
    + rewrite lookup_insert_ne by done. eauto.
  - apply go_cycles in Hgo as [-> | [(ch & _ & ->)|(c' & f & Hf & ->)]]; [eauto| |].
    + rewrite lookup_insert_ne; [eauto|]. intros <-.
      apply elem_of_dom_2 in Hy. by apply is_fresh in Hy.
    + destruct (decide (c' = c)) as [->|Hne].
      * rewrite lookup_alter_eq, Hy. simpl. eauto.
      * rewrite lookup_alter_ne by done. eauto.
Qed.

Lemma exited_run s ls s' c : run (lstep cfg) s ls s' -> exited s c = true -> exited s' c = true.
Proof.
  unfold exited. intros Hrun Hc. destruct (cycles s !! c) as [y|] eqn:Hy; [|done].
  destruct (cycle_future (fun y => cyExited y = true) c s ls s') as (y' & -> & ?); eauto.
  - intros y1 y2 H1 Hst. destruct Hst as [d y' H| | | |y' H|y' H|y' H]; try done.
    + unfold broker_send in H. split_in H. by simplify_eq.
    + unfold loop_take in H. split_in H. by simplify_eq.
    + unfold loop_finish in H. split_in H. by simplify_eq.
    + unfold loop_exit in H. split_in H. by simplify_eq.
  - by intros f y1 [-> | [-> | ->]].
Qed.
End inv.

(** ** After a drain *)

Definition is_consume (e : WEvent) : bool := match e with EConsume _ _ _ _ _ => true | _ => false end.
(** The consumers registered so far. *)
Definition consumes (w : list WEvent) : list WEvent := filter (fun e => is_consume e = true) w.

(** Inside [Start], past its check and before it has installed its cycle. *)
Definition in_start (p : PC) : bool :=
  match p with PQos _ | PConsume _ | PInstall _ _ _ => true | _ => false end.

Definition no_start (s : Sys) : Prop := map_Forall (fun _ p => in_start p = false) (threads s).

(** What no step adds once the receiver is drained and no Start is half-way. *)
Record shut (s s' : Sys) : Prop := {
  sh_drained : drained s' = true;
  sh_no_start : no_start s';
  sh_consumes : consumes (wire s') = consumes (wire s);
  sh_cycles : dom (cycles s') = dom (cycles s);
  sh_started : forall t, threads s' !! t = Some (PReturned KStart None) ->
                         threads s !! t = Some (PReturned KStart None);
  sh_work : stopWork s' = stopWork s \/ stopWork s' = None;
}.

Section drain.
Context (cfg : LifeCfg).

Lemma shut_trans s1 s2 s3 : shut s1 s2 -> shut s2 s3 -> shut s1 s3.
Proof.
  intros [? ? Hc1 Hd1 Hs1 Hw1] [? ? Hc2 Hd2 Hs2 Hw2]. split; [done..|congruence|congruence|auto|].
  destruct Hw2 as [->| ->]; auto.
Qed.

Lemma consumes_log w e : is_consume e = false -> consumes (w ++ [e]) = consumes w.
Proof.
  intros He. unfold consumes. rewrite filter_app, filter_cons_False by (by rewrite He).
  by rewrite filter_nil, app_nil_r.
Qed.

(** Moving one thread off the Start path keeps what [shut] says of threads. *)
Lemma shut_at_pc t p s : 
  no_start s -> in_start p = false -> p <> PReturned KStart None ->
  map_Forall (fun _ p => in_start p = false) (<[t := p]> (threads s)) /\
  (forall t', <[t := p]> (threads s) !! t' = Some (PReturned KStart None) ->
              threads s !! t' = Some (PReturned KStart None)).
Proof.
  intros Hs Hp Hr. split; [by apply map_Forall_insert_2|].
  intros t'. rewrite lookup_insert. case_decide; [congruence|done].
Qed.

Lemma shut_step s l s' : drained s = true -> no_start s -> lstep cfg s l s' -> shut s s'.
Proof.
  intros Hd Hn
    [(c & y & y' & Hy & _ & ->)|[(t & p & _ & Ht & Hp & ->)|(t & x & p & _ & Hp & Hgo)]]%lstep_cases.
  - split; auto. unfold rec_set. simpl. apply elem_of_dom_2 in Hy. set_solver.
  - destruct (shut_at_pc t p s Hn) as [H1 H2]; [by destruct p|by destruct p|]. split; auto.
  - assert (in_start p = false) as Hnp by apply (Hn _ _ Hp).
    destruct p; try discriminate Hnp;
      cbv [go goto returned start_check drain_take drain_probe drain_cancel drain_check drain_wait
           stop_take stop_decide stop_wait stop_bump] in Hgo;
      rewrite ?Hd in Hgo; split_in Hgo; injection Hgo as <-;
      (split; unfold rec_set; simpl; rewrite ?dom_alter_L, ?consumes_log by done; auto;
       apply shut_at_pc; done).
Qed.

Lemma shut_run s ls s' : run (lstep cfg) s ls s' -> drained s = true -> no_start s -> shut s s'.
Proof.
  induction 1 as [s|s l s1 ls s' Hst _ IH]; intros Hd Hn; [split; auto|].
  pose proof (shut_step _ _ _ Hd Hn Hst) as Hsh. eapply shut_trans; [done|].
  apply IH; apply Hsh.
Qed.

(** Where a [Drain] that found the cycle [c] running can be. *)
Definition draining (c : nat) (s : Sys) (p : PC) : Prop :=
  match p with
  | PDrainProbe => True
  | PDrainCancel _ _ _ done | PDrainCheck _ done _ => done = Some c
  | PDrainWait _ c' => c' = c
  | PReturned KDrain None => exited s c = true
  | PReturned KDrain (Some _) => True
  | _ => False
  end.

(** The state around it. *)
Record drain_inv (c t : nat) (s : Sys) : Prop := {
  dr_linked : linked s;
  dr_drained : drained s = true;
  dr_no_start : no_start s;
  dr_work : stopWork s = Some c \/ stopWork s = None;
  dr_still : stillDelivering s = Some c;
  dr_pc : exists p, threads s !! t = Some p /\ draining c s p;
}.

Lemma draining_mono c s s' p :
  (exited s c = true -> exited s' c = true) -> draining c s p -> draining c s' p.
Proof. intros He. destruct p as [| | | | | | | | | | | | | | | |[] []]; simpl; auto. Qed.

(** The waiter a drain publishes is the cycle being stopped. *)
Lemma still_step c s l s' :
  linked s -> drained s = true -> no_start s -> (stopWork s = Some c \/ stopWork s = None) ->
  stillDelivering s = Some c -> lstep cfg s l s' -> stillDelivering s' = Some c.
Proof.
  intros Hl Hd Hn Hw Hs
    [(? & ? & ? & _ & _ & ->)|[(t & p & _ & _ & _ & ->)|(t & x & p & _ & Hp & Hgo)]]%lstep_cases; [done..|].
  assert (in_start p = false) as Hnp by apply (Hn _ _ Hp).
  destruct p; try discriminate Hnp;
    cbv [go goto returned start_check drain_take drain_probe drain_cancel drain_check drain_wait
         stop_take stop_decide stop_wait stop_bump] in Hgo;
    split_in Hgo; injection Hgo as <-; try done.
  unfold rec_set. simpl. destruct Hl as [_ Hdone _ _ _]. naive_solver congruence.
Qed.

(** One part of the tracked [Drain]. *)
Lemma draining_go c t p x s s' :
  draining c s p -> stillDelivering s = Some c -> go cfg t p x s = Some s' ->
  exists p', threads s' !! t = Some p' /\ draining c s' p'.
Proof.
  intros Hp Hs Hgo.
  destruct p as [| | | | | | | | | | | | | | | |[] []]; simpl in Hp; try done; subst; simpl in Hgo;
    cbv [goto returned drain_probe drain_cancel drain_check drain_wait stillRunning] in Hgo;
    rewrite ?Hs in Hgo; split_in Hgo; injection Hgo as <-;
    (eexists; split; [apply lookup_insert_eq|]); simpl; auto.
  1: by apply negb_false_iff.
  all: unfold exited, cancel_read, upd_cycle, rec_set in *; simpl in *.
  all: destruct (decide (stopRead0 = c)) as [->|Hne];
       [rewrite lookup_alter_eq; by destruct (cycles s !! c)|by rewrite lookup_alter_ne].
Qed.

Lemma drain_inv_step c t s l s' : drain_inv c t s -> lstep cfg s l s' -> drain_inv c t s'.
Proof.
  intros [Hl Hd Hn Hw Hs (p & Hp & Hdr)] Hst.
  destruct (shut_step _ _ _ Hd Hn Hst) as [Hd' Hn' _ _ _ Hw'].
  split; [by eapply linked_step|done|done| |by eapply still_step|].
  { destruct Hw' as [->| ->]; auto. }
  assert (exited s c = true -> exited s' c = true) as Hex.
  { eapply exited_run. by eapply run_cons; [|apply run_nil]. }
  destruct (lstep_cases _ _ _ _ Hst) as
    [(? & ? & ? & _ & _ & ->)|[(t' & p' & _ & Ht' & _ & ->)|(t' & x & p' & _ & Hp' & Hgo)]].
  - exists p. split; [done|]. by eapply draining_mono.
  - exists p. split; [|by eapply draining_mono]. simpl. by rewrite lookup_insert_ne by congruence.
  - destruct (decide (t' = t)) as [->|Hne].
    + simplify_eq. by eapply draining_go.
    + exists p. split; [|by eapply draining_mono].
      by rewrite (go_threads _ _ _ _ _ _ _ Hgo), Hp by done.
Qed.
End drain.

(** ** Stopping *)

(** The cycle a [Stop] ends, and where that [Stop] can be. *)
Definition stopping (c : nat) (s : Sys) (p : PC) : Prop :=
  match p with
  | PStopWork w done => w = c /\ done = Some c
  | PStopDecide done | PStopWait done => done = Some c
  | PStopAbandon => drained s = true
  | PStopBump => exited s c = true
  | PReturned (KStop true) None => exited s c = true
  | PReturned (KStop true) (Some _) => drained s = true
  | _ => False
  end.

(** The calls that returned from a [Stop] that ended a cycle. *)
Definition ended (p : PC) : bool := match p with PReturned (KStop true) _ => true | _ => false end.
Definition ended_calls (s : Sys) : gmap nat PC := filter (fun kv => ended kv.2 = true) (threads s).

Section stop.
Context (cfg : LifeCfg).

Lemma drained_step s l s' : lstep cfg s l s' -> drained s = true -> drained s' = true.
Proof.
  intros [(? & ? & ? & _ & _ & ->)|[(t & p & _ & _ & _ & ->)|(t & x & p & _ & _ & Hgo)]]%lstep_cases Hd;
    [done..|].
  destruct p; cbv [go goto returned start_check start_qos start_consume start_install drain_take drain_probe
                   drain_cancel drain_check drain_wait stop_take stop_decide stop_wait stop_bump] in Hgo;
    split_in Hgo; by injection Hgo as <-.
Qed.

Lemma stopping_go c t p x s s' :
  linked s -> stopping c s p -> go cfg t p x s = Some s' ->
  exists p', threads s' !! t = Some p' /\ stopping c s' p'.
Proof.
  intros Hl Hp Hgo.
  destruct p as [| | | | | | | | | | | | | | | |[| |[]] []]; simpl in Hp; destruct_and?; try done; subst; simpl in Hgo;
    cbv [goto returned stop_decide stop_wait stop_bump stoppedWithDeliveryRunning] in Hgo;
    split_in Hgo; injection Hgo as <-;
    (eexists; split; [apply lookup_insert_eq|]); simpl; auto.
  apply (l_still _ Hl). unfold stillRunning in *. by destruct (stillDelivering s).
Qed.

Lemma stopping_mono c s s' p :
  (exited s c = true -> exited s' c = true) -> (drained s = true -> drained s' = true) ->
  stopping c s p -> stopping c s' p.
Proof. intros He Hd. destruct p as [| | | | | | | | | | | | | | | |[| |[]] []]; simpl; auto. Qed.

Lemma stopping_step c t s l s' :
  linked s -> (exists p, threads s !! t = Some p /\ stopping c s p) -> lstep cfg s l s' ->
  exists p, threads s' !! t = Some p /\ stopping c s' p.
Proof.
  intros Hl (p & Hp & Hst) Hstep.
  assert (exited s c = true -> exited s' c = true) as Hex.
  { eapply exited_run. by eapply run_cons; [|apply run_nil]. }
  pose proof (drained_step _ _ _ Hstep) as Hd.
  destruct (lstep_cases _ _ _ _ Hstep) as
    [(? & ? & ? & _ & _ & ->)|[(t' & p' & _ & Ht' & _ & ->)|(t' & x & p' & _ & Hp' & Hgo)]].
  - exists p. split; [done|]. by eapply stopping_mono.
  - exists p. split; [|by eapply stopping_mono]. simpl. by rewrite lookup_insert_ne by congruence.
  - destruct (decide (t' = t)) as [->|Hne].
    + simplify_eq. by eapply stopping_go.
    + exists p. split; [|by eapply stopping_mono].
      by rewrite (go_threads _ _ _ _ _ _ _ Hgo), Hp by done.
Qed.

(** The epoch moves with the number of calls that ended a cycle. *)
Lemma ended_insert t p (m : gmap nat PC) :
  (forall q, m !! t = Some q -> ended q = false) ->
  size (filter (fun kv : nat * PC => ended kv.2 = true) (<[t := p]> m)) =
  (if ended p then 1 else 0) + size (filter (fun kv : nat * PC => ended kv.2 = true) m).
Proof.
  intros Hq.
  assert (filter (fun kv : nat * PC => ended kv.2 = true) m !! t = None) as Hnone.
  { apply map_lookup_filter_None. right. intros q Hm Hf. simpl in Hf. by rewrite (Hq _ Hm) in Hf. }
  destruct (ended p) eqn:Hp.
  - rewrite map_filter_insert_True by done. by rewrite map_size_insert_None.
  - rewrite map_filter_insert_False by (simpl; congruence).
    by rewrite map_filter_delete, delete_id.
Qed.

Lemma wrap_u64_succ n : wrap_u64 (wrap_u64 (Z.of_nat n) + 1) = wrap_u64 (Z.of_nat (1 + n)).
Proof. unfold wrap_u64. rewrite Zplus_mod_idemp_l. f_equal. lia. Qed.

Definition epoch_ok (s : Sys) : Prop := epoch_ s = wrap_u64 (Z.of_nat (size (ended_calls s))).

Lemma epoch_step s l s' : epoch_ok s -> lstep cfg s l s' -> epoch_ok s'.
Proof.
  unfold epoch_ok, ended_calls. intros He
    [(? & ? & ? & _ & _ & ->)|[(t & p & _ & Ht & Hp & ->)|(t & x & p & _ & Hp & Hgo)]]%lstep_cases; [done|..].
  - unfold at_pc, rec_set. simpl. rewrite ended_insert, He by congruence. by destruct p.
  - assert (ended p = false) as Hnp by (by destruct p as [| | | | | | | | | | | | | | | |[| |[]] []]).
    destruct p; cbv [go goto returned start_check start_qos start_consume start_install drain_take drain_probe
                   drain_cancel drain_check drain_wait stop_take stop_decide stop_wait stop_bump] in Hgo;
    split_in Hgo; injection Hgo as <-; unfold rec_set; simpl; rewrite ended_insert, He by congruence;
    simpl; try done; apply wrap_u64_succ.
Qed.
End stop.

(** ** Lemmas for the properties *)

Lemma drain_inv_intro c t s p :
  linked s -> threads s !! t = Some p -> drained s = true -> no_start s -> stopWork s = Some c ->
  stillDelivering s = Some c -> draining c s p -> drain_inv c t s.
Proof. intros. split; eauto. Qed.

(** The critical section of a drain. *)
Lemma drain_take_spec cfg t x s s1 :
  no_start s -> threads s !! t = Some PDrain -> lstep cfg s (LGo t x) s1 ->
  drained s1 = true /\ no_start s1 /\ stopWork s1 = stopWork s /\
  consumes (wire s1) = consumes (wire s) /\ dom (cycles s1) = dom (cycles s) /\
  (forall t', threads s1 !! t' = Some (PReturned KStart None) ->
              threads s !! t' = Some (PReturned KStart None)) /\
  (forall c, linked s -> linked s1 -> stopWork s = Some c -> drain_inv c t s1).
Proof.
  intros Hn Ht Hst. unfold lstep in Hst. simpl in Hst. rewrite Ht in Hst. simpl in Hst.
  assert (forall p, in_start p = false -> p <> PReturned KStart None ->
    map_Forall (fun _ p => in_start p = false) (<[t := p]> (threads s)) /\
    (forall t', <[t := p]> (threads s) !! t' = Some (PReturned KStart None) ->
                threads s !! t' = Some (PReturned KStart None))) as Hat by (intros; by apply shut_at_pc).
  unfold drain_take, goto in Hst. cbv [rec_set set_drained] in Hst. simpl in Hst.
  split_in Hst; injection Hst as <-; (split_and!; [done|by apply Hat|done|done|done|by apply Hat|]);
    intros c Hl Hl1 Hc; apply (drain_inv_intro c t _ _ Hl1 (lookup_insert_eq _ _ _)); simpl;
    destruct Hl as [Hr Hd _ Htk _]; auto; try (by apply Hat); congruence.
Qed.

(** How many steps a drain has left when its deadline has passed. *)
Definition drain_rank (p : PC) : nat :=
  match p with
  | PDrain => 3
  | PDrainCancel _ _ _ _ => 2
  | PDrainProbe | PDrainCheck _ _ _ | PDrainWait _ _ => 1
  | _ => 0
  end.
Definition is_draining (p : PC) : bool := 0 <? drain_rank p.

Lemma drain_timeout_step cfg t s p :
  threads s !! t = Some p -> is_draining p = true ->
  exists s' p', exec cfg s (LGo t CTimeout) = Some s' /\ threads s' !! t = Some p' /\
    drain_rank p' < drain_rank p /\ (is_draining p' = true \/ exists r, p' = PReturned KDrain r).
Proof.
  intros Ht Hp. cbn [exec]. rewrite Ht. cbn [mbind option_bind].
  assert (forall s0 p', exists s', at_pc t p' s0 = s' /\ threads s' !! t = Some p') as Hat.
  { intros s0 p'. eexists. split; [done|]. apply lookup_insert_eq. }
  destruct p; try discriminate Hp; cbn [go];
    cbv [goto returned drain_take drain_probe drain_cancel drain_check drain_wait];
    repeat case_match;
    (eexists _, _; split; [reflexivity|]; split; [apply lookup_insert_eq|]; simpl; eauto with lia).
Qed.

(** ** Properties *)

(** C9: A drain that finds no Start half-way is final: from its critical section
    on, whatever else runs, no consumer is registered, no cycle begins and no
    further Start succeeds; and if it returns nil, the loop it found running
    has finished. *)
Theorem drain_is_final cfg s s1 s2 t x ls0 ls :
  run (lstep cfg) init ls0 s -> no_start s -> threads s !! t = Some PDrain ->
  lstep cfg s (LGo t x) s1 -> run (lstep cfg) s1 ls s2 ->
  drained s2 = true /\ consumes (wire s2) = consumes (wire s) /\ dom (cycles s2) = dom (cycles s) /\
  (forall t', threads s2 !! t' = Some (PReturned KStart None) ->
              threads s !! t' = Some (PReturned KStart None)) /\
  (forall c, stopWork s = Some c -> threads s2 !! t = Some (PReturned KDrain None) -> exited s2 c = true).
Proof.
  intros Hrun0 Hn Ht Hst Hrun.
  pose proof (linked_run _ _ _ _ Hrun0 linked_init) as Hl. pose proof (linked_step _ _ _ _ Hl Hst) as Hl1.
  destruct (drain_take_spec cfg t x s s1 Hn Ht Hst) as (Hd1 & Hn1 & Hw1 & Hc1 & Hy1 & Hs1 & Hp1).
  destruct (shut_run _ _ _ _ Hrun Hd1 Hn1) as [Hd2 _ Hc2 Hy2 Hs2 _].
  split_and!; [done|congruence|congruence|auto|].
  intros c Hc Hret.
  assert (drain_inv c t s1) as Hinv by by apply Hp1.
  assert (drain_inv c t s2) as [_ _ _ _ _ (p & Hp & Hdr)].
  { refine (run_invariant (lstep cfg) (drain_inv c t) s1 ls s2 _ Hinv Hrun). intros. by eapply drain_inv_step. }
  rewrite Hret in Hp. by injection Hp as <-.
Qed.

(** C15: A Stop that ends a cycle reports success only once that cycle's loop has
    finished, and an error only after a drain. *)
Theorem stop_waits cfg s s1 s2 t x c k r ls0 ls :
  run (lstep cfg) init ls0 s -> threads s !! t = Some PStop -> stopWork s = Some c ->
  lstep cfg s (LGo t x) s1 -> run (lstep cfg) s1 ls s2 -> threads s2 !! t = Some (PReturned k r) ->
  k = KStop true /\ (r = None -> exited s2 c = true) /\ (r <> None -> drained s2 = true).
Proof.
  intros Hrun0 Ht Hc Hst Hrun Hret.
  pose proof (linked_run _ _ _ _ Hrun0 linked_init) as Hl. pose proof (linked_step _ _ _ _ Hl Hst) as Hl1.
  assert (exists p, threads s1 !! t = Some p /\ stopping c s1 p) as Hp1.
  { unfold lstep in Hst. simpl in Hst. rewrite Ht in Hst. simpl in Hst. unfold stop_take in Hst.
    rewrite Hc, (l_done _ Hl), Hc in Hst. injection Hst as <-.
    eexists. split; [apply lookup_insert_eq|done]. }
  assert (linked s2 /\ exists p, threads s2 !! t = Some p /\ stopping c s2 p) as [_ (p & Hp & Hs)].
  { refine (run_invariant (lstep cfg) (fun s => linked s /\ _) s1 ls s2 _ (conj Hl1 Hp1) Hrun).
    intros a l b [Hla Hpa] Hab. split; [by eapply linked_step|by eapply stopping_step]. }
  rewrite Hret in Hp. injection Hp as <-. by destruct k as [| |[]], r.
Qed.

(** The epoch, modulo 2^64, is the number of Stops that ended a cycle: it moves
    exactly once for each, failures included, and for nothing else. *)
Theorem epoch_counts_stops cfg s ls :
  run (lstep cfg) init ls s -> epoch_ s = wrap_u64 (Z.of_nat (size (ended_calls s))).
Proof.
  intros Hrun. refine (run_invariant (lstep cfg) epoch_ok init ls s _ _ Hrun); [|done].
  intros. by eapply epoch_step.
Qed.

(** C25: A drain is bounded by its deadline alone: wherever it is and whatever the
    broker and the loop do, once the deadline has passed its own next steps,
    at most three, bring it to its return. *)
Theorem drain_bounded cfg s t p :
  threads s !! t = Some p -> is_draining p = true ->
  exists n s', n <= 3 /\ exec_all (exec cfg) s (repeat (LGo t CTimeout) n) = Some s' /\
    exists r, threads s' !! t = Some (PReturned KDrain r).
Proof.
  intros Ht Hp.
  assert (drain_rank p <= 3) as Hr by (destruct p; simpl; lia).
  enough (exists n s', n <= drain_rank p /\ exec_all (exec cfg) s (repeat (LGo t CTimeout) n) = Some s' /\
    exists r, threads s' !! t = Some (PReturned KDrain r)) as (n & s' & ? & ?) by (exists n, s'; split; [lia|done]).
  clear Hr. remember (drain_rank p) as m eqn:Hm. revert s p Ht Hp Hm.
  induction (lt_wf m) as [m _ IH]. intros s p Ht Hp ->.
  destruct (drain_timeout_step cfg t s p Ht Hp) as (s' & p' & He & Ht' & Hlt & [Hp'|[r ->]]).
  - destruct (IH _ Hlt s' p' Ht' Hp' eq_refl) as (n & s2 & Hn & Hrun & Hret).
    exists (S n), s2. split; [lia|]. cbn [repeat exec_all]. by rewrite He.
  - exists 1, s'. split; [lia|]. cbn [repeat exec_all]. rewrite He. eauto.
Qed.

(** C34: [DeclareTopology] declares the queue, actively when the receiver has a
    declaration and passively otherwise, then binds it as configured, in that
    order. It succeeds exactly when the broker agreed to every one of these
    calls, having made them all; otherwise it made no call after the first the
    broker refused, and reports that refusal, wrapped. *)
Theorem DeclareTopology_outcome cfg answer ch w :
  let calls :=
    (match declare cfg with
     | Some d => (EQueueDeclare ch (queue cfg) (Durable d) (AutoDelete d), Errorfw fmt_declare [queue cfg])
     | None => (EQueueDeclarePassive ch (queue cfg) true, Errorfw fmt_passive [queue cfg])
     end :: map (fun b => (EQueueBind ch (queue cfg) (bRoutingKey b) (bExchange b),
                           Errorfw fmt_bind [queue cfg; bExchange b; bRoutingKey b])) (bindings cfg)) in
  let made n := w ++ map fst (take n calls) in
  let '(err, w') := DeclareTopology cfg answer ch w in
  match err with
  | None => w' = made (length calls) /\ forall n, n < length calls -> answer (made (S n)) = None
  | Some e => exists n call e', calls !! n = Some call /\ w' = made (S n) /\ answer w' = Some e' /\ e = call.2 e' /\
      forall m, m < n -> answer (made (S m)) = None
  end.
Proof.
  cbv zeta. unfold DeclareTopology. fold (declarations cfg ch). generalize (declarations cfg ch). intros calls.
  revert w. induction calls as [|[c wr] calls IH]; intros w; [split; [by rewrite app_nil_r|simpl; lia]|].
  cbn [declare_all]. assert (forall n, w ++ map fst (take (S n) ((c, wr) :: calls)) = (w ++ [c]) ++ map fst (take n calls))
    as Hmade by (intros n; simpl; by rewrite <- app_assoc).
  destruct (answer (w ++ [c])) as [e'|] eqn:Ha.
  - exists 0, (c, wr), e'. rewrite Hmade. simpl. rewrite app_nil_r. split_and!; [done..|lia].
  - specialize (IH (w ++ [c])). destruct (declare_all answer calls (w ++ [c])) as [[e|] w'].
    + destruct IH as (n & call & e' & Hn & Hw & ? & ? & Hm). exists (S n), call, e'. rewrite Hmade.
      split_and!; [done..|]. intros [|m] ?; rewrite Hmade; [simpl; by rewrite app_nil_r|apply Hm; lia].
    + destruct IH as [Hw Hm]. split; [simpl length; by rewrite Hmade|].
      intros [|m] ?; rewrite Hmade; [simpl; by rewrite app_nil_r|apply Hm; simpl in *; lia].
Qed.

(** ** Runs *)

Definition sample_life : LifeCfg :=
  {| lClientName := "c"; queue := "q"; prefetch := 10; exclusive := false; lAckMode := AckAfterHandling;
     consumerTag := ""; declare := None; bindings := [] |}.

Definition final (ls : list label) : Sys := default init (exec_all (exec sample_life) init ls).
Definition start_labels (t ch : nat) : list label :=
  [LCall t (PStart ch); LGo t COk; LGo t COk; LGo t COk; LGo t COk].

(** Call 0 starts; a delivery arrives and is handled. *)
Definition started_run : list label :=
  start_labels 0 0 ++ [LSend 0 sample_delivery; LTake 0; LFinish 0].

(** C35: The check of [drained] in Start and the installation are two critical
    sections: a Drain between them returns nil -- there is nothing to drain
    yet -- and the Start then registers its consumer and runs its loop. *)
Theorem start_slips_past_drain :
  exists ls1 s1 ls2 s2,
    run (lstep sample_life) init ls1 s1 /\ threads s1 !! 1 = Some (PReturned KDrain None) /\
    drained s1 = true /\ consumes (wire s1) = [] /\
    run (lstep sample_life) s1 ls2 s2 /\ threads s2 !! 0 = Some (PReturned KStart None) /\
    length (consumes (wire s2)) = 1 /\ stopWork s2 = Some 0 /\
    (exists y, cycles s2 !! 0 = Some y /\ cySpawned y = true /\ cyExited y = false /\ cyHandled y = [sample_delivery]).
Proof.
  set (ls1 := [LCall 0 (PStart 0); LGo 0 COk; LCall 1 PDrain; LGo 1 COk; LGo 1 COk]).
  set (ls2 := [LGo 0 COk; LGo 0 COk; LGo 0 COk; LSend 0 sample_delivery; LTake 0; LFinish 0]).
  exists ls1, (final ls1), ls2, (final (ls1 ++ ls2)). split_and!.
  1, 5: apply lrun; vm_compute; reflexivity.
  all: try (vm_compute; reflexivity).
  eexists. split_and!; vm_compute; reflexivity.
Qed.

(** Two Starts at once both pass the check and both succeed. The second
    installation forgets the first cycle: a Stop that then reports success
    has left the first loop running, with nothing left that could end it. *)
Theorem concurrent_starts_orphan_a_loop :
  exists ls s, run (lstep sample_life) init ls s /\
    threads s !! 0 = Some (PReturned KStart None) /\ threads s !! 1 = Some (PReturned KStart None) /\
    threads s !! 2 = Some (PReturned (KStop true) None) /\
    stopRead s = None /\ stopWork s = None /\ loopDone s = None /\
    exists y, cycles s !! 0 = Some y /\ cySpawned y = true /\ cyExited y = false /\
      cyRead y = false /\ cyWork y = false /\ cyClosed y = false.
Proof.
  set (stop := [LCall 2 PStop; LGo 2 COk; LGo 2 COk; LGo 2 COk; LExit 1; LGo 2 COk; LGo 2 COk]).
  set (ls' := [LCall 0 (PStart 0); LGo 0 COk; LCall 1 (PStart 1); LGo 1 COk; LGo 0 COk; LGo 0 COk; LGo 0 COk;
               LGo 1 COk; LGo 1 COk; LGo 1 COk] ++ stop).
  exists ls', (final ls'). split_and!; [apply lrun; vm_compute; reflexivity|vm_compute; reflexivity..|].
  eexists. split_and!; vm_compute; reflexivity.
Qed.

(** ** Witnesses *)

Lemma drain_is_final_witness :
  let s := final (started_run ++ [LCall 1 PDrain]) in
  let s1 := final (started_run ++ [LCall 1 PDrain; LGo 1 COk]) in
  let rest := [LGo 1 COk; LGo 1 COk; LClose 0; LExit 0; LGo 1 COk] in
  let s2 := default init (exec_all (exec sample_life) s1 rest) in
  threads s2 !! 1 = Some (PReturned KDrain None) /\ exited s2 0 = true.
Proof.
  intros s s1 rest s2. split; [vm_compute; reflexivity|].
  destruct (drain_is_final sample_life s s1 s2 1 COk (started_run ++ [LCall 1 PDrain]) rest) as (_ & _ & _ & _ & H).
  - apply lrun. vm_compute. reflexivity.
  - apply map_Forall_to_list. vm_compute. repeat constructor.
  - vm_compute. reflexivity.
  - vm_compute. reflexivity.
  - apply lrun. vm_compute. reflexivity.
  - apply H; vm_compute; reflexivity.
Defined.

Lemma stop_waits_witness :
  let s := final (started_run ++ [LCall 1 PStop]) in
  let s1 := final (started_run ++ [LCall 1 PStop; LGo 1 COk]) in
  let rest := [LGo 1 COk; LGo 1 COk; LExit 0; LGo 1 COk; LGo 1 COk] in
  let s2 := default init (exec_all (exec sample_life) s1 rest) in
  exited s2 0 = true.
Proof.
  intros s s1 rest s2.
  destruct (stop_waits sample_life s s1 s2 1 COk 0 (KStop true) None (started_run ++ [LCall 1 PStop]) rest)
    as (_ & H & _).
  - apply lrun. vm_compute. reflexivity.
  - vm_compute. reflexivity.
  - vm_compute. reflexivity.
  - vm_compute. reflexivity.
  - apply lrun. vm_compute. reflexivity.
  - vm_compute. reflexivity.
  - apply H. reflexivity.
Defined.

Lemma epoch_counts_stops_witness :
  let ls := started_run ++ [LCall 1 PStop; LGo 1 COk; LGo 1 COk; LGo 1 COk; LExit 0; LGo 1 COk; LGo 1 COk] in
  epoch_ (final ls) = 1%Z.
Proof.
  intros ls. rewrite (epoch_counts_stops sample_life (final ls) ls).
  - vm_compute. reflexivity.
  - apply lrun. vm_compute. reflexivity.
Defined.

Lemma drain_bounded_witness :
  let s := final (started_run ++ [LCall 1 PDrain]) in
  exists n s', n <= 3 /\ exec_all (exec sample_life) s (repeat (LGo 1 CTimeout) n) = Some s' /\
    exists r, threads s' !! 1 = Some (PReturned KDrain r).
Proof.
  intros s. apply (drain_bounded sample_life s 1 PDrain); vm_compute; reflexivity.
Defined.
