(* ===== verification/ReceiverDrain.v ===== *)
(** * What a drain hands over: src/receiver/receiver.go

    [Drain] withdraws the consumer and lets the loop finish what the broker had
    already sent; cancelling the loop's reading would cut that short. Here the
    right to cancel it -- the receiver's [stopRead] -- is followed through
    every interleaving of ReceiverLife.v: it is in one place at a time. *)

From S2P Require Import Prelude GoLib Settle ReceiverLife.

(** ** Who can cancel a loop's reading *)

(** A cycle's [stopRead] is in one place: with the Start about to install it,
    in the receiver's field, or with the one Drain that took it from there. *)
Definition installs (p : PC) : option nat := match p with PInstall _ _ c => Some c | _ => None end.
Definition holds (p : PC) : option nat :=
  match p with PDrainCancel r _ _ _ | PDrainCheck r _ _ | PDrainWait r _ => Some r | _ => None end.

(** Reading was cancelled, if at all, by way of the work context. *)
Definition calm (y : Cycle) : Prop := cyRead y = true -> cyWork y = true.

Record owned (s : Sys) : Prop := {
  ow_install : forall t p c, threads s !! t = Some p -> installs p = Some c ->
    exists y, cycles s !! c = Some y /\ cySpawned y = false /\ calm y;
  ow_unique : forall t t' p p' c, threads s !! t = Some p -> threads s !! t' = Some p' ->
    installs p = Some c -> installs p' = Some c -> t = t';
  ow_holds : forall t p c, threads s !! t = Some p -> holds p = Some c ->
    exists y, cycles s !! c = Some y /\ cySpawned y = true;
  ow_read : forall c, stopRead s = Some c ->
    exists y, cycles s !! c = Some y /\ cySpawned y = true /\ calm y;
  ow_free : forall c t p, stopRead s = Some c -> threads s !! t = Some p -> holds p <> Some c;
}.

(** What a part of a call does with it. *)
Inductive moves (s : Sys) (p p' : PC) (s' : Sys) : Prop :=
| mv_create c : c = fresh (dom (cycles s)) -> installs p' = Some c -> holds p' = None ->
    cycles s' = <[c := new_cycle]> (cycles s) -> stopRead s' = stopRead s -> moves s p p' s'
| mv_install c : installs p = Some c -> installs p' = None -> holds p' = None ->
    cycles s' = alter (fun y => y <| cySpawned := true |>) c (cycles s) -> stopRead s' = Some c -> moves s p p' s'
| mv_take c : stopRead s = Some c -> installs p' = None -> holds p' = Some c ->
    cycles s' = cycles s -> stopRead s' = None -> moves s p p' s'
| mv_cancel c : holds p = Some c -> installs p' = None -> (holds p' = None \/ holds p' = Some c) ->
    cycles s' = alter (fun y => y <| cyRead := true |>) c (cycles s) -> stopRead s' = stopRead s -> moves s p p' s'
| mv_work c : installs p' = None -> holds p' = None ->
    cycles s' = alter (fun y => y <| cyRead := true |> <| cyWork := true |>) c (cycles s) ->
    stopRead s' = stopRead s -> moves s p p' s'
| mv_other : installs p' = None -> (holds p' = None \/ holds p' = holds p) -> cycles s' = cycles s ->
    (stopRead s' = stopRead s \/ stopRead s' = None) -> moves s p p' s'.

Section owned.
Context (cfg : LifeCfg).

Lemma go_moves t p x s s' :
  go cfg t p x s = Some s' -> exists p', threads s' = <[t := p']> (threads s) /\ moves s p p' s'.
Proof.
  intros Hgo. destruct p;
    cbv [go goto returned start_check start_qos start_consume start_install drain_take drain_probe
         drain_cancel drain_check drain_wait stop_take stop_decide stop_wait stop_bump] in Hgo;
    split_in Hgo; injection Hgo as <-; (eexists; split; [reflexivity|]);
    first [ apply mv_other; unfold rec_set; simpl; by auto
          | eapply mv_create; unfold rec_set; simpl; by auto
          | eapply mv_install; unfold rec_set; simpl; by auto
          | eapply mv_take; unfold rec_set; simpl; by eauto
          | eapply mv_cancel; unfold rec_set; simpl; by auto
          | eapply mv_work; unfold rec_set; simpl; by auto ].
Qed.
Lemma alter_keeps (P : Cycle -> Prop) f c c0 (m : gmap nat Cycle) :
  (c = c0 -> forall y, P y -> P (f y)) -> (exists y, m !! c0 = Some y /\ P y) ->
  exists y, alter f c m !! c0 = Some y /\ P y.
Proof.
  intros Hf (y & Hy & HP). destruct (decide (c = c0)) as [->|Hne].
  - exists (f y). rewrite lookup_alter_eq, Hy. split; [done|by apply Hf].
  - exists y. by rewrite lookup_alter_ne.
Qed.

Lemma create_keeps (P : Cycle -> Prop) y1 c0 (m : gmap nat Cycle) :
  (exists y, m !! c0 = Some y /\ P y) -> exists y, <[fresh (dom m) := y1]> m !! c0 = Some y /\ P y.
Proof.
  intros (y & Hy & HP). exists y. split; [|done]. rewrite lookup_insert_ne; [done|].
  intros <-. apply elem_of_dom_2 in Hy. by apply is_fresh in Hy.
Qed.

(** A cycle that has been installed is not the one a move is about to. *)
Lemma spawned_not (s : Sys) c c0 :
  (exists y, cycles s !! c = Some y /\ cySpawned y = true) ->
  (exists y, cycles s !! c0 = Some y /\ cySpawned y = false /\ calm y) -> c <> c0.
Proof. intros (y & Hy & Hs) (y' & Hy' & Hs' & _) ->. congruence. Qed.

Lemma installs_moved s s' t p p' :
  owned s -> threads s !! t = Some p -> threads s' = <[t := p']> (threads s) -> moves s p p' s' ->
  forall t0 p0 c0, threads s' !! t0 = Some p0 -> installs p0 = Some c0 ->
    (exists y, cycles s' !! c0 = Some y /\ cySpawned y = false /\ calm y) /\
    (t0 = t -> c0 = fresh (dom (cycles s))).
Proof.
  intros [Hi Hu Hh _ _] Ht -> Hm t0 p0 c0 [[<- <-]|[Hne Ht0]]%lookup_insert_Some Hp0.
  - destruct Hm as [c -> Hp' _ -> _|c _ Hp'|c _ Hp'|c _ Hp'|c Hp'|Hp']; try congruence.
    rewrite Hp0 in Hp'. injection Hp' as ->. split; [|done]. exists new_cycle. by rewrite lookup_insert_eq.
  - split; [|congruence]. pose proof (Hi _ _ _ Ht0 Hp0) as Hc0.
    destruct Hm as [c -> _ _ -> _|c Hp _ _ -> _|c _ _ _ -> _|c Hp _ _ -> _|c _ _ -> _|_ _ -> _];
      [by apply create_keeps| |done| |by apply alter_keeps; [intros _ y [? ?]|]|done].
    + apply alter_keeps; [|done]. intros ->. by destruct Hne; eapply Hu.
    + apply alter_keeps; [|done]. intros ->. by destruct (spawned_not s c0 c0); eauto.
Qed.

Lemma owned_moves s s' t p p' :
  owned s -> threads s !! t = Some p -> threads s' = <[t := p']> (threads s) -> moves s p p' s' -> owned s'.
Proof.
  intros Ho Ht Hts Hm. pose proof (installs_moved _ _ _ _ _ Ho Ht Hts Hm) as Hin.
  destruct Ho as [Hi Hu Hh Hr Hf]. split.
  - intros t0 p0 c0 H0 H1. by destruct (Hin _ _ _ H0 H1).
  - intros t1 t2 p1 p2 c0 H1 H2 Hp1 Hp2. destruct (Hin _ _ _ H1 Hp1) as [_ Hn1], (Hin _ _ _ H2 Hp2) as [_ Hn2].
    rewrite Hts in H1, H2.
    apply lookup_insert_Some in H1 as [[<- <-]|[Hne1 H1]], H2 as [[<- <-]|[Hne2 H2]]; [done|..|by eauto].
    + destruct (Hi _ _ _ H2 Hp2) as (y & Hy & _). rewrite (Hn1 eq_refl) in Hy.
      apply elem_of_dom_2 in Hy. by apply is_fresh in Hy.
    + destruct (Hi _ _ _ H1 Hp1) as (y & Hy & _). rewrite (Hn2 eq_refl) in Hy.
      apply elem_of_dom_2 in Hy. by apply is_fresh in Hy.
  - intros t0 p0 c0 H0 Hp0. rewrite Hts in H0.
    assert (exists y, cycles s !! c0 = Some y /\ cySpawned y = true) as Hc0.
    { apply lookup_insert_Some in H0 as [[<- <-]|[_ H0]]; [|by eauto].
      destruct Hm as [c _ _ Hp' _ _|c _ _ Hp' _ _|c Hs _ Hp' _ _|c Hp _ Hp' _ _|c _ Hp' _ _|_ Hp' _ _]; try congruence.
      - destruct (Hr _ Hs) as (y & ? & ? & _). rewrite Hp0 in Hp'. injection Hp' as ->. by exists y.
      - destruct Hp' as [Hp'|Hp']; [congruence|]. rewrite Hp0 in Hp'. injection Hp' as ->. by eauto.
      - destruct Hp' as [Hp'|Hp']; [congruence|]. rewrite Hp0 in Hp'. by eauto. }
    destruct Hm as [c -> _ _ -> _|c Hp _ _ -> _|c _ _ _ -> _|c Hp _ _ -> _|c _ _ -> _|_ _ -> _];
      [by apply create_keeps|by apply alter_keeps|done|by apply alter_keeps..|done].
  - intros c0. destruct Hm as [c -> _ _ -> ->|c Hp _ _ -> ->|c _ _ _ -> ->|c Hp _ _ -> ->|c _ _ -> ->|_ _ -> [-> | ->]];
      try done.
    + intros H0. by apply create_keeps, Hr.
    + intros [= <-]. destruct (Hi _ _ _ Ht Hp) as (y & Hy & _ & Hc). exists (y <| cySpawned := true |>).
      by rewrite lookup_alter_eq, Hy.
    + intros H0. apply alter_keeps; [|by apply Hr]. intros ->. by destruct (Hf _ _ _ H0 Ht).
    + intros H0. apply alter_keeps; [|by apply Hr]. by intros _ y [? ?].
    + apply Hr.
  - intros c0 t0 p0. rewrite Hts.
    destruct Hm as [c -> _ Hp' _ ->|c Hp _ Hp' _ ->|c _ _ _ _ ->|c Hp _ Hp' _ ->|c _ Hp' _ ->|_ Hp' _ Hs];
      try done; intros H0 [[<- <-]|[Hne H1]]%lookup_insert_Some; rewrite ?Hp'; try done; eauto.
    + injection H0 as <-. intros H2. by destruct (spawned_not s c c); eauto.
    + specialize (Hf _ _ _ H0 Ht). destruct Hp' as [-> | ->]; congruence.
    + destruct Hs as [Hs|Hs]; [|congruence]. rewrite Hs in H0. specialize (Hf _ _ _ H0 Ht).
      destruct Hp' as [-> | ->]; congruence.
    + destruct Hs as [Hs|Hs]; [|congruence]. rewrite Hs in H0. by eauto.
Qed.

Lemma cycle_step_keeps y y' :
  cycle_step y y' -> cySpawned y' = cySpawned y /\ (calm y -> calm y').
Proof.
  unfold calm. intros Hst. destruct Hst as [d y' H| | | |y' H|y' H|y' H]; try done.
  - unfold broker_send in H. split_in H. by simplify_eq.
  - unfold loop_take in H. split_in H. by simplify_eq.
  - unfold loop_finish in H. split_in H. by simplify_eq.
  - unfold loop_exit in H. split_in H. by simplify_eq.
Qed.

Lemma owned_step s l s' : owned s -> lstep cfg s l s' -> owned s'.
Proof.
  intros Ho [(c & y & y' & Hy & Hst & ->)|[(t & p & _ & Ht & Hp & ->)|(t & x & p & _ & Hp & Hgo)]]%lstep_cases.
  - destruct Ho as [Hi Hu Hh Hr Hf]. destruct (cycle_step_keeps _ _ Hst) as [Hsp Hcalm].
    assert (forall (P : Cycle -> Prop) c0, (P y -> P y') -> (exists y, cycles s !! c0 = Some y /\ P y) ->
      exists y0, <[c := y']> (cycles s) !! c0 = Some y0 /\ P y0) as Hk.
    { intros P c0 HP (y0 & Hy0 & H0). destruct (decide (c = c0)) as [->|Hne].
      - exists y'. rewrite lookup_insert_eq. split; [done|]. apply HP. congruence.
      - exists y0. by rewrite lookup_insert_ne. }
    split; unfold rec_set; simpl; [|exact Hu| | |exact Hf]; intros; (apply Hk; [rewrite Hsp; by intuition|eauto]).
  - destruct Ho as [Hi Hu Hh Hr Hf].
    split; unfold rec_set; simpl; intros *; rewrite ?lookup_insert_Some; intros; destruct_or?; destruct_and?; subst;
      eauto; by match goal with H : is_entry ?q = true |- _ => destruct q end.
  - destruct (go_moves _ _ _ _ _ Hgo) as (p' & Hts & Hm). by eapply owned_moves.
Qed.

Lemma owned_init : owned init.
Proof. split; simpl; try done; intros *; by rewrite lookup_empty. Qed.

Lemma owned_run s ls s' : run (lstep cfg) s ls s' -> owned s -> owned s'.
Proof. intros Hrun Hs. revert Hrun. by apply run_invariant; [intros; eapply owned_step|]. Qed.
End owned.

(** ** What a drain hands over *)

Definition is_warn (e : WEvent) : bool := match e with EWarn _ => true | _ => false end.
(** How often the receiver logged that it could not withdraw a consumer. *)
Definition warns (w : list WEvent) : nat := length (filter (fun e => is_warn e = true) w).

(** Nothing was left behind; or the work was cancelled, or the AMQP channel
    was lost. *)
Definition served (y : Cycle) : Prop :=
  cyWork y = true \/ cyDied y = true \/
  (cyExited y = true /\ cyClosed y = true /\ cyBusy y = None /\ cyHandled y = cySent y).

Lemma served_step y y' : cycle_step y y' -> served y -> served y'.
Proof.
  unfold served, withdrawn, died. intros Hst [Hw|[Hd|(He & Hc & Hb & Hh)]];
    destruct Hst as [d y' H| | | |y' H|y' H|y' H]; simpl; auto 10;
    unfold broker_send, loop_take, loop_finish, loop_exit in H;
    rewrite ?He, ?Hc, ?Hb in H; split_in H; simplify_eq; simpl; auto.
Qed.

Lemma served_exit y : cycle_ok y -> calm y -> cyExited y = true -> served y.
Proof.
  intros Hok Hc He. destruct (cyWork y) eqn:Hw; [by left|]. destruct (cyDied y) eqn:Hd; [by right; left|].
  assert (cyRead y = false) as Hr by (destruct (cyRead y) eqn:Hr; [by rewrite (Hc Hr) in Hw|done]).
  right. right. destruct (y_exit _ Hok He) as [|[Hcl _]]; [congruence|].
  split_and!; [done|done|by apply (y_idle _ Hok)|by apply all_handled].
Qed.

(** Where the Drain that took the cycle [c] can be; [warned] that it has
    logged its warning. *)
Definition cutting (c : nat) (warned : Prop) (y : Cycle) (p : PC) : Prop :=
  match p with
  | PDrainCancel r ch _ done => r = c /\ done = Some c /\ is_Some ch /\ calm y
  | PDrainCheck r done late => r = c /\ done = Some c /\ (late = true \/ warned \/ calm y)
  | PDrainWait r c' => r = c /\ c' = c /\ (warned \/ calm y)
  | PReturned KDrain None => warned \/ served y
  | PReturned KDrain (Some _) => True
  | _ => False
  end.

Lemma cutting_mono c (w w' : Prop) y y' p :
  (w -> w') -> (calm y -> calm y') -> (served y -> served y') -> cutting c w y p -> cutting c w' y' p.
Proof. intros ???. destruct p as [| | | | | | | | | | | | | | | |[] []]; simpl; try done; intuition. Qed.

Record cut (c t n : nat) (s : Sys) : Prop := {
  ct_cycles : map_Forall (fun _ => cycle_ok) (cycles s);
  ct_drained : drained s = true;
  ct_no_start : no_start s;
  ct_taken : stopRead s = None;
  ct_warns : n <= warns (wire s);
  ct_alone : forall t' p, t' <> t -> threads s !! t' = Some p -> holds p <> Some c;
  ct_pc : exists p y, threads s !! t = Some p /\ cycles s !! c = Some y /\ cutting c (n < warns (wire s)) y p;
}.

Section cut.
Context (cfg : LifeCfg).

Lemma go_warns t p x s s' : go cfg t p x s = Some s' -> warns (wire s) <= warns (wire s').
Proof.
  intros Hgo. destruct p;
    cbv [go goto returned start_check start_qos start_consume start_install drain_take drain_probe
         drain_cancel drain_check drain_wait stop_take stop_decide stop_wait stop_bump] in Hgo;
    split_in Hgo; injection Hgo as <-; unfold rec_set, warns; simpl; rewrite ?filter_app, ?length_app; lia.
Qed.

(** A part of another call keeps the cycle's reading. *)
Lemma cut_other c t n s s' t' p p' y :
  cut c t n s -> t' <> t -> threads s !! t' = Some p -> moves s p p' s' -> cycles s !! c = Some y ->
  stopRead s' = None /\ holds p' <> Some c /\
  exists y', cycles s' !! c = Some y' /\ (calm y -> calm y') /\ (served y -> served y').
Proof.
  intros [_ _ Hn Ht _ Ha _] Hne Hp Hm Hy. pose proof (Ha _ _ Hne Hp) as Hh. pose proof (Hn _ _ Hp) as Hin.
  assert (exists y', cycles s !! c = Some y' /\ (calm y -> calm y') /\ (served y -> served y')) as Hy0 by by exists y.
  destruct Hm as [c' -> _ Hp' -> ->|c' Hi|c' Hs|c' Hc _ Hp' -> ->|c' _ Hp' -> ->|_ Hp' -> Hs]; [| |congruence|..].
  - rewrite Hp'. split_and!; [done|done|]. by apply create_keeps.
  - by destruct p.
  - split_and!; [done|destruct Hp' as [-> | ->]; congruence|]. apply alter_keeps; [|done]. intros ->. congruence.
  - rewrite Hp'. split_and!; [done|done|]. apply alter_keeps; [|done]. intros _ y' [_ _]. by split; [|left].
  - split_and!; [destruct Hs as [-> | ->]; done|destruct Hp' as [-> | ->]; done|done].
Qed.

(** The next part of the tracked Drain. *)
Lemma warns_app w e : warns (w ++ [e]) = warns w + (if is_warn e then 1 else 0).
Proof.
  unfold warns. rewrite filter_app, length_app. f_equal. by destruct (is_warn e) eqn:He;
    [rewrite filter_cons_True|rewrite filter_cons_False by congruence].
Qed.

Lemma cut_go c t n s s' p x y :
  cycle_ok y -> cycles s !! c = Some y -> n <= warns (wire s) ->
  cutting c (n < warns (wire s)) y p -> go cfg t p x s = Some s' ->
  stopRead s' = stopRead s /\
  exists p' y', threads s' !! t = Some p' /\ cycles s' !! c = Some y' /\ cutting c (n < warns (wire s')) y' p'.
Proof.
  intros Hok Hy Hn Hp Hgo.
  assert (forall s0 p' y', Some (at_pc t p' s0) = Some s' -> stopRead s0 = stopRead s ->
    cycles s0 !! c = Some y' -> cutting c (n < warns (wire s0)) y' p' ->
    stopRead s' = stopRead s /\
    exists p' y', threads s' !! t = Some p' /\ cycles s' !! c = Some y' /\ cutting c (n < warns (wire s')) y' p') as Hat.
  { intros s0 p' y' [= <-] H1 H2 H3. split; [done|]. exists p', y'. split; [apply lookup_insert_eq|done]. }
  assert (forall s0, cycles s0 = cycles s -> cycles (cancel_read c s0) !! c = Some (y <| cyRead := true |>)) as Hrd.
  { intros s0 H0. unfold cancel_read, upd_cycle, rec_set. simpl. by rewrite H0, lookup_alter_eq, Hy. }
  destruct p as [| | | | | | r ch tag done|r done late|r c'| | | | | | | |[] []]; simpl in Hp; try contradiction.
  - destruct Hp as (-> & -> & [k ->] & Hc). cbn [go] in Hgo. unfold drain_cancel, goto in Hgo.
    destruct x as [|e|]; (eapply Hat; [exact Hgo|done|first [exact Hy|by apply Hrd]|]).
    + simpl. auto.
    + simpl. rewrite !warns_app. simpl. auto with lia.
    + simpl. auto.
  - destruct Hp as (-> & -> & Hc). cbn [go] in Hgo. unfold drain_check, goto, returned in Hgo.
    destruct x as [|e|], late; (eapply Hat; [exact Hgo|done|exact Hy|]); simpl; auto; by intuition.
  - destruct Hp as (-> & -> & Hc). cbn [go] in Hgo. unfold drain_wait, returned, exited in Hgo. rewrite Hy in Hgo.
    destruct x as [|e|]; [| |by eapply Hat; [exact Hgo|done|exact Hy|]].
    all: destruct (cyExited y) eqn:He; [|done]; (eapply Hat; [exact Hgo|done|by apply Hrd|]).
    all: destruct Hc as [Hc|Hc]; [by left|right]; exact (served_exit y Hok Hc He).
  - done.
  - done.
Qed.

Lemma cut_step c t n s l s' : cut c t n s -> lstep cfg s l s' -> cut c t n s'.
Proof.
  intros Hcut Hst. pose proof Hcut as [Hcy Hd Hn Ht Hw Ha (p & y & Hp & Hy & Hc)].
  destruct (shut_step _ _ _ _ Hd Hn Hst) as [Hd' Hn' _ _ _ _].
  assert (map_Forall (fun _ => cycle_ok) (cycles s')) as Hcy'.
  { eapply cycles_ok_run; [by econstructor; [|constructor]|done]. }
  destruct (lstep_cases _ _ _ _ Hst) as
    [(c' & y1 & y' & Hy1 & Hyy & ->)|[(t' & p' & _ & Ht' & He & ->)|(t' & x & p' & _ & Hp' & Hgo)]].
  - split; [done..|]. exists p. destruct (decide (c' = c)) as [->|Hne]; unfold rec_set; simpl.
    + exists y'. rewrite lookup_insert_eq. simplify_eq. split_and!; [done..|].
      eapply cutting_mono, Hc; [done|by apply cycle_step_keeps|by apply served_step].
    + exists y. by rewrite lookup_insert_ne.
  - split; [done..| |].
    + intros t0 p0 Hne. simpl. intros [[<- <-]|[_ H0]]%lookup_insert_Some; [by destruct p'|by eapply Ha].
    + exists p, y. simpl. by rewrite lookup_insert_ne by congruence.
  - pose proof (go_warns _ _ _ _ _ Hgo) as Hle. destruct (decide (t' = t)) as [->|Hne].
    + simplify_eq. destruct (cut_go c t n s s' p x y (Hcy _ _ Hy) Hy Hw Hc Hgo) as (Hr & Hpc).
      split; [done..|congruence|lia| |done]. intros t0 p0 Hne H0. rewrite (go_threads _ _ _ _ _ _ _ Hgo) in H0 by done.
      by eapply Ha.
    + destruct (go_moves _ _ _ _ _ _ Hgo) as (q & Hts & Hm).
      destruct (cut_other c t n s s' t' p' q y Hcut Hne Hp' Hm Hy) as (Hr & Hq & y' & Hy' & Hcalm & Hsv).
      split; [done..|lia| |].
      * intros t0 p0 Hne0. rewrite Hts. intros [[<- <-]|[_ H0]]%lookup_insert_Some; [done|by eapply Ha].
      * exists p, y'. rewrite Hts, lookup_insert_ne by done. split_and!; [done..|].
        eapply cutting_mono, Hc; [lia|done|done].
Qed.

(** The critical section of a Drain that finds a loop to end. *)
Lemma cut_intro t x s s1 c :
  owned s -> linked s -> map_Forall (fun _ => cycle_ok) (cycles s) -> no_start s ->
  threads s !! t = Some PDrain -> stopRead s = Some c -> lstep cfg s (LGo t x) s1 ->
  cut c t (warns (wire s)) s1.
Proof.
  intros [_ _ _ Hr Hf] Hl Hcy Hn Ht Hc Hst. unfold lstep in Hst. cbn [exec] in Hst. rewrite Ht in Hst.
  cbn [mbind option_bind go] in Hst. unfold drain_take, goto in Hst. cbv [rec_set set_drained] in Hst. simpl in Hst.
  pose proof (l_read _ Hl _ Hc) as Hw. rewrite Hc, (l_done _ Hl), Hw in Hst. injection Hst as <-.
  destruct (Hr _ Hc) as (y & Hy & _ & Hcalm).
  split; unfold rec_set; simpl; [done|done|by apply map_Forall_insert_2|done|done| |].
  - intros t' p Hne H0. rewrite lookup_insert_ne in H0 by done. by eapply Hf.
  - eexists _, y. split; [apply lookup_insert_eq|]. split; [done|]. split_and!; [done|done| |done].
    by apply (l_ch _ Hl); rewrite Hw.
Qed.
End cut.

(** ** Property *)

(** C23: The drain that is the receiver's point: one that found a loop being read,
    and that returned nil without having warned that the consumer could not
    be withdrawn, has had handled -- in order, all of it -- what the broker had
    sent, whatever other calls run. Unless the AMQP channel was lost, with
    what it still held, or the work itself was cancelled, by a Stop or with
    the client's life. *)
Theorem drain_hands_over_backlog cfg s s1 s2 t x c ls0 ls :
  run (lstep cfg) init ls0 s -> no_start s -> threads s !! t = Some PDrain -> stopRead s = Some c ->
  lstep cfg s (LGo t x) s1 -> run (lstep cfg) s1 ls s2 -> threads s2 !! t = Some (PReturned KDrain None) ->
  warns (wire s2) = warns (wire s) ->
  exists y, cycles s2 !! c = Some y /\
    (cyWork y = false -> cyDied y = false -> cyExited y = true /\ cyHandled y = cySent y).
Proof.
  intros Hrun0 Hn Ht Hc Hst Hrun Hret Hw.
  assert (cut c t (warns (wire s)) s1) as Hcut.
  { apply (cut_intro cfg t x s s1 c); try done.
    - exact (owned_run _ _ _ _ Hrun0 owned_init).
    - exact (linked_run _ _ _ _ Hrun0 linked_init).
    - exact (cycles_ok_run _ _ _ _ Hrun0 (map_Forall_empty _)). }
  assert (cut c t (warns (wire s)) s2) as [_ _ _ _ _ _ (p & y & Hp & Hy & Hpc)].
  { refine (run_invariant (lstep cfg) (cut c t _) s1 ls s2 _ Hcut Hrun). intros. by eapply cut_step. }
  exists y. split; [done|]. rewrite Hret in Hp. injection Hp as <-. simpl in Hpc. rewrite Hw in Hpc.
  intros Hwk Hdd. destruct Hpc as [|[|[|(? & _ & _ & ?)]]]; [lia|congruence|congruence|done].
Qed.

(** ** Witness *)

(** Three deliveries sent, one of them handled, when the drain begins; it
    returns once the loop has handled the other two. *)
Lemma drain_hands_over_backlog_witness :
  let ls0 := start_labels 0 0 ++ [LSend 0 sample_delivery; LTake 0; LFinish 0; LSend 0 sample_delivery;
                                  LSend 0 sample_delivery; LCall 1 PDrain] in
  let ls := [LGo 1 COk; LGo 1 COk; LClose 0; LTake 0; LFinish 0; LTake 0; LFinish 0; LExit 0; LGo 1 COk] in
  let s2 := final (ls0 ++ [LGo 1 COk] ++ ls) in
  exists y, cycles s2 !! 0 = Some y /\ cyHandled y = [sample_delivery; sample_delivery; sample_delivery].
Proof.
  intros ls0 ls s2. set (s := final ls0). set (s1 := final (ls0 ++ [LGo 1 COk])).
  destruct (drain_hands_over_backlog sample_life s s1 s2 1 COk 0 ls0 ls) as (y & Hy & Hall);
    try (apply lrun; vm_compute; reflexivity); try (vm_compute; reflexivity).
  - apply map_Forall_to_list. vm_compute. repeat constructor.
  - exists y. split; [exact Hy|]. revert Hall. vm_compute in Hy. injection Hy as <-. intros Hall.
    destruct Hall as [_ ->]; reflexivity.
Defined.
