(* ===== verification/ReceiverTags.v ===== *)
(** * Delivery tags across the lifecycle: src/receiver/{receiver,settle}.go

    ReceiverLife.v has the calls and the loops, Settle.v the deliveries handed
    out and the epoch they carry. Here the two run together: a cycle's loop
    takes a delivery, [handleDelivery] builds its settler ([TStamp], the first
    thing it does), outside code settles through it whenever it likes ([TOps],
    also long after the handler returned), and Start, Drain and Stop run as
    before. [r.epoch] is one variable of both. *)

From S2P Require Import Prelude GoLib Metrics Settle.
From S2P Require Receiver.
From S2P Require Import ReceiverLife.

(** ** The machine *)

(** The calls and cycles, the deliveries, which cycle's loop built each ops
    object, and the cycles whose delivery in hand has its settler. *)
Record Tagged := {
  life : Sys;
  del : DState;
  origin : gmap nat nat;
  stamped : gset nat;
}.

Inductive tlabel := TLife (l : label) | TStamp (c : nat) | TOps (o : nat) (p : OpsProg unit).

Definition tagged_init : Tagged := {| life := init; del := d_init; origin := ∅; stamped := ∅ |}.

Section tags.
Context (cfg : LifeCfg) (m : option Metrics.Receiver.ReceiverMetrics) (env : Env).

(** The fields of the one receiver that settling reads. *)
Definition recv_cfg : RecvCfg :=
  {| rClientName := lClientName cfg; queue_ := queue cfg; ackMode := lAckMode cfg; rMetrics := m |}.

Definition with_del (s : DState) (x : Tagged) : Tagged :=
  {| life := life x; del := s; origin := origin x; stamped := stamped x |}.

(** A step of the lifecycle; [r.epoch] is the receiver's one epoch. *)
Definition life_step (l : label) (x : Tagged) : option Tagged :=
  s ← exec cfg (life x) l;
  Some {| life := s; del := del x <| epoch := epoch_ s |>; origin := origin x;
          stamped := match l with LFinish c => stamped x ∖ {[c]} | _ => stamped x end |}.

(** [settler, ops := r.newSettler(d)], in the loop of cycle [c]. *)
Definition stamp (c : nat) (x : Tagged) : option Tagged :=
  y ← cycles (life x) !! c;
  d ← cyBusy y;
  if decide (c ∈ stamped x) then None
  else
    let '(o, s) := newSettler recv_cfg d (del x) in
    Some {| life := life x; del := s;
            origin := match o with Some o => <[o := c]> (origin x) | None => origin x end;
            stamped := {[c]} ∪ stamped x |}.

Definition texec (x : Tagged) (l : tlabel) : option Tagged :=
  match l with
  | TLife (LFinish c) => if decide (c ∈ stamped x) then life_step (LFinish c) x else None
  | TLife l => life_step l x
  | TStamp c => stamp c x
  | TOps o p =>
      if decide (o ∈ dom (ops (del x))) then Some (with_del (run_ops recv_cfg env o p (del x)).2 x) else None
  end.

Definition tstep (x : Tagged) (l : tlabel) (x' : Tagged) : Prop := texec x l = Some x'.

Lemma trun x ls x' : exec_all texec x ls = Some x' -> run tstep x ls x'.
Proof. by apply exec_all_run. Qed.

(** ** What a step does *)

(** An ops object, later: let go of perhaps, otherwise as built. *)
Definition later (y y' : Ops) : Prop :=
  oDelivery y' = oDelivery y /\ oEpoch y' = oEpoch y /\ (oReleased y = true -> oReleased y' = true).

(** The objects of [s] in [s']: the same ones, later. *)
Definition same_ops (s s' : DState) : Prop :=
  dom (ops s') = dom (ops s) /\
  forall o y, ops s !! o = Some y -> exists y', ops s' !! o = Some y' /\ later y y'.

Lemma later_refl y : later y y.
Proof. done. Qed.
Lemma later_trans y1 y2 y3 : later y1 y2 -> later y2 y3 -> later y1 y3.
Proof. unfold later. intros (-> & -> & ?) (-> & -> & ?). auto. Qed.

Lemma same_ops_refl s : same_ops s s.
Proof. split; [done|]. intros o y Ho. exists y. by split; [|apply later_refl]. Qed.
Lemma same_ops_trans s1 s2 s3 : same_ops s1 s2 -> same_ops s2 s3 -> same_ops s1 s3.
Proof.
  intros [Hd1 H1] [Hd2 H2]. split; [congruence|].
  intros o y (y1 & Hy1 & Hl1)%H1. destruct (H2 _ _ Hy1) as (y2 & Hy2 & Hl2).
  exists y2. split; [done|]. by eapply later_trans.
Qed.

Lemma release_same o s : same_ops s (release o s).2.
Proof.
  unfold release. destruct (ops s !! o) as [y|] eqn:Ho; [|apply same_ops_refl].
  destruct (oReleased y) eqn:Hr; [apply same_ops_refl|]. split; unfold rec_set; simpl.
  - apply elem_of_dom_2 in Ho. set_solver.
  - intros o' y' Ho'. rewrite lookup_insert. case_decide; subst; [|by exists y'; split; [|apply later_refl]].
    simplify_eq. eexists. split; [done|]. split; simpl; auto.
Qed.

Lemma run_ops_same {A} o (p : OpsProg A) s : same_ops s (run_ops recv_cfg env o p s).2.
Proof.
  apply (run_ops_invariant recv_cfg env (same_ops s)); [|done|done|apply same_ops_refl].
  intros s' Hs'. eapply same_ops_trans; [done|apply release_same].
Qed.

(** The steps: of the lifecycle, a settler built by a busy loop, or outside
    code. *)
Lemma tstep_cases x l x' :
  tstep x l x' ->
  (exists l', lstep cfg (life x) l' (life x') /\ del x' = del x <| epoch := epoch_ (life x') |> /\
     origin x' = origin x) \/
  (exists c y d, l = TStamp c /\ cycles (life x) !! c = Some y /\ cyBusy y = Some d /\ life x' = life x /\
     ((lAckMode cfg = AckNone /\ del x' = del x /\ origin x' = origin x) \/
      (let o := fresh (dom (ops (del x))) in
       origin x' = <[o := c]> (origin x) /\ epoch (del x') = epoch (del x) /\
       ops (del x') = <[o := {| oDelivery := d; oEpoch := epoch (del x); oReleased := false |}]> (ops (del x))))) \/
  (life x' = life x /\ origin x' = origin x /\ epoch (del x') = epoch (del x) /\ same_ops (del x) (del x')).
Proof.
  unfold tstep. intros H. destruct l as [l|c|o p].
  - left. exists l. assert (life_step l x = Some x') as Hl.
    { destruct l; try exact H. cbn [texec] in H. by case_decide. }
    unfold life_step in Hl. apply bind_Some in Hl as (s & Hs & [= <-]). done.
  - right. left. cbn [texec] in H. unfold stamp in H.
    apply bind_Some in H as (y & Hy & (d & Hd & H)%bind_Some). case_decide; [done|].
    exists c, y, d. split_and!; try done; unfold newSettler in H; simpl in H;
      case_decide as Hm; injection H as <-; [done..| |].
    + left. done.
    + right. done.
  - right. right. cbn [texec] in H. case_decide; [|done]. injection H as <-.
    split_and!; [done|done|apply run_ops_epoch|apply run_ops_same].
Qed.

(** ** Returned Stops *)

Definition ended_count (s : Sys) : nat := size (ended_calls s).

(** A call that has returned stays so. *)
Lemma returned_step s l s' t k e :
  lstep cfg s l s' -> threads s !! t = Some (PReturned k e) -> threads s' !! t = Some (PReturned k e).
Proof.
  intros [(? & ? & ? & _ & _ & ->)|[(t' & p & _ & Ht' & _ & ->)|(t' & x & p & _ & Hp & Hgo)]]%lstep_cases Ht;
    [done|..].
  - simpl. by rewrite lookup_insert_ne by congruence.
  - destruct (decide (t' = t)) as [->|Hne]; [by simplify_eq|].
    by rewrite (go_threads _ _ _ _ _ _ _ Hgo).
Qed.

Lemma ended_calls_step s l s' : lstep cfg s l s' -> ended_calls s ⊆ ended_calls s'.
Proof.
  intros Hst. apply map_subseteq_spec. intros t p [Ht Hp]%map_lookup_filter_Some.
  apply map_lookup_filter_Some. split; [|done]. simpl in Hp.
  destruct p as [| | | | | | | | | | | | | | | |k e]; try done. by eapply returned_step.
Qed.

Lemma ended_count_step s l s' : lstep cfg s l s' -> ended_count s <= ended_count s'.
Proof. intros Hst. by eapply map_subseteq_size, ended_calls_step. Qed.

(** The step at which a Stop that ended a cycle returns. *)
Lemma ended_count_grows s l s' t p q :
  lstep cfg s l s' -> threads s !! t = Some p -> ended p = false ->
  threads s' !! t = Some q -> ended q = true -> ended_count s < ended_count s'.
Proof.
  intros Hst Hp Hnp Hq Heq. apply map_subset_size. split; [by eapply ended_calls_step|].
  intros Hsub. rewrite map_subseteq_spec in Hsub.
  assert (ended_calls s' !! t = Some q) as Hq' by (by apply map_lookup_filter_Some).
  apply Hsub in Hq'. apply map_lookup_filter_Some in Hq' as [Hq' _]. congruence.
Qed.
End tags.

(** ** Invariants *)

Section inv.
Context (cfg : LifeCfg) (m : option Metrics.Receiver.ReceiverMetrics) (env : Env).
Abbreviation step := (tstep cfg m env).

(** A delivery's stamp is the number of Stops that had ended a cycle when its
    settler was built, which [n] bounds. *)
Definition stamped_by (bound : nat -> Prop) (y : Ops) : Prop :=
  exists n, bound n /\ oEpoch y = wrap_u64 (Z.of_nat n).

Record tagged_ok (x : Tagged) : Prop := {
  tg_linked : linked (life x);
  tg_ended : epoch_ok (life x);
  tg_cycles : map_Forall (fun _ => cycle_ok) (cycles (life x));
  tg_epoch : epoch (del x) = epoch_ (life x);
  tg_origin : forall o, is_Some (origin x !! o) -> is_Some (ops (del x) !! o);
  tg_stamps : forall o y, ops (del x) !! o = Some y ->
                          stamped_by (fun n => n <= ended_count (life x)) y;
}.

Lemma stamped_by_later (P Q : nat -> Prop) y y' :
  later y y' -> (forall n, P n -> Q n) -> stamped_by P y -> stamped_by Q y'.
Proof. intros (_ & He & _) HPQ (n & Hn & Hy). exists n. split; [auto|congruence]. Qed.

(** An object of the later state was one of the earlier. *)
Lemma same_ops_back s s' o y' :
  same_ops s s' -> ops s' !! o = Some y' -> exists y, ops s !! o = Some y /\ later y y'.
Proof.
  intros [Hd Hs] Ho. apply elem_of_dom_2 in Ho as Hin. rewrite Hd in Hin.
  apply elem_of_dom in Hin as [y Hy]. exists y. split; [done|].
  destruct (Hs _ _ Hy) as (y2 & Hy2 & Hl). by simplify_eq.
Qed.

Lemma tagged_ok_step x l x' : tagged_ok x -> step x l x' -> tagged_ok x'.
Proof.
  intros [Hl He Hc Hep Ho Hs]
    [(l' & Hst & Hd & Hor)|[(c & y & d & _ & Hy & Hb & Hli & Hcase)|(Hli & Hor & Hep' & Hsame)]]%tstep_cases.
  - split; rewrite ?Hd, ?Hor; try done.
    + by eapply linked_step.
    + by eapply epoch_step.
    + eapply cycles_ok_run; [|exact Hc]. by eapply run_cons; [|apply run_nil].
    + intros o y (n & Hn & Hey)%Hs. exists n. split; [|done]. pose proof (ended_count_step _ _ _ _ Hst). lia.
  - destruct Hcase as [(_ & Hd & Hor)|(Hor & Hep' & Hop)]; split; rewrite ?Hli; try done.
    + by rewrite Hd.
    + by rewrite Hor, Hd.
    + by rewrite Hd.
    + by rewrite Hep'.
    + intros o. rewrite Hor, Hop, !lookup_insert. case_decide; [done|auto].
    + intros o y'. rewrite Hop, lookup_insert. case_decide; [|apply Hs]. intros [= <-].
      eexists. split; [apply le_n|]. simpl. by rewrite Hep.
  - split; rewrite ?Hli; try done; [by rewrite Hep'| |].
    + rewrite Hor. intros o [y (y' & Hy' & _)%(proj2 Hsame)]%Ho. by exists y'.
    + intros o y' Hy'. destruct (same_ops_back _ _ _ _ Hsame Hy') as (y & Hy & Hlt).
      eapply stamped_by_later; [done| |by eapply Hs]. done.
Qed.

Lemma tagged_ok_init : tagged_ok tagged_init.
Proof.
  split; simpl; try done; [apply linked_init|by intros ? [? ?]].
Qed.

Lemma tagged_ok_run x ls x' : run step x ls x' -> tagged_ok x -> tagged_ok x'.
Proof.
  intros Hrun Hx. refine (run_invariant step tagged_ok x ls x' _ Hx Hrun). intros. by eapply tagged_ok_step.
Qed.

(** The lifecycle runs in the product as it does by itself. *)
Lemma life_run x ls x' : run step x ls x' -> exists ls', run (lstep cfg) (life x) ls' (life x').
Proof.
  induction 1 as [x|x l x1 ls x' Hst _ [ls' IH]]; [exists []; constructor|].
  apply tstep_cases in Hst as
    [(l' & Hst & _)|[(c & y & d & _ & _ & _ & Hli & _)|(Hli & _)]]; rewrite ?Hli in IH; [|by exists ls'..].
  exists (l' :: ls'). by econstructor.
Qed.

(** Every object of a run stays, later. *)
Lemma ops_run x ls x' o y :
  run step x ls x' -> ops (del x) !! o = Some y -> exists y', ops (del x') !! o = Some y' /\ later y y'.
Proof.
  intros Hrun. revert y. induction Hrun as [x|x l x1 ls x' Hst _ IH]; intros y Hy.
  { exists y. by split; [|apply later_refl]. }
  assert (exists y1, ops (del x1) !! o = Some y1 /\ later y y1) as (y1 & Hy1 & Hl1).
  { apply tstep_cases in Hst as
      [(l' & _ & Hd & _)|[(c & y0 & d & _ & _ & _ & _ & [(_ & Hd & _)|(_ & _ & Hop)])|(_ & _ & _ & Hs)]].
    - exists y. rewrite Hd. by split; [|apply later_refl].
    - exists y. rewrite Hd. by split; [|apply later_refl].
    - exists y. rewrite Hop, lookup_insert_ne; [by split; [|apply later_refl]|].
      intros <-. apply elem_of_dom_2 in Hy. by apply is_fresh in Hy.
    - by apply Hs. }
  destruct (IH _ Hy1) as (y' & Hy' & Hl'). exists y'. split; [done|]. by eapply later_trans.
Qed.

Lemma ended_count_run x ls x' : run step x ls x' -> ended_count (life x) <= ended_count (life x').
Proof.
  intros Hrun. refine (run_invariant step (fun z => ended_count (life x) <= ended_count (life z)) x ls x' _ _ Hrun);
    [|done].
  intros a l b Ha
    [(l' & Hst & _)|[(c & y0 & d & _ & _ & _ & Hli & _)|(Hli & _)]]%tstep_cases; rewrite ?Hli; [|done..].
  pose proof (ended_count_step _ _ _ _ Hst). lia.
Qed.

(** A cycle whose loop has ended hands out nothing more. *)
Lemma origin_step x l x' o c :
  tagged_ok x -> exited (life x) c = true -> step x l x' -> origin x' !! o = Some c -> origin x !! o = Some c.
Proof.
  intros [_ _ Hc _ _ _] He
    [(l' & _ & _ & ->)|[(c' & y & d & _ & Hy & Hb & _ & [(_ & _ & ->)|(-> & _)])|(_ & -> & _)]]%tstep_cases;
    try done.
  rewrite lookup_insert. case_decide; [|done]. intros [= ->].
  unfold exited in He. rewrite Hy in He. by rewrite (y_idle _ (Hc _ _ Hy) He) in Hb.
Qed.

(** ** The Stop that retires a cycle's tags *)

(** Where a Stop that ended the cycle [c] is, and what it has retired. *)
Definition retired (c : nat) (x : Tagged) : Prop :=
  exited (life x) c = true /\
  forall o y, origin x !! o = Some c -> ops (del x) !! o = Some y ->
              stamped_by (fun n => n < ended_count (life x)) y.

Definition retiring (c t : nat) (x : Tagged) : Prop :=
  exists p, threads (life x) !! t = Some p /\ stopping c (life x) p /\
            (p = PReturned (KStop true) None -> retired c x).

Lemma retired_step c x l x' : tagged_ok x -> retired c x -> step x l x' -> retired c x'.
Proof.
  intros Hok [He Hr] Hst.
  assert (run step x [l] x') as Hrun by by eapply run_cons; [|apply run_nil].
  split.
  { destruct (life_run _ _ _ Hrun) as (ls' & Hl). by eapply exited_run. }
  intros o y' Ho Hy'. eapply origin_step in Ho; [|done..].
  destruct (tg_origin _ Hok o) as [y Hy]; [by rewrite Ho|].
  destruct (ops_run _ _ _ _ _ Hrun Hy) as (y2 & Hy2 & Hl). simplify_eq.
  eapply stamped_by_later; [done| |by eapply Hr].
  intros n Hn. cbv beta in Hn |- *. pose proof (ended_count_run _ _ _ Hrun). lia.
Qed.

Lemma stopped_nil_dec p : p = PReturned (KStop true) None \/ p <> PReturned (KStop true) None.
Proof. destruct p as [| | | | | | | | | | | | | | | |[| |[]] []]; (left; reflexivity) || (right; discriminate). Qed.

(** The only part of a Stop after which it has returned nil is the last. *)
Lemma stop_returns c t s l s' p :
  linked s -> lstep cfg s l s' -> threads s !! t = Some p -> stopping c s p -> p <> PReturned (KStop true) None ->
  threads s' !! t = Some (PReturned (KStop true) None) -> exited s c = true /\ ended p = false.
Proof.
  intros Hl [(? & ? & ? & _ & _ & ->)|[(t' & q & _ & Ht' & _ & ->)|(t' & x & q & _ & Hq & Hgo)]]%lstep_cases
    Hp Hs Hne Hret.
  - simpl in Hret. congruence.
  - simpl in Hret. rewrite lookup_insert_ne in Hret by congruence. congruence.
  - destruct (decide (t' = t)) as [->|Hd].
    2:{ rewrite (go_threads _ _ _ _ _ _ _ Hgo) in Hret by done. congruence. }
    rewrite Hp in Hq. injection Hq as <-. destruct p as [| | | | | | | | | | | | | | | |[| |[]] []]; simpl in Hs; destruct_and?; try done;
      simpl in Hgo; cbv [goto returned stop_decide stop_wait stop_bump] in Hgo;
      split_in Hgo; injection Hgo as <-; unfold rec_set in Hret; simpl in Hret;
      rewrite lookup_insert_eq in Hret; done.
Qed.

Lemma retiring_step c t x l x' : tagged_ok x -> retiring c t x -> step x l x' -> retiring c t x'.
Proof.
  intros Hok (p & Hp & Hs & Hr) Hst. destruct (tstep_cases _ _ _ _ _ _ Hst) as
    [(l' & Hl' & Hd & Hor)|Hsame].
  - destruct (stopping_step _ _ _ _ _ _ (tg_linked _ Hok) (ex_intro _ p (conj Hp Hs)) Hl') as (p' & Hp' & Hs').
    exists p'. split_and!; [done|done|]. intros ->.
    destruct (stopped_nil_dec p) as [-> |Hne]; [by eapply retired_step; auto|].
    destruct (stop_returns _ _ _ _ _ _ (tg_linked _ Hok) Hl' Hp Hs Hne Hp') as [He Hend].
    split; [done|]. intros o y Ho Hy. rewrite Hor in Ho. rewrite Hd in Hy.
    destruct (tg_stamps _ Hok o y Hy) as (n & Hn & Hey). exists n. split; [|done].
    pose proof (ended_count_grows _ _ _ _ _ _ _ Hl' Hp Hend Hp' eq_refl). lia.
  - assert (life x' = life x) as Hli by naive_solver. exists p. rewrite Hli. split_and!; [done|done|].
    intros Hpr. eapply retired_step; eauto.
Qed.
End inv.

(** ** The handler in the machine *)

(** The state but for its log. *)
Definition mod_log (s s' : DState) : Prop :=
  epoch s' = epoch s /\ unsettled s' = unsettled s /\ ops s' = ops s.

(** What settling through [o], whatever the answers, can have made of [s]:
    nothing, or let go of [o]. *)
Definition settled_from (o : nat) (s s' : DState) : Prop := mod_log s s' \/ mod_log (release o s).2 s'.

Lemma mod_log_release o s s' : mod_log s s' -> mod_log (release o s).2 (release o s').2.
Proof.
  unfold mod_log, release. intros (He & Hu & Ho). rewrite Ho.
  destruct (ops s !! o) as [y|]; [|done]. destruct (oReleased y); [done|].
  unfold rec_set. simpl. by rewrite He, Hu.
Qed.

Lemma release_twice o s : release o (release o s).2 = (tt, (release o s).2).
Proof.
  unfold release at 2 3. destruct (ops s !! o) as [y|] eqn:Hy.
  2:{ unfold release. simpl. by rewrite Hy. }
  destruct (oReleased y) eqn:Hr.
  - unfold release. simpl. by rewrite Hy, Hr.
  - unfold release, rec_set. simpl. by rewrite lookup_insert_eq.
Qed.

Section handler.
Context {St : Type} (rcfg : RecvCfg) (route : Receiver.RouteCfg) (env : Env) (bus : Receiver.Bus St).

Lemma settled_release o s s' : settled_from o s s' -> settled_from o s (release o s').2.
Proof.
  intros [H|H]; right; [by apply mod_log_release|].
  apply (mod_log_release o) in H. by rewrite release_twice in H.
Qed.

Lemma settled_log o s s' l : settled_from o s s' -> settled_from o s (s' <| rlog := l |>).
Proof. done. Qed.

Lemma settled_ops o {A} (p : OpsProg A) s s' : settled_from o s s' -> settled_from o s (run_ops rcfg env o p s').2.
Proof.
  apply (run_ops_invariant rcfg env (settled_from o s)); [|done|done]. intros s2. apply settled_release.
Qed.

Lemma settled_ack o st s s' : settled_from o s s' -> settled_from o s (Receiver.ack rcfg env bus (Some (o, st)) s').2.
Proof.
  intros Hs. unfold Receiver.ack. rewrite M_bind_run.
  pose proof (settled_ops o (Receiver.busAck bus st) s s' Hs) as H.
  destruct (run_ops _ _ _ _ s') as [r s1]. by destruct (r.1.2).
Qed.

Lemma settled_nack o st s s' : settled_from o s s' -> settled_from o s (Receiver.nack rcfg env bus (Some (o, st)) s').2.
Proof.
  intros Hs. unfold Receiver.nack. rewrite M_bind_run.
  pose proof (settled_ops o (Receiver.busNack bus st "") s s' Hs) as H.
  destruct (run_ops _ _ _ _ s') as [r s1]. by destruct (r.1.2).
Qed.

Lemma settled_dispatch o st t msg f s s' :
  settled_from o s s' -> settled_from o s (Receiver.dispatch rcfg env bus (Some (o, st)) t msg f s').2.
Proof.
  intros Hs. rewrite Receiver.dispatch_run. cbv zeta. set (s1 := s' <| rlog := _ |>).
  assert (settled_from o s (Receiver.handled rcfg env bus (Some (o, st)) t msg f s1).2) as H.
  { rewrite Receiver.handled_run. pose proof (settled_ops o (Receiver.busOnEvent bus st t msg f) s s1 Hs) as H1.
    destruct (run_ops _ _ _ _ s1) as [r s2]. cbv zeta.
    pose proof (settled_ops o (Receiver.busSettleOnReturn bus r.2 r.1) s s2 H1) as H2.
    destruct (Receiver.busObserved bus); [by apply settled_release|done]. }
  destruct (Receiver.handled _ _ _ _ _ _ _ s1) as [err s2]. by apply settled_log.
Qed.

(** The whole handler: a new settler, and settling through it. *)
Lemma handleDelivery_settles d s :
  let '(o, s1) := newSettler rcfg d s in
  let s' := (Receiver.handleDelivery rcfg route env bus d s).2 in
  match o with Some o => settled_from o s1 s' | None => mod_log s s' end.
Proof.
  rewrite Receiver.handleDelivery_run. unfold Receiver.opened. rewrite Receiver.newSettler_run.
  case_decide as Hm; cbv zeta.
  - destruct (Receiver.verdict route d); [done..|]. cbn [fmap option_fmap option_map].
    by rewrite Receiver.dispatch_run.
  - cbn [fmap option_fmap option_map]. destruct (Receiver.verdict route d).
    + apply settled_ack. by left.
    + apply settled_nack. by left.
    + apply settled_dispatch. by left.
Qed.
End handler.

(** ** Lemmas for the properties *)

Section answers.
Context (cfg : LifeCfg) (m : option Metrics.Receiver.ReceiverMetrics) (env : Env).
Abbreviation step := (tstep cfg m env).

(** What [Valid] answers for a delivery stamped [n]. *)
Lemma Valid_stamped x o y n :
  tagged_ok x -> ops (del x) !! o = Some y -> oEpoch y = wrap_u64 (Z.of_nat n) -> n <= ended_count (life x) ->
  (Z.of_nat (ended_count (life x)) < 2 ^ 64)%Z ->
  Valid o (del x) =
  if decide (n = ended_count (life x)) then ((true, ""), del x)
  else ((false, "channel reconnected"), (release o (del x)).2).
Proof.
  intros [_ He _ Hep _ _] Hy Hey Hn Hlt. rewrite Valid_run, Hy, Hey, Hep.
  unfold epoch_ok in He. fold (ended_count (life x)) in He. rewrite He.
  unfold wrap_u64. rewrite !Z.mod_small by lia.
  case_decide as Hd; [subst; by rewrite bool_decide_eq_false_2 by tauto|].
  rewrite bool_decide_eq_true_2; [done|]. lia.
Qed.

Lemma released_by_release o s y :
  ops s !! o = Some y -> oReleased <$> ops (release o s).2 !! o = Some true.
Proof.
  intros Hy. unfold release. rewrite Hy. destruct (oReleased y) eqn:Hr; unfold rec_set; simpl.
  - by rewrite Hy; simpl; rewrite Hr.
  - by rewrite lookup_insert_eq.
Qed.

(** The count is exact along every run. *)
Lemma counted_run x ls x' : run step x ls x' -> counted_ok (del x) -> counted_ok (del x').
Proof.
  intros Hrun Hx. refine (run_invariant step (fun z => counted_ok (del z)) x ls x' _ Hx Hrun).
  intros a l b Ha Hst. unfold tstep in Hst. destruct l as [l|c|o p].
  - assert (life_step cfg l a = Some b) as Hl.
    { destruct l; try exact Hst. cbn [texec] in Hst. by case_decide. }
    unfold life_step in Hl. by apply bind_Some in Hl as (s & _ & [= <-]).
  - cbn [texec] in Hst. unfold stamp in Hst.
    apply bind_Some in Hst as (y & _ & (d & _ & Hst)%bind_Some). case_decide; [done|].
    pose proof (newSettler_counted (recv_cfg cfg m) d (del a) Ha) as Hc.
    destruct (newSettler _ _ _) as [o s]. by injection Hst as <-.
  - cbn [texec] in Hst. case_decide; [|done]. injection Hst as <-. by apply run_ops_counted.
Qed.

(** Nothing outstanding: every object has been let go of. *)
Lemma none_unsettled s o y :
  counted_ok s -> (Z.of_nat (size (open_ops (ops s))) < 2 ^ 63)%Z -> unsettled s = 0%Z ->
  ops s !! o = Some y -> oReleased y = true.
Proof.
  intros Hc Hsmall Hz Ho. unfold counted_ok in Hc. rewrite wrap_i64_small in Hc by lia.
  destruct (oReleased y) eqn:Hr; [done|].
  assert (open_ops (ops s) !! o = Some y) as Hopen by by apply map_lookup_filter_Some.
  assert (size (open_ops (ops s)) = 0) as Hs0 by lia.
  apply map_size_empty_inv in Hs0. by rewrite Hs0 in Hopen.
Qed.

(** The tail of a run after a cycle's loop has ended adds nothing to what that
    cycle handed out. *)
Lemma origin_run x ls x' o c :
  tagged_ok x -> exited (life x) c = true -> run step x ls x' -> origin x' !! o = Some c ->
  origin x !! o = Some c.
Proof.
  intros Hok He Hrun Ho. revert Hok He. induction Hrun as [x|x l x1 ls x' Hst Hrun IH]; intros Hok He; [done|].
  assert (run step x [l] x1) as H1 by by eapply run_cons; [|apply run_nil].
  eapply origin_step; [exact Hok|exact He|exact Hst|]. apply IH; [done|by eapply tagged_ok_step|].
  destruct (life_run _ _ _ _ _ _ H1) as (ls' & Hl). by eapply exited_run.
Qed.
End answers.

(** ** Properties *)

(** C3: Once a Stop has returned nil, every delivery the loop it ended ever took is
    refused -- and let go of -- by [Valid], in every interleaving with other
    calls, other cycles and outside code: no settle is attempted on a tag of
    the channel the client is about to close. *)
Theorem stopped_cycle_tags_refused cfg m env x x1 x2 t ch c o ls0 ls :
  run (tstep cfg m env) tagged_init ls0 x -> threads (life x) !! t = Some PStop -> stopWork (life x) = Some c ->
  tstep cfg m env x (TLife (LGo t ch)) x1 -> run (tstep cfg m env) x1 ls x2 ->
  threads (life x2) !! t = Some (PReturned (KStop true) None) -> origin x2 !! o = Some c ->
  (Z.of_nat (ended_count (life x2)) < 2 ^ 64)%Z ->
  (Valid o (del x2)).1 = (false, "channel reconnected") /\
  oReleased <$> ops (Valid o (del x2)).2 !! o = Some true.
Proof.
  intros Hrun0 Ht Hc Hst Hrun Hret Ho Hsmall.
  assert (tagged_ok x) as Hok by (eapply tagged_ok_run; [done|apply tagged_ok_init]).
  assert (tagged_ok x1) as Hok1 by by eapply tagged_ok_step.
  assert (retiring c t x1) as Hre.
  { unfold tstep in Hst. cbn [texec] in Hst. unfold life_step in Hst.
    apply bind_Some in Hst as (s & Hs & [= <-]). cbn [exec] in Hs. rewrite Ht in Hs. simpl in Hs.
    unfold stop_take in Hs. rewrite Hc, (l_done _ (tg_linked _ Hok)), Hc in Hs. injection Hs as <-.
    eexists. split_and!; [apply lookup_insert_eq|done|done]. }
  assert (tagged_ok x2 /\ retiring c t x2) as [Hok2 (p & Hp & _ & Hr)].
  { refine (run_invariant (tstep cfg m env) (fun z => tagged_ok z /\ retiring c t z) x1 ls x2 _ (conj Hok1 Hre) Hrun).
    intros a l b [? ?] ?. split; [by eapply tagged_ok_step|by eapply retiring_step]. }
  rewrite Hret in Hp. injection Hp as <-. destruct (Hr eq_refl) as [_ Hst2].
  destruct (tg_origin _ Hok2 o) as [y Hy]; [by rewrite Ho|].
  destruct (Hst2 _ _ Ho Hy) as (n & Hn & Hey).
  rewrite (Valid_stamped _ _ _ _ Hok2 Hy Hey) by lia. rewrite decide_False by lia.
  split; [done|]. by eapply released_by_release.
Qed.

(** C8: A delivery's settler answers [Valid] exactly as long as no Stop has ended a
    cycle since it was built: a Drain, another Start, a settle of any other
    delivery and the end of the loop itself leave its tag good. *)
Theorem tag_good_until_a_stop cfg m env x x1 x2 c o ls0 ls :
  run (tstep cfg m env) tagged_init ls0 x -> tstep cfg m env x (TStamp c) x1 ->
  origin x !! o = None -> is_Some (origin x1 !! o) -> run (tstep cfg m env) x1 ls x2 ->
  (Z.of_nat (ended_count (life x2)) < 2 ^ 64)%Z ->
  (Valid o (del x2)).1.1 = bool_decide (ended_count (life x2) = ended_count (life x)).
Proof.
  intros Hrun0 Hst Hno Ho Hrun Hsmall.
  assert (tagged_ok x) as Hok by (eapply tagged_ok_run; [done|apply tagged_ok_init]).
  assert (tagged_ok x1) as Hok1 by by eapply tagged_ok_step.
  assert (tagged_ok x2) as Hok2 by by eapply tagged_ok_run.
  assert (exists y, ops (del x1) !! o = Some y /\ oEpoch y = wrap_u64 (Z.of_nat (ended_count (life x)))
          /\ life x1 = life x) as (y & Hy & Hey & Hli).
  { destruct (tstep_cases _ _ _ _ _ _ Hst) as
      [(l' & _ & _ & Hor)|[(c' & y & d & _ & _ & _ & Hli & [(_ & _ & Hor)|(Hor & _ & Hop)])|(_ & Hor & _)]];
      rewrite Hor in Ho; try (destruct Ho as [? Ho]; congruence).
    rewrite lookup_insert in Ho. case_decide as Hf; [|destruct Ho as [? Ho]; congruence]. subst o.
    eexists. rewrite Hop, lookup_insert_eq. split_and!; [done| |done]. simpl.
    rewrite (tg_epoch _ Hok). apply (tg_ended _ Hok). }
  destruct (ops_run _ _ _ _ _ _ _ _ Hrun Hy) as (y2 & Hy2 & _ & He2 & _).
  pose proof (ended_count_run _ _ _ _ _ _ Hrun) as Hle. rewrite Hli in Hle.
  rewrite (Valid_stamped x2 o y2 (ended_count (life x)) Hok2 Hy2) by congruence || lia.
  case_decide; [by rewrite bool_decide_eq_true_2|by rewrite bool_decide_eq_false_2 by congruence].
Qed.

(** C6: The graceful shutdown the receiver is built for: when a Drain has returned
    nil and [Unsettled] then reads zero, every delivery the drained loop ever
    took has been settled or let go of and it takes no more, whatever runs
    afterwards -- so the Stop that follows invalidates nothing that was still
    to be acknowledged. *)
Theorem drained_and_settled_loses_nothing cfg m env x x1 x2 x3 t ch c o ls0 ls ls' :
  run (tstep cfg m env) tagged_init ls0 x -> no_start (life x) ->
  threads (life x) !! t = Some PDrain -> stopWork (life x) = Some c ->
  tstep cfg m env x (TLife (LGo t ch)) x1 -> run (tstep cfg m env) x1 ls x2 ->
  threads (life x2) !! t = Some (PReturned KDrain None) -> unsettled (del x2) = 0%Z ->
  (Z.of_nat (size (open_ops (ops (del x2)))) < 2 ^ 63)%Z ->
  run (tstep cfg m env) x2 ls' x3 -> origin x3 !! o = Some c ->
  origin x2 !! o = Some c /\ oReleased <$> ops (del x3) !! o = Some true.
Proof.
  intros Hrun0 Hn Ht Hc Hst Hrun Hret Hz Hsmall Hrun' Ho.
  assert (tagged_ok x) as Hok by (eapply tagged_ok_run; [done|apply tagged_ok_init]).
  assert (tagged_ok x1) as Hok1 by by eapply tagged_ok_step.
  assert (tagged_ok x2) as Hok2 by by eapply tagged_ok_run.
  assert (lstep cfg (life x) (LGo t ch) (life x1)) as Hl.
  { unfold tstep in Hst. cbn [texec] in Hst. unfold life_step in Hst.
    by apply bind_Some in Hst as (s & Hs & [= <-]). }
  destruct (drain_take_spec cfg t ch _ _ Hn Ht Hl) as (_ & _ & _ & _ & _ & _ & Hd).
  pose proof (Hd c (tg_linked _ Hok) (tg_linked _ Hok1) Hc) as Hd1.
  destruct (life_run _ _ _ _ _ _ Hrun) as (lsl & Hlife).
  assert (drain_inv c t (life x2)) as [_ _ _ _ _ (p & Hp & Hdr)].
  { refine (run_invariant (lstep cfg) (drain_inv c t) _ lsl _ _ Hd1 Hlife). intros. by eapply drain_inv_step. }
  rewrite Hret in Hp. injection Hp as <-. simpl in Hdr.
  pose proof (origin_run _ _ _ _ _ _ _ _ Hok2 Hdr Hrun' Ho) as Ho2. split; [done|].
  destruct (tg_origin _ Hok2 o) as [y Hy]; [by rewrite Ho2|].
  assert (oReleased y = true) as Hr.
  { eapply none_unsettled; [|done..|exact Hy]. eapply counted_run; [exact Hrun|].
    eapply counted_run; [by eapply run_cons; [|apply run_nil]|]. by eapply counted_run. }
  destruct (ops_run _ _ _ _ _ _ _ _ Hrun' Hy) as (y3 & -> & _ & _ & Hrel). simpl. by rewrite Hrel.
Qed.

(** C14: The machine's account of a delivery is the handler's: [handleDelivery], for
    any routing, subscriber, bus and broker, does to the count, the epoch and
    the ops objects what building the settler and then settling, or not,
    through that settler does. *)
Theorem handler_is_a_stamp_and_settles {St} cfg m route env (bus : Receiver.Bus St) x c y d :
  cycles (life x) !! c = Some y -> cyBusy y = Some d -> c ∉ stamped x ->
  exists ls x', run (tstep cfg m env) x (TStamp c :: ls) x' /\
    Forall (fun l => exists o p, l = TOps o p /\ ops (del x) !! o = None) ls /\ life x' = life x /\
    mod_log (Receiver.handleDelivery (recv_cfg cfg m) route env bus d (del x)).2 (del x').
Proof.
  intros Hy Hb Hc. pose proof (handleDelivery_settles (recv_cfg cfg m) route env bus d (del x)) as H.
  set (s' := (Receiver.handleDelivery _ _ _ _ _ _).2) in *.
  assert (texec cfg m env x (TStamp c) =
    let '(o, s) := newSettler (recv_cfg cfg m) d (del x) in
    Some {| life := life x; del := s;
            origin := match o with Some o => <[o := c]> (origin x) | None => origin x end;
            stamped := {[c]} ∪ stamped x |}) as Hst.
  { cbn [texec]. unfold stamp. rewrite Hy. cbn [mbind option_bind]. rewrite Hb. cbn [mbind option_bind].
    by rewrite decide_False. }
  rewrite Receiver.newSettler_run in *. case_decide as Hm.
  - eexists [], _. split; [eapply run_cons; [exact Hst|constructor]|]. split; [constructor|]. split; [done|].
    destruct H as (? & ? & ?). by split_and!.
  - set (o := fresh (dom (ops (del x)))) in *. cbv zeta in H, Hst.
    set (s1 := del x <| ops := <[o := {| oDelivery := d; oEpoch := epoch (del x); oReleased := false |}]> (ops (del x)) |>
                     <| unsettled := wrap_i64 (unsettled (del x) + 1) |>) in *.
    destruct H as [(He & Hu & Ho)|(He & Hu & Ho)].
    + eexists [], _. split; [eapply run_cons; [exact Hst|constructor]|]. split; [constructor|]. split; [done|].
      by split_and!.
    + eexists [TOps o (OAck (fun _ => ODone tt))], _. split.
      { eapply run_cons; [exact Hst|]. eapply run_cons; [|constructor]. unfold tstep. cbn [texec del].
        rewrite decide_True; [reflexivity|]. subst s1. unfold rec_set. simpl. set_solver. }
      split; [apply Forall_singleton; eexists _, _; split; [done|]; apply not_elem_of_dom, is_fresh|].
      split; [done|]. cbn [with_del del run_ops]. rewrite M_bind_run, Ack_run. cbn [snd].
      set (l := rlog s1 ++ _).
      assert (mod_log (release o s1).2 (release o (s1 <| rlog := l |>)).2) as (H1 & H2 & H3).
      { by apply mod_log_release. }
      split_and!; [by rewrite He|by rewrite Hu|by rewrite Ho].
Qed.

(** ** Runs *)

Definition tag_env : Env :=
  {| envAck := fun _ => None; envNack := fun _ => None; envSince := fun _ => 0%Z |}.

Definition tfinal (ls : list tlabel) : Tagged :=
  default tagged_init (exec_all (texec sample_life None tag_env) tagged_init ls).

(** Call 0 starts; the loop takes the first of two deliveries. *)
Definition tstarted : list tlabel :=
  map TLife (start_labels 0 0 ++ [LSend 0 sample_delivery; LSend 0 sample_delivery; LTake 0]) ++ [TStamp 0].

(** C38: A Stop that gives up on a delivery still running moves the epoch while the
    loop is alive. The loop's select may then take a delivery already
    buffered although its read context is done, and the settler built for it
    is stamped with the new epoch: its tag is reported good although the
    receiver has let go of the channel. *)
Theorem abandoned_stop_leaves_a_good_tag :
  exists ls x, run (tstep sample_life None tag_env) tagged_init ls x /\
    threads (life x) !! 1 = Some (PReturned KDrain
      (Some (Errorfw fmt_drain ["q"] (New "context deadline exceeded")))) /\
    threads (life x) !! 2 = Some (PReturned (KStop true) (Some (Errorf fmt_stopped ["q"]))) /\
    ch_ (life x) = None /\ stopWork (life x) = None /\
    (exists y, cycles (life x) !! 0 = Some y /\ cyRead y = true /\ cyWork y = true /\ cyExited y = false) /\
    origin x !! 0 = Some 0 /\ (Valid 0 (del x)).1 = (false, "channel reconnected") /\
    origin x !! 1 = Some 0 /\ (Valid 1 (del x)).1 = (true, "").
Proof.
  set (ls := tstarted ++
    map TLife [LCall 1 PDrain; LGo 1 COk; LGo 1 COk; LGo 1 COk; LGo 1 CTimeout;
               LCall 2 PStop; LGo 2 COk; LGo 2 COk; LGo 2 COk; LGo 2 COk; LFinish 0; LTake 0] ++ [TStamp 0]).
  exists ls, (tfinal ls). split; [apply trun; vm_compute; reflexivity|].
  split_and!; try (vm_compute; reflexivity).
  eexists. split_and!; vm_compute; reflexivity.
Qed.

(** ** Witnesses *)

Lemma stopped_cycle_tags_refused_witness :
  let x := tfinal (tstarted ++ [TLife (LCall 1 PStop)]) in
  let x1 := tfinal (tstarted ++ [TLife (LCall 1 PStop); TLife (LGo 1 COk)]) in
  let rest := map TLife [LGo 1 COk; LGo 1 COk; LFinish 0; LExit 0; LGo 1 COk; LGo 1 COk] in
  let x2 := default tagged_init (exec_all (texec sample_life None tag_env) x1 rest) in
  (Valid 0 (del x2)).1 = (false, "channel reconnected").
Proof.
  intros x x1 rest x2.
  destruct (stopped_cycle_tags_refused sample_life None tag_env x x1 x2 1 COk 0 0
    (tstarted ++ [TLife (LCall 1 PStop)]) rest) as [H _]; [..|exact H].
  1, 5: apply trun; vm_compute; reflexivity.
  all: vm_compute; reflexivity.
Defined.

(** A drain, and the end of the loop, leave the tag good. *)
Lemma tag_good_until_a_stop_witness :
  let ls0 := map TLife (start_labels 0 0 ++ [LSend 0 sample_delivery; LTake 0]) in
  let x := tfinal ls0 in
  let x1 := tfinal (ls0 ++ [TStamp 0]) in
  let rest := map TLife [LFinish 0; LCall 1 PDrain; LGo 1 COk; LGo 1 COk; LGo 1 COk; LClose 0; LExit 0; LGo 1 COk] in
  let x2 := default tagged_init (exec_all (texec sample_life None tag_env) x1 rest) in
  (Valid 0 (del x2)).1.1 = true /\ exited (life x2) 0 = true.
Proof.
  intros ls0 x x1 rest x2. split; [|vm_compute; reflexivity].
  rewrite (tag_good_until_a_stop sample_life None tag_env x x1 x2 0 0 ls0 rest).
  - vm_compute. reflexivity.
  - apply trun. vm_compute. reflexivity.
  - vm_compute. reflexivity.
  - vm_compute. reflexivity.
  - exists 0. vm_compute. reflexivity.
  - apply trun. vm_compute. reflexivity.
  - vm_compute. reflexivity.
Defined.

(** The delivery is acknowledged by an asynchronous consumer after the drain. *)
Lemma drained_and_settled_loses_nothing_witness :
  let ls0 := tstarted ++ [TLife (LCall 1 PDrain)] in
  let x := tfinal ls0 in
  let x1 := tfinal (ls0 ++ [TLife (LGo 1 COk)]) in
  let rest := map TLife [LGo 1 COk; LGo 1 COk; LFinish 0; LTake 0] ++ [TStamp 0] ++
    map TLife [LFinish 0; LClose 0; LExit 0; LGo 1 COk] ++
    [TOps 1 (OAck (fun _ => ODone tt)); TOps 0 (OValid (fun _ _ => OAck (fun _ => ODone tt)))] in
  let x2 := default tagged_init (exec_all (texec sample_life None tag_env) x1 rest) in
  let x3 := default tagged_init (exec_all (texec sample_life None tag_env) x2
              (map TLife [LCall 2 PStop; LGo 2 COk; LGo 2 COk; LGo 2 COk; LGo 2 COk; LGo 2 COk])) in
  oReleased <$> ops (del x3) !! 1 = Some true.
Proof.
  intros ls0 x x1 rest x2 x3.
  destruct (drained_and_settled_loses_nothing sample_life None tag_env x x1 x2 x3 1 COk 0 1 ls0 rest
    (map TLife [LCall 2 PStop; LGo 2 COk; LGo 2 COk; LGo 2 COk; LGo 2 COk; LGo 2 COk])) as [_ H].
  - apply trun. vm_compute. reflexivity.
  - apply map_Forall_to_list. vm_compute. repeat constructor.
  - vm_compute. reflexivity.
  - vm_compute. reflexivity.
  - vm_compute. reflexivity.
  - apply trun. vm_compute. reflexivity.
  - vm_compute. reflexivity.
  - vm_compute. reflexivity.
  - vm_compute. reflexivity.
  - apply trun. vm_compute. reflexivity.
  - vm_compute. reflexivity.
  - exact H.
Defined.

Lemma handler_is_a_stamp_and_settles_witness :
  let x := tfinal (map TLife (start_labels 0 0 ++ [LSend 0 sample_delivery; LTake 0])) in
  exists ls x', run (tstep sample_life None tag_env) x (TStamp 0 :: ls) x' /\
    unsettled (del x') = unsettled (Receiver.handleDelivery (recv_cfg sample_life None) Receiver.sample_rcfg tag_env
                                      (Receiver.sample_bus true) sample_delivery (del x)).2.
Proof.
  intros x. destruct (cycles (life x) !! 0) as [y|] eqn:Hy; [|vm_compute in Hy; discriminate].
  destruct (handler_is_a_stamp_and_settles sample_life None Receiver.sample_rcfg tag_env (Receiver.sample_bus true)
    x 0 y sample_delivery) as (ls & x' & Hrun & _ & _ & _ & Hu & _).
  - exact Hy.
  - vm_compute in Hy. injection Hy as <-. reflexivity.
  - refine (bool_decide_eq_true_1 _ _). vm_compute. reflexivity.
  - exists ls, x'. split; [exact Hrun|exact Hu].
Defined.
