(* ===== verification/Links.v ===== *)
(** * The interfaces between the client and what it manages

    src/client/client.go calls four methods of a receiver and one of a sender.
    [SenderLink] and [ReceiverLink] are those methods on an abstract state,
    with the promises the client's theorems rely on. LinkInstances.v shows that
    the sender of src/sender and the receiver of src/receiver keep them. *)

From S2P Require Import Prelude GoLib.

(** [SetChannel], and the channel a publish would use. A sender may refuse a
    channel (confirm mode not accepted) and stay disconnected. *)
Class SenderLink (S : Type) := {
  SetChannel : option nat -> S -> S;
  sender_channel : S -> option nat;
  SetChannel_nil s : sender_channel (SetChannel None s) = None;
  SetChannel_some c s :
    sender_channel (SetChannel (Some c) s) = Some c \/ sender_channel (SetChannel (Some c) s) = None;
}.

(** [Queue], [Stop], [DeclareTopology], [Start] and [Drain], the channel the
    receiver settles over, and whether it has been drained. A Start that fails
    leaves the receiver as it was, and a drained receiver refuses to start. *)
Class ReceiverLink (R : Type) := {
  Queue : R -> string;
  Stop_ : R -> option error * R;
  DeclareTopology_ : nat -> R -> option error * R;
  Start_ : nat -> R -> option error * R;
  Drain_ : R -> option error * R;
  receiver_channel : R -> option nat;
  receiver_drained : R -> bool;
  Stop_idle r : receiver_channel (Stop_ r).2 = None;
  Declare_keeps ch r : receiver_channel (DeclareTopology_ ch r).2 = receiver_channel r;
  Start_consumes ch r : (Start_ ch r).1 = None -> receiver_channel (Start_ ch r).2 = Some ch;
  Start_fails ch r : is_Some (Start_ ch r).1 -> receiver_channel (Start_ ch r).2 = receiver_channel r;
  Drain_keeps r : receiver_channel (Drain_ r).2 = receiver_channel r;
  Drain_drains r : receiver_drained (Drain_ r).2 = true;
  Start_refused ch r : receiver_drained r = true -> is_Some (Start_ ch r).1;
  drained_kept r :
    receiver_drained r = true ->
    receiver_drained (Stop_ r).2 = true /\
    forall ch, receiver_drained (DeclareTopology_ ch r).2 = true /\ receiver_drained (Start_ ch r).2 = true;
}.
#[global] Hint Mode SenderLink ! : typeclass_instances.
#[global] Hint Mode ReceiverLink ! : typeclass_instances.
