(* ===== verification/Client.v ===== *)
(** * The client: src/client/client.go, one goroutine at a time

    [NewClient], [AddSender], [AddReceiver], [Start], [setupChannels],
    [connect], [handleDisconnect], [watchConnAndReconnect], [Stop] and the two
    channel recoveries, as state-passing functions over the senders and
    receivers behind the interfaces of Links.v. The library's answers
    (dialling, opening a channel, a notification) and what other goroutines do
    between two lock regions -- cancelling the life context, draining -- are
    oracles that see everything that has happened so far ([Env]). *)

From stdpp Require Import pretty.
From S2P Require Import Prelude GoLib Config Metrics Links.

(** ** Data *)

(** The part of [amqp.Config] the client fills in. *)
Record AmqpConfig := {
  aHeartbeat : Z;
  aTLSClientConfig : bool;
  aSASL : option (string * string);
  aDial : option Z;
}.

(** What the client does to the outside, oldest first. [CPoll] marks a look at
    the life context or at [drained], so that the oracles can change their
    answer between two looks. *)
Inductive CEvent :=
| CDial (url : string) (c : AmqpConfig)
| CChannel (conn : nat) (opened : option nat)
| CCloseChannel (ch : nat)
| CCloseConn (conn : nat)
| CNotifyClose (conn : nat)
| CNotifyCloseCh (ch : nat)
| CMetric (p : Point)
| CLog (msg : string)
| CLogBroker (msg broker : string)
| COnConnect
| COnDisconnect
| CBackoff (attempt delay : Z)
| CCancelLife
| CGo (goroutine : string) (index : nat) (ch : nat)
| CPoll.

(** The client, the senders and receivers it manages, and the connections and
    channels of the process. *)
Record CState (S R : Type) := {
  senders : list S;
  receivers : list R;
  started : bool;
  stopping : bool;
  drained : bool;
  connected : bool;
  conn : option nat;
  senderChs : list nat;
  receiverChs : list nat;
  openConns : gset nat;
  openChs : gset nat;
  nextId : nat;
  clog : list CEvent;
}.
Arguments senders {S R}. Arguments receivers {S R}. Arguments started {S R}. Arguments stopping {S R}.
Arguments drained {S R}. Arguments connected {S R}. Arguments conn {S R}. Arguments senderChs {S R}.
Arguments receiverChs {S R}. Arguments openConns {S R}. Arguments openChs {S R}. Arguments nextId {S R}.
Arguments clog {S R}.

Section setters.
Context {S R : Type}.
Implicit Types s : CState S R.
#[export] Instance set_senders : RecSet (@senders S R) := {| rec_set := fun v s =>
  Build_CState _ _ v (receivers s) (started s) (stopping s) (drained s) (connected s) (conn s)
    (senderChs s) (receiverChs s) (openConns s) (openChs s) (nextId s) (clog s) |}.
#[export] Instance set_receivers : RecSet (@receivers S R) := {| rec_set := fun v s =>
  Build_CState _ _ (senders s) v (started s) (stopping s) (drained s) (connected s) (conn s)
    (senderChs s) (receiverChs s) (openConns s) (openChs s) (nextId s) (clog s) |}.
#[export] Instance set_started : RecSet (@started S R) := {| rec_set := fun v s =>
  Build_CState _ _ (senders s) (receivers s) v (stopping s) (drained s) (connected s) (conn s)
    (senderChs s) (receiverChs s) (openConns s) (openChs s) (nextId s) (clog s) |}.
#[export] Instance set_stopping : RecSet (@stopping S R) := {| rec_set := fun v s =>
  Build_CState _ _ (senders s) (receivers s) (started s) v (drained s) (connected s) (conn s)
    (senderChs s) (receiverChs s) (openConns s) (openChs s) (nextId s) (clog s) |}.
#[export] Instance set_drained : RecSet (@drained S R) := {| rec_set := fun v s =>
  Build_CState _ _ (senders s) (receivers s) (started s) (stopping s) v (connected s) (conn s)
    (senderChs s) (receiverChs s) (openConns s) (openChs s) (nextId s) (clog s) |}.
#[export] Instance set_connected : RecSet (@connected S R) := {| rec_set := fun v s =>
  Build_CState _ _ (senders s) (receivers s) (started s) (stopping s) (drained s) v (conn s)
    (senderChs s) (receiverChs s) (openConns s) (openChs s) (nextId s) (clog s) |}.
#[export] Instance set_conn : RecSet (@conn S R) := {| rec_set := fun v s =>
  Build_CState _ _ (senders s) (receivers s) (started s) (stopping s) (drained s) (connected s) v
    (senderChs s) (receiverChs s) (openConns s) (openChs s) (nextId s) (clog s) |}.
#[export] Instance set_senderChs : RecSet (@senderChs S R) := {| rec_set := fun v s =>
  Build_CState _ _ (senders s) (receivers s) (started s) (stopping s) (drained s) (connected s) (conn s)
    v (receiverChs s) (openConns s) (openChs s) (nextId s) (clog s) |}.
#[export] Instance set_receiverChs : RecSet (@receiverChs S R) := {| rec_set := fun v s =>
  Build_CState _ _ (senders s) (receivers s) (started s) (stopping s) (drained s) (connected s) (conn s)
    (senderChs s) v (openConns s) (openChs s) (nextId s) (clog s) |}.
#[export] Instance set_openConns : RecSet (@openConns S R) := {| rec_set := fun v s =>
  Build_CState _ _ (senders s) (receivers s) (started s) (stopping s) (drained s) (connected s) (conn s)
    (senderChs s) (receiverChs s) v (openChs s) (nextId s) (clog s) |}.
#[export] Instance set_openChs : RecSet (@openChs S R) := {| rec_set := fun v s =>
  Build_CState _ _ (senders s) (receivers s) (started s) (stopping s) (drained s) (connected s) (conn s)
    (senderChs s) (receiverChs s) (openConns s) v (nextId s) (clog s) |}.
#[export] Instance set_nextId : RecSet (@nextId S R) := {| rec_set := fun v s =>
  Build_CState _ _ (senders s) (receivers s) (started s) (stopping s) (drained s) (connected s) (conn s)
    (senderChs s) (receiverChs s) (openConns s) (openChs s) v (clog s) |}.
#[export] Instance set_clog : RecSet (@clog S R) := {| rec_set := fun v s =>
  Build_CState _ _ (senders s) (receivers s) (started s) (stopping s) (drained s) (connected s) (conn s)
    (senderChs s) (receiverChs s) (openConns s) (openChs s) (nextId s) v |}.
End setters.

(** The library and the other goroutines. [envDial] is the whole of
    [amqp.DialConfig]; [envClosed] is the close notification the supervisor
    waits for: the context cancelled, the channel closed, or an error. *)
Inductive Notified := NDone | NClosed | NError (e : error).

Record Env := {
  envDial : list CEvent -> string -> option error;
  envChannel : list CEvent -> option error;
  envCloseConn : list CEvent -> option error;
  envDone : list CEvent -> bool;
  envDrained : list CEvent -> bool;
  envClosed : list CEvent -> Notified;
  envParseURI : string -> option (string * string * string * Z);
}.

(** ** The code *)

Definition fmt_open_sender : string := "rabbitmq client %q: open channel for sender %d: %w".
Definition fmt_open_receiver : string := "rabbitmq client %q: open channel for receiver %q: %w".
Definition fmt_topology : string := "rabbitmq client %q: %w".
Definition fmt_start_receiver : string := "rabbitmq client %q: start receiver %q: %w".
Definition errDrained_text : string := "client drained; not recovering the receiver channel".
Definition errDrained : error := New errDrained_text.

(** How [connect] ends; [NoFuel] is the bound of this model, not an outcome. *)
Inductive ConnResult := Connected (k : nat) | GaveUp | NoFuel.

Section client.
Context {S R : Type} `{!SenderLink S, !ReceiverLink R} (cfg : Config) (env : Env).
Abbreviation C := (M (CState S R)).

Definition emit (e : CEvent) : C unit := modify (fun s => s <| clog := clog s ++ [e] |>).
Definition record_points (ps : list Point) : C unit :=
  modify (fun s => s <| clog := clog s ++ map CMetric ps |>).

(** [NewClientMetrics] with the meter [NewClient] takes from the provider. *)
Definition metrics : option Metrics.Client.ClientMetrics :=
  Metrics.Client.NewClientMetrics (ClientName cfg) (MeterProvider cfg).

Definition NewClient : CState S R :=
  {| senders := []; receivers := []; started := false; stopping := false; drained := false;
     connected := false; conn := None; senderChs := []; receiverChs := []; openConns := ∅; openChs := ∅;
     nextId := 0; clog := [] |}.

(** A panic is [inr]. *)
Definition AddSender (x : S) : C (unit + string) :=
  b ← gets started;
  if b : bool then mret (inr "rabbitmq client: AddSender after Start")
  else modify (fun s => s <| senders := senders s ++ [x] |>) ;; mret (inl tt).

Definition AddReceiver (x : R) : C (unit + string) :=
  b ← gets started;
  if b : bool then mret (inr "rabbitmq client: AddReceiver after Start")
  else modify (fun s => s <| receivers := receivers s ++ [x] |>) ;; mret (inl tt).

Definition IsConnected : C bool := gets connected.

Definition Start : C (option error) :=
  if decide (Brokers cfg = []) then mret (Some (New "rabbitmq client: no brokers configured"))
  else
    b ← gets started;
    if b : bool then mret (Some (New "rabbitmq client: already started"))
    else modify (fun s => s <| started := true |>) ;; emit (CGo "connectAndWatch" 0 0) ;; mret None.

(** [ctx.Err() != nil], [isDrained]. *)
Definition ctxErr : C bool := emit CPoll ;; gets (fun s => envDone env (clog s)).
Definition isDrained : C bool :=
  emit CPoll ;; modify (fun s => s <| drained := drained s || envDrained env (clog s) |>) ;; gets drained.

(** The library: open and close channels and connections. *)
Definition conn_Channel (k : nat) : C (nat + error) :=
  r ← gets (fun s => envChannel env (clog s));
  match r with
  | Some e => emit (CChannel k None) ;; mret (inr e)
  | None =>
      n ← gets nextId;
      modify (fun s => s <| nextId := Datatypes.S n |> <| openChs := {[n]} ∪ openChs s |>) ;;
      emit (CChannel k (Some n)) ;; mret (inl n)
  end.

Definition ch_Close (c : nat) : C unit :=
  modify (fun s => s <| openChs := openChs s ∖ {[c]} |>) ;; emit (CCloseChannel c).

Definition conn_Close (k : nat) : C (option error) :=
  modify (fun s => s <| openConns := openConns s ∖ {[k]} |>) ;; emit (CCloseConn k) ;;
  gets (fun s => envCloseConn env (clog s)).

(** Methods of the managed senders and receivers. *)
Definition sender_SetChannel (i : nat) (c : option nat) : C unit :=
  modify (fun s => s <| senders := alter (SetChannel c) i (senders s) |>).
Definition senders_off : C unit := modify (fun s => s <| senders := SetChannel None <$> senders s |>).
Definition on_receiver (i : nat) (f : R -> option error * R) : C (option error) := fun s =>
  match receivers s !! i with
  | Some r => ((f r).1, s <| receivers := <[i := (f r).2]> (receivers s) |>)
  | None => (None, s)
  end.
Definition receivers_Stop : C (list (option error)) := fun s =>
  ((fun r => (Stop_ r).1) <$> receivers s, s <| receivers := (fun r => (Stop_ r).2) <$> receivers s |>).
Definition receiver_queue (i : nat) : C string :=
  gets (fun s => match receivers s !! i with Some r => Queue r | None => "" end).

(** ** setupChannels *)

Definition cleanup (sChs rChs : list nat) : C unit :=
  _ ← receivers_Stop;
  senders_off ;;
  for_each rChs ch_Close ;;
  for_each sChs ch_Close.

Definition failed (sChs rChs : list nat) (e : error) : C (list nat + error) :=
  cleanup sChs rChs ;; mret (inr e).

(** The loop over the senders, from sender [i] with [n] to go. *)
Fixpoint setup_senders (k i n : nat) (sChs : list nat) : C (list nat + error) :=
  match n with
  | 0 => mret (inl sChs)
  | Datatypes.S n' =>
      r ← conn_Channel k;
      match r with
      | inr e => failed sChs [] (Errorfw fmt_open_sender [ClientName cfg; pretty i] e)
      | inl ch => sender_SetChannel i (Some ch) ;; setup_senders k (Datatypes.S i) n' (sChs ++ [ch])
      end
  end.

(** The loop over the receivers. *)
Fixpoint setup_receivers (k i n : nat) (sChs rChs : list nat) : C (list nat + error) :=
  match n with
  | 0 => mret (inl rChs)
  | Datatypes.S n' =>
      q ← receiver_queue i;
      r ← conn_Channel k;
      match r with
      | inr e => failed sChs rChs (Errorfw fmt_open_receiver [ClientName cfg; q] e)
      | inl ch =>
          topoErr ← on_receiver i (DeclareTopology_ ch);
          match topoErr with
          | Some e => ch_Close ch ;; failed sChs rChs (Errorfw fmt_topology [ClientName cfg] e)
          | None =>
              d ← isDrained;
              startErr ← (if d : bool then
                            emit (CLog "rabbitmq client: connected while draining; not consuming") ;; mret None
                          else on_receiver i (Start_ ch));
              match startErr with
              | Some e => ch_Close ch ;; failed sChs rChs (Errorfw fmt_start_receiver [ClientName cfg; q] e)
              | None => setup_receivers k (Datatypes.S i) n' sChs (rChs ++ [ch])
              end
          end
      end
  end.

(** [go c.watch...(ctx, i, ch)] for each channel. *)
Fixpoint go_all (goroutine : string) (i : nat) (chs : list nat) : C unit :=
  match chs with
  | [] => mret tt
  | ch :: chs' => emit (CGo goroutine i ch) ;; go_all goroutine (Datatypes.S i) chs'
  end.

Definition setupChannels (k : nat) : C (option error) :=
  n ← gets (fun s => length (senders s));
  rs ← setup_senders k 0 n [];
  match rs with
  | inr e => mret (Some e)
  | inl sChs =>
      m ← gets (fun s => length (receivers s));
      rr ← setup_receivers k 0 m sChs [];
      match rr with
      | inr e => mret (Some e)
      | inl rChs =>
          modify (fun s => s <| senderChs := sChs |> <| receiverChs := rChs |>) ;;
          go_all "watchSenderChannel" 0 sChs ;;
          go_all "watchReceiverChannel" 0 rChs ;;
          mret None
      end
  end.

(** ** connect *)

Definition amqp_config : AmqpConfig :=
  {| aHeartbeat := Heartbeat cfg; aTLSClientConfig := TLSClientConfig cfg;
     aSASL := if bool_decide (Username cfg <> "") || bool_decide (Password cfg <> "")
              then Some (Username cfg, Password cfg) else None;
     aDial := if (0 <? ConnectionTimeout cfg)%Z then Some (ConnectionTimeout cfg) else None |}.

Definition dialOne (url : string) : C (nat + error) :=
  emit (CDial url amqp_config) ;;
  r ← gets (fun s => envDial env (clog s) url);
  match r with
  | Some e => mret (inr e)
  | None =>
      n ← gets nextId;
      modify (fun s => s <| nextId := Datatypes.S n |> <| openConns := {[n]} ∪ openConns s |>) ;;
      mret (inl n)
  end.

(** Scheme, host, virtual host and port of a URL the library parses; any
    other URL as it is. *)
Definition redactURL (raw : string) : string :=
  match envParseURI env raw with
  | None => raw
  | Some (scheme, host, vhost, port) =>
      scheme +:+ "://" +:+ host +:+ ":" +:+ pretty port +:+ "/" +:+
      (if bool_decide (vhost = "/") || bool_decide (vhost = "") then "" else vhost)
  end.

(** A connection with its channels: from [c.mu.Lock()] to [return conn, true]. *)
Definition established (initial : bool) (url : string) (k : nat) : C unit :=
  modify (fun s => s <| conn := Some k |> <| connected := true |>) ;;
  record_points (Metrics.Client.SetConnected metrics true) ;;
  when (negb initial) (record_points (Metrics.Client.IncrReconnections metrics)) ;;
  emit (CLogBroker (if initial then "rabbitmq client: connected" else "rabbitmq client: reconnected")
          (redactURL url)) ;;
  when (OnConnect cfg) (emit COnConnect).

(** One walk of the brokers list; [None] when every broker failed. *)
Fixpoint walk (initial : bool) (urls : list string) : C (option ConnResult) :=
  match urls with
  | [] => mret None
  | url :: urls' =>
      done ← ctxErr;
      if done : bool then mret (Some GaveUp)
      else
        r ← dialOne url;
        match r with
        | inr _ => emit (CLogBroker "rabbitmq client: dial failed" (redactURL url)) ;; walk initial urls'
        | inl k =>
            setupErr ← setupChannels k;
            match setupErr with
            | Some _ =>
                emit (CLog "rabbitmq client: setup channels failed") ;;
                _ ← conn_Close k;
                walk initial urls'
            | None => established initial url k ;; mret (Some (Connected k))
            end
        end
  end.

Definition backoff : Z -> Z :=
  match ReconnectBackoff cfg with Some f => f | None => DefaultReconnectBackoff end.

(** The attempt limit, for a repair only. *)
Definition out_of_attempts (initial : bool) (attempt : Z) : bool :=
  negb initial && (0 <? MaxReconnectAttempts cfg)%Z && (MaxReconnectAttempts cfg <=? attempt)%Z.

Fixpoint connect (fuel : nat) (initial : bool) (attempt : Z) : C ConnResult :=
  match fuel with
  | 0 => mret NoFuel
  | Datatypes.S fuel' =>
      done ← ctxErr;
      if done : bool then mret GaveUp
      else if out_of_attempts initial attempt then
        emit (CLog "rabbitmq client: giving up reconnection attempts") ;; mret GaveUp
      else
        r ← walk initial (Brokers cfg);
        match r with
        | Some res => mret res
        | None =>
            emit (CBackoff attempt (backoff attempt)) ;;
            done ← ctxErr;
            if done : bool then mret GaveUp else connect fuel' initial (attempt + 1)%Z
        end
  end.

(** ** Losing and repairing a connection *)

Definition handleDisconnect : C unit :=
  wasConnected ← gets connected;
  modify (fun s => s <| connected := false |>) ;;
  _ ← receivers_Stop;
  senders_off ;;
  when wasConnected
    (record_points (Metrics.Client.SetConnected metrics false) ;;
     when (OnDisconnect cfg) (emit COnDisconnect)).

(** [fuel] bounds the repairs, [cfuel] the attempts of each; the result says
    whether a bound was met. *)
Fixpoint watchConnAndReconnect (fuel cfuel : nat) (k : nat) : C bool :=
  match fuel with
  | 0 => mret false
  | Datatypes.S fuel' =>
      emit (CNotifyClose k) ;;
      n ← gets (fun s => envClosed env (clog s));
      match n with
      | NDone => mret true
      | _ =>
          done ← ctxErr;
          if done : bool then mret true
          else
            match n with
            | NError _ =>
                emit (CLog "rabbitmq client: connection closed; reconnecting") ;;
                handleDisconnect ;;
                r ← connect cfuel false 0;
                match r with
                | Connected k' => watchConnAndReconnect fuel' cfuel k'
                | GaveUp => mret true
                | NoFuel => mret false
                end
            | _ => mret true
            end
      end
  end.

Definition connectAndWatch (fuel cfuel : nat) : C bool :=
  r ← connect cfuel true 0;
  match r with
  | Connected k => watchConnAndReconnect fuel cfuel k
  | GaveUp => mret true
  | NoFuel => mret false
  end.

(** ** Stop and Drain *)

(** Stop, once the supervisor has exited. *)
Definition Stop_tail : C (option error) :=
  stopErrs ← receivers_Stop;
  wasConnected ← gets connected;
  modify (fun s => s <| connected := false |>) ;;
  when wasConnected
    (record_points (Metrics.Client.SetConnected metrics false) ;;
     when (OnDisconnect cfg) (emit COnDisconnect)) ;;
  senders_off ;;
  k ← gets conn;
  sChs ← gets senderChs;
  rChs ← gets receiverChs;
  modify (fun s => s <| conn := None |> <| senderChs := [] |> <| receiverChs := [] |>) ;;
  for_each rChs ch_Close ;;
  for_each sChs ch_Close ;;
  match k with
  | Some k => err ← conn_Close k; mret (errors_Join (stopErrs ++ [err]))
  | None => mret (errors_Join stopErrs)
  end.

(** [supervisor] is what the connection's goroutine still does between the
    cancellation and its exit, which Stop waits for. *)
Definition Stop (supervisor : C unit) : C (option error) :=
  modify (fun s => s <| drained := true |>) ;;
  b ← gets (fun s => stopping s || negb (started s));
  if b : bool then modify (fun s => s <| stopping := true |>) ;; mret None
  else
    modify (fun s => s <| stopping := true |>) ;;
    emit CCancelLife ;;
    supervisor ;;
    Stop_tail.

(** The receivers drain at once, each on its own goroutine. *)
Definition receivers_Drain : C (list (option error)) := fun s =>
  ((fun r => (Drain_ r).1) <$> receivers s, s <| receivers := (fun r => (Drain_ r).2) <$> receivers s |>).

Definition Drain : C (option error) :=
  modify (fun s => s <| drained := true |>) ;;
  errs ← receivers_Drain;
  mret (errors_Join errs).

(** ** Channel-level recovery *)

Definition not_established : error := New "connection is not currently established".
Definition changed : error := New "connection changed during recovery".

(** [others] is what other goroutines do between the two lock regions. *)
Definition recoverSenderChannel (others : C unit) (idx : nat) : C (nat + error) :=
  k ← gets conn;
  up ← gets connected;
  n ← gets (fun s => length (senders s));
  match k with
  | Some k =>
      if negb up then mret (inr not_established)
      else if n <=? idx then mret (inr (Errorf "sender index %d out of range" [pretty idx]))
      else
        r ← conn_Channel k;
        match r with
        | inr e => mret (inr (Errorfw "open new sender channel: %w" [] e))
        | inl ch =>
            sender_SetChannel idx (Some ch) ;;
            others ;;
            same ← gets (fun s => bool_decide (conn s = Some k) && connected s);
            if same : bool then
              modify (fun s => s <| senderChs := <[idx := ch]> (senderChs s) |>) ;; mret (inl ch)
            else sender_SetChannel idx None ;; ch_Close ch ;; mret (inr changed)
        end
  | None => mret (inr not_established)
  end.

Definition recoverReceiverChannel (others : C unit) (idx : nat) : C (nat + error) :=
  k ← gets conn;
  up ← gets connected;
  was_drained ← gets drained;
  n ← gets (fun s => length (receivers s));
  match k with
  | Some k =>
      if negb up then mret (inr not_established)
      else if n <=? idx then mret (inr (Errorf "receiver index %d out of range" [pretty idx]))
      else if was_drained : bool then _ ← on_receiver idx Stop_; mret (inr errDrained)
      else
        _ ← on_receiver idx Stop_;
        r ← conn_Channel k;
        match r with
        | inr e => mret (inr (Errorfw "open new receiver channel: %w" [] e))
        | inl ch =>
            topoErr ← on_receiver idx (DeclareTopology_ ch);
            match topoErr with
            | Some e => ch_Close ch ;; mret (inr (Errorfw "redeclare topology: %w" [] e))
            | None =>
                d ← isDrained;
                if d : bool then ch_Close ch ;; mret (inr errDrained)
                else
                  startErr ← on_receiver idx (Start_ ch);
                  match startErr with
                  | Some e => ch_Close ch ;; mret (inr (Errorfw "restart receiver: %w" [] e))
                  | None =>
                      others ;;
                      same ← gets (fun s => bool_decide (conn s = Some k) && connected s);
                      if same : bool then
                        modify (fun s => s <| receiverChs := <[idx := ch]> (receiverChs s) |>) ;; mret (inl ch)
                      else _ ← on_receiver idx Stop_; ch_Close ch ;; mret (inr changed)
                  end
            end
        end
  | None => mret (inr not_established)
  end.
End client.

(** [isConnectionLevel], on an [*amqp.Error] by its [Recover] flag. *)
Definition isConnectionLevel (recover : option bool) : bool :=
  match recover with None => true | Some r => negb r end.

(** What a channel's watcher meets. *)
Inductive ChannelClosed := WDone | WClosed | WError (recover : bool).

Section watchers.
Context {S R : Type} `{!SenderLink S, !ReceiverLink R} (cfg : Config) (env : Env).
Context (closed : list CEvent -> ChannelClosed).
Abbreviation C := (M (CState S R)).

(** One watcher: [who] it serves, [recover] the recovery it runs, and
    [declined] the errors it reports as a refusal rather than a failure; each
    iteration waits on the newest channel. *)
Fixpoint watchChannel (who : string) (recover : nat -> C (nat + error)) (declined : error -> bool)
    (fuel idx ch : nat) : C bool :=
  let say what := emit (CLog ("rabbitmq client: " +:+ who +:+ " channel " +:+ what)) in
  match fuel with
  | 0 => mret false
  | Datatypes.S fuel' =>
      emit (CNotifyCloseCh ch) ;;
      n ← gets (fun s => closed (clog s));
      match n with
      | WDone => mret true
      | _ =>
          done ← ctxErr env;
          if done : bool then mret true
          else
            match n with
            | WError rec =>
                if isConnectionLevel (Some rec) then
                  say "closed (connection-level); deferring to reconnect" ;;
                  mret true
                else
                  say "closed; attempting recovery" ;;
                  r ← recover idx;
                  match r with
                  | inr e =>
                      say (if declined e then "closed after the drain; not recovering it"
                           else "recovery failed; deferring to reconnect") ;;
                      mret true
                  | inl newCh =>
                      record_points (Metrics.Client.IncrChannelReopens (metrics cfg)) ;;
                      say "recovered" ;;
                      watchChannel who recover declined fuel' idx newCh
                  end
            | _ => mret true
            end
      end
  end.

Definition watchSenderChannel (others : C unit) : nat -> nat -> nat -> C bool :=
  watchChannel "sender" (recoverSenderChannel env others) (fun _ => false).

Definition watchReceiverChannel (others : C unit) : nat -> nat -> nat -> C bool :=
  watchChannel "receiver" (recoverReceiverChannel env others) (fun e => errors_Is e errDrained_text).
End watchers.
