(* ===== verification/ClientSetup.v ===== *)
(** * Opening the channels: [setupChannels] of src/client/client.go

    All or nothing: on success every sender and every receiver has a channel
    of its own; on any failure every channel opened on the way is closed
    again, every sender is disconnected and every receiver stopped. *)

From S2P Require Import Prelude GoLib Config Metrics Links Client.

(** ** Predicates on the client *)

Section predicates.
Context {S R : Type} `{!SenderLink S, !ReceiverLink R}.
Implicit Types s : CState S R.

Definition senders_are_off s : Prop := Forall (fun x => sender_channel x = None) (senders s).
Definition receivers_are_idle s : Prop := Forall (fun r => receiver_channel r = None) (receivers s).

(** Channel numbers not yet given out are not open. *)
Definition ids_ok s : Prop := forall c, c ∈ openChs s -> c < nextId s.

(** The fields opening channels does not touch. *)
Definition static s : bool * bool * bool * option nat * gset nat * list nat * list nat :=
  (started s, stopping s, connected s, conn s, openConns s, senderChs s, receiverChs s).

(** Events that are no dial, no notification and no closing of a connection. *)
Definition quiet (e : CEvent) : Prop :=
  match e with CDial _ _ | COnConnect | COnDisconnect | CCloseConn _ => False | _ => True end.

(** [s'] extends [s] by quiet events and gives out no number twice. *)
Record extends s s' : Prop := {
  ex_log : exists l, clog s' = clog s ++ l /\ Forall quiet l;
  ex_static : static s' = static s;
  ex_next : nextId s <= nextId s';
  ex_senders : length (senders s') = length (senders s);
  ex_receivers : length (receivers s') = length (receivers s);
  ex_drained : drained s = true -> drained s' = true;
}.

(** Half-way through [setupChannels] begun in [s0]: the channels opened so
    far and who holds them. *)
Record opening (sChs rChs : list nat) (s0 s : CState S R) : Prop := {
  op_extends : extends s0 s;
  op_open : openChs s = openChs s0 ∪ list_to_set (sChs ++ rChs);
  op_new : forall c, c ∈ sChs ++ rChs -> c ∉ openChs s0;
  op_ids : ids_ok s;
  op_senders : forall i c, sChs !! i = Some c -> exists x, senders s !! i = Some x /\
                 (sender_channel x = Some c \/ sender_channel x = None);
  op_receivers : forall i c, rChs !! i = Some c -> exists r, receivers s !! i = Some r /\
                 (receiver_channel r = Some c \/ drained s = true);
}.

(** Everything undone. *)
Record undone s0 s : Prop := {
  un_extends : extends s0 s;
  un_open : openChs s = openChs s0;
  un_senders : senders_are_off s;
  un_receivers : receivers_are_idle s;
  un_ids : ids_ok s;
}.

Lemma extends_refl s : extends s s.
Proof. split; auto. exists []. by rewrite app_nil_r. Qed.

Lemma extends_trans s1 s2 s3 : extends s1 s2 -> extends s2 s3 -> extends s1 s3.
Proof.
  intros [(l1 & H1 & Hq1) ? ? ? ? ?] [(l2 & H2 & Hq2) ? ? ? ? ?]. split; try congruence; try lia; auto.
  exists (l1 ++ l2). rewrite H2, H1, app_assoc. split; [done|]. by apply Forall_app.
Qed.

(** One quiet event; one change of a field the frame leaves out. *)
Lemma extends_emit s e : quiet e -> extends s (s <| clog := clog s ++ [e] |>).
Proof. intros He. split; auto. exists [e]. repeat constructor; auto. Qed.
End predicates.
#[export] Hint Resolve extends_refl : rmq.

Section setup.
Context {S R : Type} `{!SenderLink S, !ReceiverLink R} (cfg : Config) (env : Env).
Implicit Types s : CState S R.

(** ** Undoing *)

Lemma close_all_run chs s :
  for_each chs ch_Close s =
  (tt, s <| openChs := openChs s ∖ list_to_set chs |> <| clog := clog s ++ map CCloseChannel chs |>).
Proof.
  revert s. induction chs as [|c chs IH]; intros s; simpl.
  - unfold mret, M_ret, rec_set. simpl. rewrite app_nil_r, difference_empty_L. by destruct s.
  - rewrite M_bind_run. unfold ch_Close at 1. rewrite M_bind_run. unfold modify at 1, emit, modify.
    rewrite IH. unfold rec_set. simpl. rewrite <- app_assoc, difference_difference_l_L. done.
Qed.

Lemma quiet_closes chs : Forall quiet (map CCloseChannel chs).
Proof. induction chs; by constructor. Qed.

Lemma undone_cleanup sChs rChs s0 s :
  opening sChs rChs s0 s -> undone s0 (cleanup sChs rChs s).2.
Proof.
  intros [He Ho Hn Hi _ _]. unfold cleanup. rewrite M_bind_run. unfold receivers_Stop.
  rewrite M_bind_run. unfold senders_off, modify. rewrite M_bind_run, close_all_run, close_all_run.
  unfold rec_set. simpl. destruct He as [(l & Hl & Hq) Hs Hx Hse Hre Hd].
  split; unfold senders_are_off, receivers_are_idle, ids_ok; simpl.
  - split; simpl; rewrite ?length_fmap; auto.
    exists (l ++ map CCloseChannel rChs ++ map CCloseChannel sChs). rewrite Hl, <- !app_assoc.
    split; [done|]. apply Forall_app. split; [done|]. apply Forall_app. split; apply quiet_closes.
  - rewrite Ho, list_to_set_app_L. apply set_eq. intros c. specialize (Hn c).
    rewrite elem_of_app in Hn. rewrite !elem_of_difference, elem_of_union, elem_of_union, !elem_of_list_to_set.
    naive_solver.
  - apply Forall_fmap, Forall_true. intros x. apply SetChannel_nil.
  - apply Forall_fmap, Forall_true. intros r. apply Stop_idle.
  - intros c Hc. apply Hi. set_solver.
Qed.

Lemma failed_run sChs rChs e s : failed sChs rChs e s = (inr e, (cleanup sChs rChs s).2).
Proof. unfold failed. rewrite M_bind_run. by destruct (cleanup sChs rChs s) as [[] ?]. Qed.

(** ** Opening one channel *)

Lemma conn_Channel_run k s :
  conn_Channel env k s =
  match envChannel env (clog s) with
  | Some e => (inr e, s <| clog := clog s ++ [CChannel k None] |>)
  | None => (inl (nextId s),
      s <| nextId := Datatypes.S (nextId s) |> <| openChs := {[nextId s]} ∪ openChs s |>
        <| clog := clog s ++ [CChannel k (Some (nextId s))] |>)
  end.
Proof.
  unfold conn_Channel. rewrite M_bind_run. unfold gets at 1.
  destruct (envChannel env (clog s)); [done|]. rewrite M_bind_run. unfold gets.
  rewrite M_bind_run. done.
Qed.

Lemma isDrained_run s :
  isDrained env s =
  let l := clog s ++ [CPoll] in
  let d := drained s || envDrained env l in
  (d, s <| clog := l |> <| drained := d |>).
Proof. done. Qed.

(** A failed open, and a channel opened and closed again, change nothing. *)
Lemma opening_emit sChs rChs s0 s e :
  quiet e -> opening sChs rChs s0 s -> opening sChs rChs s0 (s <| clog := clog s ++ [e] |>).
Proof.
  intros He [Hx Ho Hn Hi Hse Hre]. split; auto.
  eapply extends_trans; [exact Hx|]. by apply extends_emit.
Qed.

(** The state with one channel more than [opening] accounts for. *)
Definition pending_channel (sChs rChs : list nat) (s0 s : CState S R) (c : nat) : Prop :=
  exists s1, opening sChs rChs s0 s1 /\ extends s1 s /\ openChs s = {[c]} ∪ openChs s1 /\
    c = nextId s1 /\ nextId s1 < nextId s /\ senders s = senders s1 /\ 
    (forall i, i < length rChs -> receivers s !! i = receivers s1 !! i).

Lemma pending_close sChs rChs s0 s c e :
  pending_channel sChs rChs s0 s c -> undone s0 (failed sChs rChs e (ch_Close c s).2).2.
Proof.
  intros (s1 & Hop & He & Hc & -> & Hlt & Hse & Hr). rewrite failed_run. apply undone_cleanup.
  destruct Hop as [Hx Ho Hn Hi Hs Hrc]. unfold ch_Close. rewrite M_bind_run. unfold emit, modify, rec_set. simpl.
  assert (openChs s ∖ {[nextId s1]} = openChs s1) as Heq.
  { rewrite Hc. apply set_eq. intros c. rewrite elem_of_difference, elem_of_union, elem_of_singleton.
    split; [tauto|]. intros Hin. split; [by right|]. intros ->. apply Hi in Hin. lia. }
  rewrite Heq. split; simpl; auto.
  - eapply extends_trans; [exact Hx|]. eapply extends_trans; [exact He|].
    split; simpl; auto. exists [CCloseChannel (nextId s1)]. split; [done|by repeat constructor].
  - intros c Hin%Hi. simpl. lia.
  - intros i c Hi'. rewrite Hse. by apply Hs.
  - intros i c Hi'. rewrite Hr by (by eapply lookup_lt_Some). destruct (Hrc _ _ Hi') as (r & ? & [?|?]); [eauto|].
    exists r. split; [done|]. right. by apply He.
Qed.

(** ** The two loops *)

Lemma extends_static s s' :
  clog s' = clog s -> static s' = static s -> nextId s' = nextId s ->
  length (senders s') = length (senders s) -> length (receivers s') = length (receivers s) ->
  (drained s = true -> drained s' = true) -> extends s s'.
Proof. intros Hl **. split; auto; [|lia]. exists []. by rewrite app_nil_r. Qed.

(** Sender [i] takes the channel just opened. *)
Lemma opening_sender k sChs s0 s :
  opening sChs [] s0 s -> length sChs < length (senders s) ->
  let s1 := s <| nextId := Datatypes.S (nextId s) |> <| openChs := {[nextId s]} ∪ openChs s |>
              <| clog := clog s ++ [CChannel k (Some (nextId s))] |> in
  opening (sChs ++ [nextId s]) [] s0 (sender_SetChannel (length sChs) (Some (nextId s)) s1).2.
Proof.
  intros [Hx Ho Hn Hi Hse _] Hlen s1. unfold sender_SetChannel, modify, rec_set. simpl.
  destruct Hx as [(l & Hl & Hq) Hst Hnx Hls Hlr Hd]. split; simpl; auto.
  - split; simpl; rewrite ?length_alter; auto.
    exists (l ++ [CChannel k (Some (nextId s))]). rewrite Hl, app_assoc. split; [done|].
    apply Forall_app. repeat constructor; auto.
  - rewrite Ho, app_nil_r, app_nil_r, list_to_set_app_L. set_solver.
  - intros c. rewrite app_nil_r in *. intros [Hc|Hc]%elem_of_app; [by apply Hn|].
    apply list_elem_of_singleton in Hc as ->. intros Hin.
    assert (nextId s ∈ openChs s) as Hin' by (rewrite Ho; set_solver). apply Hi in Hin'. lia.
  - intros c. simpl. intros [->%elem_of_singleton|Hc%Hi]%elem_of_union; lia.
  - intros i c Hic. rewrite list_lookup_alter. destruct (decide (length sChs = i)) as [<-|Hne].
    + rewrite lookup_app_r, Nat.sub_diag in Hic by done. injection Hic as <-.
      destruct (lookup_lt_is_Some_2 _ _ Hlen) as [x Hx]. rewrite Hx. simpl.
      eexists. split; [done|]. apply SetChannel_some.
    + apply Hse. rewrite lookup_app_l in Hic; [done|].
      apply lookup_lt_Some in Hic. rewrite length_app in Hic. simpl in Hic. lia.
  - done.
Qed.

Lemma setup_senders_spec k n sChs s0 s :
  opening sChs [] s0 s -> length sChs + n = length (senders s) ->
  match setup_senders cfg env k (length sChs) n sChs s with
  | (inl sChs', s') => opening sChs' [] s0 s' /\ length sChs' = length (senders s')
  | (inr _, s') => undone s0 s'
  end.
Proof.
  revert sChs s. induction n as [|n IH]; intros sChs s Hop Hlen; cbn [setup_senders].
  - simpl. split; [done|lia].
  - rewrite M_bind_run, conn_Channel_run. destruct (envChannel env (clog s)) as [e|].
    + rewrite failed_run. by apply undone_cleanup, opening_emit.
    + rewrite M_bind_run. pose proof (opening_sender k sChs s0 s Hop ltac:(lia)) as Hop'. cbv zeta in Hop'.
      destruct (sender_SetChannel _ _ _) as [[] s'] eqn:Hs'. simpl in Hop'.
      specialize (IH _ _ Hop'). rewrite length_app, Nat.add_1_r in IH. apply IH.
      destruct Hop as [Hx _ _ _ _ _], Hop' as [Hx' _ _ _ _ _].
      rewrite (ex_senders _ _ Hx'), <- (ex_senders _ _ Hx). simpl. lia.
Qed.

(** One receiver's step leaves the others, the channels and the log's kind
    alone. *)
Lemma on_receiver_run i f s r :
  receivers s !! i = Some r ->
  on_receiver i f s = ((f r).1, s <| receivers := <[i := (f r).2]> (receivers s) |>).
Proof. intros Hr. unfold on_receiver. by rewrite Hr. Qed.

Lemma pending_open k sChs rChs s0 s :
  opening sChs rChs s0 s ->
  pending_channel sChs rChs s0
    (s <| nextId := Datatypes.S (nextId s) |> <| openChs := {[nextId s]} ∪ openChs s |>
       <| clog := clog s ++ [CChannel k (Some (nextId s))] |>) (nextId s).
Proof.
  intros Hop. exists s. unfold rec_set. simpl. split_and!; auto. split; simpl; auto.
  exists [CChannel k (Some (nextId s))]. repeat constructor; auto.
Qed.

Lemma pending_receiver sChs rChs s0 s c r :
  pending_channel sChs rChs s0 s c ->
  pending_channel sChs rChs s0 (s <| receivers := <[length rChs := r]> (receivers s) |>) c.
Proof.
  intros (s1 & Hop & He & Ho & Hc & Hn & Hs & Hr). exists s1. unfold rec_set. simpl.
  split_and!; auto.
  - eapply extends_trans; [exact He|]. apply extends_static; simpl; auto. by rewrite length_insert.
  - intros i Hi. rewrite list_lookup_insert_ne by lia. auto.
Qed.

Lemma pending_log sChs rChs s0 s c e (d : bool) :
  quiet e -> pending_channel sChs rChs s0 s c ->
  pending_channel sChs rChs s0 (s <| clog := clog s ++ [e] |> <| drained := drained s || d |>) c.
Proof.
  intros Hq (s1 & Hop & He & Ho & Hc & Hn & Hs & Hr). exists s1. unfold rec_set. simpl.
  split_and!; auto. eapply extends_trans; [exact He|]. split; simpl; auto.
  - exists [e]. by repeat constructor.
  - by intros ->.
Qed.

(** The pending channel becomes receiver [length rChs]'s. *)
Lemma pending_done sChs rChs s0 s c r :
  pending_channel sChs rChs s0 s c -> receivers s !! length rChs = Some r ->
  (receiver_channel r = Some c \/ drained s = true) -> opening sChs (rChs ++ [c]) s0 s.
Proof.
  intros (s1 & [Hx Ho Hn Hi Hse Hre] & He & Hc & -> & Hlt & Hs & Hr) Hrr Hd. split.
  - by eapply extends_trans.
  - rewrite Hc, Ho, !list_to_set_app_L. set_solver.
  - intros c. rewrite app_assoc. intros [?|Hin]%elem_of_app; [by apply Hn|].
    apply list_elem_of_singleton in Hin as ->. intros Hin.
    assert (nextId s1 ∈ openChs s1) as Hin' by (rewrite Ho; set_solver). apply Hi in Hin'. lia.
  - intros c. rewrite Hc. intros [->%elem_of_singleton|Hin%Hi]%elem_of_union; lia.
  - intros i c Hic. rewrite Hs. eauto.
  - intros i c Hic. destruct (decide (i = length rChs)) as [->|Hne].
    + rewrite lookup_app_r, Nat.sub_diag in Hic by done. injection Hic as <-. eauto.
    + rewrite lookup_app_l in Hic by (apply lookup_lt_Some in Hic; rewrite length_app in Hic; simpl in Hic; lia).
      rewrite Hr by (by eapply lookup_lt_Some).
      destruct (Hre _ _ Hic) as (x & ? & [?|?]); [eauto|]. exists x. split; [done|]. right. by apply He.
Qed.

(** Starting the receiver, or not when drained. *)
Lemma start_or_skip r c sChs rChs s0 s :
  pending_channel sChs rChs s0 s c -> receivers s !! length rChs = Some r ->
  exists s' e,
    (if drained s then
       emit (CLog "rabbitmq client: connected while draining; not consuming") ;; mret None
     else on_receiver (length rChs) (Start_ c)) s = (e, s') /\
    length (senders s') = length (senders s) /\
    match e with
    | Some _ => pending_channel sChs rChs s0 s' c
    | None => opening sChs (rChs ++ [c]) s0 s'
    end.
Proof.
  intros Hp Hr. destruct (drained s) eqn:Hd.
  - eexists _, None. split; [rewrite M_bind_run; reflexivity|]. split; [done|].
    apply (pending_log _ _ _ _ _ (CLog "rabbitmq client: connected while draining; not consuming") false) in Hp;
      [|done].
    assert (s <| clog := clog s ++ [CLog "rabbitmq client: connected while draining; not consuming"] |>
              <| drained := drained s || false |>
            = s <| clog := clog s ++ [CLog "rabbitmq client: connected while draining; not consuming"] |>) as Heq
      by (unfold rec_set; simpl; by rewrite orb_false_r).
    rewrite Heq in Hp. eapply pending_done; [exact Hp|exact Hr|by right].
  - rewrite (on_receiver_run _ _ _ r) by done. eexists _, _. split; [done|]. split; [done|].
    apply (pending_receiver _ _ _ _ _ (Start_ c r).2) in Hp.
    destruct (Start_ c r).1 as [e|] eqn:Hs; [done|].
    eapply pending_done; [exact Hp| |left; by apply Start_consumes].
    apply list_lookup_insert_eq. by eapply lookup_lt_Some.
Qed.

Lemma setup_receivers_spec k n sChs rChs s0 s :
  opening sChs rChs s0 s -> length rChs + n = length (receivers s) ->
  match setup_receivers cfg env k (length rChs) n sChs rChs s with
  | (inl rChs', s') => opening sChs rChs' s0 s' /\ length rChs' = length (receivers s') /\
                       length (senders s') = length (senders s)
  | (inr _, s') => undone s0 s'
  end.
Proof.
  revert rChs s. induction n as [|n IH]; intros rChs s Hop Hlen; cbn [setup_receivers].
  - simpl. split_and!; [done|lia|done].
  - destruct (lookup_lt_is_Some_2 (receivers s) (length rChs)) as [r Hr]; [lia|].
    rewrite M_bind_run. unfold receiver_queue, gets at 1. rewrite M_bind_run, conn_Channel_run.
    destruct (envChannel env (clog s)) as [e|].
    { rewrite failed_run. by apply undone_cleanup, opening_emit. }
    pose proof (pending_open k sChs rChs s0 s Hop) as Hp.
    set (c := nextId s) in *. set (s1 := s <| nextId := _ |> <| openChs := _ |> <| clog := _ |>) in *.
    assert (receivers s1 !! length rChs = Some r) as Hr1 by exact Hr.
    assert (length (senders s1) = length (senders s)) as Hls by done.
    clearbody s1. rewrite M_bind_run, (on_receiver_run _ _ _ r) by done.
    apply (pending_receiver _ _ _ _ _ (DeclareTopology_ c r).2) in Hp.
    set (s2 := s1 <| receivers := _ |>) in *.
    assert (receivers s2 !! length rChs = Some (DeclareTopology_ c r).2) as Hr2
      by (apply list_lookup_insert_eq; by eapply lookup_lt_Some).
    assert (length (senders s2) = length (senders s)) as Hls2 by done. clearbody s2.
    destruct (DeclareTopology_ c r).1 as [e|].
    { rewrite M_bind_run. destruct (ch_Close c s2) as [[] s2'] eqn:Hcl.
      rewrite failed_run. replace s2' with (ch_Close c s2).2 by by rewrite Hcl.
      pose proof (pending_close sChs rChs s0 s2 c e Hp) as Hu. by rewrite failed_run in Hu. }
    rewrite M_bind_run, isDrained_run. cbv beta iota zeta. rewrite M_bind_run.
    apply (pending_log _ _ _ _ _ CPoll (envDrained env (clog s2 ++ [CPoll]))) in Hp; [|done].
    set (s3 := s2 <| clog := _ |> <| drained := _ |>) in *.
    assert (receivers s3 !! length rChs = Some (DeclareTopology_ c r).2) as Hr3 by done.
    assert (length (senders s3) = length (senders s)) as Hls3 by done.
    change (drained s2 || envDrained env (clog s2 ++ [CPoll])) with (drained s3). clearbody s3.
    destruct (start_or_skip (DeclareTopology_ c r).2 c sChs rChs s0 s3 Hp Hr3) as (s4 & e & -> & Hl4 & Hcase).
    destruct e as [e|].
    + rewrite M_bind_run. destruct (ch_Close c s4) as [[] s4'] eqn:Hcl.
      rewrite failed_run. replace s4' with (ch_Close c s4).2 by by rewrite Hcl.
      pose proof (pending_close sChs rChs s0 s4 c e Hcase) as Hu. by rewrite failed_run in Hu.
    + specialize (IH (rChs ++ [c]) s4 Hcase). rewrite length_app, Nat.add_1_r in IH.
      rewrite <- Hls3, <- Hl4. apply IH.
      destruct Hop as [Hx _ _ _ _ _], Hcase as [Hx' _ _ _ _ _].
      rewrite (ex_receivers _ _ Hx'), <- (ex_receivers _ _ Hx). simpl. lia.
Qed.
(** ** The whole of it *)

Lemma go_all_run g i chs s :
  exists l, go_all g i chs s = (tt, s <| clog := clog s ++ l |>) /\ Forall quiet l.
Proof.
  revert i s. induction chs as [|c chs IH]; intros i s; simpl.
  - exists []. split; [|done]. unfold mret, M_ret, rec_set. simpl. rewrite app_nil_r. by destruct s.
  - rewrite M_bind_run. unfold emit, modify.
    destruct (IH (Datatypes.S i) (s <| clog := clog s ++ [CGo g i c] |>)) as (l & -> & Hl).
    exists (CGo g i c :: l). unfold rec_set. simpl. rewrite <- app_assoc. split; [done|]. by constructor.
Qed.

(** What [setupChannels] leaves when it succeeds. *)
Record all_open s0 s : Prop := {
  ao_log : exists l, clog s = clog s0 ++ l /\ Forall quiet l;
  ao_static : (started s, stopping s, connected s, conn s, openConns s)
              = (started s0, stopping s0, connected s0, conn s0, openConns s0);
  ao_senders : length (senderChs s) = length (senders s) /\ length (senders s) = length (senders s0);
  ao_receivers : length (receiverChs s) = length (receivers s) /\ length (receivers s) = length (receivers s0);
  ao_open : openChs s = openChs s0 ∪ list_to_set (senderChs s ++ receiverChs s);
  ao_new : forall c, c ∈ senderChs s ++ receiverChs s -> c ∉ openChs s0;
  ao_sender : forall i c, senderChs s !! i = Some c -> exists x, senders s !! i = Some x /\
                (sender_channel x = Some c \/ sender_channel x = None);
  ao_receiver : forall i c, receiverChs s !! i = Some c -> exists r, receivers s !! i = Some r /\
                (receiver_channel r = Some c \/ drained s = true);
  ao_ids : ids_ok s;
  ao_drained : drained s0 = true -> drained s = true;
  ao_next : nextId s0 <= nextId s;
}.

Lemma setupChannels_spec k s :
  ids_ok s ->
  let '(err, s') := setupChannels cfg env k s in
  match err with None => all_open s s' | Some _ => undone s s' end.
Proof.
  intros Hi. unfold setupChannels. rewrite M_bind_run. unfold gets at 1. rewrite M_bind_run.
  assert (opening [] [] s s) as Hop.
  { split; [apply extends_refl|set_solver|by intros c Hc%elem_of_nil|done..]. }
  pose proof (setup_senders_spec k (length (senders s)) [] s s Hop eq_refl) as H. simpl in H.
  destruct (setup_senders cfg env k 0 (length (senders s)) [] s) as [[sChs|e] s1]; [|exact H].
  destruct H as [Hop1 Hlen]. rewrite M_bind_run. unfold gets at 1. rewrite M_bind_run.
  pose proof (setup_receivers_spec k (length (receivers s1)) sChs [] s s1 Hop1 eq_refl) as H. simpl in H.
  destruct (setup_receivers cfg env k 0 (length (receivers s1)) sChs [] s1) as [[rChs|e] s2]; [|exact H].
  destruct H as ([Hx Ho Hn Hid Hse Hre] & Hlr & Hls).
  rewrite M_bind_run. unfold modify at 1. rewrite M_bind_run.
  destruct (go_all_run "watchSenderChannel" 0 sChs (s2 <| senderChs := sChs |> <| receiverChs := rChs |>))
    as (l1 & -> & Hq1). rewrite M_bind_run.
  destruct (go_all_run "watchReceiverChannel" 0 rChs
    (s2 <| senderChs := sChs |> <| receiverChs := rChs |> <| clog := clog s2 ++ l1 |>)) as (l2 & Hg & Hq2).
  unfold rec_set in *. simpl in *. rewrite Hg. unfold mret, M_ret.
  destruct Hx as [(l & Hl & Hq) Hst Hnx Hlse Hlre Hd]. unfold static in Hst.
  split; simpl; auto; try congruence.
  - exists (l ++ l1 ++ l2). rewrite Hl, <- !app_assoc. split; [done|].
    rewrite !Forall_app. auto.
  - split; congruence.
Qed.
End setup.

(** ** Property *)

(** C12: [setupChannels] opens everything or nothing. On success each sender and
    each receiver has a channel of its own, new and open, which the sender
    publishes on (unless it refused it) and the receiver consumes on (unless
    the client was drained). On failure no channel opened on the way is left
    open, every sender is disconnected and every receiver stopped. Either way
    the connection state and its notifications are untouched. *)
Theorem setupChannels_all_or_nothing {S R} `{!SenderLink S, !ReceiverLink R} cfg env k (s : CState S R) :
  ids_ok s ->
  let '(err, s') := setupChannels cfg env k s in
  match err with
  | None =>
      length (senderChs s') = length (senders s) /\ length (receiverChs s') = length (receivers s) /\
      openChs s' = openChs s ∪ list_to_set (senderChs s' ++ receiverChs s') /\
      (forall c, c ∈ senderChs s' ++ receiverChs s' -> c ∉ openChs s) /\
      (forall i c, senderChs s' !! i = Some c -> exists x, senders s' !! i = Some x /\
         (sender_channel x = Some c \/ sender_channel x = None)) /\
      (forall i c, receiverChs s' !! i = Some c -> exists r, receivers s' !! i = Some r /\
         (receiver_channel r = Some c \/ drained s' = true))
  | Some _ => openChs s' = openChs s /\ senders_are_off s' /\ receivers_are_idle s'
  end /\
  connected s' = connected s /\ conn s' = conn s /\ openConns s' = openConns s /\
  exists l, clog s' = clog s ++ l /\ Forall quiet l.
Proof.
  intros Hi. pose proof (setupChannels_spec cfg env k s Hi) as H.
  destruct (setupChannels cfg env k s) as [[e|] s'].
  - destruct H as [[Hl Hst _ _ _ _] Ho Hs Hr _]. unfold static in Hst. split_and!; try done; congruence.
  - destruct H as [Hl Hst [Hs1 Hs2] [Hr1 Hr2] Ho Hn Hse Hre _ _]. split_and!; try done; congruence.
Qed.

(** A sender that is its channel, and a receiver that is its channel and
    whether it is drained. *)
#[export] Program Instance plain_sender : SenderLink (option nat) :=
  {| SetChannel := fun c _ => c; sender_channel := fun s => s |}.
Solve Obligations with auto.

#[export] Program Instance plain_receiver : ReceiverLink (option nat * bool) :=
  {| Queue := fun _ => "q";
     Stop_ := fun r => (None, (None, r.2));
     DeclareTopology_ := fun _ r => (None, r);
     Start_ := fun ch r => if r.2 then (Some (New "drained"), r) else (None, (Some ch, false));
     Drain_ := fun r => (None, (r.1, true));
     receiver_channel := fst;
     receiver_drained := snd |}.
Solve Obligations with (intros; simpl in *; repeat case_match; naive_solver).

Definition plain_cfg : Config :=
  {| ClientName := "c"; Brokers := ["amqp://a"; "amqp://b"]; Username := ""; Password := ""; Heartbeat := 0;
     ConnectionTimeout := 0; TLSClientConfig := false; OnConnect := true; OnDisconnect := true;
     ReconnectBackoff := None; MaxReconnectAttempts := 2; MeterProvider := false |}.

(** Everything works; the second channel ever asked for is refused. *)
Definition plain_env (refuse : bool) : Env :=
  {| envDial := fun _ _ => None;
     envChannel := fun l => if refuse && bool_decide (length l = 1) then Some (LibErr "closed") else None;
     envCloseConn := fun _ => None; envDone := fun _ => false; envDrained := fun _ => false;
     envClosed := fun _ => NDone; envParseURI := fun _ => None |}.

Definition plain_client : CState (option nat) (option nat * bool) :=
  {| senders := [None]; receivers := [(None, false)]; started := true; stopping := false; drained := false;
     connected := false; conn := None; senderChs := []; receiverChs := []; openConns := {[ 7 ]}; openChs := ∅;
     nextId := 8; clog := [] |}.

Lemma setupChannels_all_or_nothing_witness :
  openChs (setupChannels plain_cfg (plain_env true) 7 plain_client).2 = ∅ /\
  (setupChannels plain_cfg (plain_env true) 7 plain_client).1 <> None.
Proof.
  assert (ids_ok plain_client) as Hi by (intros c Hc; simpl in Hc; by apply elem_of_empty in Hc).
  pose proof (setupChannels_all_or_nothing plain_cfg (plain_env true) 7 plain_client Hi) as H.
  split; [|vm_compute; discriminate].
  destruct (setupChannels plain_cfg (plain_env true) 7 plain_client) as [[e|] s'] eqn:Hs.
  - exact (proj1 (proj1 H)).
  - exfalso. vm_compute in Hs. discriminate.
Defined.
