(* ===== verification/ClientLife.v ===== *)
(** * Connecting, losing and ending a connection: src/client/client.go

    What [connect] promises -- which brokers it dials, in which order, how
    often, and what it leaves behind -- and, over [connect],
    [handleDisconnect], [watchConnAndReconnect] and [Stop], that the
    notifications alternate and that a stopped client holds nothing. *)

From S2P Require Import Prelude GoLib Config Metrics Links Client ClientSetup.

(** ** Reading the log *)

Definition dials (l : list CEvent) : list string :=
  omap (fun e => match e with CDial url _ => Some url | _ => None end) l.

Definition is_notice (e : CEvent) : bool := match e with COnConnect | COnDisconnect => true | _ => false end.
Definition notices (l : list CEvent) : list CEvent := filter (fun e => is_notice e = true) l.

Lemma dials_app a b : dials (a ++ b) = dials a ++ dials b.
Proof. apply omap_app. Qed.
Lemma notices_app a b : notices (a ++ b) = notices a ++ notices b.
Proof. apply filter_app. Qed.
Lemma dials_quiet l : Forall quiet l -> dials l = [].
Proof. induction 1 as [|e l He _ IH]; [done|]. by destruct e. Qed.
Lemma notices_quiet l : Forall quiet l -> notices l = [].
Proof. induction 1 as [|e l He _ IH]; [done|]. by destruct e. Qed.
Lemma dials_metric ps : dials (map CMetric ps) = [].
Proof. by induction ps. Qed.
Lemma notices_metric ps : notices (map CMetric ps) = [].
Proof. by induction ps. Qed.
#[export] Hint Rewrite dials_app notices_app dials_metric notices_metric : rmq_simp.

(** The notifications as a state machine: up and down in turn. *)
Fixpoint replay (up : bool) (l : list CEvent) : option bool :=
  match l with
  | [] => Some up
  | COnConnect :: l' => if up then None else replay true l'
  | COnDisconnect :: l' => if up then replay false l' else None
  | _ :: l' => replay up l'
  end.

Lemma replay_app up a b : replay up (a ++ b) = replay up a ≫= fun up' => replay up' b.
Proof. revert up. induction a as [|[] a IH]; intros []; simpl; auto. Qed.

Lemma replay_notices up l : replay up l = replay up (notices l).
Proof. revert up. induction l as [|[] l IH]; intros []; simpl; auto. Qed.

Section life.
Context {S R : Type} `{!SenderLink S, !ReceiverLink R} (cfg : Config) (env : Env).
Implicit Types s : CState S R.

(** Numbers not yet given out name neither channels nor connections. *)
Definition wf s : Prop := ids_ok s /\ forall k, k ∈ openConns s -> k < nextId s.

(** The context was seen cancelled at one of the looks after [l0] in [l]. *)
Definition cancelled (l0 l : list CEvent) : Prop :=
  exists l1, l1 `prefix_of` l /\ envDone env (l0 ++ l1) = true.

(** No connection made: whatever was opened has been closed again. *)
Record unconnected s s' : Prop := {
  uc_conns : openConns s' = openConns s;
  uc_chs : openChs s' = openChs s;
  uc_state : connected s' = connected s /\ conn s' = conn s;
  uc_senders : senders_are_off s -> senders_are_off s';
  uc_receivers : receivers_are_idle s -> receivers_are_idle s';
}.

(** Connected as [k]: the one new connection, and every sender and receiver
    with its channel. *)
Record connected_as (k : nat) s s' : Prop := {
  ca_conns : openConns s' = {[k]} ∪ openConns s /\ k ∉ openConns s;
  ca_state : connected s' = true /\ conn s' = Some k;
  ca_chs : openChs s' = openChs s ∪ list_to_set (senderChs s' ++ receiverChs s');
  ca_lengths : length (senderChs s') = length (senders s') /\ length (receiverChs s') = length (receivers s');
}.

Lemma unconnected_refl s : unconnected s s.
Proof. by split. Qed.
Lemma unconnected_trans s1 s2 s3 : unconnected s1 s2 -> unconnected s2 s3 -> unconnected s1 s3.
Proof. intros [? ? [? ?] ? ?] [? ? [? ?] ? ?]. split; try congruence; auto. split; congruence. Qed.
Lemma unconnected_connected k s1 s2 s3 : unconnected s1 s2 -> connected_as k s2 s3 -> connected_as k s1 s3.
Proof. intros [H1 H2 ? ? ?] [[? ?] ? ? ?]. split; [|done|congruence|done]. by rewrite <- H1. Qed.

Lemma ctxErr_run s : ctxErr env s = (envDone env (clog s ++ [CPoll]), s <| clog := clog s ++ [CPoll] |>).
Proof. done. Qed.

Lemma dialOne_run url s :
  let l := clog s ++ [CDial url (amqp_config cfg)] in
  dialOne cfg env url s =
  match envDial env l url with
  | Some e => (inr e, s <| clog := l |>)
  | None => (inl (nextId s), s <| clog := l |> <| nextId := Datatypes.S (nextId s) |>
                               <| openConns := {[nextId s]} ∪ openConns s |>)
  end.
Proof.
  unfold dialOne. rewrite M_bind_run. unfold emit, modify at 1. rewrite M_bind_run. unfold gets at 1.
  unfold rec_set at 1. simpl. by destruct (envDial env _ url).
Qed.

(** Logging keeps everything but the log. *)
Lemma unconnected_log s l : unconnected s (s <| clog := l |>).
Proof. by split. Qed.

Lemma established_run initial url k s :
  exists l, (established cfg env initial url k s).2
      = s <| conn := Some k |> <| connected := true |> <| clog := clog s ++ l |> /\
    dials l = [] /\ notices l = (if OnConnect cfg then [COnConnect] else []).
Proof.
  exists (map CMetric (Metrics.Client.SetConnected (metrics cfg) true)
       ++ (if initial then [] else map CMetric (Metrics.Client.IncrReconnections (metrics cfg)))
       ++ [CLogBroker (if initial then "rabbitmq client: connected" else "rabbitmq client: reconnected")
             (redactURL env url)]
       ++ (if OnConnect cfg then [COnConnect] else [])).
  split.
  - unfold established, record_points, emit, modify, when, rec_set.
    destruct initial, (OnConnect cfg); simpl; rewrite ?app_nil_r, <- ?app_assoc; done.
  - autorewrite with rmq_simp. by destruct initial, (OnConnect cfg); autorewrite with rmq_simp.
Qed.

Lemma conn_Close_run k s :
  conn_Close env k s =
  (envCloseConn env (clog s ++ [CCloseConn k]),
   s <| openConns := openConns s ∖ {[k]} |> <| clog := clog s ++ [CCloseConn k] |>).
Proof. done. Qed.
Lemma dialled url s k s1 :
  dialOne cfg env url s = (inl k, s1) -> wf s ->
  k = nextId s /\ ids_ok s1 /\ clog s1 = clog s ++ [CDial url (amqp_config cfg)] /\
  nextId s1 = Datatypes.S (nextId s) /\ openConns s1 = {[nextId s]} ∪ openConns s /\
  openChs s1 = openChs s /\ connected s1 = connected s /\ conn s1 = conn s.
Proof.
  rewrite dialOne_run. cbv zeta. destruct (envDial _ _ _); [done|]. intros [= <- <-] [Hi _].
  split_and!; try done. intros c Hc. apply Hi in Hc. simpl. lia.
Qed.

(** A dialled connection whose channels could not be set up, closed again. *)
Lemma failed_setup url s s1 e s2 :
  wf s -> dialOne cfg env url s = (inl (nextId s), s1) -> setupChannels cfg env (nextId s) s1 = (Some e, s2) ->
  exists l, let s3 := (conn_Close env (nextId s)
                        (s2 <| clog := clog s2 ++ [CLog "rabbitmq client: setup channels failed"] |>)).2 in
    clog s3 = clog s ++ l /\ wf s3 /\ unconnected s s3 /\ dials l = [url] /\ notices l = [].
Proof.
  intros Hwf Hd Hs. destruct (dialled _ _ _ _ Hd Hwf) as (_ & Hi1 & Hl1 & Hn1 & Hc1 & Ho1 & Hcd1 & Hcn1).
  destruct Hwf as [Hi Hk]. pose proof (setupChannels_spec cfg env (nextId s) _ Hi1) as H. rewrite Hs in H.
  destruct H as [[(l & Hl & Hq) Hst Hnx _ _ _] Ho Hse Hre Hid]. unfold static in Hst.
  injection Hst as _ _ Hcon Hc Hoc _ _.
  exists ([CDial url (amqp_config cfg)] ++ l ++ [CLog "rabbitmq client: setup channels failed"; CCloseConn (nextId s)]).
  cbv zeta. rewrite conn_Close_run. unfold rec_set. simpl. split_and!.
  - by rewrite Hl, Hl1, <- !app_assoc.
  - split; simpl; [done|]. intros k. rewrite Hoc, Hc1. intros Hin.
    assert (k ∈ openConns s) as Hin' by set_solver. apply Hk in Hin'. lia.
  - split; simpl; auto; [|congruence|split; congruence]. rewrite Hoc, Hc1. apply set_eq. intros k.
    assert (nextId s ∉ openConns s) by (intros Hin%Hk; lia). set_solver.
  - rewrite dials_app, (dials_quiet _ Hq). done.
  - change (CDial url (amqp_config cfg) :: l ++ ?x) with ([CDial url (amqp_config cfg)] ++ l ++ x).
    rewrite !notices_app, (notices_quiet _ Hq). done.
Qed.

(** A dialled connection whose channels are all there. *)
Lemma good_setup initial url s s1 s2 :
  wf s -> dialOne cfg env url s = (inl (nextId s), s1) -> setupChannels cfg env (nextId s) s1 = (None, s2) ->
  exists l, let s3 := (established cfg env initial url (nextId s) s2).2 in
    clog s3 = clog s ++ l /\ wf s3 /\ connected_as (nextId s) s s3 /\ dials l = [url] /\
    notices l = (if OnConnect cfg then [COnConnect] else []).
Proof.
  intros Hwf Hd Hs. destruct (dialled _ _ _ _ Hd Hwf) as (_ & Hi1 & Hl1 & Hn1 & Hc1 & Ho1 & Hcd1 & Hcn1).
  destruct Hwf as [Hi Hk]. pose proof (setupChannels_spec cfg env (nextId s) _ Hi1) as H. rewrite Hs in H.
  destruct H as [(l & Hl & Hq) Hst [Hs1 _] [Hr1 _] Ho _ _ _ Hid _ Hnx].
  injection Hst as _ _ _ _ Hoc.
  destruct (established_run initial url (nextId s) s2) as (l2 & -> & Hd2 & Hn2).
  exists ([CDial url (amqp_config cfg)] ++ l ++ l2). cbv zeta. unfold rec_set. simpl. split_and!.
  - by rewrite Hl, Hl1, <- !app_assoc.
  - split; simpl; [done|]. intros k. rewrite Hoc, Hc1. intros [->%elem_of_singleton|Hin%Hk]%elem_of_union; lia.
  - split; simpl; auto; [split; [congruence|]|congruence]. intros Hin%Hk. lia.
  - rewrite dials_app, (dials_quiet _ Hq), Hd2. done.
  - change (CDial url (amqp_config cfg) :: l ++ ?x) with ([CDial url (amqp_config cfg)] ++ l ++ x).
    rewrite !notices_app, (notices_quiet _ Hq), Hn2. done.
Qed.

(** One walk over [urls]: what it logs and where it leaves the client. *)
Definition walked (urls : list string) (r : option ConnResult) (s s' : CState S R) : Prop :=
  exists l, clog s' = clog s ++ l /\ wf s' /\
  match r with
  | None => dials l = urls /\ notices l = [] /\ unconnected s s'
  | Some (Connected k) =>
      dials l `prefix_of` urls /\ dials l <> [] /\ notices l = (if OnConnect cfg then [COnConnect] else []) /\
      connected_as k s s'
  | Some GaveUp =>
      dials l `prefix_of` urls /\ notices l = [] /\ unconnected s s' /\ cancelled (clog s) l
  | Some NoFuel => False
  end.

Lemma cancelled_app l0 l1 l2 : cancelled (l0 ++ l1) l2 -> cancelled l0 (l1 ++ l2).
Proof.
  intros (l & Hp & Hd). exists (l1 ++ l). split; [by apply prefix_app|]. by rewrite app_assoc.
Qed.

(** A step that tried [pre] and came to nothing, then the rest of the walk. *)
Lemma walked_after pre l urls r s s1 s' :
  clog s1 = clog s ++ l -> dials l = pre -> notices l = [] -> unconnected s s1 ->
  walked urls r s1 s' -> walked (pre ++ urls) r s s'.
Proof.
  intros Hl Hd Hn Hu (l' & Hl' & Hw & H). exists (l ++ l'). rewrite Hl', Hl, app_assoc.
  split; [done|]. split; [done|]. autorewrite with rmq_simp. rewrite Hd, Hn.
  destruct r as [[k| |]|]; [| |done|].
  - destruct H as (H1 & H2 & H3 & H4). split_and!; [by apply prefix_app| |done|by eapply unconnected_connected].
    intros [_ ?]%app_eq_nil. done.
  - destruct H as (H1 & H2 & H3 & H4). split_and!; [by apply prefix_app|done|by eapply unconnected_trans|].
    apply cancelled_app. by rewrite <- Hl.
  - destruct H as (H1 & H2 & H3). split_and!; [by rewrite H1|done|by eapply unconnected_trans].
Qed.

Lemma wf_log s l : wf s -> wf (s <| clog := l |>).
Proof. done. Qed.

Lemma walk_spec initial urls s : wf s -> let '(r, s') := walk cfg env initial urls s in walked urls r s s'.
Proof.
  revert s. induction urls as [|url urls IH]; intros s Hwf; cbn [walk].
  - exists []. rewrite app_nil_r. auto using unconnected_refl.
  - rewrite M_bind_run, ctxErr_run. destruct (envDone env (clog s ++ [CPoll])) eqn:Hdone.
    { exists [CPoll]. split_and!; [done|done|apply prefix_nil|done|apply unconnected_log|].
      exists [CPoll]. done. }
    rewrite M_bind_run. set (s0 := s <| clog := clog s ++ [CPoll] |>).
    assert (wf s0) as Hwf0 by done. assert (unconnected s s0) as Hu0 by apply unconnected_log.
    assert (clog s0 = clog s ++ [CPoll]) as Hl0 by done. clearbody s0.
    change (url :: urls) with ([] ++ (url :: urls)).
    destruct (dialOne cfg env url s0) as [[k|e] s1] eqn:Hdial.
    + assert (k = nextId s0) as ->.
      { rewrite dialOne_run in Hdial. cbv zeta in Hdial. destruct (envDial _ _ _); by simplify_eq. }
      rewrite M_bind_run. destruct (setupChannels cfg env (nextId s0) s1) as [[e|] s2] eqn:Hset.
      * destruct (failed_setup url s0 s1 e s2 Hwf0 Hdial Hset) as (l & Hl & Hwf3 & Hu & Hdl & Hn).
        rewrite M_bind_run. unfold emit at 1, modify at 1. rewrite M_bind_run.
        destruct (conn_Close env (nextId s0) _) as [err s3]. simpl in Hl, Hwf3, Hu.
        specialize (IH s3 Hwf3). destruct (walk cfg env initial urls s3) as [r s4].
        eapply (walked_after [] [CPoll]); [done..|].
        by eapply (walked_after [url] l).
      * destruct (good_setup initial url s0 s1 s2 Hwf0 Hdial Hset) as (l & Hl & Hwf3 & Hc & Hdl & Hn).
        rewrite M_bind_run. destruct (established cfg env initial url (nextId s0) s2) as [[] s3].
        simpl in Hl, Hwf3, Hc. eapply (walked_after [] [CPoll]); [done..|].
        exists l. rewrite Hdl, Hn. split_and!; try done. by apply prefix_cons, prefix_nil.
    + rewrite dialOne_run in Hdial. cbv zeta in Hdial. destruct (envDial _ _ _); [|done].
      injection Hdial as <- <-. rewrite M_bind_run. unfold emit, modify.
      set (s2 := rec_set _ _). assert (wf s2) as Hwf2 by done. specialize (IH s2 Hwf2).
      destruct (walk cfg env initial urls s2) as [r s3]. eapply (walked_after [] [CPoll]); [done..|].
      apply (walked_after [url] [CDial url (amqp_config cfg);
        CLogBroker "rabbitmq client: dial failed" (redactURL env url)] urls r s0 s2 s3); [|done|done|by split|exact IH].
      subst s2. unfold rec_set. simpl. by rewrite <- app_assoc.
Qed.
(** ** The attempts *)

Definition limited (initial : bool) : Prop := initial = false /\ (0 < MaxReconnectAttempts cfg)%Z.

Lemma out_of_attempts_true initial attempt :
  out_of_attempts cfg initial attempt = true <-> limited initial /\ (MaxReconnectAttempts cfg <= attempt)%Z.
Proof.
  unfold out_of_attempts, limited. rewrite !andb_true_iff, negb_true_iff, Z.ltb_lt, Z.leb_le. tauto.
Qed.

(** [n] full walks and the part [p] of one more, counted from [attempt]. *)
Definition attempts (initial : bool) (attempt : Z) (n : nat) (p : list string) (l : list CEvent) : Prop :=
  dials l = concat (replicate n (Brokers cfg)) ++ p /\ p `prefix_of` Brokers cfg /\
  (limited initial -> (attempt <= MaxReconnectAttempts cfg)%Z ->
     (attempt + Z.of_nat n <= MaxReconnectAttempts cfg)%Z /\
     (p <> [] -> attempt + Z.of_nat n < MaxReconnectAttempts cfg)%Z).

Definition connect_result (initial : bool) (fuel : nat) (attempt : Z) (r : ConnResult) (s s' : CState S R) : Prop :=
  exists l n p, clog s' = clog s ++ l /\ wf s' /\ attempts initial attempt n p l /\
  match r with
  | Connected k =>
      p <> [] /\ notices l = (if OnConnect cfg then [COnConnect] else []) /\ connected_as k s s'
  | GaveUp =>
      notices l = [] /\ unconnected s s' /\
      (cancelled (clog s) l \/
       (limited initial /\ (MaxReconnectAttempts cfg <= attempt + Z.of_nat n)%Z /\ p = []))
  | NoFuel => n = fuel /\ p = [] /\ notices l = [] /\ unconnected s s'
  end.

(** No walk finished. *)
Lemma attempts_0 initial attempt p l :
  dials l = p -> p `prefix_of` Brokers cfg ->
  (p <> [] -> ~ (limited initial /\ (MaxReconnectAttempts cfg <= attempt)%Z)) ->
  attempts initial attempt 0 p l.
Proof.
  intros Hd Hp Hl. split_and!; [done|done|]. intros Hlim Ha. split; [lia|]. intros Hne.
  specialize (Hl Hne). assert (~ (MaxReconnectAttempts cfg <= attempt)%Z) by tauto. lia.
Qed.

(** One full walk, then the rest. *)
Lemma connect_after initial fuel attempt r s s1 s' l :
  clog s1 = clog s ++ l -> dials l = Brokers cfg -> notices l = [] -> unconnected s s1 ->
  ~ (limited initial /\ (MaxReconnectAttempts cfg <= attempt)%Z) ->
  connect_result initial fuel (attempt + 1) r s1 s' ->
  connect_result initial (Datatypes.S fuel) attempt r s s'.
Proof.
  intros Hl Hd Hn Hu Hlim (l' & n & p & Hl' & Hw & (Hd' & Hp & Ha) & H).
  exists (l ++ l'), (Datatypes.S n), p. rewrite Hl', Hl, app_assoc. split; [done|]. split; [done|]. split.
  - split_and!; [|done|].
    + autorewrite with rmq_simp. by rewrite Hd, Hd', app_assoc.
    + intros Hli Hat. assert (~ (MaxReconnectAttempts cfg <= attempt)%Z) by tauto.
      destruct (Ha Hli) as [? Hne]; [lia|]. split; [lia|]. intros Hpn. specialize (Hne Hpn). lia.
  - autorewrite with rmq_simp. rewrite Hn. simpl. destruct r as [k| |].
    + destruct H as (? & ? & ?). split_and!; [done..|by eapply unconnected_connected].
    + destruct H as (? & ? & [Hc|(? & ? & ?)]); (split_and!; [done|by eapply unconnected_trans|]).
      * left. apply cancelled_app. by rewrite <- Hl.
      * right. split_and!; [done|lia|done].
    + destruct H as (-> & ? & ? & ?). split_and!; [done..|by eapply unconnected_trans].
Qed.

(** What a whole walk logs, between looking at the context twice. *)
Lemma walk_log l attempt w :
  let l2 := CPoll :: l ++ [CBackoff attempt w; CPoll] in
  dials l = Brokers cfg -> notices l = [] -> dials l2 = Brokers cfg /\ notices l2 = [].
Proof.
  intros l2 Hd Hn. subst l2. change (CPoll :: l ++ ?x) with ([CPoll] ++ l ++ x).
  autorewrite with rmq_simp. rewrite Hd, Hn. simpl. by rewrite app_nil_r.
Qed.

(** The limit is reached: the first of its iterations gives up. *)
Lemma gives_up fuel initial attempt s s0 :
  limited initial /\ (MaxReconnectAttempts cfg <= attempt)%Z -> wf s0 -> unconnected s s0 ->
  clog s0 = clog s ++ [CPoll] ->
  connect_result initial fuel attempt GaveUp s
    (s0 <| clog := clog s0 ++ [CLog "rabbitmq client: giving up reconnection attempts"] |>).
Proof.
  intros [Hlim Hmax] Hwf0 Hu0 Hl0. exists [CPoll; CLog "rabbitmq client: giving up reconnection attempts"], 0, [].
  unfold rec_set. simpl. rewrite Hl0, <- app_assoc. split_and!; [done|done| |done| |].
  - by apply attempts_0; [|apply prefix_nil|].
  - eapply unconnected_trans; [exact Hu0|]. by split.
  - right. split_and!; [done|lia|done].
Qed.

Lemma connect_spec fuel initial attempt s :
  wf s -> let '(r, s') := connect cfg env fuel initial attempt s in connect_result initial fuel attempt r s s'.
Proof.
  revert attempt s. induction fuel as [|fuel IH]; intros attempt s Hwf; cbn [connect].
  { exists [], 0, []. rewrite app_nil_r. split_and!; try done.
    apply attempts_0; [done|apply prefix_nil|done]. }
  rewrite M_bind_run, ctxErr_run. destruct (envDone env (clog s ++ [CPoll])) eqn:Hdone.
  { exists [CPoll], 0, []. split_and!; [done|done|by apply attempts_0; [|apply prefix_nil|]|done|apply unconnected_log|].
    left. exists [CPoll]. done. }
  set (s0 := s <| clog := clog s ++ [CPoll] |>).
  assert (wf s0) as Hwf0 by done. assert (unconnected s s0) as Hu0 by apply unconnected_log.
  assert (clog s0 = clog s ++ [CPoll]) as Hl0 by done. clearbody s0.
  destruct (out_of_attempts cfg initial attempt) eqn:Hout.
  { apply out_of_attempts_true in Hout. rewrite M_bind_run. by apply gives_up. }
  assert (~ (limited initial /\ (MaxReconnectAttempts cfg <= attempt)%Z)) as Hnlim.
  { rewrite <- out_of_attempts_true. by rewrite Hout. }
  rewrite M_bind_run. pose proof (walk_spec initial (Brokers cfg) s0 Hwf0) as Hw.
  destruct (walk cfg env initial (Brokers cfg) s0) as [r s1]. destruct Hw as (l & Hl & Hwf1 & Hr).
  destruct r as [[k| |]|]; [| |done|].
  - destruct Hr as (Hp & Hne & Hn & Hc). exists (CPoll :: l), 0, (dials l).
    split_and!; [by rewrite Hl, Hl0, <- app_assoc|done|by apply attempts_0|done|done|by eapply unconnected_connected].
  - destruct Hr as (Hp & Hn & Hu & Hcan). exists (CPoll :: l), 0, (dials l).
    split_and!; [by rewrite Hl, Hl0, <- app_assoc|done|by apply attempts_0|done|by eapply unconnected_trans|].
    left. apply (cancelled_app _ [CPoll]). by rewrite <- Hl0.
  - destruct Hr as (Hd & Hn & Hu). rewrite M_bind_run. unfold emit at 1, modify at 1.
    set (l2 := CPoll :: l ++ [CBackoff attempt (backoff cfg attempt); CPoll]).
    rewrite M_bind_run, ctxErr_run. set (s2 := rec_set _ (rec_set _ s1)).
    assert (clog s2 = clog s ++ l2) as Hl2.
    { subst s2 l2. unfold rec_set. simpl. by rewrite Hl, Hl0, <- !app_assoc. }
    assert (unconnected s s2) as Hu2.
    { eapply unconnected_trans; [exact Hu0|]. eapply unconnected_trans; [exact Hu|]. by split. }
    destruct (walk_log l attempt (backoff cfg attempt) Hd Hn) as [Hd2 Hn2]. fold l2 in Hd2, Hn2.
    assert (wf s2) as Hwf2 by done.
    change (envDone env (clog (rec_set _ s1) ++ [CPoll])) with (envDone env (clog s2)).
    destruct (envDone env (clog s2)) eqn:Hdone2.
    + exists l2, 1, []. split_and!; [done|done| |done|done|].
      * split_and!; [by rewrite Hd2, app_nil_r; simpl; rewrite app_nil_r|apply prefix_nil|].
        intros Hli Ha. assert (~ (MaxReconnectAttempts cfg <= attempt)%Z) by tauto. split; [lia|done].
      * left. exists l2. split; [done|]. by rewrite <- Hl2.
    + specialize (IH (attempt + 1)%Z s2 Hwf2).
      destruct (connect cfg env fuel initial (attempt + 1) s2) as [r s3].
      by eapply connect_after.
Qed.
(** ** Notifications *)

(** The notifications so far alternate, and say whether the client is
    connected. *)
Definition noticed s : Prop := replay false (clog s) = Some (connected s).

Lemma handleDisconnect_run s :
  exists l, (handleDisconnect cfg s).2
      = s <| connected := false |> <| receivers := (fun r => (Stop_ r).2) <$> receivers s |>
          <| senders := SetChannel None <$> senders s |> <| clog := clog s ++ l |> /\
    notices l = (if connected s && OnDisconnect cfg then [COnDisconnect] else []) /\ dials l = [].
Proof.
  exists (if connected s then map CMetric (Metrics.Client.SetConnected (metrics cfg) false)
                              ++ (if OnDisconnect cfg then [COnDisconnect] else []) else []).
  split; [|split].
  - unfold handleDisconnect, receivers_Stop, senders_off, record_points, emit, modify, when, gets, rec_set.
    repeat rewrite M_bind_run. simpl. destruct (connected s), (OnDisconnect cfg); simpl;
      rewrite ?app_nil_r, <- ?app_assoc; done.
  - destruct (connected s), (OnDisconnect cfg); simpl; autorewrite with rmq_simp; done.
  - destruct (connected s), (OnDisconnect cfg); simpl; autorewrite with rmq_simp; done.
Qed.

Context (Hon : OnConnect cfg = true) (Hoff : OnDisconnect cfg = true).

Lemma noticed_extend s s' l :
  noticed s -> clog s' = clog s ++ l -> replay (connected s) (notices l) = Some (connected s') -> noticed s'.
Proof.
  unfold noticed. intros Hs Hl Hr. rewrite Hl, replay_app, Hs. simpl. by rewrite replay_notices.
Qed.

Lemma noticed_handleDisconnect s :
  noticed s -> noticed (handleDisconnect cfg s).2 /\ connected (handleDisconnect cfg s).2 = false.
Proof.
  intros Hs. destruct (handleDisconnect_run s) as (l & -> & Hn & _). split; [|done].
  eapply noticed_extend; [exact Hs|reflexivity|]. rewrite Hn, Hoff. simpl. by destruct (connected s).
Qed.

Lemma noticed_connect fuel initial attempt s :
  wf s -> noticed s -> connected s = false ->
  let '(r, s') := connect cfg env fuel initial attempt s in
  noticed s' /\ wf s' /\ (connected s' = true <-> exists k, r = Connected k).
Proof.
  intros Hwf Hs Hc. pose proof (connect_spec fuel initial attempt s Hwf) as H.
  destruct (connect cfg env fuel initial attempt s) as [r s'].
  destruct H as (l & n & p & Hl & Hwf' & _ & H).
  assert (notices l = (if connected s' then [COnConnect] else []) /\
          (connected s' = true <-> exists k, r = Connected k)) as [Hn Hk].
  { destruct r as [k| |].
    - destruct H as (_ & Hn & [_ [-> _] _ _]). rewrite Hn, Hon. naive_solver.
    - destruct H as (Hn & [_ _ [-> _] _ _] & _). rewrite Hn, Hc. naive_solver.
    - destruct H as (_ & _ & Hn & [_ _ [-> _] _ _]). rewrite Hn, Hc. naive_solver. }
  split; [|split; [done|exact Hk]]. eapply noticed_extend; [exact Hs|exact Hl|].
  rewrite Hn, Hc. by destruct (connected s').
Qed.

Lemma noticed_emit e s : is_notice e = false -> noticed s -> noticed (s <| clog := clog s ++ [e] |>).
Proof.
  intros He Hs. eapply noticed_extend; [exact Hs|reflexivity|].
  unfold notices. by rewrite filter_cons_False, filter_nil by (by rewrite He).
Qed.

Lemma wf_handleDisconnect s : wf s -> wf (handleDisconnect cfg s).2.
Proof. destruct (handleDisconnect_run s) as (l & -> & _). done. Qed.

(** One look at the context, kept apart from the rest of a proof. *)
Lemma noticed_poll s :
  wf s -> noticed s ->
  wf (s <| clog := clog s ++ [CPoll] |>) /\ noticed (s <| clog := clog s ++ [CPoll] |>).
Proof. intros Hw Hs. split; [done|]. by apply noticed_emit. Qed.

Definition sound s : Prop := wf s /\ noticed s.

Lemma sound_watch fuel cfuel k s : sound s -> sound (watchConnAndReconnect cfg env fuel cfuel k s).2.
Proof.
  revert k s. induction fuel as [|fuel IH]; intros k s [Hwf Hs]; cbn [watchConnAndReconnect]; [by split|].
  rewrite M_bind_run. unfold emit at 1, modify at 1. rewrite M_bind_run. unfold gets at 1.
  set (s1 := s <| clog := clog s ++ [CNotifyClose k] |>).
  assert (noticed s1) as Hs1 by by apply noticed_emit. assert (wf s1) as Hwf1 by done. clearbody s1.
  destruct (noticed_poll s1 Hwf1 Hs1) as [Hwf2 Hs2].
  destruct (envClosed env (clog s1)) as [| |e]; [by split|..]; rewrite M_bind_run, ctxErr_run;
    destruct (envDone env (clog s1 ++ [CPoll])); try by split.
  set (s2 := s1 <| clog := clog s1 ++ [CPoll] |>) in *. clearbody s2.
  rewrite M_bind_run. unfold emit, modify. rewrite M_bind_run.
  set (s3 := rec_set _ s2). assert (noticed s3) as Hs3 by by apply noticed_emit.
  assert (wf s3) as Hwf3 by done. clearbody s3.
  destruct (noticed_handleDisconnect s3 Hs3) as [Hs4 Hc4]. apply wf_handleDisconnect in Hwf3.
  destruct (handleDisconnect cfg s3) as [[] s4]. simpl in *. rewrite M_bind_run.
  pose proof (noticed_connect cfuel false 0 s4 Hwf3 Hs4 Hc4) as H.
  destruct (connect cfg env cfuel false 0 s4) as [r s5]. destruct H as (Hs5 & Hwf5 & _).
  destruct r; [by apply IH|by split|by split].
Qed.

Lemma sound_connectAndWatch fuel cfuel s :
  sound s -> connected s = false -> sound (connectAndWatch cfg env fuel cfuel s).2.
Proof.
  intros [Hwf Hs] Hc. unfold connectAndWatch. rewrite M_bind_run.
  pose proof (noticed_connect cfuel true 0 s Hwf Hs Hc) as H.
  destruct (connect cfg env cfuel true 0 s) as [r s1]. destruct H as (Hs1 & Hwf1 & _).
  destruct r; [by apply sound_watch|by split|by split].
Qed.
End life.

(** ** Stopping *)

Section stop.
Context {S R : Type} `{!SenderLink S, !ReceiverLink R} (cfg : Config) (env : Env).
Implicit Types s : CState S R.

(** What Stop's tail leaves of the state [s] the supervisor left. *)
Definition torn_down s s' : Prop :=
  connected s' = false /\ conn s' = None /\ senderChs s' = [] /\ receiverChs s' = [] /\
  senders_are_off s' /\ receivers_are_idle s' /\
  openChs s' = openChs s ∖ list_to_set (senderChs s ++ receiverChs s) /\
  openConns s' = openConns s ∖ (match conn s with Some k => {[k]} | None => ∅ end) /\
  exists l, clog s' = clog s ++ l /\ dials l = [] /\
    notices l = (if connected s && OnDisconnect cfg then [COnDisconnect] else []).

Definition disconnect_log s : list CEvent :=
  if connected s then map CMetric (Metrics.Client.SetConnected (metrics cfg) false)
                       ++ (if OnDisconnect cfg then [COnDisconnect] else []) else [].

Lemma disconnect_log_spec s :
  dials (disconnect_log s) = [] /\
  notices (disconnect_log s) = (if connected s && OnDisconnect cfg then [COnDisconnect] else []).
Proof.
  unfold disconnect_log.
  destruct (connected s), (OnDisconnect cfg); simpl; autorewrite with rmq_simp; done.
Qed.

Lemma notify_off_run w s :
  when w (record_points (Metrics.Client.SetConnected (metrics cfg) false) ;;
          when (OnDisconnect cfg) (emit COnDisconnect)) s =
  (tt, s <| clog := clog s ++ (if w then map CMetric (Metrics.Client.SetConnected (metrics cfg) false)
                                ++ (if OnDisconnect cfg then [COnDisconnect] else []) else []) |>).
Proof.
  unfold record_points, emit, modify, when, mret, M_ret, rec_set.
  destruct w; [rewrite M_bind_run|]; destruct (OnDisconnect cfg), s; simpl; by rewrite ?app_nil_r, <- ?app_assoc.
Qed.

(** The state the teardown leaves, and what it returns. *)
Definition tail_state s : CState S R :=
  s <| receivers := (fun r => (Stop_ r).2) <$> receivers s |> <| connected := false |>
    <| senders := SetChannel None <$> senders s |> <| conn := None |>
    <| senderChs := [] |> <| receiverChs := [] |>
    <| openChs := openChs s ∖ list_to_set (receiverChs s) ∖ list_to_set (senderChs s) |>
    <| openConns := openConns s ∖ (match conn s with Some k => {[k]} | None => ∅ end) |>
    <| clog := clog s ++ disconnect_log s ++ map CCloseChannel (receiverChs s)
                ++ map CCloseChannel (senderChs s)
                ++ (match conn s with Some k => [CCloseConn k] | None => [] end) |>.
Definition tail_error s s' : option error :=
  errors_Join (((fun r => (Stop_ r).1) <$> receivers s) ++
               match conn s with Some k => [envCloseConn env (clog s')] | None => [] end).

Lemma Stop_tail_run s : Stop_tail cfg env s = (tail_error s (tail_state s), tail_state s).
Proof.
  unfold Stop_tail, tail_error, tail_state, disconnect_log. rewrite M_bind_run. unfold receivers_Stop.
  rewrite M_bind_run. unfold gets at 1. rewrite M_bind_run. unfold modify at 1.
  rewrite M_bind_run, notify_off_run, M_bind_run. unfold senders_off, modify at 1.
  rewrite M_bind_run. unfold gets at 1. rewrite M_bind_run. unfold gets at 1.
  rewrite M_bind_run. unfold gets at 1. rewrite M_bind_run. unfold modify at 1.
  rewrite M_bind_run, close_all_run, M_bind_run, close_all_run. unfold rec_set. simpl.
  destruct (conn s) as [k|]; [rewrite M_bind_run; unfold conn_Close; rewrite M_bind_run|];
    unfold rec_set, mret, M_ret; simpl; by rewrite ?difference_empty_L, ?app_nil_r, <- ?app_assoc.
Qed.

Lemma Stop_tail_spec s : torn_down s (Stop_tail cfg env s).2.
Proof.
  rewrite Stop_tail_run. unfold tail_state, torn_down, senders_are_off, receivers_are_idle, rec_set. simpl.
  split_and!; try done.
  - apply Forall_fmap, Forall_true. intros x. apply SetChannel_nil.
  - apply Forall_fmap, Forall_true. intros r. apply Stop_idle.
  - rewrite list_to_set_app_L. set_solver.
  - destruct (disconnect_log_spec s) as [Hd Hn].
    assert (forall l, dials (map CCloseChannel l) = [] /\ notices (map CCloseChannel l) = []) as Hcl.
    { intros l. split; [by apply dials_quiet, quiet_closes|by apply notices_quiet, quiet_closes]. }
    eexists. split; [reflexivity|]. autorewrite with rmq_simp. rewrite Hd, Hn.
    rewrite !(proj1 (Hcl _)), !(proj2 (Hcl _)). 
    destruct (conn s); split; simpl; by rewrite ?app_nil_r.
Qed.

(** The state in which Stop waits for the supervisor. *)
Definition stopping_state s : CState S R :=
  s <| drained := true |> <| stopping := true |> <| clog := clog s ++ [CCancelLife] |>.

Lemma Stop_run supervisor s :
  started s = true -> stopping s = false ->
  Stop cfg env supervisor s = Stop_tail cfg env (supervisor (stopping_state s)).2.
Proof.
  intros Hst Hsp. unfold Stop. rewrite M_bind_run. unfold modify at 1. rewrite M_bind_run.
  unfold gets at 1. unfold rec_set at 1. simpl. rewrite Hst, Hsp. simpl.
  rewrite M_bind_run. unfold modify, emit, modify. rewrite M_bind_run, M_bind_run.
  unfold stopping_state, rec_set. simpl. rewrite Hst. by destruct (supervisor _) as [[] s1].
Qed.
End stop.

(** ** Draining *)

(** Each receiver is drained and, compared with [ref], has the channel it had
    or none. *)
Definition no_new_consumer {R} `{!ReceiverLink R} (ref l : list R) : Prop :=
  Forall2 (fun r0 r => receiver_drained r = true /\
                       (receiver_channel r = receiver_channel r0 \/ receiver_channel r = None)) ref l.

Section drained.
Context {S R : Type} `{!SenderLink S, !ReceiverLink R} (cfg : Config) (env : Env) (ref : list R).
Abbreviation I := (fun s : CState S R => no_new_consumer ref (receivers s)).

(** A change of other fields, and one of the receivers, one by one. *)
Lemma keep_modify (f : CState S R -> CState S R) :
  (forall s, receivers (f s) = receivers s) -> preserves I (modify f).
Proof. intros Hf s Hs. unfold modify. simpl. by rewrite Hf. Qed.

Lemma keep_emit e : preserves I (emit e).
Proof. by apply keep_modify. Qed.
Lemma keep_points ps : preserves I (record_points ps).
Proof. by apply keep_modify. Qed.

Definition tame (f : R -> option error * R) : Prop :=
  forall r, receiver_drained r = true ->
    receiver_drained (f r).2 = true /\
    (receiver_channel (f r).2 = receiver_channel r \/ receiver_channel (f r).2 = None).

Lemma tame_Stop : tame Stop_.
Proof. intros r Hr. split; [by apply drained_kept|]. right. apply Stop_idle. Qed.
Lemma tame_Declare ch : tame (DeclareTopology_ ch).
Proof. intros r Hr. split; [by apply drained_kept|]. left. apply Declare_keeps. Qed.
Lemma tame_Start ch : tame (Start_ ch).
Proof. intros r Hr. split; [by apply drained_kept|]. left. by apply Start_fails, Start_refused. Qed.
#[local] Hint Resolve keep_emit keep_points tame_Stop tame_Declare tame_Start : rmq.

Lemma keep_on_receiver i f : tame f -> preserves I (on_receiver i f).
Proof.
  intros Hf s Hs. unfold on_receiver. destruct (receivers s !! i) as [r|] eqn:Hr; [|done].
  unfold rec_set, no_new_consumer. simpl.
  destruct (Forall2_lookup_r _ _ _ _ _ Hs Hr) as (r0 & Hr0 & Hd & Hc).
  rewrite <- (list_insert_id ref i r0) by done. apply Forall2_insert; [done|].
  destruct (Hf r Hd) as [Hd' Hc']. split; [done|].
  destruct Hc' as [-> | ->]; auto.
Qed.

Lemma keep_receivers_Stop : preserves I receivers_Stop.
Proof.
  intros s Hs. unfold receivers_Stop, no_new_consumer, rec_set. simpl. apply Forall2_fmap_r.
  eapply Forall2_impl; [exact Hs|]. intros r0 r [Hd Hc]. destruct (tame_Stop r Hd) as [Hd' _].
  split; [done|]. right. apply Stop_idle.
Qed.
#[local] Hint Resolve keep_on_receiver keep_receivers_Stop : rmq.

(** A part of a handler that only moves other fields. *)
Ltac keep := preserve; try (by apply keep_modify); try (by apply preserves_gets); eauto with rmq.

Lemma keep_ch_Close c : preserves I (ch_Close c).
Proof. unfold ch_Close. keep. Qed.
Lemma keep_conn_Channel k : preserves I (conn_Channel env k).
Proof. unfold conn_Channel. keep. Qed.
Lemma keep_conn_Close k : preserves I (conn_Close env k).
Proof. unfold conn_Close. keep. Qed.
Lemma keep_ctxErr : preserves I (ctxErr env).
Proof. unfold ctxErr. keep. Qed.
Lemma keep_isDrained : preserves I (isDrained env).
Proof. unfold isDrained. keep. Qed.
Lemma keep_dialOne url : preserves I (dialOne cfg env url).
Proof. unfold dialOne. keep. Qed.
#[local] Hint Resolve keep_ch_Close keep_conn_Channel keep_conn_Close keep_ctxErr keep_isDrained keep_dialOne : rmq.

Lemma keep_failed sChs rChs e : preserves I (failed sChs rChs e).
Proof. unfold failed, cleanup, senders_off. keep. Qed.
Lemma keep_go_all g i chs : preserves I (go_all g i chs).
Proof. revert i. induction chs; intros i; simpl; keep. Qed.
#[local] Hint Resolve keep_failed keep_go_all : rmq.

Lemma keep_setup_senders k i n sChs : preserves I (setup_senders cfg env k i n sChs).
Proof. revert i sChs. induction n; intros i sChs; simpl; unfold sender_SetChannel; keep. Qed.
Lemma keep_setup_receivers k i n sChs rChs : preserves I (setup_receivers cfg env k i n sChs rChs).
Proof. revert i rChs. induction n; intros i rChs; simpl; unfold receiver_queue; keep. Qed.
#[local] Hint Resolve keep_setup_senders keep_setup_receivers : rmq.

Lemma keep_setupChannels k : preserves I (setupChannels cfg env k).
Proof. unfold setupChannels. keep. Qed.
Lemma keep_established initial url k : preserves I (established cfg env initial url k).
Proof. unfold established. keep. Qed.
Lemma keep_handleDisconnect : preserves I (handleDisconnect cfg).
Proof. unfold handleDisconnect, senders_off. keep. Qed.
#[local] Hint Resolve keep_setupChannels keep_established keep_handleDisconnect : rmq.

Lemma keep_walk initial urls : preserves I (walk cfg env initial urls).
Proof. induction urls; simpl; keep. Qed.
#[local] Hint Resolve keep_walk : rmq.
Lemma keep_connect fuel initial attempt : preserves I (connect cfg env fuel initial attempt).
Proof. revert attempt. induction fuel; intros attempt; simpl; keep. Qed.
#[local] Hint Resolve keep_connect : rmq.
Lemma keep_watch fuel cfuel k : preserves I (watchConnAndReconnect cfg env fuel cfuel k).
Proof. revert k. induction fuel; intros k; simpl; keep. Qed.
#[local] Hint Resolve keep_watch : rmq.
Lemma keep_connectAndWatch fuel cfuel : preserves I (connectAndWatch cfg env fuel cfuel).
Proof. unfold connectAndWatch. keep. Qed.

Lemma keep_recoverReceiver others idx : preserves I others -> preserves I (recoverReceiverChannel env others idx).
Proof. intros Ho. unfold recoverReceiverChannel. keep. Qed.
End drained.

(** ** Properties *)

(** C7: [connect] walks the brokers list in order, whole walks and at most one
    part of a walk. It returns a connection exactly when it made one -- the
    only connection left open, every channel set up on it, OnConnect fired
    once -- and otherwise leaves nothing behind and fires nothing. It gives
    up only on cancellation or, when repairing, after exactly
    [MaxReconnectAttempts] walks, never more; the first connection is never
    given up. *)
Theorem connect_outcome {S R} `{!SenderLink S, !ReceiverLink R} cfg env fuel initial (s : CState S R) :
  wf s -> let '(r, s') := connect cfg env fuel initial 0 s in connect_result cfg env initial fuel 0 r s s'.
Proof. apply connect_spec. Qed.

(** C24: A bounded repair ends: with fuel for one attempt more than the limit the
    model's bound is never met, whatever the brokers do. *)
Theorem connect_terminates {S R} `{!SenderLink S, !ReceiverLink R} cfg env fuel (s : CState S R) :
  wf s -> (0 < MaxReconnectAttempts cfg < Z.of_nat fuel)%Z ->
  (connect cfg env fuel false 0 s).1 <> NoFuel.
Proof.
  intros Hwf Hmax Hr. pose proof (connect_spec cfg env fuel false 0 s Hwf) as H.
  destruct (connect cfg env fuel false 0 s) as [r s']. simpl in Hr. subst r.
  destruct H as (l & n & p & _ & _ & (_ & _ & Ha) & -> & _). destruct Ha as [Hle _]; [split; [done|lia]|lia|lia].
Qed.

(** The notifications alternate, OnConnect first, and [IsConnected] is whether
    the last one was OnConnect: through the supervisor's whole life, any number
    of losses and repairs, and through Stop, which ends disconnected, whatever
    the supervisor still did meanwhile (as long as it kept the rule). *)
Theorem notifications_alternate {S R} `{!SenderLink S, !ReceiverLink R} cfg env fuel cfuel
    (supervisor : M (CState S R) unit) (s s' : CState S R) :
  OnConnect cfg = true -> OnDisconnect cfg = true -> preserves sound supervisor ->
  sound s -> connected s = false -> sound s' -> started s' = true -> stopping s' = false ->
  noticed (connectAndWatch cfg env fuel cfuel s).2 /\
  noticed (Stop cfg env supervisor s').2 /\ connected (Stop cfg env supervisor s').2 = false.
Proof.
  intros Hon Hoff Hsup Hs Hc Hs' Hst Hsp. split; [by apply sound_connectAndWatch|].
  rewrite Stop_run by done.
  assert (sound (supervisor (stopping_state s')).2) as [_ Hs1].
  { apply Hsup. destruct Hs' as [Hwf Hno]. split; [done|]. exact (noticed_emit CCancelLife s' eq_refl Hno). }
  destruct (Stop_tail_spec cfg env (supervisor (stopping_state s')).2)
    as (Hc' & _ & _ & _ & _ & _ & _ & _ & l & Hl & _ & Hn).
  split; [|done]. eapply noticed_extend; [exact Hs1|exact Hl|].
  rewrite Hn, Hc', Hoff, andb_true_r.
  by destruct (connected (supervisor (stopping_state s')).2).
Qed.

(** C22: A Stop that finds the client started and not yet stopping, and that nothing
    but the supervisor it waits for runs beside, tears down all the
    supervisor left: every receiver stopped, every sender disconnected, every
    channel the client held and its connection closed, nothing held any more,
    OnDisconnect fired exactly when the client was still connected -- and it
    returns what the receivers' Stops and the connection's Close reported. Any
    other Stop -- before Start, or after another -- only marks the client
    drained and stopping, and returns nil. *)
Theorem Stop_outcome {S R} `{!SenderLink S, !ReceiverLink R} cfg env
    (supervisor : M (CState S R) unit) (s : CState S R) :
  let '(e, s') := Stop cfg env supervisor s in
  if started s && negb (stopping s) then
    let s1 := (supervisor (stopping_state s)).2 in
    torn_down cfg s1 s' /\
    e = errors_Join (((fun r => (Stop_ r).1) <$> receivers s1) ++
                     match conn s1 with Some k => [envCloseConn env (clog s')] | None => [] end)
  else e = None /\ s' = s <| drained := true |> <| stopping := true |>.
Proof.
  destruct (started s && negb (stopping s)) eqn:Hs.
  - apply andb_true_iff in Hs as [Hst Hsp%negb_true_iff]. rewrite Stop_run by done. cbv zeta.
    set (s1 := (supervisor _).2). pose proof (Stop_tail_spec cfg env s1) as Ht. rewrite Stop_tail_run in *. by split.
  - unfold Stop. rewrite M_bind_run. unfold modify at 1. rewrite M_bind_run. unfold gets at 1.
    assert (stopping s || negb (started s) = true) as Hb by (by destruct (stopping s), (started s)).
    unfold rec_set at 1. simpl. rewrite Hb. by destruct s.
Qed.

(** After a Drain the client takes on no new work: neither the supervisor,
    whatever it loses and repairs, nor a channel recovery makes a receiver
    consume on a new channel. *)
Theorem drained_client_never_consumes {S R} `{!SenderLink S, !ReceiverLink R} cfg env fuel cfuel idx
    (s : CState S R) :
  let s1 := (Drain s).2 in
  no_new_consumer (receivers s) (receivers (connectAndWatch cfg env fuel cfuel s1).2) /\
  no_new_consumer (receivers s)
    (receivers (recoverReceiverChannel env (_ ← connectAndWatch cfg env fuel cfuel; mret tt) idx s1).2).
Proof.
  intros s1. assert (no_new_consumer (receivers s) (receivers s1)) as Hs1.
  { subst s1. unfold Drain, no_new_consumer. rewrite M_bind_run. unfold modify. rewrite M_bind_run.
    unfold receivers_Drain, rec_set. simpl. apply Forall2_fmap_r, Forall_Forall2_diag, Forall_true.
    intros r. split; [apply Drain_drains|]. left. apply Drain_keeps. }
  split; [by apply keep_connectAndWatch|]. apply keep_recoverReceiver; [|done].
  apply preserves_bind; [apply keep_connectAndWatch|intros; apply preserves_ret].
Qed.

(** ** Runs of a plain client *)

(** Whether the client reports a connection, and whether it holds an open one. *)
Definition holds_open {S R} (s : CState S R) : bool :=
  match conn s with Some k => bool_decide (k ∈ openConns s) | None => false end.

(** The channel the first sender publishes on, and whether the client has an
    open one for it. *)
Definition first_sender {R} (s : CState (option nat) R) : option (option nat) * bool :=
  (senders s !! 0, match senderChs s with c :: _ => bool_decide (c ∈ openChs s) | [] => false end).

Definition fresh_client : CState (option nat) (option nat * bool) :=
  {| senders := [None]; receivers := [(None, false)]; started := false; stopping := false; drained := false;
     connected := false; conn := None; senderChs := []; receiverChs := []; openConns := ∅; openChs := ∅;
     nextId := 0; clog := [] |}.

(** Stop on a client that was never started marks it stopping for good: Start
    still succeeds, the supervisor connects, and every later Stop returns nil
    at once, leaving the connection open and the client connected. *)
Theorem stop_before_start_disables_stop :
  let env := plain_env false in
  let s1 := (Stop plain_cfg env (mret tt) fresh_client).2 in
  let '(started_err, s2) := Start plain_cfg s1 in
  let s3 := (connectAndWatch plain_cfg env 1 1 s2).2 in
  let '(stop_err, s4) := Stop plain_cfg env (mret tt) s3 in
  started_err = None /\ stop_err = None /\ connected s4 = true /\ holds_open s4 = true.
Proof. vm_compute. auto. Qed.

(** A sender's channel recovery that loses the race with a reconnect rolls
    back by disconnecting the sender -- from the channel the reconnect had
    just given it. The client is connected and lists that channel, open,
    and the sender publishes on nothing. *)
Theorem recovery_rollback_disconnects_sender :
  let env := plain_env false in
  let s1 := (connect plain_cfg env 1 true 0 plain_client).2 in
  let reconnect := handleDisconnect plain_cfg ;; _ ← connect plain_cfg env 1 false 0; mret tt in
  let '(r, s2) := recoverSenderChannel env reconnect 0 s1 in
  r = inr changed /\ connected s2 = true /\ holds_open s2 = true /\ first_sender s2 = (Some None, true).
Proof. vm_compute. auto. Qed.

(** ** Witnesses *)

Lemma plain_wf : wf plain_client.
Proof.
  split; [intros c Hc; simpl in Hc; by apply elem_of_empty in Hc|].
  intros k Hk. simpl in Hk. apply elem_of_singleton in Hk. simpl. lia.
Qed.

Lemma connect_outcome_witness :
  exists l n p,
    clog (connect plain_cfg (plain_env false) 3 true 0 plain_client).2 = clog plain_client ++ l /\
    attempts plain_cfg true 0 n p l /\ p <> [] /\ notices l = [COnConnect].
Proof.
  pose proof (connect_outcome plain_cfg (plain_env false) 3 true plain_client plain_wf) as H.
  destruct (connect plain_cfg (plain_env false) 3 true 0 plain_client) as [r s'] eqn:Hr.
  destruct H as (l & n & p & Hl & _ & Ha & H).
  assert (r = Connected 8) as -> by (vm_compute in Hr; by injection Hr as <-).
  destruct H as (Hp & Hn & _). exists l, n, p. split_and!; [exact Hl|exact Ha|exact Hp|exact Hn].
Defined.

(** No broker answers. *)
Definition dead_env : Env :=
  {| envDial := fun _ _ => Some (LibErr "refused"); envChannel := fun _ => None;
     envCloseConn := fun _ => None; envDone := fun _ => false; envDrained := fun _ => false;
     envClosed := fun _ => NDone; envParseURI := fun _ => None |}.

Lemma connect_terminates_witness : (connect plain_cfg dead_env 3 false 0 plain_client).1 <> NoFuel.
Proof. apply (connect_terminates plain_cfg dead_env 3 plain_client plain_wf). simpl. lia. Defined.

Lemma notifications_alternate_witness :
  let s' := (connect plain_cfg (plain_env false) 1 true 0 plain_client).2 in
  connected s' = true /\
  connected (Stop plain_cfg (plain_env false) (_ ← watchConnAndReconnect plain_cfg (plain_env false) 1 1 8; mret tt) s').2
  = false.
Proof.
  intros s'. split; [vm_compute; reflexivity|].
  assert (sound plain_client) as Hs0 by (split; [apply plain_wf|vm_compute; reflexivity]).
  apply (notifications_alternate plain_cfg (plain_env false) 1 1 _ plain_client s'); try (vm_compute; reflexivity).
  - intros s Hs. rewrite M_bind_run.
    pose proof (sound_watch plain_cfg (plain_env false) eq_refl eq_refl 1 1 8 s Hs) as H.
    destruct (watchConnAndReconnect _ _ _ _ _ s). exact H.
  - exact Hs0.
  - destruct Hs0 as [Hw Hn].
    pose proof (noticed_connect plain_cfg (plain_env false) eq_refl 1 true 0 plain_client Hw Hn eq_refl) as H.
    subst s'. destruct (connect _ _ _ _ _ plain_client). split; apply H.
Defined.

