(* ===== verification/ClientRun.v ===== *)
(** * The client's goroutines at once: src/client/client.go

    The supervisor, a watcher per channel, and any number of Start, Stop and
    Drain calls share one client. Here each goroutine is a program ([Prog])
    whose actions are the code's own atomic parts -- one region of [c.mu], one
    method of a sender or receiver, one round trip to the library -- and the
    programs of all goroutines are interleaved by [exec]. Run by itself a
    program is the function of Client.v (ClientAlone.v), so the two models are
    one translation of the code. A sender's method is one action (its own
    interleavings are in SenderReturns.v). A receiver's method is not: it waits
    for the broker and for its delivery loop, other goroutines run meanwhile,
    and here it returns when and what it likes while the receivers change as
    they like. System.v puts the receivers of ReceiverLife.v in their place. *)

From stdpp Require Import pretty.
From S2P Require Import Prelude GoLib Config Metrics Links Client ClientSetup ClientLife.

(** ** Programs *)

(** An action marked [locks] is a whole region of [c.mu]; [PLock] and
    [PUnlock] delimit a region of several actions. [PRecv] calls a method of a
    receiver and waits for it to return. [PAwaitDone] receives from
    [reconnectDone] and [PCloseDone] closes it. *)
Inductive RMethod := MStop | MDeclare (ch : nat) | MStart (ch : nat) | MDrain.

Inductive Prog (St A : Type) : Type :=
| PRet (a : A)
| PAct {X : Type} (locks : bool) (m : M St X) (k : X -> Prog St A)
| PRecv (i : nat) (f : RMethod) (k : option error -> Prog St A)
| PLock (p : Prog St A)
| PUnlock (p : Prog St A)
| PAwaitDone (p : Prog St A)
| PCloseDone (p : Prog St A).
Arguments PRet {St A} a.
Arguments PAct {St A X} locks m k.
Arguments PRecv {St A} i f k.
Arguments PLock {St A} p.
Arguments PUnlock {St A} p.
Arguments PAwaitDone {St A} p.
Arguments PCloseDone {St A} p.

Fixpoint prog_bind {St A B} (f : A -> Prog St B) (p : Prog St A) : Prog St B :=
  match p with
  | PRet a => f a
  | PAct l m k => PAct l m (fun x => prog_bind f (k x))
  | PRecv i g k => PRecv i g (fun e => prog_bind f (k e))
  | PLock p => PLock (prog_bind f p)
  | PUnlock p => PUnlock (prog_bind f p)
  | PAwaitDone p => PAwaitDone (prog_bind f p)
  | PCloseDone p => PCloseDone (prog_bind f p)
  end.

#[export] Instance Prog_ret St : MRet (Prog St) := fun A a => PRet a.
#[export] Instance Prog_bind St : MBind (Prog St) := fun A B f p => prog_bind f p.

Fixpoint for_each_p {St A} (l : list A) (body : A -> Prog St unit) : Prog St unit :=
  match l with
  | [] => mret tt
  | x :: l' => _ ← body x; for_each_p l' body
  end.

(** The same, keeping each result. *)
Fixpoint collect_p {St A B} (l : list A) (body : A -> Prog St B) : Prog St (list B) :=
  match l with
  | [] => mret []
  | x :: l' => y ← body x; ys ← collect_p l' body; mret (y :: ys)
  end.

(** What a goroutine goes on as when its program ends: the next iteration of
    its loop, or the call a host makes. *)
Inductive Routine :=
| RConnect (initial : bool) (attempt : Z)
| RWatchConn (k : nat)
| RWatchSender (idx ch : nat)
| RWatchReceiver (idx ch : nat)
| RStart
| RStop
| RDrain (order : list nat).

(** ** The code *)

Section programs.
Context {S R : Type} `{!SenderLink S, !ReceiverLink R} (cfg : Config) (env : Env).
Context (closed : list CEvent -> ChannelClosed).
Abbreviation C := (M (CState S R)).
Abbreviation T := (Prog (CState S R)).

Definition act {X} (m : C X) : T X := PAct false m PRet.
Definition crit {X} (m : C X) : T X := PAct true m PRet.
Definition rcall (i : nat) (f : RMethod) : T (option error) := PRecv i f PRet.
Definition when_p (b : bool) (p : T unit) : T unit := if b then p else mret tt.

(** [for _, r := range c.receivers { r.Stop() }], [for _, s := range
    c.senders { s.SetChannel(nil) }]. *)
Definition receivers_Stop_p : T (list (option error)) :=
  n ← act (gets (fun s => length (receivers s)));
  collect_p (seq 0 n) (fun i => rcall i MStop).
Definition senders_off_p : T unit :=
  n ← act (gets (fun s => length (senders s)));
  for_each_p (seq 0 n) (fun i => act (sender_SetChannel i None)).

(** *** setupChannels *)

Definition cleanup_p (sChs rChs : list nat) : T unit :=
  _ ← receivers_Stop_p;
  _ ← senders_off_p;
  _ ← for_each_p rChs (fun c => act (ch_Close c));
  for_each_p sChs (fun c => act (ch_Close c)).

Definition failed_p (sChs rChs : list nat) (e : error) : T (list nat + error) :=
  _ ← cleanup_p sChs rChs; mret (inr e).

Fixpoint setup_senders_p (k i n : nat) (sChs : list nat) : T (list nat + error) :=
  match n with
  | 0 => mret (inl sChs)
  | Datatypes.S n' =>
      r ← act (conn_Channel env k);
      match r with
      | inr e => failed_p sChs [] (Errorfw fmt_open_sender [ClientName cfg; pretty i] e)
      | inl ch =>
          _ ← act (sender_SetChannel i (Some ch));
          setup_senders_p k (Datatypes.S i) n' (sChs ++ [ch])
      end
  end.

Fixpoint setup_receivers_p (k i n : nat) (sChs rChs : list nat) : T (list nat + error) :=
  match n with
  | 0 => mret (inl rChs)
  | Datatypes.S n' =>
      q ← act (receiver_queue i);
      r ← act (conn_Channel env k);
      match r with
      | inr e => failed_p sChs rChs (Errorfw fmt_open_receiver [ClientName cfg; q] e)
      | inl ch =>
          topoErr ← rcall i (MDeclare ch);
          match topoErr with
          | Some e =>
              _ ← act (ch_Close ch);
              failed_p sChs rChs (Errorfw fmt_topology [ClientName cfg] e)
          | None =>
              d ← crit (isDrained env);
              startErr ← (if d : bool then
                            _ ← act (emit (CLog "rabbitmq client: connected while draining; not consuming"));
                            mret None
                          else rcall i (MStart ch));
              match startErr with
              | Some e =>
                  _ ← act (ch_Close ch);
                  failed_p sChs rChs (Errorfw fmt_start_receiver [ClientName cfg; q] e)
              | None => setup_receivers_p k (Datatypes.S i) n' sChs (rChs ++ [ch])
              end
          end
      end
  end.

Fixpoint go_all_p (goroutine : string) (i : nat) (chs : list nat) : T unit :=
  match chs with
  | [] => mret tt
  | ch :: chs' => _ ← act (emit (CGo goroutine i ch)); go_all_p goroutine (Datatypes.S i) chs'
  end.

Definition setupChannels_p (k : nat) : T (option error) :=
  n ← act (gets (fun s => length (senders s)));
  rs ← setup_senders_p k 0 n [];
  match rs with
  | inr e => mret (Some e)
  | inl sChs =>
      m ← act (gets (fun s => length (receivers s)));
      rr ← setup_receivers_p k 0 m sChs [];
      match rr with
      | inr e => mret (Some e)
      | inl rChs =>
          _ ← crit (modify (fun s => s <| senderChs := sChs |> <| receiverChs := rChs |>));
          _ ← go_all_p "watchSenderChannel" 0 sChs;
          _ ← go_all_p "watchReceiverChannel" 0 rChs;
          mret None
      end
  end.

(** *** connect *)

Definition established_p (initial : bool) (url : string) (k : nat) : T unit :=
  _ ← crit (modify (fun s => s <| conn := Some k |> <| connected := true |>));
  _ ← act (record_points (Metrics.Client.SetConnected (metrics cfg) true));
  _ ← when_p (negb initial) (act (record_points (Metrics.Client.IncrReconnections (metrics cfg))));
  _ ← act (emit (CLogBroker (if initial then "rabbitmq client: connected" else "rabbitmq client: reconnected")
                   (redactURL env url)));
  when_p (OnConnect cfg) (act (emit COnConnect)).

Fixpoint walk_p (initial : bool) (urls : list string) : T (option ConnResult) :=
  match urls with
  | [] => mret None
  | url :: urls' =>
      done ← act (ctxErr env);
      if done : bool then mret (Some GaveUp)
      else
        r ← act (dialOne cfg env url);
        match r with
        | inr _ =>
            _ ← act (emit (CLogBroker "rabbitmq client: dial failed" (redactURL env url)));
            walk_p initial urls'
        | inl k =>
            setupErr ← setupChannels_p k;
            match setupErr with
            | Some _ =>
                _ ← act (emit (CLog "rabbitmq client: setup channels failed"));
                _ ← act (conn_Close env k);
                walk_p initial urls'
            | None => _ ← established_p initial url k; mret (Some (Connected k))
            end
        end
  end.

(** One iteration of [connect]'s loop; [None] goes on with the next. *)
Definition attempt_p (initial : bool) (attempt : Z) : T (option ConnResult) :=
  done ← act (ctxErr env);
  if done : bool then mret (Some GaveUp)
  else if out_of_attempts cfg initial attempt then
    _ ← act (emit (CLog "rabbitmq client: giving up reconnection attempts")); mret (Some GaveUp)
  else
    r ← walk_p initial (Brokers cfg);
    match r with
    | Some res => mret (Some res)
    | None =>
        _ ← act (emit (CBackoff attempt (backoff cfg attempt)));
        done ← act (ctxErr env);
        if done : bool then mret (Some GaveUp) else mret None
    end.

(** *** Losing the connection *)

Definition handleDisconnect_p : T unit :=
  wasConnected ← crit (b ← gets connected; modify (fun s => s <| connected := false |>) ;; mret b);
  _ ← receivers_Stop_p;
  _ ← senders_off_p;
  when_p wasConnected
    (_ ← act (record_points (Metrics.Client.SetConnected (metrics cfg) false));
     when_p (OnDisconnect cfg) (act (emit COnDisconnect))).

(** [watchConnAndReconnect] up to the repair: whether one is wanted. *)
Definition await_loss_p (k : nat) : T bool :=
  n ← act (emit (CNotifyClose k) ;; gets (fun s => envClosed env (clog s)));
  match n with
  | NDone => mret false
  | _ =>
      done ← act (ctxErr env);
      if done : bool then mret false
      else
        match n with
        | NError _ =>
            _ ← act (emit (CLog "rabbitmq client: connection closed; reconnecting"));
            _ ← handleDisconnect_p;
            mret true
        | _ => mret false
        end
  end.

(** *** Start, Stop, Drain *)

(** The lock regions of [Start] and, at its beginning, of [Stop]. *)
Definition claim_start : C bool :=
  b ← gets started;
  (if b : bool then mret tt else modify (fun s => s <| started := true |>)) ;;
  mret b.
Definition claim_stop : C bool :=
  modify (fun s => s <| drained := true |>) ;;
  b ← gets (fun s => stopping s || negb (started s));
  modify (fun s => s <| stopping := true |>) ;;
  mret b.

Definition Start_p : T (option error) :=
  if decide (Brokers cfg = []) then mret (Some (New "rabbitmq client: no brokers configured"))
  else
    b ← crit claim_start;
    if b : bool then mret (Some (New "rabbitmq client: already started"))
    else _ ← act (emit (CGo "connectAndWatch" 0 0)); mret None.

Definition Stop_tail_p : T (option error) :=
  stopErrs ← receivers_Stop_p;
  wasConnected ← crit (b ← gets connected; modify (fun s => s <| connected := false |>) ;; mret b);
  _ ← when_p wasConnected
    (_ ← act (record_points (Metrics.Client.SetConnected (metrics cfg) false));
     when_p (OnDisconnect cfg) (act (emit COnDisconnect)));
  _ ← senders_off_p;
  held ← crit (k ← gets conn; sChs ← gets senderChs; rChs ← gets receiverChs;
               modify (fun s => s <| conn := None |> <| senderChs := [] |> <| receiverChs := [] |>) ;;
               mret (k, sChs, rChs));
  let '(k, sChs, rChs) := held in
  _ ← for_each_p rChs (fun c => act (ch_Close c));
  _ ← for_each_p sChs (fun c => act (ch_Close c));
  match k with
  | Some k => err ← act (conn_Close env k); mret (errors_Join (stopErrs ++ [err]))
  | None => mret (errors_Join stopErrs)
  end.

Definition Stop_p : T (option error) :=
  b ← crit claim_stop;
  if b : bool then mret None
  else _ ← act (emit CCancelLife); PAwaitDone Stop_tail_p.

(** The receivers drain on goroutines of their own: in any order. *)
Definition Drain_p (order : list nat) : T (option error) :=
  _ ← crit (modify (fun s => s <| drained := true |>));
  errs ← collect_p order (fun i => rcall i MDrain);
  mret (errors_Join errs).

(** *** Channel-level recovery *)

(** The second region of [c.mu] of a recovery that runs on connection [k]. *)
Definition recheck_sender_p (k idx ch : nat) : T (nat + error) :=
  PLock (
    same ← act (gets (fun s => bool_decide (conn s = Some k) && connected s));
    if same : bool then
      _ ← act (modify (fun s => s <| senderChs := <[idx := ch]> (senderChs s) |>));
      PUnlock (mret (inl ch))
    else
      _ ← act (sender_SetChannel idx None);
      _ ← act (ch_Close ch);
      PUnlock (mret (inr changed))).

Definition recoverSenderChannel_p (idx : nat) : T (nat + error) :=
  held ← crit (k ← gets conn; up ← gets connected; mret (k, up));
  n ← act (gets (fun s => length (senders s)));
  match held.1 with
  | Some k =>
      if negb held.2 then mret (inr not_established)
      else if n <=? idx then mret (inr (Errorf "sender index %d out of range" [pretty idx]))
      else
        r ← act (conn_Channel env k);
        match r with
        | inr e => mret (inr (Errorfw "open new sender channel: %w" [] e))
        | inl ch => _ ← act (sender_SetChannel idx (Some ch)); recheck_sender_p k idx ch
        end
  | None => mret (inr not_established)
  end.

Definition recheck_receiver_p (k idx ch : nat) : T (nat + error) :=
  PLock (
    same ← act (gets (fun s => bool_decide (conn s = Some k) && connected s));
    if same : bool then
      _ ← act (modify (fun s => s <| receiverChs := <[idx := ch]> (receiverChs s) |>));
      PUnlock (mret (inl ch))
    else
      _ ← rcall idx MStop;
      _ ← act (ch_Close ch);
      PUnlock (mret (inr changed))).

Definition recoverReceiverChannel_p (idx : nat) : T (nat + error) :=
  held ← crit (k ← gets conn; up ← gets connected; d ← gets drained; mret (k, up, d));
  n ← act (gets (fun s => length (receivers s)));
  let '(k, up, was_drained) := held in
  match k with
  | Some k =>
      if negb up then mret (inr not_established)
      else if n <=? idx then mret (inr (Errorf "receiver index %d out of range" [pretty idx]))
      else if was_drained : bool then _ ← rcall idx MStop; mret (inr errDrained)
      else
        _ ← rcall idx MStop;
        r ← act (conn_Channel env k);
        match r with
        | inr e => mret (inr (Errorfw "open new receiver channel: %w" [] e))
        | inl ch =>
            topoErr ← rcall idx (MDeclare ch);
            match topoErr with
            | Some e => _ ← act (ch_Close ch); mret (inr (Errorfw "redeclare topology: %w" [] e))
            | None =>
                d ← crit (isDrained env);
                if d : bool then _ ← act (ch_Close ch); mret (inr errDrained)
                else
                  startErr ← rcall idx (MStart ch);
                  match startErr with
                  | Some e => _ ← act (ch_Close ch); mret (inr (Errorfw "restart receiver: %w" [] e))
                  | None => recheck_receiver_p k idx ch
                  end
            end
        end
  | None => mret (inr not_established)
  end.

(** One iteration of a channel's watcher: the channel to watch next, if any. *)
Definition watch_p (who : string) (recover : nat -> T (nat + error)) (declined : error -> bool)
    (idx ch : nat) : T (option nat) :=
  let say what := act (emit (CLog ("rabbitmq client: " +:+ who +:+ " channel " +:+ what))) in
  n ← act (emit (CNotifyCloseCh ch) ;; gets (fun s => closed (clog s)));
  match n with
  | WDone => mret None
  | _ =>
      done ← act (ctxErr env);
      if done : bool then mret None
      else
        match n with
        | WError rec =>
            if isConnectionLevel (Some rec) then
              _ ← say "closed (connection-level); deferring to reconnect"; mret None
            else
              _ ← say "closed; attempting recovery";
              r ← recover idx;
              match r with
              | inr e =>
                  _ ← say (if declined e then "closed after the drain; not recovering it"
                           else "recovery failed; deferring to reconnect");
                  mret None
              | inl newCh =>
                  _ ← act (record_points (Metrics.Client.IncrChannelReopens (metrics cfg)));
                  _ ← say "recovered";
                  mret (Some newCh)
              end
        | _ => mret None
        end
  end.

Definition watchSender_p : nat -> nat -> T (option nat) :=
  watch_p "sender" recoverSenderChannel_p (fun _ => false).
Definition watchReceiver_p : nat -> nat -> T (option nat) :=
  watch_p "receiver" recoverReceiverChannel_p (fun e => errors_Is e errDrained_text).

(** *** The programs by themselves *)

Definition method (f : RMethod) : R -> option error * R :=
  match f with
  | MStop => Stop_
  | MDeclare ch => DeclareTopology_ ch
  | MStart ch => Start_ ch
  | MDrain => Drain_
  end.

(** A program run by itself, with nothing to wait for. *)
Fixpoint alone {A} (p : T A) : C A :=
  match p with
  | PRet a => mret a
  | PAct _ m k => x ← m; alone (k x)
  | PRecv i f k => e ← on_receiver i (method f); alone (k e)
  | PLock p | PUnlock p | PAwaitDone p | PCloseDone p => alone p
  end.

(** *** The goroutines *)

(** The deferred close of [connectAndWatch]. *)
Definition exit_p : T (option Routine) := PCloseDone (mret None).

Definition body (r : Routine) : T (option Routine) :=
  match r with
  | RConnect initial attempt =>
      res ← attempt_p initial attempt;
      match res with
      | Some (Connected k) => mret (Some (RWatchConn k))
      | Some _ => exit_p
      | None => mret (Some (RConnect initial (attempt + 1)))
      end
  | RWatchConn k => lost ← await_loss_p k; if lost : bool then mret (Some (RConnect false 0)) else exit_p
  | RWatchSender idx ch => next ← watchSender_p idx ch; mret (RWatchSender idx <$> (next : option nat))
  | RWatchReceiver idx ch => next ← watchReceiver_p idx ch; mret (RWatchReceiver idx <$> (next : option nat))
  | RStart => _ ← Start_p; mret None
  | RStop => _ ← Stop_p; mret None
  | RDrain order => _ ← Drain_p order; mret None
  end.

(** ** The machine *)

(** [c.mu]'s holder, whether [reconnectDone] is closed, the client, and every
    goroutine ever started ([PRet None] once it has returned). *)
Record Pool := {
  mu : option nat;
  done_ : bool;
  shared : CState S R;
  threads : gmap nat (T (option Routine));
}.

(** A host's call, an action of a goroutine, the return of the receiver's
    method it called, and a change of a receiver. *)
Inductive label :=
| LCall (r : Routine)
| LRun (t : nat)
| LReturn (t : nat) (e : option error)
| LRecv (i : nat) (r : R).

(** The goroutine a [go] statement starts. *)
Definition spawned (e : CEvent) : option Routine :=
  match e with
  | CGo "connectAndWatch" _ _ => Some (RConnect true 0)
  | CGo "watchSenderChannel" i ch => Some (RWatchSender i ch)
  | CGo "watchReceiverChannel" i ch => Some (RWatchReceiver i ch)
  | _ => None
  end.

Definition add_thread (ts : gmap nat (T (option Routine))) (r : Routine) :=
  <[fresh (dom ts) := PRet (Some r)]> ts.

(** Goroutine [t] is at [p]; the log grew from [l] by what it did. *)
Definition settle_thread (t : nat) (p : T (option Routine)) (l : list CEvent) (s : CState S R) (x : Pool) : Pool :=
  {| mu := mu x; done_ := done_ x; shared := s;
     threads := foldl add_thread (<[t := p]> (threads x)) (omap spawned (drop (length l) (clog s))) |}.

Definition at_prog (t : nat) (p : T (option Routine)) (m : option nat) (d : bool) (x : Pool) : Pool :=
  {| mu := m; done_ := d; shared := shared x; threads := <[t := p]> (threads x) |}.

Definition run_thread (t : nat) (x : Pool) : option Pool :=
  p ← threads x !! t;
  match p with
  | PRet None => None
  | PRet (Some r) => Some (at_prog t (body r) (mu x) (done_ x) x)
  | PAct locks m k =>
      if locks && bool_decide (is_Some (mu x)) then None
      else let '(a, s) := m (shared x) in Some (settle_thread t (k a) (clog (shared x)) s x)
  | PRecv _ _ _ => None
  | PLock p => match mu x with None => Some (at_prog t p (Some t) (done_ x) x) | Some _ => None end
  | PUnlock p => Some (at_prog t p None (done_ x) x)
  | PAwaitDone p => if done_ x then Some (at_prog t p (mu x) (done_ x) x) else None
  | PCloseDone p => Some (at_prog t p (mu x) true x)
  end.

Definition return_thread (t : nat) (e : option error) (x : Pool) : option Pool :=
  p ← threads x !! t;
  match p with PRecv _ _ k => Some (at_prog t (k e) (mu x) (done_ x) x) | _ => None end.

Definition set_receiver (i : nat) (r : R) (x : Pool) : Pool :=
  {| mu := mu x; done_ := done_ x; threads := threads x;
     shared := shared x <| receivers := <[i := r]> (receivers (shared x)) |> |}.

(** The calls a host makes. *)
Definition is_call (n : nat) (r : Routine) : bool :=
  match r with
  | RStart | RStop => true
  | RDrain order => bool_decide (order ≡ₚ seq 0 n)
  | _ => false
  end.

Definition exec (x : Pool) (l : label) : option Pool :=
  match l with
  | LRun t => run_thread t x
  | LReturn t e => return_thread t e x
  | LRecv i r => Some (set_receiver i r x)
  | LCall r =>
      if is_call (length (receivers (shared x))) r
      then Some {| mu := mu x; done_ := done_ x; shared := shared x; threads := add_thread (threads x) r |}
      else None
  end.

Definition pstep (x : Pool) (l : label) (x' : Pool) : Prop := exec x l = Some x'.

(** A client with its senders and receivers added, before any call. *)
Definition ready (ss : list S) (rs : list R) : Pool :=
  {| mu := None; done_ := false; threads := ∅;
     shared := NewClient <| senders := ss |> <| receivers := rs |> |}.

(** Every goroutine has returned. *)
Definition at_rest (x : Pool) : Prop := map_Forall (fun _ p => p = PRet None) (threads x).
End programs.
