(* ===== verification/ClientLogic.v ===== *)
(** * Checking the client's goroutines one at a time

    A goroutine's program is checked once ([wp]), against what it may do to
    the shared client ([moved]) and what it may assume ([rely], and for the one
    goroutine that owns it, the part [view] shows). Most actions are [still]:
    they leave whatever is tracked alone; [still] pushes that through whole
    programs. ClientRunLife.v has the two sets of tokens this is used with. *)

From S2P Require Import Prelude GoLib Config Metrics Links Client ClientSetup ClientLife ClientRun.

(** ** Checking a program *)

Section logic.
Context {St K V : Type}.
(** What holds between any two actions, the owner's part of the state, and
    which tokens own it. *)
Context (rely : St -> Prop) (view : St -> V) (owns : K -> bool).
(** The change an action may make, and the token after it. *)
Context (moved : K -> K -> St -> St -> Prop).
(** The tokens around [PAwaitDone] and [PCloseDone], and what the first learns. *)
Context (awaits : K -> K -> Prop) (learns : K -> V -> Prop) (closes : K -> K -> V -> Prop).

Fixpoint wp {A} (p : Prog St A) (k : K) (v : V) (Q : A -> K -> V -> Prop) : Prop :=
  match p with
  | PRet a => Q a k v
  | PAct _ m f =>
      forall s, rely s -> (owns k = true -> view s = v) ->
      exists k', rely (m s).2 /\ moved k k' s (m s).2 /\
                 wp (f (m s).1) k' (if owns k then view (m s).2 else v) Q
  | PRecv _ _ f => forall e, wp (f e) k v Q
  | PLock p | PUnlock p => wp p k v Q
  | PAwaitDone p => exists k', awaits k k' /\ forall v', learns k' v' -> wp p k' v' Q
  | PCloseDone p => exists k', closes k k' v /\ wp p k' v Q
  end.

Lemma wp_mono {A} (p : Prog St A) k v (Q Q' : A -> K -> V -> Prop) :
  (forall a k v, Q a k v -> Q' a k v) -> wp p k v Q -> wp p k v Q'.
Proof.
  intros HQ. revert k v. induction p as [a|X l m f IH|i c f IH|p IH|p IH|p IH|p IH]; intros k v; simpl; eauto.
  - intros H s Hr Hv. destruct (H s Hr Hv) as (k' & ? & ? & ?). eauto 6.
  - intros (k' & ? & ?). eauto.
  - intros (k' & ? & ?). eauto.
Qed.

Lemma wp_bind {A B} (p : Prog St A) (f : A -> Prog St B) k v Q :
  wp p k v (fun a k v => wp (f a) k v Q) -> wp (p ≫= f) k v Q.
Proof.
  unfold mbind, Prog_bind. revert k v.
  induction p as [a|X l m g IH|i c g IH|p IH|p IH|p IH|p IH]; intros k v; simpl; eauto.
  - intros H s Hr Hv. destruct (H s Hr Hv) as (k' & ? & ? & ?). eauto 6.
  - intros (k' & ? & ?). eauto.
  - intros (k' & ? & ?). eauto.
Qed.

(** A token that owns nothing does not depend on the view. *)
Lemma wp_any {A} (p : Prog St A) k v v' (Q : A -> K -> V -> Prop) :
  (forall k k' s s', owns k = false -> moved k k' s s' -> owns k' = false) ->
  (forall k k' v, closes k k' v -> owns k = true) ->
  owns k = false -> (forall a k, owns k = false -> Q a k v -> Q a k v') ->
  wp p k v Q -> wp p k v' Q.
Proof.
  intros Hm Hc Hk HQ. revert k Hk. induction p as [a|X l m f IH|i c f IH|p IH|p IH|p IH|p IH]; intros k Hk; simpl; eauto.
  - intros H s Hr _. destruct (H s Hr) as (k' & ? & Hmv & Hw); [by rewrite Hk|].
    exists k'. rewrite Hk in *. split_and!; [done..|]. apply IH; [by eapply Hm|done].
  - intros (k' & Hcl & _). apply Hc in Hcl. congruence.
Qed.

(** Actions that leave every token where it is. *)
Definition still {X} (m : M St X) : Prop :=
  forall s, rely s -> rely (m s).2 /\ view (m s).2 = view s /\ forall k, moved k k s (m s).2.

Fixpoint still_p {A} (p : Prog St A) : Prop :=
  match p with
  | PRet _ => True
  | PAct _ m f => still m /\ forall x, still_p (f x)
  | PRecv _ _ f => forall e, still_p (f e)
  | PLock p | PUnlock p => still_p p
  | PAwaitDone _ | PCloseDone _ => False
  end.

Lemma still_p_bind {A B} (p : Prog St A) (f : A -> Prog St B) :
  still_p p -> (forall a, still_p (f a)) -> still_p (p ≫= f).
Proof.
  intros Hp Hf. unfold mbind, Prog_bind. revert Hp. induction p as [a|X l m g IH|i c g IH|p IH|p IH|p IH|p IH]; simpl; eauto.
  intros [Hm Hg]. eauto.
Qed.

Lemma wp_still {A} (p : Prog St A) k v (Q : A -> K -> V -> Prop) :
  still_p p -> (forall a, Q a k v) -> wp p k v Q.
Proof.
  intros Hp HQ. revert Hp. induction p as [a|X l m g IH|i c g IH|p IH|p IH|p IH|p IH]; simpl; try done; eauto.
  intros [Hm Hg] s Hr Hv. destruct (Hm s Hr) as (Hr' & Hv' & Hk). exists k. split_and!; [done..|].
  destruct (owns k); [rewrite Hv', Hv by done|]; eauto.
Qed.
End logic.

Create HintDb still discriminated.
Create HintDb keeps discriminated.

(** Push [still_p] through a program, down to its actions. *)
Ltac still :=
  repeat (intros; lazymatch goal with
    | |- still_p _ _ _ (_ ≫= _) => apply still_p_bind; [|intros ?]
    | |- still_p _ _ _ (match ?x with _ => _ end) => destruct x
    | |- still_p _ _ _ (act _) => split; [|intros ?; exact I]
    | |- still_p _ _ _ (crit _) => split; [|intros ?; exact I]
    | |- still_p _ _ _ (rcall _ _) => intros ?; exact I
    | |- still_p _ _ _ (mret _) => exact I
    | |- still_p _ _ _ (when_p _ _) => unfold when_p
    | |- still_p _ _ _ (PLock _) => cbn [still_p]
    | |- still_p _ _ _ (PUnlock _) => cbn [still_p]
    | |- still_p _ _ _ (let '(_, _) := ?x in _) => destruct x
    | |- True => exact I
    end); eauto with still.

(** ** What most actions leave alone *)

(** An event that is no notification, cancels nothing and starts no
    supervisor. *)
Definition calm (e : CEvent) : bool :=
  match e with
  | COnConnect | COnDisconnect | CCancelLife => false
  | CGo g _ _ => bool_decide (g = "watchSenderChannel") || bool_decide (g = "watchReceiverChannel")
  | _ => true
  end.

Section framed.
Context {S R : Type} `{!SenderLink S, !ReceiverLink R} (cfg : Config) (env : Env).
Implicit Types s : CState S R.

Record framed s s' : Prop := {
  fr_connected : connected s' = connected s;
  fr_conn : conn s' = conn s;
  fr_started : started s' = started s;
  fr_stopping : stopping s' = stopping s;
  fr_clog : exists l, clog s' = clog s ++ l /\ Forall (fun e => calm e = true) l;
}.

Lemma framed_refl s : framed s s.
Proof. split; try done. exists []. by rewrite app_nil_r. Qed.

Lemma framed_trans s1 s2 s3 : framed s1 s2 -> framed s2 s3 -> framed s1 s3.
Proof.
  intros [? ? ? ? (l1 & H1 & F1)] [? ? ? ? (l2 & H2 & F2)]. split; try congruence.
  exists (l1 ++ l2). split; [by rewrite H2, H1, <- app_assoc|by apply Forall_app].
Qed.

(** Nothing but the log, and that calmly; no sender and no receiver. *)
Definition keeps {X} (m : M (CState S R) X) : Prop :=
  forall s, framed s (m s).2 /\ senders (m s).2 = senders s /\ receivers (m s).2 = receivers s.

Lemma keeps_bind {X Y} (m : M (CState S R) X) (f : X -> M (CState S R) Y) :
  keeps m -> (forall x, keeps (f x)) -> keeps (m ≫= f).
Proof.
  intros Hm Hf s. rewrite M_bind_run. specialize (Hm s). destruct (m s) as [x s'].
  destruct Hm as (H1 & E1 & R1), (Hf x s') as (H2 & E2 & R2).
  split_and!; [by eapply framed_trans|by rewrite E2|by rewrite R2].
Qed.
Lemma keeps_ret {X} (x : X) : keeps (mret x).
Proof. intros s. split; [apply framed_refl|done]. Qed.
Lemma keeps_gets {X} (f : CState S R -> X) : keeps (gets f).
Proof. intros s. split; [apply framed_refl|done]. Qed.
Lemma keeps_emit e : calm e = true -> keeps (emit e).
Proof. intros He s. split; [split; try done; by exists [e]; auto|done]. Qed.
Lemma keeps_points ps : keeps (record_points ps).
Proof.
  intros s. split; [split; try done|done]. exists (map CMetric ps). split; [done|].
  by apply Forall_map, Forall_true.
Qed.
Lemma keeps_quiet (f : CState S R -> CState S R) :
  (forall s, framed s (f s) /\ senders (f s) = senders s /\ receivers (f s) = receivers s) -> keeps (modify f).
Proof. done. Qed.
End framed.
#[export] Hint Resolve keeps_bind keeps_ret keeps_gets keeps_emit keeps_points : keeps.

(** An update of fields outside the frame. *)
Ltac unframed := intros ?; split; [split; try done; exists []; by rewrite app_nil_r|done].

Section actions.
Context {S R : Type} `{!SenderLink S, !ReceiverLink R} (cfg : Config) (env : Env).
Abbreviation keeps := (@keeps S R).

Lemma keeps_conn_Channel k : keeps (conn_Channel env k).
Proof.
  apply keeps_bind; [apply keeps_gets|]. intros [e|]; [auto with keeps|].
  apply keeps_bind; [apply keeps_gets|]. intros n. apply keeps_bind; [unframed|]. auto with keeps.
Qed.
Lemma keeps_ch_Close c : keeps (ch_Close c).
Proof. apply keeps_bind; [unframed|]. auto with keeps. Qed.
Lemma keeps_conn_Close k : keeps (conn_Close env k).
Proof. apply keeps_bind; [unframed|]. auto with keeps. Qed.
Lemma keeps_isDrained : keeps (isDrained env).
Proof. apply keeps_bind; [auto with keeps|]. intros _. apply keeps_bind; [unframed|]. auto with keeps. Qed.
Lemma keeps_receiver_queue i : keeps (receiver_queue i).
Proof. apply keeps_gets. Qed.
Lemma keeps_ctxErr : keeps (ctxErr env).
Proof. unfold ctxErr. auto with keeps. Qed.
Lemma keeps_dialOne url : keeps (dialOne cfg env url).
Proof.
  apply keeps_bind; [auto with keeps|]. intros _. apply keeps_bind; [auto with keeps|].
  intros [e|]; [auto with keeps|]. apply keeps_bind; [auto with keeps|]. intros n.
  apply keeps_bind; [unframed|]. auto with keeps.
Qed.
Lemma keeps_drained : keeps (modify (fun s => s <| drained := true |>)).
Proof. unframed. Qed.
Lemma keeps_held sChs rChs : keeps (modify (fun s => s <| senderChs := sChs |> <| receiverChs := rChs |>)).
Proof. unframed. Qed.
Lemma keeps_senderChs f : keeps (modify (fun s => s <| senderChs := f s |>)).
Proof. unframed. Qed.
Lemma keeps_receiverChs f : keeps (modify (fun s => s <| receiverChs := f s |>)).
Proof. unframed. Qed.
End actions.
#[export] Hint Resolve keeps_conn_Channel keeps_ch_Close keeps_conn_Close keeps_isDrained keeps_ctxErr keeps_receiver_queue
  keeps_dialOne keeps_drained keeps_held keeps_senderChs keeps_receiverChs : keeps.

(** ** Programs made of such actions *)

Section still_programs.
Context {S R : Type} `{!SenderLink S, !ReceiverLink R} (cfg : Config) (env : Env).
Context (closed : list CEvent -> ChannelClosed).
Context {K V : Type} (rely : CState S R -> Prop) (view : CState S R -> V).
Context (moved : K -> K -> CState S R -> CState S R -> Prop).
Abbreviation quiet := (still rely view moved).
Abbreviation quiet_p := (still_p rely view moved).
Context (Hkeeps : forall X (m : M (CState S R) X), keeps m -> quiet m).

#[local] Hint Extern 3 (still _ _ _ _) => apply Hkeeps : still.
#[local] Hint Extern 4 (keeps _) => auto with keeps : still.

Lemma still_for_each {A} (l : list A) (f : A -> Prog (CState S R) unit) :
  (forall x, quiet_p (f x)) -> quiet_p (for_each_p l f).
Proof. intros Hf. induction l; cbn [for_each_p]; still. Qed.
Lemma still_collect {A B} (l : list A) (f : A -> Prog (CState S R) B) :
  (forall x, quiet_p (f x)) -> quiet_p (collect_p l f).
Proof. intros Hf. induction l; cbn [collect_p]; still. Qed.
#[local] Hint Resolve still_for_each still_collect : still.

Lemma still_receivers_Stop : quiet_p receivers_Stop_p.
Proof. unfold receivers_Stop_p. still. apply still_collect. still. Qed.
#[local] Hint Resolve still_receivers_Stop : still.

Lemma still_closes chs : quiet_p (for_each_p chs (fun c => act (ch_Close c))).
Proof. apply still_for_each. still. Qed.

Lemma still_go_all g i chs :
  calm (CGo g 0 0) = true -> quiet_p (go_all_p g i chs).
Proof.
  intros Hg. revert i. induction chs as [|ch chs IH]; intros i; cbn [go_all_p]; still.
Qed.

Lemma still_recoverReceiver idx : quiet_p (recoverReceiverChannel_p env idx).
Proof. unfold recoverReceiverChannel_p, recheck_receiver_p. still. Qed.

Lemma still_watch who recover declined idx ch :
  quiet_p (recover idx) -> quiet_p (watch_p cfg env closed who recover declined idx ch).
Proof. intros Hr. unfold watch_p. still. Qed.

Lemma still_Drain order : quiet_p (Drain_p order).
Proof. unfold Drain_p. still. apply still_collect. still. Qed.

(** Those that give sender [idx] a channel, when that is one of them. *)
Lemma still_recoverSender idx :
  (forall c, quiet (sender_SetChannel idx c)) -> quiet_p (recoverSenderChannel_p env idx).
Proof. intros Hs. unfold recoverSenderChannel_p, recheck_sender_p. still. Qed.

Section senders.
Context (Hset : forall i c, quiet (sender_SetChannel i c)).

Lemma still_senders_off : quiet_p senders_off_p.
Proof. unfold senders_off_p. still. apply still_for_each. still. Qed.
#[local] Hint Resolve still_senders_off still_closes : still.

Lemma still_failed sChs rChs e : quiet_p (failed_p sChs rChs e).
Proof. unfold failed_p, cleanup_p. still. Qed.
#[local] Hint Resolve still_failed : still.

Lemma still_setup_senders k i n sChs : quiet_p (setup_senders_p cfg env k i n sChs).
Proof. revert i sChs. induction n; intros i sChs; cbn [setup_senders_p]; still. Qed.

Lemma still_setup_receivers k i n sChs rChs : quiet_p (setup_receivers_p cfg env k i n sChs rChs).
Proof. revert i rChs. induction n; intros i rChs; cbn [setup_receivers_p]; still. Qed.
#[local] Hint Resolve still_setup_senders still_setup_receivers still_go_all : still.

Lemma still_setupChannels k : quiet_p (setupChannels_p cfg env k).
Proof. unfold setupChannels_p. still. Qed.
End senders.
End still_programs.
