(* ===== verification/ClientRunLife.v ===== *)
(** * Interleaved goroutines of the client: notifications and teardown

    Every goroutine has a token, and [exec] preserves an invariant of the
    tokens. Two sets of tokens: who owns the connection state -- the
    supervisor, then the one Stop that waited for it -- and who still owes a
    sender its disconnection. The properties are at the end. *)

From S2P Require Import Prelude GoLib Config Metrics Links Client ClientSetup ClientLife ClientRun ClientLogic.

(** ** Who owns the connection state *)

(** [TSpawn] is a Start about to start the supervisor, [TSup] the supervisor,
    [TStop] the one Stop that waits for it, and [TTail] that Stop once it has
    seen [reconnectDone] closed. *)
Inductive Tok := TNone | TSpawn | TSup | TStop | TTail.
#[export] Instance Tok_eq_dec : EqDecision Tok.
Proof. solve_decision. Defined.

Definition owns (k : Tok) : bool := match k with TSup | TTail => true | _ => false end.

(** [connected], the notifications so far, and [conn]. *)
Definition View : Type := bool * option bool * option nat.

Definition spawns (l : list CEvent) : list Routine := omap spawned l.
Definition quiet_routine (r : Routine) : bool :=
  match r with RWatchSender _ _ | RWatchReceiver _ _ => true | _ => false end.
Definition calmly (l : list CEvent) : Prop :=
  (CCancelLife ∉ l) /\ Forall (fun r => quiet_routine r = true) (spawns l).

Section owner.
Context {S R : Type} `{!SenderLink S, !ReceiverLink R} (cfg : Config) (env : Env).
Context (closed : list CEvent -> ChannelClosed).
Implicit Types s : CState S R.

Definition view s : View := (connected s, replay false (clog s), conn s).

(** The host listens to both notifications; they alternate; and the last one
    says whether the client is connected. *)
Definition both : Prop := OnConnect cfg = true /\ OnDisconnect cfg = true.
Definition alternating (v : View) : Prop := both -> is_Some v.1.2.
Definition settled (v : View) : Prop := both -> v.1.2 = Some v.1.1.
Definition rely s : Prop := alternating (view s).

Definition moved (k k' : Tok) s s' : Prop := exists l, clog s' = clog s ++ l /\
  match k, k' with
  | TNone, TNone | TSpawn, TSpawn =>
      started s' = started s /\ (stopping s = true -> stopping s' = true) /\ view s' = view s /\ calmly l
  | TStop, TStop =>
      started s' = started s /\ stopping s' = stopping s /\ view s' = view s /\
      Forall (fun r => quiet_routine r = true) (spawns l)
  | TSup, TSup | TTail, TTail => started s' = started s /\ stopping s' = stopping s /\ calmly l
  | TNone, TSpawn =>
      started s = false /\ started s' = true /\ stopping s' = stopping s /\ view s' = view s /\ calmly l
  | TNone, TStop =>
      started s = true /\ stopping s = false /\ started s' = true /\ stopping s' = true /\
      view s' = view s /\ calmly l
  | TSpawn, TNone =>
      started s' = started s /\ stopping s' = stopping s /\ view s' = view s /\
      (CCancelLife ∉ l) /\ spawns l = [RConnect true 0]
  | _, _ => False
  end.

Definition awaits (k k' : Tok) : Prop := k = TStop /\ k' = TTail.
Definition learns (k : Tok) (v : View) : Prop := settled v.
Definition closes (k k' : Tok) (v : View) : Prop := k = TSup /\ k' = TNone /\ settled v.

Abbreviation wp := (wp rely view owns moved awaits learns closes).
Abbreviation ostill := (still rely view moved).
Abbreviation ostill_p := (still_p rely view moved).

(** What a goroutine may begin, and end, with. *)
Definition entry (r : Routine) (k : Tok) (v : View) : Prop :=
  match r, k with
  | RConnect _ _, TSup => settled v /\ v.1.1 = false
  | RWatchConn _, TSup => settled v
  | (RWatchSender _ _ | RWatchReceiver _ _ | RStart | RStop | RDrain _), TNone => True
  | _, _ => False
  end.
Definition leave (next : option Routine) (k : Tok) (v : View) : Prop :=
  match next with
  | Some r => entry r k v
  | None => k = TNone \/ (k = TTail /\ settled v /\ v.1.1 = false /\ v.2 = None)
  end.
Definition safe (p : Prog (CState S R) (option Routine)) (k : Tok) (v : View) : Prop := wp p k v leave.

Lemma calm_replay up l : Forall (fun e => calm e = true) l -> replay up l = Some up.
Proof. induction 1 as [|e l He _ IH]; [done|]. by destruct e. Qed.

Lemma calm_calmly l : Forall (fun e => calm e = true) l -> calmly l.
Proof.
  intros Hl. split.
  - intros Hin. rewrite Forall_forall in Hl. by apply Hl in Hin.
  - unfold spawns. induction Hl as [|e l He _ IH]; [constructor|]. simpl.
    destruct (spawned e) as [r|] eqn:Hr; [|done]. constructor; [|done].
    destruct e; try done. simpl in He, Hr. apply orb_true_iff in He as [He|He];
      apply bool_decide_eq_true in He as ->; simpl in Hr; by simplify_eq.
Qed.

Lemma framed_view s s' : framed s s' -> view s' = view s.
Proof.
  intros [Hc Hk _ _ (l & Hl & Hcalm)]. unfold view. rewrite Hc, Hk, Hl, replay_app.
  destruct (replay false (clog s)) as [up|]; simpl; [by rewrite calm_replay|done].
Qed.

Lemma framed_still {X} (m : M (CState S R) X) : (forall s, framed s (m s).2) -> ostill m.
Proof.
  intros Hm s Hr. specialize (Hm s). pose proof (framed_view _ _ Hm) as Hv.
  destruct Hm as [_ _ Hs Ht (l & Hl & Hcalm)]. apply calm_calmly in Hcalm.
  split; [by unfold rely; rewrite Hv|]. split; [done|]. intros k. exists l. split; [done|].
  destruct Hcalm. rewrite Hs, Ht. by destruct k; split_and!.
Qed.

Lemma keeps_still {X} (m : M (CState S R) X) : keeps m -> ostill m.
Proof. intros Hm. apply framed_still. intros s. apply Hm. Qed.

Lemma still_SetChannel i c : ostill (sender_SetChannel i c).
Proof. apply framed_still. intros s. split; try done. exists []. by rewrite app_nil_r. Qed.
#[local] Hint Resolve still_SetChannel : still.
#[local] Hint Resolve still_SetChannel keeps_still : still.
#[local] Hint Extern 4 (keeps _) => auto with keeps : still.

(** *** The owner's programs *)

Lemma wp_own {X A} locks (m : M (CState S R) X) (f : X -> Prog (CState S R) A) k v Q :
  owns k = true ->
  (forall s, rely s -> view s = v ->
     rely (m s).2 /\ started (m s).2 = started s /\ stopping (m s).2 = stopping s /\
     (exists l, clog (m s).2 = clog s ++ l /\ calmly l) /\ wp (f (m s).1) k (view (m s).2) Q) ->
  wp (PAct locks m f) k v Q.
Proof.
  intros Hk H s Hr Hv. destruct (H s Hr (Hv Hk)) as (? & ? & ? & (l & ? & ?) & Hw).
  exists k. split; [done|]. rewrite Hk. split; [|done]. exists l. by destruct k.
Qed.

(** A notification that makes good a change of [connected]. *)
Lemma wp_notice b e up up' c r k Q :
  owns k = true -> (both -> b = true) -> is_notice e = true -> replay up [e] = Some up' ->
  (both -> r = Some up) -> (forall v, settled v -> v.1.1 = up' -> v.2 = c -> Q tt k v) ->
  wp (when_p b (act (emit e))) k (up', r, c) Q.
Proof.
  intros Hk Hb He Hup Hr HQ. destruct b; cbn [when_p].
  - apply wp_own; [done|]. intros s Hs Hv. unfold view in Hv. simplify_eq.
    assert (settled (view (emit e s).2)) as Hset.
    { intros Hboth. unfold view, emit, modify, rec_set. simpl. by rewrite replay_app, Hr. }
    split_and!; try done.
    + intros Hboth. rewrite Hset; [done..].
    + exists [e]. split; [done|]. destruct e; try done; split; try constructor; by intros [?|?%elem_of_nil]%elem_of_cons.
    + by apply HQ.
  - apply HQ; [|done..]. intros Hboth. by apply Hb in Hboth.
Qed.

(** The supervisor's report of a connection. *)
Lemma wp_established initial url k v Q :
  settled v -> v.1.1 = false ->
  (forall v', settled v' -> v'.1.1 = true -> Q tt TSup v') ->
  wp (established_p cfg env initial url k) TSup v Q.
Proof.
  destruct v as [[up r] c]. intros Hset Hup HQ. simpl in Hup. subst up. unfold established_p.
  apply wp_bind, wp_own; [done|]. intros s Hs Hv. unfold view in Hv. simplify_eq.
  split_and!; try done; [exists []; rewrite app_nil_r; by split; [|apply calm_calmly; constructor]|].
  apply wp_bind, wp_still; [still|]. intros _.
  apply wp_bind, wp_still; [still|]. intros _.
  apply wp_bind, wp_still; [still|]. intros _.
  eapply (wp_notice _ _ false true); try done; [by intros []|]. auto.
Qed.

Lemma wp_walk initial urls v Q :
  settled v -> v.1.1 = false ->
  (forall res v', settled v' -> (v'.1.1 = true <-> exists k, res = Some (Connected k)) -> Q res TSup v') ->
  wp (walk_p cfg env initial urls) TSup v Q.
Proof.
  intros Hset Hup HQ.
  assert (forall res, (forall k, res <> Some (Connected k)) -> Q res TSup v) as Hoff.
  { intros res Hres. apply HQ; [done|]. rewrite Hup. naive_solver. }
  induction urls as [|url urls IH]; cbn [walk_p]; [by apply Hoff|].
  apply wp_bind, wp_still; [still|]. intros [|]; [by apply Hoff|].
  apply wp_bind, wp_still; [still|]. intros [k|e].
  - apply wp_bind, wp_still; [by apply still_setupChannels; auto with still|]. intros [e|].
    + apply wp_bind, wp_still; [still|]. intros _. by apply wp_bind, wp_still; [still|].
    + apply wp_bind, wp_established; [done..|]. intros v' Hv' Hc. apply HQ; [done|]. naive_solver.
  - by apply wp_bind, wp_still; [still|].
Qed.

Lemma wp_attempt initial attempt v Q :
  settled v -> v.1.1 = false ->
  (forall res v', settled v' -> (v'.1.1 = true <-> exists k, res = Some (Connected k)) -> Q res TSup v') ->
  wp (attempt_p cfg env initial attempt) TSup v Q.
Proof.
  intros Hset Hup HQ. unfold attempt_p.
  assert (forall res v', settled v' -> v'.1.1 = false -> (forall k, res <> Some (Connected k)) -> Q res TSup v') as Hoff.
  { intros res v' Hv' Hc Hres. apply HQ; [done|]. rewrite Hc. naive_solver. }
  apply wp_bind, wp_still; [still|]. intros [|]; [by apply Hoff|].
  destruct (out_of_attempts cfg initial attempt).
  { apply wp_bind, wp_still; [still|]. intros _. by apply Hoff. }
  apply wp_bind, wp_walk; [done..|]. intros res v' Hv' Hc. destruct res as [res|].
  { by apply HQ. }
  assert (v'.1.1 = false) as Hc' by (apply not_true_is_false; rewrite Hc; naive_solver).
  apply wp_bind, wp_still; [still|]. intros _.
  apply wp_bind, wp_still; [still|]. intros [|]; by apply Hoff.
Qed.

(** Taking [connected] back, and saying so. *)
Lemma wp_take_connected {A} k v (f : bool -> Prog (CState S R) A) Q :
  owns k = true -> (forall r, r = v.1.2 -> wp (f v.1.1) k (false, r, v.2) Q) ->
  wp (x ← crit (b ← gets connected; modify (fun s => s <| connected := false |>) ;; mret b); f x) k v Q.
Proof.
  intros Hk HQ. apply wp_bind, wp_own; [done|]. intros s Hs Hv. subst v.
  split_and!; try done; [exists []; rewrite app_nil_r; by split; [|apply calm_calmly; constructor]|].
  by apply HQ.
Qed.

Lemma wp_disconnected was k r c Q :
  owns k = true -> (both -> r = Some was) ->
  (forall v, settled v -> v.1.1 = false -> v.2 = c -> Q tt k v) ->
  wp (when_p was (_ ← act (record_points (Metrics.Client.SetConnected (metrics cfg) false));
                  when_p (OnDisconnect cfg) (act (emit COnDisconnect)))) k (false, r, c) Q.
Proof.
  intros Hk Hr HQ. destruct was; cbn [when_p].
  - apply wp_bind, wp_still; [still|]. intros _. eapply (wp_notice _ _ true false); try done. by intros [].
  - by apply HQ.
Qed.

Lemma wp_await_loss k v Q :
  settled v ->
  (forall lost v', settled v' -> (lost = true -> v'.1.1 = false) -> Q lost TSup v') ->
  wp (await_loss_p cfg env k) TSup v Q.
Proof.
  intros Hset HQ. unfold await_loss_p.
  apply wp_bind, wp_still; [still|]. intros [| |e]; [by apply HQ|..];
    (apply wp_bind, wp_still; [still|]; intros [|]; [by apply HQ|]); [by apply HQ|].
  apply wp_bind, wp_still; [still|]. intros _. apply wp_bind. unfold handleDisconnect_p.
  apply wp_take_connected; [done|]. intros r ->.
  apply wp_bind, wp_still; [by apply still_receivers_Stop; auto with still|]. intros _.
  apply wp_bind, wp_still; [by apply still_senders_off; auto with still|]. intros _.
  apply wp_disconnected; [done..|]. intros v' Hv' Hc _. by apply HQ.
Qed.

(** *** Every routine is safe *)

Lemma calmly_nil : calmly [].
Proof. apply calm_calmly. constructor. Qed.

Lemma claim_start_run s :
  claim_start s = (started s, if started s then s else s <| started := true |>).
Proof. unfold claim_start. rewrite M_bind_run. unfold gets at 1. by destruct (started s). Qed.

Lemma claim_stop_run s :
  claim_stop s = (stopping s || negb (started s), s <| drained := true |> <| stopping := true |>).
Proof. done. Qed.

Lemma wp_Start v Q : (forall e, Q e TNone v) -> wp (Start_p cfg) TNone v Q.
Proof.
  intros HQ. unfold Start_p. destruct (decide _); [apply HQ|]. apply wp_bind. cbn [wp crit].
  intros s Hs _. rewrite claim_start_run. exists (if started s then TNone else TSpawn).
  destruct (started s) eqn:Hst; (split; [done|]); (split; [exists []; rewrite app_nil_r; split_and!; try done; apply calmly_nil|]);
    [apply HQ|].
  cbn [wp mbind Prog_bind prog_bind act fst owns]. intros s' Hs' _. exists TNone.
  assert (view (emit (CGo "connectAndWatch" 0 0) s').2 = view s') as Hv.
  { unfold view. simpl. rewrite replay_app. by destruct (replay false (clog s')). }
  split; [intros Hboth; rewrite Hv; by apply Hs'|]. split; [|apply HQ].
  exists [CGo "connectAndWatch" 0 0]. split_and!; try done. by intros [?|?%elem_of_nil]%elem_of_cons.
Qed.

Lemma wp_Stop_tail v Q :
  settled v -> (forall e v', settled v' -> v'.1.1 = false -> v'.2 = None -> Q e TTail v') ->
  wp (Stop_tail_p cfg env) TTail v Q.
Proof.
  intros Hset HQ. unfold Stop_tail_p.
  apply wp_bind, wp_still; [by apply still_receivers_Stop; auto with still|]. intros errs.
  apply wp_take_connected; [done|]. intros r ->. apply wp_bind, wp_disconnected; [done..|]. intros v1 Hv1 Hc1 _.
  apply wp_bind, wp_still; [by apply still_senders_off; auto with still|]. intros _.
  apply wp_bind, wp_own; [done|]. intros s Hs Hv. subst v1.
  split_and!; try done; [exists []; rewrite app_nil_r; by split; [|apply calmly_nil]|].
  apply wp_bind, wp_still; [by apply still_closes; auto with still|]. intros _.
  apply wp_bind, wp_still; [by apply still_closes; auto with still|]. intros _.
  destruct (conn s); [apply wp_bind, wp_still; [still|]; intros err|]; by apply HQ.
Qed.

Lemma wp_Stop v Q :
  (forall e k v', k = TNone \/ (k = TTail /\ settled v' /\ v'.1.1 = false /\ v'.2 = None) -> Q e k v') ->
  wp (Stop_p cfg env) TNone v Q.
Proof.
  intros HQ. unfold Stop_p. apply wp_bind. cbn [wp crit]. intros s Hs _. rewrite claim_stop_run.
  destruct (stopping s || negb (started s)) eqn:Hb.
  - exists TNone. split; [done|]. split; [|by apply HQ; left]. exists []. rewrite app_nil_r.
    split_and!; try done. apply calmly_nil.
  - apply orb_false_iff in Hb as [Hstop Hst%negb_false_iff]. exists TStop. split; [done|]. split.
    { exists []. rewrite app_nil_r. split_and!; try done. apply calmly_nil. }
    cbn [fst owns]. apply wp_bind. cbn [wp act].
    intros s' Hs' _. exists TStop.
    assert (view (emit CCancelLife s').2 = view s') as Hv.
    { unfold view. simpl. rewrite replay_app. by destruct (replay false (clog s')). }
    split; [intros Hboth; rewrite Hv; by apply Hs'|]. split.
    { by exists [CCancelLife]. }
    exists TTail. split; [done|]. intros v' Hv'. apply wp_Stop_tail; [done|]. intros. apply HQ. by right.
Qed.

Lemma safe_exit v : settled v -> safe exit_p TSup v.
Proof. intros Hv. exists TNone. split; [done|]. by left. Qed.

Lemma safe_body r k v : entry r k v -> safe (body cfg env closed r) k v.
Proof.
  unfold safe. destruct r as [initial attempt|kc|idx ch|idx ch| | |order], k; simpl entry; try done; intros Hen; unfold body.
  - destruct Hen as [Hset Hc]. apply wp_bind, wp_attempt; [done..|]. intros res v' Hv' Hres.
    destruct res as [[k| |]|]; [done|by apply safe_exit..|].
    split; [done|]. apply not_true_is_false. rewrite Hres. naive_solver.
  - apply wp_bind, wp_await_loss; [done|]. intros [] v' Hv' Hl; [split; [done|by apply Hl]|by apply safe_exit].
  - apply wp_bind, wp_still; [|intros [ch'|]; [exact I|by left]].
    apply still_watch; [auto with still|]. apply still_recoverSender; auto with still.
  - apply wp_bind, wp_still; [|intros [ch'|]; [exact I|by left]].
    apply still_watch; [auto with still|]. apply still_recoverReceiver; auto with still.
  - apply wp_bind, wp_Start. intros e. by left.
  - apply wp_bind, wp_Stop. intros e k v' Hk. exact Hk.
  - apply wp_bind, wp_still; [by apply still_Drain; auto with still|]. intros e. by left.
Qed.
End owner.

(** ** The invariant *)

Definition is_sup (k : Tok) : bool := match k with TSpawn | TSup => true | _ => false end.
Definition is_stop (k : Tok) : bool := match k with TStop | TTail => true | _ => false end.

Section pool.
Context {S R : Type} `{!SenderLink S, !ReceiverLink R} (cfg : Config) (env : Env).
Context (closed : list CEvent -> ChannelClosed).
Abbreviation Pool := (@Pool S R).
Implicit Types (x : Pool) (g : gmap nat Tok) (s : CState S R) (p : Prog (CState S R) (option Routine)).

Lemma moved_started k k' s s' : moved k k' s s' -> started s = true -> started s' = true.
Proof. intros (l & _ & H) Hs. destruct k, k'; naive_solver congruence. Qed.
Lemma moved_stopping k k' s s' : moved k k' s s' -> stopping s = true -> stopping s' = true.
Proof. intros (l & _ & H) Hs. destruct k, k'; naive_solver congruence. Qed.
Lemma moved_view k k' s s' : moved k k' s s' -> owns k = false -> view s' = view s.
Proof. intros (l & _ & H) Hk. destruct k, k'; naive_solver. Qed.
Lemma moved_owns k k' s s' : moved k k' s s' -> owns k' = owns k.
Proof. intros (l & _ & H). by destruct k, k'. Qed.
Lemma moved_sup k k' s s' :
  moved k k' s s' -> is_sup k' = true -> started s' = true \/ is_sup k = true.
Proof. intros (l & _ & H) Hk. destruct k, k'; naive_solver. Qed.
Lemma moved_new_sup k k' s s' :
  moved k k' s s' -> is_sup k' = true -> is_sup k = true \/ started s = false.
Proof. intros (l & _ & H) Hk. destruct k, k'; naive_solver. Qed.
Lemma moved_stop k k' s s' :
  moved k k' s s' -> is_stop k' = true ->
  is_stop k = true \/ stopping s = false /\ started s' = true /\ stopping s' = true.
Proof. intros (l & _ & H) Hk. destruct k, k'; naive_solver. Qed.
Lemma moved_still_stop k k' s s' : moved k k' s s' -> is_stop k = true -> is_stop k' = true.
Proof. intros (l & _ & H) Hk. by destruct k, k'. Qed.
Lemma moved_tail k k' s s' : moved k k' s s' -> k' = TTail <-> k = TTail.
Proof. intros (l & _ & H). by destruct k, k'. Qed.
Lemma moved_TSup k k' s s' : moved k k' s s' -> k' = TSup <-> k = TSup.
Proof. intros (l & _ & H). by destruct k, k'. Qed.
Lemma moved_cancel k k' s s' :
  moved k k' s s' -> CCancelLife ∈ clog s' -> CCancelLife ∈ clog s \/ is_stop k' = true.
Proof.
  intros (l & -> & H) [Hin|Hin]%elem_of_app; [by left|].
  destruct k, k'; try done; unfold calmly in H; naive_solver.
Qed.

(** The goroutines' tokens [g] are consistent with the client. *)
Record holds g x : Prop := {
  h_dom t : is_Some (g !! t) <-> is_Some (threads x !! t);
  h_safe t p k : threads x !! t = Some p -> g !! t = Some k -> safe cfg p k (view (shared x));
  h_one_sup t1 t2 k1 k2 :
    g !! t1 = Some k1 -> g !! t2 = Some k2 -> is_sup k1 = true -> is_sup k2 = true -> t1 = t2;
  h_one_stop t1 t2 k1 k2 :
    g !! t1 = Some k1 -> g !! t2 = Some k2 -> is_stop k1 = true -> is_stop k2 = true -> t1 = t2;
  h_sup t k : g !! t = Some k -> is_sup k = true -> started (shared x) = true /\ done_ x = false;
  h_stop t k : g !! t = Some k -> is_stop k = true -> started (shared x) = true /\ stopping (shared x) = true;
  h_tail t : g !! t = Some TTail -> done_ x = true;
  h_done : done_ x = true -> started (shared x) = true;
  h_off : done_ x = false -> (forall t, g !! t <> Some TSup) -> connected (shared x) = false;
  h_rest : (forall t k, g !! t = Some k -> owns k = false) -> settled cfg (view (shared x));
  h_rely : rely cfg (shared x);
  h_cancel : CCancelLife ∈ clog (shared x) -> exists t k, g !! t = Some k /\ is_stop k = true;
}.

(** At most one goroutine owns the connection state. *)
Lemma one_owner g x t1 t2 k1 k2 :
  holds g x -> g !! t1 = Some k1 -> g !! t2 = Some k2 -> owns k1 = true -> owns k2 = true -> t1 = t2.
Proof.
  intros H H1 H2 O1 O2. destruct k1, k2; try done.
  - by eapply (h_one_sup _ _ H).
  - pose proof (h_tail _ _ H _ H2). destruct (h_sup _ _ H _ _ H1); [done|congruence].
  - pose proof (h_tail _ _ H _ H1). destruct (h_sup _ _ H _ _ H2); [done|congruence].
  - by eapply (h_one_stop _ _ H).
Qed.

Lemma safe_any p k v v' : owns k = false -> safe cfg p k v -> safe cfg p k v'.
Proof.
  intros Hk. unfold safe. apply wp_any; [| |done|].
  - intros k1 k2 s s' Ho Hm. apply moved_owns in Hm. congruence.
  - by intros ? ? ? (-> & _).
  - intros [r|] k2 Ho; simpl; [by destruct r, k2|]. destruct k2; naive_solver.
Qed.

Definition others g t (P : Tok -> Prop) : Prop := forall u k, u <> t -> g !! u = Some k -> P k.

(** Goroutine [t], old or new, at [p] with token [k], the client at [s]. *)
Lemma holds_put g x t p k m d s :
  holds g x -> safe cfg p k (view s) -> rely cfg s ->
  others g t (fun k' => owns k' = true -> view s = view (shared x)) ->
  (started (shared x) = true -> started s = true) ->
  (stopping (shared x) = true -> stopping s = true) ->
  (done_ x = true -> d = true) -> (d = true -> started s = true /\ others g t (fun k' => is_sup k' = false)) ->
  (is_sup k = true -> others g t (fun k' => is_sup k' = false) /\ started s = true /\ d = false) ->
  (is_stop k = true -> others g t (fun k' => is_stop k' = false) /\ started s = true /\ stopping s = true) ->
  (k = TTail -> d = true) ->
  (d = false -> k <> TSup -> others g t (fun k' => k' <> TSup) -> connected s = false) ->
  (owns k = false -> others g t (fun k' => owns k' = false) -> settled cfg (view s)) ->
  (CCancelLife ∈ clog s -> is_stop k = true \/ exists u k', u <> t /\ g !! u = Some k' /\ is_stop k' = true) ->
  holds (<[t := k]> g) {| mu := m; done_ := d; shared := s; threads := <[t := p]> (threads x) |}.
Proof.
  intros H Hp Hr Hv Hst Hsp Hdm Hd Hsup Hstop Htail Hoff Hrest Hcan.
  assert (forall u ku, <[t := k]> g !! u = Some ku -> u = t /\ ku = k \/ u <> t /\ g !! u = Some ku) as Hins.
  { intros u ku. rewrite lookup_insert_Some. naive_solver. }
  assert (<[t := k]> g !! t = Some k) as Hk by apply lookup_insert_eq.
  assert (forall (P : Tok -> Prop), (forall u ku, <[t := k]> g !! u = Some ku -> P ku) -> others g t P) as Hothers.
  { intros P HP u ku Hne Hu. apply (HP u). by rewrite lookup_insert_ne. }
  split; simpl; try done.
  - intros u. destruct (decide (u = t)) as [->|]; [by rewrite !lookup_insert_eq|].
    rewrite !lookup_insert_ne by done. apply (h_dom _ _ H).
  - intros u pu ku Hpu [[-> ->]|[Hne Hu]]%Hins; [by rewrite lookup_insert_eq in Hpu; simplify_eq|].
    rewrite lookup_insert_ne in Hpu by done. pose proof (h_safe _ _ H _ _ _ Hpu Hu) as Hs.
    destruct (owns ku) eqn:Ho; [by rewrite (Hv u ku)|by eapply safe_any].
  - intros t1 t2 k1 k2 [[-> ->]|[? H1]]%Hins [[-> ->]|[? H2]]%Hins K1 K2; try done;
      [..|by eapply (h_one_sup _ _ H)]; exfalso.
    + destruct (Hsup K1) as [Ho _]. specialize (Ho t2 k2). naive_solver congruence.
    + destruct (Hsup K2) as [Ho _]. specialize (Ho t1 k1). naive_solver congruence.
  - intros t1 t2 k1 k2 [[-> ->]|[? H1]]%Hins [[-> ->]|[? H2]]%Hins K1 K2; try done;
      [..|by eapply (h_one_stop _ _ H)]; exfalso.
    + destruct (Hstop K1) as [Ho _]. specialize (Ho t2 k2). naive_solver congruence.
    + destruct (Hstop K2) as [Ho _]. specialize (Ho t1 k1). naive_solver congruence.
  - intros u ku [[-> ->]|[Hne Hu]]%Hins Hs; [by apply Hsup|].
    destruct (h_sup _ _ H _ _ Hu Hs). split; [auto|]. apply not_true_is_false. intros [_ Ho]%Hd.
    specialize (Ho u ku). naive_solver congruence.
  - intros u ku [[-> ->]|[Hne Hu]]%Hins Hs; [by apply Hstop|]. destruct (h_stop _ _ H _ _ Hu Hs). auto.
  - intros u [[-> Hu]|[Hne Hu]]%Hins; [auto|]. apply Hdm. by eapply (h_tail _ _ H).
  - intros ?. by apply Hd.
  - intros Hd' Hno. apply Hoff; [done| |].
    + intros ->. by apply (Hno t).
    + apply Hothers. intros u ku Hu ->. by apply (Hno u).
  - intros Hno. apply Hrest; [by eapply Hno|]. apply Hothers. eauto.
  - intros [|(u & ku & Hne & Hu & ?)]%Hcan; [by exists t, k|]. exists u, ku. by rewrite lookup_insert_ne.
Qed.

Lemma others_weaken g t (P Q : Tok -> Prop) : (forall k, P k -> Q k) -> others g t P -> others g t Q.
Proof. intros HPQ HP u k Hne Hu. apply HPQ. by eapply HP. Qed.

(** What the other goroutines' tokens cannot be, given that of [t]. *)
Lemma others_sup g x t k : holds g x -> g !! t = Some k -> is_sup k = true -> others g t (fun k' => is_sup k' = false).
Proof.
  intros H Hg Hk u ku Hne Hu. apply not_true_is_false. intros Hs. by eapply Hne, (h_one_sup _ _ H).
Qed.
Lemma others_stop g x t k : holds g x -> g !! t = Some k -> is_stop k = true -> others g t (fun k' => is_stop k' = false).
Proof.
  intros H Hg Hk u ku Hne Hu. apply not_true_is_false. intros Hs. by eapply Hne, (h_one_stop _ _ H).
Qed.
Lemma others_none_sup g x t : holds g x -> started (shared x) = false \/ done_ x = true ->
  others g t (fun k' => is_sup k' = false).
Proof.
  intros H Hx u ku Hne Hu. apply not_true_is_false. intros Hs.
  destruct (h_sup _ _ H _ _ Hu Hs), Hx; congruence.
Qed.
Lemma others_none_stop g x t : holds g x -> stopping (shared x) = false -> others g t (fun k' => is_stop k' = false).
Proof.
  intros H Hx u ku Hne Hu. apply not_true_is_false. intros Hs. destruct (h_stop _ _ H _ _ Hu Hs). congruence.
Qed.

(** With [t] the whole pool: what was known without it. *)
Lemma rest_of g x t k :
  holds g x -> g !! t = Some k -> owns k = false -> others g t (fun k' => owns k' = false) ->
  settled cfg (view (shared x)).
Proof.
  intros H Hg Hk Ho. apply (h_rest _ _ H). intros u ku Hu.
  destruct (decide (u = t)) as [->|]; [congruence|by eapply Ho].
Qed.
Lemma off_of g x t k :
  holds g x -> g !! t = Some k -> k <> TSup -> done_ x = false -> others g t (fun k' => k' <> TSup) ->
  connected (shared x) = false.
Proof.
  intros H Hg Hk Hd Ho. apply (h_off _ _ H); [done|]. intros u Hu.
  destruct (decide (u = t)) as [->|]; [congruence|by eapply (Ho u)].
Qed.
Lemma cancel_of g x t k :
  holds g x -> g !! t = Some k -> CCancelLife ∈ clog (shared x) ->
  is_stop k = true \/ exists u k', u <> t /\ g !! u = Some k' /\ is_stop k' = true.
Proof.
  intros H Hg (u & ku & Hu & Hs)%(h_cancel _ _ H).
  destruct (decide (u = t)) as [->|]; [left; congruence|right; eauto].
Qed.

(** One action of goroutine [t], before the goroutines it starts. *)
Lemma holds_move g x t p k k' m s :
  holds g x -> g !! t = Some k -> moved k k' (shared x) s -> rely cfg s -> safe cfg p k' (view s) ->
  holds (<[t := k']> g) {| mu := m; done_ := done_ x; shared := s; threads := <[t := p]> (threads x) |}.
Proof.
  intros H Hg Hm Hr Hp. assert (owns k = false -> view s = view (shared x)) as Hview by by apply moved_view with k'.
  apply holds_put; auto.
  - intros u ku Hne Hu Ho. apply Hview, not_true_is_false. intros Hk. by destruct (one_owner _ _ _ _ _ _ H Hu Hg Ho Hk).
  - by eapply moved_started.
  - by eapply moved_stopping.
  - intros Hd. split; [eapply moved_started; [done|by apply (h_done _ _ H)]|].
    apply (others_none_sup _ x); auto.
  - intros Hk. destruct (moved_new_sup _ _ _ _ Hm Hk) as [Hs|Hs].
    + destruct (h_sup _ _ H _ _ Hg Hs). split_and!; [by eapply others_sup|by eapply moved_started|done].
    + split; [by apply (others_none_sup _ x); auto|]. split.
      * destruct (moved_sup _ _ _ _ Hm Hk) as [|Hk']; [done|]. destruct (h_sup _ _ H _ _ Hg Hk'). congruence.
      * apply not_true_is_false. intros Hd%(h_done _ _ H). congruence.
  - intros Hk. destruct (moved_stop _ _ _ _ Hm Hk) as [Hs|(Hs & ? & ?)]; [|by split; [eapply others_none_stop|]].
    destruct (h_stop _ _ H _ _ Hg Hs). split; [by eapply others_stop|].
    split; [by eapply moved_started|by eapply moved_stopping].
  - intros Hk. apply (moved_tail _ _ _ _ Hm) in Hk as ->. by eapply (h_tail _ _ H).
  - intros Hd Hk Ho. assert (k <> TSup) as Hk' by (intros ->; by apply Hk, (moved_TSup _ _ _ _ Hm)).
    assert (owns k = false) as Hown by (destruct k; try done; apply (h_tail _ _ H) in Hg; congruence).
    apply Hview in Hown. unfold view in Hown. simplify_eq.
    pose proof (off_of _ _ _ _ H Hg Hk' Hd Ho). congruence.
  - intros Hk Ho. rewrite (moved_owns _ _ _ _ Hm) in Hk. rewrite Hview by done. by eapply rest_of.
  - intros Hc. destruct (moved_cancel _ _ _ _ Hm Hc) as [Hc'|]; [|by left].
    destruct (cancel_of _ _ _ _ H Hg Hc') as [Hk|]; [left; by eapply moved_still_stop|by right].
Qed.

(** A step that changes neither the client nor who owns what. *)
Lemma holds_at g x t p k m :
  holds g x -> g !! t = Some k -> safe cfg p k (view (shared x)) ->
  holds g (at_prog t p m (done_ x) x).
Proof.
  intros H Hg Hp. rewrite <- (insert_id g t k) by done.
  apply holds_put; auto; try apply (h_rely _ _ H).
  - done.
  - intros Hd. split; [by apply (h_done _ _ H)|]. apply (others_none_sup _ x); auto.
  - intros Hk. destruct (h_sup _ _ H _ _ Hg Hk). split; [by eapply others_sup|done].
  - intros Hk. destruct (h_stop _ _ H _ _ Hg Hk). split; [by eapply others_stop|done].
  - intros ->. by eapply (h_tail _ _ H).
  - intros Hd Hk Ho. by eapply off_of.
  - intros Hk Ho. by eapply rest_of.
  - intros Hc. by eapply cancel_of.
Qed.

(** Receiving from [reconnectDone]: Stop takes the connection state over. *)
Lemma holds_await g x t p m :
  holds g x -> g !! t = Some TStop -> done_ x = true -> (forall v, settled cfg v -> safe cfg p TTail v) ->
  holds (<[t := TTail]> g) (at_prog t p m true x).
Proof.
  intros H Hg Hd Hp.
  assert (others g t (fun k => is_sup k = false)) as Hsup by (apply (others_none_sup _ x); auto).
  assert (others g t (fun k => is_stop k = false)) as Hstop by by eapply others_stop.
  destruct (h_stop _ _ H _ _ Hg) as [Hst Hsp]; [done|].
  apply holds_put; auto; try apply (h_rely _ _ H); try done.
  - apply Hp. eapply rest_of; [done..|]. intros u ku Hne Hu.
    specialize (Hsup u ku Hne Hu). specialize (Hstop u ku Hne Hu). by destruct ku.
Qed.

(** Closing [reconnectDone]: the supervisor gives the connection state up. *)
Lemma holds_close g x t p m :
  holds g x -> g !! t = Some TSup -> settled cfg (view (shared x)) -> safe cfg p TNone (view (shared x)) ->
  holds (<[t := TNone]> g) (at_prog t p m true x).
Proof.
  intros H Hg Hset Hp. destruct (h_sup _ _ H _ _ Hg) as [Hst Hd]; [done|].
  apply holds_put; auto; try apply (h_rely _ _ H); try done.
  - intros _. split; [done|]. by eapply others_sup.
  - intros Hc. right. by destruct (cancel_of _ _ _ _ H Hg Hc).
Qed.

(** A new goroutine: the supervisor, or one that owns nothing. *)
Lemma holds_new g x r k :
  holds g x -> (forall v, settled cfg v /\ v.1.1 = false \/ k = TNone -> entry cfg r k v) ->
  k = TNone \/ k = TSup /\ started (shared x) = true /\ done_ x = false /\ (forall u ku, g !! u = Some ku -> is_sup ku = false) ->
  holds (<[fresh (dom (threads x)) := k]> g)
    {| mu := mu x; done_ := done_ x; shared := shared x; threads := add_thread (threads x) r |}.
Proof.
  intros H Hr Hk. set (t := fresh (dom (threads x))).
  assert (g !! t = None) as Hg.
  { apply eq_None_not_Some. rewrite (h_dom _ _ H). intros Hi. apply elem_of_dom in Hi. by apply is_fresh in Hi. }
  assert (forall (P : Tok -> Prop), others g t P -> forall u ku, g !! u = Some ku -> P ku) as Hall.
  { intros P HP u ku Hu. apply (HP u); [congruence|done]. }
  assert (forall P : Tok -> Prop, (forall u ku, g !! u = Some ku -> P ku) -> others g t P) as Hothers.
  { intros P HP u ku _. apply HP. }
  apply holds_put; auto; try apply (h_rely _ _ H).
  - apply Hr. destruct Hk as [|(-> & Hst & Hd & Hs)]; [by right|left]. split.
    + apply (h_rest _ _ H). intros u ku Hu. destruct ku; try done; [by apply Hs in Hu|].
      apply (h_tail _ _ H) in Hu. congruence.
    + apply (h_off _ _ H); [done|]. by intros u Hu%Hs.
  - intros Hd. split; [by apply (h_done _ _ H)|]. apply (others_none_sup _ x); auto.
  - intros Hs. destruct Hk as [->|(-> & ? & ? & ?)]; [done|]. by split; [apply Hothers|].
  - intros Hs. by destruct Hk as [->|(-> & _)].
  - intros ->. by destruct Hk as [|(? & _)].
  - intros Hd Hs Ho. apply (h_off _ _ H); [done|]. intros u Hu. by apply (Hall _ Ho) in Hu.
  - intros Hs Ho. apply (h_rest _ _ H), (Hall _ Ho).
  - intros (u & ku & Hu & Hs)%(h_cancel _ _ H). right. exists u, ku. split; [|done]. intros ->. fold t in Hu. congruence.
Qed.

Lemma holds_spawn g x rs :
  holds g x -> Forall (fun r => quiet_routine r = true) rs ->
  exists g', holds g' {| mu := mu x; done_ := done_ x; shared := shared x; threads := foldl add_thread (threads x) rs |}.
Proof.
  intros H Hrs. revert g x H. induction Hrs as [|r rs Hr _ IH]; intros g x H; simpl.
  - exists g. by destruct x.
  - refine (IH _ _ (holds_new g x r TNone H _ (or_introl eq_refl))). intros v _. by destruct r.
Qed.

(** The goroutines an action starts. *)
Lemma moved_spawns k k' s s' l :
  moved k k' s s' -> clog s' = clog s ++ l ->
  Forall (fun r => quiet_routine r = true) (spawns l) \/ k = TSpawn /\ k' = TNone /\ spawns l = [RConnect true 0].
Proof.
  intros (l' & Hl & H) Hl'. rewrite Hl in Hl'. apply app_inv_head in Hl' as <-.
  destruct k, k'; try done; unfold calmly in H; naive_solver.
Qed.

Lemma holds_act g x t locks {X} (m : M (CState S R) X) f :
  holds g x -> threads x !! t = Some (PAct locks m f) ->
  exists g', holds g' (settle_thread t (f (m (shared x)).1) (clog (shared x)) (m (shared x)).2 x).
Proof.
  intros H Ht. destruct (proj2 (h_dom _ _ H t)) as [k Hg]; [by rewrite Ht|].
  destruct (h_safe _ _ H _ _ _ Ht Hg (shared x)) as (k' & Hr & Hm & Hp); [apply (h_rely _ _ H)|done|].
  destruct (m (shared x)) as [a s]. simpl in *.
  assert (safe cfg (f a) k' (view s)) as Hp'.
  { pose proof (moved_owns _ _ _ _ Hm). destruct (owns k) eqn:Ho; [done|]. by eapply safe_any. }
  pose proof (holds_move _ _ _ _ _ _ (mu x) _ H Hg Hm Hr Hp') as Hmv.
  destruct Hm as (l & Hl & Hk). unfold settle_thread. rewrite Hl, drop_app_length.
  destruct (moved_spawns k k' (shared x) s l) as [Hq|(-> & -> & Hsp)]; [by exists l|done|..].
  - apply (holds_spawn _ _ _ Hmv Hq).
  - fold (spawns l). rewrite Hsp. destruct (h_sup _ _ H _ _ Hg) as [Hst Hd]; [done|].
    destruct Hk as (Hst' & _). eexists. simpl. apply (holds_new _ _ (RConnect true 0) TSup Hmv).
    + intros v [|]; [done|discriminate].
    + right. simpl. rewrite Hst', Hst. split_and!; try done. intros u ku. rewrite lookup_insert_Some.
      intros [[<- <-]|[Hne Hu]]; [done|]. eapply (others_sup _ _ _ _ H Hg); [done|..|done]; done.
Qed.

(** The tokens say nothing of the receivers. *)
Lemma holds_receiver g x i r : holds g x -> holds g (set_receiver i r x).
Proof. intros []. by split. Qed.

Lemma holds_exec g x l x' : holds g x -> exec cfg env closed x l = Some x' -> exists g', holds g' x'.
Proof.
  intros H. destruct l as [r|t|t e|i r]; simpl.
  - destruct (is_call _ r) eqn:Hc; [|done]. intros [= <-]. eexists. apply holds_new; [done| |by left]. intros v _.
    by destruct r.
  - unfold run_thread. intros (p & Ht & Hp)%bind_Some.
    destruct (proj2 (h_dom _ _ H t)) as [k Hg]; [by rewrite Ht|].
    pose proof (h_safe _ _ H _ _ _ Ht Hg) as Hs.
    destruct p as [[r|]|X locks m f|i c f|p|p|p|p]; simplify_eq.
    + exists g. eapply holds_at; [done..|]. apply safe_body, Hs.
    + destruct (locks && _); [done|]. apply (holds_act _ _ _ _ m f H) in Ht.
      destruct (m (shared x)) as [a s]. by simplify_eq.
    + destruct (mu x); simplify_eq. exists g. by eapply holds_at.
    + exists g. by eapply holds_at.
    + destruct (done_ x) eqn:Hd; simplify_eq. destruct Hs as (k' & [-> ->] & Hs).
      eexists. by eapply holds_await.
    + destruct Hs as (k' & (-> & -> & Hset) & Hs). eexists. by eapply holds_close.
  - unfold return_thread. intros (p & Ht & Hp)%bind_Some.
    destruct (proj2 (h_dom _ _ H t)) as [k Hg]; [by rewrite Ht|].
    pose proof (h_safe _ _ H _ _ _ Ht Hg) as Hs. destruct p; simplify_eq. exists g. eapply holds_at; [done..|]. apply Hs.
  - intros [= <-]. exists g. by apply holds_receiver.
Qed.

Lemma holds_ready ss rs : holds ∅ (ready ss rs).
Proof.
  split; simpl; try done; try (by intros; simplify_map_eq).
  - intros _. by exists false.
  - by intros ?%elem_of_nil.
Qed.

Lemma holds_run ss rs ls x : run (pstep cfg env closed) (ready ss rs) ls x -> exists g, holds g x.
Proof.
  intros Hrun. refine (run_invariant _ (fun x => exists g, holds g x) _ _ _ _ (ex_intro _ ∅ (holds_ready ss rs)) Hrun).
  intros a l b [g H] Hs. by eapply holds_exec.
Qed.

(** With every goroutine back, the client has settled; and disconnected, if
    its life context was cancelled. *)
Lemma holds_at_rest g x :
  holds g x -> at_rest x ->
  settled cfg (view (shared x)) /\
  (CCancelLife ∈ clog (shared x) -> connected (shared x) = false /\ conn (shared x) = None).
Proof.
  intros H Hrest.
  assert (forall t k, g !! t = Some k -> leave cfg None k (view (shared x))) as Hleave.
  { intros t k Hg. destruct (proj1 (h_dom _ _ H t)) as [p Ht]; [by rewrite Hg|].
    pose proof (h_safe _ _ H _ _ _ Ht Hg) as Hs. by rewrite (Hrest _ _ Ht) in Hs. }
  split.
  - destruct (decide (map_Forall (fun _ k => k <> TTail) g)) as [Hno|(t & k & Hg & Hk)%map_not_Forall]; [|..|apply _].
    + apply (h_rest _ _ H). intros t k Hg. specialize (Hno _ _ Hg). by destruct (Hleave _ _ Hg) as [->|(-> & _)].
    + destruct (Hleave _ _ Hg) as [->|(_ & ? & _)]; [|done]. by destruct Hk.
  - intros (t & k & Hg & Hk)%(h_cancel _ _ H). by destruct (Hleave _ _ Hg) as [->|(_ & _ & ?)].
Qed.
End pool.

(** ** Who owes a sender its disconnection *)

(** While the client is not connected, a sender that has a channel is owed its
    disconnection by a goroutine on its way to it: the supervisor or Stop
    before they reach the sender, a setup that will either fail or connect, a
    recovery before its second look at the connection. The token says whether
    a goroutine owes sender [i]. *)
Section owing.
Context {S R : Type} `{!SenderLink S, !ReceiverLink R} (cfg : Config) (env : Env).
Context (closed : list CEvent -> ChannelClosed) (i N : nat).
Implicit Types s : CState S R.

Definition many s : Prop := length (senders s) = N.
Definition off s : Prop := forall y, senders s !! i = Some y -> sender_channel y = None.
Definition fine s : Prop := connected s = true \/ off s.
Definition paid (k k' : bool) s s' : Prop := k' = true \/ fine s' \/ k = false /\ (fine s -> fine s').
Definition no_view s : unit := tt.

Abbreviation wp := (wp many no_view (fun _ => false) paid eq (fun _ _ => True) (fun k k' _ => k = k')).
Abbreviation dstill := (still many no_view paid).

Lemma framed_dstill {X} (m : M (CState S R) X) :
  (forall s, many s -> many (m s).2 /\ (fine s -> fine (m s).2)) -> dstill m.
Proof. intros Hm s Hs. destruct (Hm s Hs). split_and!; [done..|]. intros []; [by left|by right; right]. Qed.

Lemma keeps_dstill {X} (m : M (CState S R) X) : keeps m -> dstill m.
Proof.
  intros Hm. apply framed_dstill. intros s. destruct (Hm s) as ([Hc _ _ _ _] & Hs & _).
  unfold many, fine, off. by rewrite Hs, Hc.
Qed.

Lemma SetChannel_off s : off (sender_SetChannel i None s).2.
Proof.
  intros y. unfold sender_SetChannel, modify, rec_set. simpl. rewrite list_lookup_alter_eq.
  intros (y' & _ & ->)%fmap_Some. apply SetChannel_nil.
Qed.

Lemma SetChannel_many j c s : many s -> many (sender_SetChannel j c s).2.
Proof. intros Hs. unfold many, sender_SetChannel, modify, rec_set. simpl. by rewrite length_alter. Qed.

Lemma dstill_SetChannel j c : j <> i \/ c = None -> dstill (sender_SetChannel j c).
Proof.
  intros Hj. apply framed_dstill. intros s Hs. split; [by apply SetChannel_many|].
  destruct (decide (j = i)) as [->|Hne].
  - destruct Hj as [| ->]; [done|]. intros _. right. apply SetChannel_off.
  - intros [|Ho]; [by left|right]. intros y. unfold sender_SetChannel, modify, rec_set. simpl.
    rewrite list_lookup_alter_ne by done. apply Ho.
Qed.

#[local] Hint Resolve dstill_SetChannel keeps_dstill : still.
#[local] Hint Extern 4 (keeps _) => auto with keeps : still.
#[local] Hint Extern 1 (_ <> _ \/ _ = _) => (left; done) || (right; done) : still.

(** An action that leaves the client fine settles the debt, one that may not
    incurs it. *)
Lemma wp_pay {X A} locks (m : M (CState S R) X) (f : X -> Prog (CState S R) A) k Q :
  (forall s, many s -> many (m s).2 /\ (fine (m s).2 /\ wp (f (m s).1) false tt Q \/ wp (f (m s).1) true tt Q)) ->
  wp (PAct locks m f) k tt Q.
Proof.
  intros H s Hs _. destruct (H s Hs) as (Hm & [[Hf Hw]|Hw]).
  - exists false. by split_and!; [|right; left|].
  - exists true. by split_and!; [|left|].
Qed.

(** [senders_off] reaches every sender. *)
Lemma wp_clear j n k Q :
  k = false \/ j <= i < j + n -> Q tt false tt ->
  wp (for_each_p (seq j n) (fun j => act (sender_SetChannel j None))) k tt Q.
Proof.
  intros Hk HQ. assert (forall j n, wp (for_each_p (seq j n) (fun j => act (sender_SetChannel j None))) false tt Q) as Hfalse.
  { intros j' n'. apply wp_still; [|by intros []]. apply still_for_each; auto with still. intros. still. }
  revert j Hk. induction n as [|n IH]; intros j [->|Hj]; [apply Hfalse|lia|apply Hfalse|].
  cbn [seq for_each_p]. destruct (decide (j = i)) as [->|Hne].
  - apply wp_bind, wp_pay. intros s Hs. split; [by apply SetChannel_many|]. left. split; [|apply Hfalse].
    right. apply SetChannel_off.
  - apply wp_bind, wp_still; [still|]. intros _. apply IH. right. lia.
Qed.

Lemma wp_senders_off k Q : Q tt false tt -> wp senders_off_p k tt Q.
Proof.
  intros HQ. unfold senders_off_p. apply wp_bind, wp_pay. intros s Hs. split; [done|]. cbn [gets fst snd].
  destruct (decide (i < N)) as [Hlt|Hge].
  - right. apply wp_clear; [|done]. right. rewrite Hs. lia.
  - left. split; [|by apply wp_clear; [left|]]. right. intros y Hy. apply lookup_lt_Some in Hy. unfold many in Hs. lia.
Qed.

(** *** Setting channels up *)

Lemma wp_failed sChs rChs e k Q : Q (inr e) false tt -> wp (failed_p sChs rChs e) k tt Q.
Proof.
  intros HQ. unfold failed_p, cleanup_p. apply wp_bind, wp_bind, wp_still; [by apply still_receivers_Stop; auto with still|].
  intros _. apply wp_bind, wp_senders_off.
  apply wp_bind, wp_still; [by apply still_closes; auto with still|]. intros _.
  apply wp_still; [by apply still_closes; auto with still|]. by intros _.
Qed.

Lemma wp_setup_senders c j n sChs k Q :
  (forall e, Q (inr e) false tt) -> (forall chs k', Q (inl chs) k' tt) ->
  wp (setup_senders_p cfg env c j n sChs) k tt Q.
Proof.
  intros He Hok. revert j sChs k. induction n as [|n IH]; intros j sChs k; cbn [setup_senders_p]; [apply Hok|].
  apply wp_bind, wp_still; [still|]. intros [ch|e]; [|by apply wp_failed].
  apply wp_bind. apply wp_pay. intros s Hs. split; [by apply SetChannel_many|]. right. apply IH.
Qed.

Lemma wp_setup_receivers c j n sChs rChs k Q :
  (forall e, Q (inr e) false tt) -> (forall chs, Q (inl chs) k tt) ->
  wp (setup_receivers_p cfg env c j n sChs rChs) k tt Q.
Proof.
  intros He Hok. revert j rChs. induction n as [|n IH]; intros j rChs; cbn [setup_receivers_p]; [apply Hok|].
  apply wp_bind, wp_still; [still|]. intros q.
  apply wp_bind, wp_still; [still|]. intros [ch|e]; [|by apply wp_failed].
  apply wp_bind, wp_still; [still|]. intros [e|].
  { apply wp_bind, wp_still; [still|]. intros _. by apply wp_failed. }
  apply wp_bind, wp_still; [still|]. intros d. apply wp_bind, wp_still; [still|]. intros [e|]; [|apply IH].
  apply wp_bind, wp_still; [still|]. intros _. by apply wp_failed.
Qed.

Lemma wp_setupChannels c k Q :
  (forall e, Q (Some e) false tt) -> (forall k', Q None k' tt) -> wp (setupChannels_p cfg env c) k tt Q.
Proof.
  intros He Hok. unfold setupChannels_p. apply wp_bind, wp_still; [still|]. intros n.
  apply wp_bind, wp_setup_senders; [by intros e; apply He|]. intros sChs k'.
  apply wp_bind, wp_still; [still|]. intros m. apply wp_bind, wp_setup_receivers; [by intros e; apply He|]. intros rChs.
  apply wp_bind, wp_still; [still|]. intros _.
  apply wp_bind, wp_still; [by apply still_go_all; auto with still|]. intros _.
  apply wp_bind, wp_still; [by apply still_go_all; auto with still|]. intros _. apply Hok.
Qed.

(** *** Every routine pays what it owes *)

Lemma wp_established_pays initial url c k Q : Q tt false tt -> wp (established_p cfg env initial url c) k tt Q.
Proof.
  intros HQ. unfold established_p. apply wp_bind, wp_pay. intros s Hs. split; [done|]. left. split; [by left|].
  apply wp_bind, wp_still; [still|]. intros _.
  apply wp_bind, wp_still; [still|]. intros _.
  apply wp_bind, wp_still; [still|]. intros _.
  apply wp_still; [|by intros []]. unfold when_p. destruct (OnConnect cfg); [|done].
  split; [|done]. by apply framed_dstill.
Qed.

Lemma wp_walk_pays initial urls Q : (forall res, Q res false tt) -> wp (walk_p cfg env initial urls) false tt Q.
Proof.
  intros HQ. induction urls as [|url urls IH]; cbn [walk_p]; [apply HQ|].
  apply wp_bind, wp_still; [still|]. intros [|]; [apply HQ|].
  apply wp_bind, wp_still; [still|]. intros [k|e].
  - apply wp_bind, wp_setupChannels.
    + intros e. apply wp_bind, wp_still; [still|]. intros _. by apply wp_bind, wp_still; [still|].
    + intros k'. apply wp_bind, wp_established_pays. apply HQ.
  - by apply wp_bind, wp_still; [still|].
Qed.

Lemma wp_attempt_pays initial attempt Q :
  (forall res, Q res false tt) -> wp (attempt_p cfg env initial attempt) false tt Q.
Proof.
  intros HQ. unfold attempt_p. apply wp_bind, wp_still; [still|]. intros [|]; [apply HQ|].
  destruct (out_of_attempts cfg initial attempt).
  { apply wp_bind, wp_still; [still|]. intros _. apply HQ. }
  apply wp_bind, wp_walk_pays. intros [res|]; [apply HQ|].
  apply wp_bind, wp_still; [still|]. intros _. apply wp_bind, wp_still; [still|]. intros [|]; apply HQ.
Qed.

(** Taking [connected] back incurs the debt. *)
Lemma wp_take_owes {A} (f : bool -> Prog (CState S R) A) k Q :
  (forall b, wp (f b) true tt Q) ->
  wp (x ← crit (b ← gets connected; modify (fun s => s <| connected := false |>) ;; mret b); f x) k tt Q.
Proof. intros HQ. apply wp_bind, wp_pay. intros s Hs. split; [done|]. right. apply HQ. Qed.

Lemma still_disconnected was :
  still_p many no_view paid
    (when_p was (_ ← act (record_points (Metrics.Client.SetConnected (metrics cfg) false));
                 when_p (OnDisconnect cfg) (act (emit COnDisconnect))) : Prog (CState S R) unit).
Proof. still. by apply framed_dstill. Qed.

Lemma wp_await_loss_pays k Q : (forall lost, Q lost false tt) -> wp (await_loss_p cfg env k) false tt Q.
Proof.
  intros HQ. unfold await_loss_p.
  apply wp_bind, wp_still; [still|]. intros [| |e]; [apply HQ|..];
    (apply wp_bind, wp_still; [still|]; intros [|]; [apply HQ|]); [apply HQ|].
  apply wp_bind, wp_still; [still|]. intros _. apply wp_bind. unfold handleDisconnect_p.
  apply wp_take_owes. intros was.
  apply wp_bind, wp_still; [by apply still_receivers_Stop; auto with still|]. intros _.
  apply wp_bind, wp_senders_off. apply wp_still; [apply still_disconnected|]. intros _. apply HQ.
Qed.

Lemma wp_Stop_pays Q : (forall e, Q e false tt) -> wp (Stop_p cfg env) false tt Q.
Proof.
  intros HQ. unfold Stop_p. apply wp_bind, wp_still; [split; [by apply framed_dstill|done]|].
  intros [|]; [apply HQ|]. apply wp_bind, wp_still; [split; [by apply framed_dstill|done]|]. intros _.
  exists false. split; [done|]. intros [] _. unfold Stop_tail_p.
  apply wp_bind, wp_still; [by apply still_receivers_Stop; auto with still|]. intros errs.
  apply wp_take_owes. intros was. apply wp_bind, wp_still; [apply still_disconnected|]. intros _.
  apply wp_bind, wp_senders_off.
  apply wp_bind, wp_still; [split; [by apply framed_dstill|done]|]. intros [[k sChs] rChs].
  apply wp_bind, wp_still; [by apply still_closes; auto with still|]. intros _.
  apply wp_bind, wp_still; [by apply still_closes; auto with still|]. intros _.
  destruct k; [apply wp_bind, wp_still; [still|]; intros err|]; apply HQ.
Qed.

Lemma wp_recoverSender_pays idx Q :
  (forall r, Q r false tt) -> wp (recoverSenderChannel_p env idx) false tt Q.
Proof.
  intros HQ. destruct (decide (idx = i)) as [->|Hne].
  2:{ apply wp_still; [|apply HQ]. apply still_recoverSender; auto with still. }
  unfold recoverSenderChannel_p. apply wp_bind, wp_still; [still|]. intros [[k|] up]; cbn [fst snd].
  2:{ apply wp_bind, wp_still; [still|]. intros _. apply HQ. }
  apply wp_bind, wp_still; [still|]. intros n. destruct (negb up); [apply HQ|]. destruct (n <=? i); [apply HQ|].
  apply wp_bind, wp_still; [still|]. intros [ch|e]; [|apply HQ].
  apply wp_bind, wp_pay. intros s Hs. split; [by apply SetChannel_many|]. right. unfold recheck_sender_p. cbn [wp].
  apply wp_bind, wp_pay. intros s' Hs'. split; [done|]. cbn [gets fst snd].
  destruct (bool_decide (conn s' = Some k) && connected s') eqn:Hup.
  - apply andb_true_iff in Hup as [_ Hup]. left. split; [by left|].
    apply wp_bind, wp_still; [still|]. intros _. apply HQ.
  - right. apply wp_bind, wp_pay. intros s2 Hs2. split; [by apply SetChannel_many|]. left.
    split; [right; apply SetChannel_off|]. apply wp_bind, wp_still; [still|]. intros _. apply HQ.
Qed.

Lemma wp_watch_pays who recover declined idx ch Q :
  (forall Q', (forall r, Q' r false tt) -> wp (recover idx) false tt Q') -> (forall next, Q next false tt) ->
  wp (watch_p cfg env closed who recover declined idx ch) false tt Q.
Proof.
  intros Hrec HQ. unfold watch_p.
  apply wp_bind, wp_still; [still|]. intros [| |rec]; [apply HQ|..];
    (apply wp_bind, wp_still; [still|]; intros [|]; [apply HQ|]); [apply HQ|].
  destruct (isConnectionLevel (Some rec)).
  { apply wp_bind, wp_still; [still|]. intros _. apply HQ. }
  apply wp_bind, wp_still; [still|]. intros _. apply wp_bind, Hrec. intros [newCh|e].
  - apply wp_bind, wp_still; [still|]. intros _. apply wp_bind, wp_still; [still|]. intros _. apply HQ.
  - apply wp_bind, wp_still; [still|]. intros _. apply HQ.
Qed.

Definition pays (p : Prog (CState S R) (option Routine)) (k : bool) : Prop :=
  wp p k tt (fun _ k _ => k = false).

Lemma body_pays r : pays (body cfg env closed r) false.
Proof.
  unfold pays. destruct r as [initial attempt|k|idx ch|idx ch| | |order]; unfold body.
  - apply wp_bind, wp_attempt_pays. intros [[k| |]|]; try done; by exists false.
  - apply wp_bind, wp_await_loss_pays. intros [|]; [done|by exists false].
  - apply wp_bind, wp_watch_pays; [|done]. intros Q'. apply wp_recoverSender_pays.
  - apply wp_bind, wp_watch_pays; [|done]. intros Q' HQ'. apply wp_still; [|apply HQ'].
    apply still_recoverReceiver; auto with still.
  - apply wp_bind. unfold Start_p. destruct (decide _); [done|].
    apply wp_bind, wp_still; [split; [|done]; apply framed_dstill; intros s; rewrite claim_start_run; by destruct (started s)|].
    intros [|]; [done|]. by apply wp_bind, wp_still; [split; [by apply framed_dstill|done]|].
  - apply wp_bind, wp_Stop_pays. done.
  - apply wp_bind, wp_still; [by apply still_Drain; auto with still|]. done.
Qed.

(** The debtors [g] are among the goroutines, and while the client is not fine
    there is one. *)
Record owed (g : gmap nat bool) (x : Pool (S := S) (R := R)) : Prop := {
  o_dom t : is_Some (g !! t) <-> is_Some (threads x !! t);
  o_pays t p k : threads x !! t = Some p -> g !! t = Some k -> pays p k;
  o_many : many (shared x);
  o_fine : fine (shared x) \/ exists t, g !! t = Some true;
}.

Lemma owed_put g x t p k m d s :
  owed g x -> pays p k -> many s -> (fine s \/ k = true \/ exists u, u <> t /\ g !! u = Some true) ->
  owed (<[t := k]> g) {| mu := m; done_ := d; shared := s; threads := <[t := p]> (threads x) |}.
Proof.
  intros H Hp Hm Hf. split; simpl; try done.
  - intros u. destruct (decide (u = t)) as [->|]; [by rewrite !lookup_insert_eq|].
    rewrite !lookup_insert_ne by done. apply (o_dom _ _ H).
  - intros u pu ku. destruct (decide (u = t)) as [->|].
    + rewrite !lookup_insert_eq. by intros [= <-] [= <-].
    + rewrite !lookup_insert_ne by done. apply (o_pays _ _ H).
  - destruct Hf as [|[->|(u & Hne & Hu)]]; [by left|right..].
    + exists t. by rewrite lookup_insert_eq.
    + exists u. by rewrite lookup_insert_ne.
Qed.

(** The debt of the others, and of [t]. *)
Lemma owed_split g x t k :
  owed g x -> g !! t = Some k ->
  fine (shared x) \/ k = true \/ exists u, u <> t /\ g !! u = Some true.
Proof.
  intros H Hg. destruct (o_fine _ _ H) as [|[u Hu]]; [by left|right].
  destruct (decide (u = t)) as [->|]; [left; congruence|right; eauto].
Qed.

Lemma owed_at g x t p k m d : owed g x -> g !! t = Some k -> pays p k -> owed g (at_prog t p m d x).
Proof.
  intros H Hg Hp. rewrite <- (insert_id g t k) by done.
  apply owed_put; [done..|apply (o_many _ _ H)|]. by apply owed_split.
Qed.

Lemma owed_spawn g x rs :
  owed g x ->
  exists g', owed g' {| mu := mu x; done_ := done_ x; shared := shared x; threads := foldl add_thread (threads x) rs |}.
Proof.
  revert g x. induction rs as [|r rs IH]; intros g x H; simpl.
  - exists g. by destruct x.
  - refine (IH _ _ (owed_put g x (fresh (dom (threads x))) (PRet (Some r)) false _ _ _ H eq_refl (o_many _ _ H) _)).
    destruct (o_fine _ _ H) as [|[u Hu]]; [by left|right; right]. exists u. split; [|done]. intros ->.
    destruct (proj1 (o_dom _ _ H _) (mk_is_Some _ _ Hu)) as [p Hp].
    apply elem_of_dom_2 in Hp. by apply is_fresh in Hp.
Qed.

Lemma owed_exec g x l x' : owed g x -> exec cfg env closed x l = Some x' -> exists g', owed g' x'.
Proof.
  intros H. destruct l as [r|t|t e|j r]; simpl.
  - destruct (is_call _ r); [|done]. intros [= <-]. apply (owed_spawn _ _ [r] H).
  - unfold run_thread. intros (p & Ht & Hp)%bind_Some.
    destruct (proj2 (o_dom _ _ H t)) as [k Hg]; [by rewrite Ht|].
    pose proof (o_pays _ _ H _ _ _ Ht Hg) as Hs.
    destruct p as [[r|]|X locks m f|j c f|p|p|p|p]; simplify_eq.
    + exists g. eapply owed_at; [done..|]. rewrite Hs. apply body_pays.
    + destruct (locks && _); [done|]. destruct (Hs (shared x)) as (k' & Hm & Hk & Hw); [apply (o_many _ _ H)|done|].
      destruct (m (shared x)) as [a s]. simplify_eq. simpl in *.
      refine (owed_spawn _ _ _ (owed_put g x t (f a) k' (mu x) (done_ x) s H Hw Hm _)).
      destruct Hk as [->|[Hf|[-> Hf]]]; [by right; left|by left|].
      destruct (owed_split _ _ _ _ H Hg) as [|[|]]; [left; auto|done|by right; right].
    + destruct (mu x); simplify_eq. exists g. by eapply owed_at.
    + exists g. by eapply owed_at.
    + destruct (done_ x); simplify_eq. destruct Hs as (k' & <- & Hs). exists g. eapply owed_at; [done..|]. by apply (Hs tt).
    + destruct Hs as (k' & <- & Hs). exists g. by eapply owed_at.
  - unfold return_thread. intros (p & Ht & Hp)%bind_Some.
    destruct (proj2 (o_dom _ _ H t)) as [k Hg]; [by rewrite Ht|].
    pose proof (o_pays _ _ H _ _ _ Ht Hg) as Hs. destruct p; simplify_eq. exists g. eapply owed_at; [done..|]. apply Hs.
  - intros [= <-]. exists g. by destruct H.
Qed.

Lemma owed_run x0 ls x :
  threads x0 = ∅ -> many (shared x0) -> fine (shared x0) -> run (pstep cfg env closed) x0 ls x -> exists g, owed g x.
Proof.
  intros H0 Hm Hf Hrun.
  assert (owed ∅ x0) as H.
  { split; [|by rewrite H0|done|by left]. intros t. rewrite H0, !lookup_empty. split; by intros [? ?]. }
  refine (run_invariant _ (fun x => exists g, owed g x) _ _ _ _ (ex_intro _ ∅ H) Hrun).
  intros a l b [g Hg] Hs. by eapply owed_exec.
Qed.

Lemma owed_at_rest g x : owed g x -> at_rest x -> fine (shared x).
Proof.
  intros H Hrest. destruct (o_fine _ _ H) as [|[t Hg]]; [done|].
  destruct (proj1 (o_dom _ _ H t)) as [p Ht]; [by rewrite Hg|].
  pose proof (o_pays _ _ H _ _ _ Ht Hg) as Hs. by rewrite (Hrest _ _ Ht) in Hs.
Qed.
End owing.

(** ** Properties *)

(** C5: Whatever the scheduler does with the supervisor, the channel watchers and any
    number of Start, Stop and Drain calls, and whatever the receivers do and
    answer and however long they take, the notifications alternate,
    OnConnect first; with every goroutine back, [IsConnected] is whether the
    last one was OnConnect; and if a Stop cancelled the life context, the
    client is then disconnected and holds no connection. *)
Theorem notifications_alternate_interleaved {S R} `{!SenderLink S, !ReceiverLink R} cfg env closed
    (ss : list S) (rs : list R) ls x :
  OnConnect cfg = true -> OnDisconnect cfg = true ->
  run (pstep cfg env closed) (ready ss rs) ls x ->
  is_Some (replay false (clog (shared x))) /\
  (at_rest x -> noticed (shared x) /\
     (CCancelLife ∈ clog (shared x) -> connected (shared x) = false /\ conn (shared x) = None)).
Proof.
  intros Hon Hoff [g H]%holds_run. split; [by apply (h_rely _ _ _ H)|].
  intros Hrest. destruct (holds_at_rest _ _ _ H Hrest) as [Hset Hc]. split; [by apply Hset|done].
Qed.

(** C11: When a Stop has cancelled the life context and every goroutine has returned,
    the client is disconnected, holds no connection and every sender is
    disconnected -- also when channel recoveries were under way while Stop
    ran, and whatever the receivers did and answered. *)
Theorem stopped_client_holds_no_sender {S R} `{!SenderLink S, !ReceiverLink R} cfg env closed
    (ss : list S) (rs : list R) ls x :
  Forall (fun y => sender_channel y = None) ss ->
  run (pstep cfg env closed) (ready ss rs) ls x -> at_rest x -> CCancelLife ∈ clog (shared x) ->
  connected (shared x) = false /\ conn (shared x) = None /\ length (senders (shared x)) = length ss /\
  Forall (fun y => sender_channel y = None) (senders (shared x)).
Proof.
  intros Hoff Hrun Hrest Hc. destruct (holds_run _ _ _ _ _ _ _ Hrun) as [g H].
  destruct (holds_at_rest _ _ _ H Hrest) as [_ [Hcon Hconn]]; [done|].
  assert (forall i, exists g', owed i (length ss) g' x) as Howed.
  { intros i. apply (owed_run cfg env closed i (length ss) (ready ss rs) ls x); [done..|right|done].
    intros y Hy. rewrite Forall_lookup in Hoff. by apply (Hoff i). }
  split_and!; [done..| |].
  - destruct (Howed 0) as [g' H']. apply (o_many _ _ _ _ H').
  - apply Forall_lookup. intros i y Hy. destruct (Howed i) as [g' H'].
    destruct (owed_at_rest _ _ _ _ H' Hrest) as [|Ho]; [congruence|by apply Ho].
Qed.

(** ** A busy run *)

Definition is_cancel (e : CEvent) : bool := match e with CCancelLife => true | _ => false end.

(** A broker that accepts everything and closes every channel once; the life
    context is done once it has been cancelled. *)
Definition busy_env : Env :=
  {| envDial := fun _ _ => None; envChannel := fun _ => None; envCloseConn := fun _ => None;
     envDone := existsb is_cancel; envDrained := fun _ => false; envClosed := fun _ => NDone;
     envParseURI := fun _ => None |}.
Definition busy_closed (l : list CEvent) : ChannelClosed := if existsb is_cancel l then WDone else WError true.

Definition busy_pool : Pool := ready [None : option nat] [(None : option nat, false)].

(** A schedule, in which every method of a receiver succeeds. *)
Abbreviation blabel := (label (R := option nat * bool)).
Definition pick (x : Pool (S := option nat) (R := option nat * bool)) (c : Routine + nat) : blabel :=
  match c with
  | inl r => LCall r
  | inr t => match threads x !! t with Some (PRecv _ _ _) => LReturn t None | _ => LRun t end
  end.
Fixpoint drive x (cs : list (Routine + nat)) : list blabel :=
  match cs with
  | [] => []
  | c :: cs' =>
      let l := pick x c in
      l :: match exec plain_cfg busy_env busy_closed x l with Some x' => drive x' cs' | None => [] end
  end.
Definition turns (t n : nat) : list (Routine + nat) := repeat (inr t) n.

(** Goroutine 0 is the Start, 1 the supervisor, 2 and 3 the watchers of the
    sender's and the receiver's channel, 4 the Stop. The receiver's watcher
    recovers its channel while Stop runs. *)
Definition busy_run : list blabel := drive busy_pool
  ([inl RStart] ++ turns 0 3 ++ turns 1 20 ++ turns 3 10 ++
   [inl RStop] ++ turns 4 3 ++ turns 1 3 ++ turns 4 3 ++ turns 3 9 ++ turns 4 9 ++ turns 2 2).
Definition busy_end : Pool := default busy_pool (exec_all (exec plain_cfg busy_env busy_closed) busy_pool busy_run).

Lemma busy_runs : run (pstep plain_cfg busy_env busy_closed) busy_pool busy_run busy_end.
Proof. by apply (exec_all_run (exec plain_cfg busy_env busy_closed)); [|vm_compute]. Qed.
Lemma busy_at_rest : at_rest busy_end.
Proof. apply map_Forall_to_list. vm_compute. repeat constructor. Qed.
Lemma busy_cancelled : CCancelLife ∈ clog (shared busy_end).
Proof. apply list_elem_of_In. vm_compute. tauto. Qed.

(** ** Witnesses *)

Lemma notifications_alternate_interleaved_witness :
  noticed (shared busy_end) /\ connected (shared busy_end) = false.
Proof.
  destruct (notifications_alternate_interleaved plain_cfg busy_env busy_closed [None] [(None, false)]
              busy_run busy_end eq_refl eq_refl busy_runs) as [_ H].
  destruct (H busy_at_rest) as [Hn Hc]. split; [exact Hn|]. exact (proj1 (Hc busy_cancelled)).
Defined.

Lemma stopped_client_holds_no_sender_witness :
  Forall (fun y : option nat => sender_channel y = None) (senders (shared busy_end)) /\
  length (senders (shared busy_end)) = 1.
Proof.
  destruct (stopped_client_holds_no_sender plain_cfg busy_env busy_closed [None] [(None, false)]
              busy_run busy_end ltac:(by repeat constructor) busy_runs busy_at_rest busy_cancelled)
    as (_ & _ & Hl & Hf).
  split; [exact Hf|exact Hl].
Defined.
