(* ===== verification/LinkInstances.v ===== *)
(** * The sender and the receiver keep the client's interface

    [SenderLink] from src/sender's [SetChannel] (Sender.v) and [ReceiverLink]
    from src/receiver's lifecycle (ReceiverLife.v). The client calls one method
    at a time on a receiver, so a call is [call]: a fresh thread of
    ReceiverLife's machine run on its own. A call that waits for the delivery
    loop is resumed once the loop has ended ([loop_out]). *)

From S2P Require Import Prelude GoLib Links.
From S2P Require Sender ReceiverLife.

(** ** The sender *)

#[export] Program Instance sender_link (cfg : Sender.SenderCfg) (env : Sender.Env) :
    SenderLink Sender.SState :=
  {| SetChannel := fun c s => (Sender.SetChannel cfg env c s).2; sender_channel := Sender.ch_ |}.
Next Obligation. intros cfg env s. simpl. by rewrite Sender.setChannel_run. Qed.
Next Obligation.
  intros cfg env c s. simpl. rewrite Sender.setChannel_run. cbv zeta.
  destruct (Sender.confirmMode cfg); [destruct (Sender.envConfirm env _)|]; auto.
Qed.

(** ** The receiver *)

Import ReceiverLife.

(** The broker, asked by a call that runs alone. *)
Record Answers := {
  aQos : list WEvent -> option error;
  aConsume : list WEvent -> option error;
  aDeclare : list WEvent -> option error;
  aDrain : list WEvent -> PC -> Choice;
}.

Definition answer (e : option error) : Choice := match e with None => COk | Some e => CErr e end.

Definition choice (a : Answers) (p : PC) (s : Sys) : Choice :=
  match p with
  | PQos _ => answer (aQos a (wire s))
  | PConsume _ => answer (aConsume a (wire s))
  | _ => aDrain a (wire s) p
  end.

Definition loop_out (c : nat) : Sys -> Sys :=
  upd_cycle c (fun y => y <| cyExited := true |> <| cyBusy := None |>
                          <| cyHandled := cyHandled y ++ option_list (cyBusy y) |>).

Definition stuck : error := New "the call did not return".

Fixpoint alone (cfg : LifeCfg) (a : Answers) (fuel t : nat) (p : PC) (s : Sys) : option error * Sys :=
  match p, fuel with
  | PReturned _ e, _ => (e, s)
  | _, 0 => (Some stuck, s)
  | _, S fuel' =>
      match go cfg t p (choice a p s) s with
      | Some s' => match threads s' !! t with Some p' => alone cfg a fuel' t p' s' | None => (Some stuck, s') end
      | None =>
          match p with
          | PStopWait (Some c) | PDrainWait _ c => alone cfg a fuel' t p (loop_out c s)
          | _ => (Some stuck, s)
          end
      end
  end.

(** Nine steps are enough for every call. *)
Definition call (cfg : LifeCfg) (a : Answers) (p : PC) (s : Sys) : option error * Sys :=
  let t := fresh (dom (threads s)) in alone cfg a 9 t p (at_pc t p s).

Lemma go_at cfg t p x s s' : go cfg t p x s = Some s' -> exists p', threads s' !! t = Some p'.
Proof.
  intros Hgo. destruct p; cbv [go goto returned start_check start_qos start_consume start_install drain_take
    drain_probe drain_cancel drain_check drain_wait stop_take stop_decide stop_wait stop_bump] in Hgo;
    split_in Hgo; injection Hgo as <-; eexists; apply lookup_insert_eq.
Qed.

(** One part of a call, then the rest. *)
Lemma alone_go cfg a fuel t p s s' p' :
  go cfg t p (choice a p s) s = Some s' -> threads s' !! t = Some p' ->
  alone cfg a (S fuel) t p s = alone cfg a fuel t p' s'.
Proof. intros Hg Hp'. destruct p; cbn [alone]; rewrite ?Hg, ?Hp'; done. Qed.

(** What every part of a call keeps holds where it stops. *)
Lemma alone_invariant cfg a (J : PC -> Sys -> Prop) fuel t p s :
  (forall p x s s' p', J p s -> go cfg t p x s = Some s' -> threads s' !! t = Some p' -> J p' s') ->
  (forall p c s, J p s -> J p (loop_out c s)) ->
  J p s ->
  let '(e, s') := alone cfg a fuel t p s in
  exists p', J p' s' /\ ((exists k, p' = PReturned k e) \/ (e = Some stuck /\ forall k e', p' <> PReturned k e')).
Proof.
  intros Hgo Hout. revert p s. induction fuel as [|fuel IH]; intros p s HJ.
  { destruct p; simpl; (eexists; split; [exact HJ|]); eauto; by right. }
  destruct (go cfg t p (choice a p s) s) as [s'|] eqn:Hg.
  - destruct (go_at _ _ _ _ _ _ Hg) as (p' & Hp'). specialize (IH p' s' (Hgo _ _ _ _ _ HJ Hg Hp')).
    by rewrite (alone_go _ _ _ _ _ _ _ _ Hg Hp').
  - pose proof (fun c => IH p (loop_out c s) (Hout _ c _ HJ)) as IHo.
    destruct p as [| | | | | | | |r c| | | | | |[c|]| |k e]; cbn [alone]; rewrite ?Hg; eauto;
      try apply IHo; eexists; (split; [exact HJ|]); by right.
Qed.

(** The calls, one at a time. *)
Ltac go_cases H :=
  cbv [go goto returned start_check start_qos start_consume start_install drain_take drain_probe
       drain_cancel drain_check drain_wait stop_take stop_decide stop_wait stop_bump] in H;
  split_in H; injection H as <-.

(** Where a [Start] on channel [ch] can be, begun with the channel field [c0]. *)
Definition starting (ch : nat) (c0 : option nat) (p : PC) (s : Sys) : Prop :=
  match p with
  | PStart c | PQos c | PConsume c | PInstall c _ _ => c = ch /\ ch_ s = c0
  | PReturned KStart None => ch_ s = Some ch
  | PReturned KStart (Some _) => ch_ s = c0
  | _ => False
  end.

Lemma starting_go cfg ch c0 t p x s s' p' :
  starting ch c0 p s -> go cfg t p x s = Some s' -> threads s' !! t = Some p' -> starting ch c0 p' s'.
Proof.
  intros Hp Hgo Hp'. destruct p as [| | | | | | | | | | | | | | | |[] []]; simpl in Hp; destruct_and?; try done; subst;
    go_cases Hgo; unfold rec_set in Hp'; simpl in Hp'; rewrite lookup_insert_eq in Hp'; injection Hp' as <-;
    simpl; auto.
Qed.

Lemma starting_call cfg a ch s :
  let '(e, s') := call cfg a (PStart ch) s in
  match e with None => ch_ s' = Some ch | Some _ => ch_ s' = ch_ s end.
Proof.
  unfold call. set (t := fresh _).
  pose proof (alone_invariant cfg a (starting ch (ch_ s)) 9 t (PStart ch) (at_pc t (PStart ch) s)
    (starting_go cfg ch (ch_ s) t)) as H.
  destruct (alone _ _ _ _ _ _) as [e s']. destruct H as (p' & Hp' & Hr); [|done|].
  { intros p c s2. by destruct p as [| | | | | | | | | | | | | | | |[] []]. }
  destruct Hr as [(k & ->)| [-> Hr]].
  - by destruct k, e.
  - destruct p'; simpl in Hp'; destruct_and?; try done. by destruct (Hr k err).
Qed.

(** Where a [Stop] can be: the channel is forgotten from its first part on. *)
Definition stop_idle (p : PC) (s : Sys) : Prop :=
  match p with
  | PStop => True
  | PStopProbe | PStopWork _ _ | PStopDecide _ | PStopAbandon | PStopWait _ | PStopBump => ch_ s = None
  | PReturned (KStop _) _ => ch_ s = None
  | _ => False
  end.

Lemma stop_idle_go cfg t p x s s' p' :
  stop_idle p s -> go cfg t p x s = Some s' -> threads s' !! t = Some p' -> stop_idle p' s'.
Proof.
  intros Hp Hgo Hp'. destruct p as [| | | | | | | | | | | | | | | |[] ?]; simpl in Hp; try done;
    go_cases Hgo; unfold rec_set in Hp'; simpl in Hp'; rewrite lookup_insert_eq in Hp'; injection Hp' as <-;
    simpl; auto.
Qed.

(** A stop, alone, gets past its first part. *)
Lemma stop_call cfg a s : ch_ (call cfg a PStop s).2 = None.
Proof.
  unfold call. set (t := fresh _). set (s0 := at_pc t PStop s).
  destruct (go cfg t PStop (choice a PStop s0) s0) as [s1|] eqn:Hg;
    [|simpl in Hg; unfold stop_take in Hg; by destruct (stopWork _)].
  destruct (go_at _ _ _ _ _ _ Hg) as (p1 & Hp1). rewrite (alone_go _ _ _ _ _ _ _ _ Hg Hp1).
  assert (stop_idle p1 s1 /\ p1 <> PStop) as [H1 Hne].
  { split; [by eapply (stop_idle_go cfg t PStop)|]. go_cases Hg; unfold rec_set in Hp1; simpl in Hp1;
      rewrite lookup_insert_eq in Hp1; by injection Hp1 as <-. }
  pose proof (alone_invariant cfg a (fun p s => stop_idle p s /\ p <> PStop) 8 t p1 s1) as H.
  destruct (alone _ _ _ _ _ _) as [e s']. destruct H as (p' & [Hp' Hn] & _); [| |done|].
  - intros p x s2 s3 p' [Hp Hn] Hgo Hp'. split; [by eapply stop_idle_go|]. intros ->.
    destruct p; try done; simpl in Hgo; try (by destruct k);
      cbv [goto returned stop_take stop_decide stop_wait stop_bump] in Hgo;
      split_in Hgo; injection Hgo as <-; unfold rec_set in Hp'; simpl in Hp';
      by rewrite lookup_insert_eq in Hp'.
  - intros p c s2 [Hp Hn]. by destruct p.
  - simpl. destruct p' as [| | | | | | | | | | | | | | | |[] ?]; simpl in Hp'; try done.
Qed.

(** A drain keeps the channel and, from its first part on, has drained. *)
Definition drain_here (c0 : option nat) (p : PC) (s : Sys) : Prop :=
  ch_ s = c0 /\
  match p with
  | PDrainProbe | PDrainCancel _ _ _ _ | PDrainCheck _ _ _ | PDrainWait _ _ | PReturned KDrain _ => drained s = true
  | _ => False
  end.

Lemma drain_here_go cfg c0 t p x s s' p' :
  drain_here c0 p s -> go cfg t p x s = Some s' -> threads s' !! t = Some p' -> drain_here c0 p' s'.
Proof.
  intros [Hc Hp] Hgo Hp'. destruct p as [| | | | | | | | | | | | | | | |[] ?]; simpl in Hp; try done;
    go_cases Hgo; unfold rec_set in Hp'; simpl in Hp'; rewrite lookup_insert_eq in Hp'; injection Hp' as <-;
    split; simpl; auto.
Qed.

Lemma drain_call cfg a s :
  let s' := (call cfg a PDrain s).2 in ch_ s' = ch_ s /\ drained s' = true.
Proof.
  unfold call. cbv zeta. set (t := fresh _). set (s0 := at_pc t PDrain s).
  destruct (go cfg t PDrain (choice a PDrain s0) s0) as [s1|] eqn:Hg;
    [|simpl in Hg; unfold drain_take in Hg; by destruct (stopRead _)].
  destruct (go_at _ _ _ _ _ _ Hg) as (p1 & Hp1). rewrite (alone_go _ _ _ _ _ _ _ _ Hg Hp1).
  assert (drain_here (ch_ s) p1 s1) as H1.
  { go_cases Hg; unfold rec_set in Hp1; simpl in Hp1; rewrite lookup_insert_eq in Hp1; by injection Hp1 as <-. }
  pose proof (alone_invariant cfg a (drain_here (ch_ s)) 8 t p1 s1 (drain_here_go cfg (ch_ s) t)) as H.
  destruct (alone _ _ _ _ _ _) as [e s']. destruct H as (p' & [Hc Hp'] & _); [|done|].
  { intros p c s2. by destruct p as [| | | | | | | | | | | | | | | |[] []]. }
  split; [done|]. by destruct p' as [| | | | | | | | | | | | | | | |[] ?].
Qed.

(** Once drained, for good. *)
Lemma drained_call cfg a p s : drained s = true -> drained (call cfg a p s).2 = true.
Proof.
  intros Hd. unfold call. set (t := fresh _).
  pose proof (alone_invariant cfg a (fun _ s => drained s = true) 9 t p (at_pc t p s)) as H.
  destruct (alone _ _ _ _ _ _) as [e s']. destruct H as (p' & Hp' & _); [|done|done|done].
  intros p0 x s0 s1 p' Hs Hgo _. destruct p0; go_cases Hgo; done.
Qed.

Lemma refused_call cfg a ch s : drained s = true -> is_Some (call cfg a (PStart ch) s).1.
Proof.
  intros Hd. unfold call. set (t := fresh _). set (s0 := at_pc t (PStart ch) s).
  assert (go cfg t (PStart ch) (choice a (PStart ch) s0) s0
          = Some (at_pc t (PReturned KStart (Some (Errorf fmt_drained [queue cfg]))) s0)) as Hg.
  { simpl. unfold start_check. change (drained s0) with (drained s). by rewrite Hd. }
  by rewrite (alone_go _ _ _ _ _ _ _ _ Hg (lookup_insert_eq _ _ _)).
Qed.

(** The receiver, as the client sees it. *)
#[export] Program Instance receiver_link (cfg : LifeCfg) (a : Answers) : ReceiverLink Sys :=
  {| Queue := fun _ => queue cfg;
     Stop_ := call cfg a PStop;
     DeclareTopology_ := fun ch s =>
       let '(e, w) := DeclareTopology cfg (aDeclare a) ch (wire s) in (e, s <| wire := w |>);
     Start_ := fun ch => call cfg a (PStart ch);
     Drain_ := call cfg a PDrain;
     receiver_channel := ch_;
     receiver_drained := drained |}.
Next Obligation. intros cfg a s. apply stop_call. Qed.
Next Obligation. intros cfg a ch s. simpl. by destruct (DeclareTopology _ _ _ _). Qed.
Next Obligation.
  intros cfg a ch s He. pose proof (starting_call cfg a ch s) as H. simpl in *.
  destruct (call cfg a (PStart ch) s) as [e s']. simpl in *. by subst.
Qed.
Next Obligation.
  intros cfg a ch s [x He]. pose proof (starting_call cfg a ch s) as H. simpl in *.
  destruct (call cfg a (PStart ch) s) as [e s']. simpl in *. by subst.
Qed.
Next Obligation. intros cfg a s. apply drain_call. Qed.
Next Obligation. intros cfg a s. apply drain_call. Qed.
Next Obligation. intros cfg a ch s. apply refused_call. Qed.
Next Obligation.
  intros cfg a s Hd. split; [by apply drained_call|]. intros ch. split; [|by apply drained_call].
  simpl. by destruct (DeclareTopology _ _ _ _).
Qed.
