(* ===== verification/Builders.v ===== *)
(** * Builders: src/sender/builder.go and src/receiver/builder.go

    The fluent methods as field updates, and [Build], which fills in defaults in
    the builder, validates it, and yields the configurations the other files
    use with the logger and the tracer provider. Values of other packages are
    known by identity: a logger is zap's no-op one or the host's, a tracer
    provider the host's or, when none is given, the global one; a meter
    provider and a subscriber appear as their presence, and [Auto] is
    [wire.Auto]. The calls a host makes are data too ([Call]), so that what
    [Build] yields can be read off any sequence of them. *)

From stdpp Require Import pretty.
From S2P Require Import Prelude GoLib.
From S2P Require Metrics Topic Sender Subscription Settle Receiver ReceiverLife.

(** The loop of both [Build]s: the index of the first element with an empty
    pattern. *)
Fixpoint first_empty {A} (pattern : A -> string) (i : nat) (l : list A) : option nat :=
  match l with
  | [] => None
  | x :: l' => if bool_decide (pattern x = "") then Some i else first_empty pattern (S i) l'
  end.

Lemma first_empty_spec {A} (pattern : A -> string) i l :
  match first_empty pattern i l with
  | Some j => exists l1 x l2, l = l1 ++ x :: l2 /\ pattern x = "" /\ j = i + length l1 /\
                              Forall (fun y => pattern y <> "") l1
  | None => Forall (fun y => pattern y <> "") l
  end.
Proof.
  revert i. induction l as [|x l IH]; intros i; simpl; [done|]. case_bool_decide as Hx.
  - exists [], x, l. split_and!; [done|done|simpl; lia|done].
  - specialize (IH (S i)). destruct (first_empty pattern (S i) l) as [j|]; [|by constructor].
    destruct IH as (l1 & y & l2 & -> & Hy & -> & Hl). exists (x :: l1), y, l2.
    split_and!; [done|done|simpl; lia|by constructor].
Qed.

(** A [*zap.Logger] that is not nil: [zap.NewNop()], or one of the host's. *)
Inductive Logger := Nop | Given (n : nat).

(** What a sequence of calls leaves in a field each call may set. *)
Definition last_set {A C} (sets : C -> option A) (d : A) (cs : list C) : A :=
  foldl (fun v c => default v (sets c)) d cs.

Lemma last_set_app {A C} (sets : C -> option A) d cs c :
  last_set sets d (cs ++ [c]) = default (last_set sets d cs) (sets c).
Proof. unfold last_set. by rewrite foldl_app. Qed.

(** ** src/sender/builder.go *)

Module SenderBuilder.
Import Topic Sender.

Record Builder := {
  bClientName : string;
  bExchange : string;
  bTopicMappings : list TopicMapping;
  bDefaultXform : DefaultTopicTransform;
  bMandatory : bool;
  bPersistent : bool;
  bConfirmMode : bool;
  bWireFormat : option WireFormat;
  bLogger : option Logger;
  bMeterProvider : bool;
  bTracerProvider : option nat;
}.

#[export] Instance set_bClientName : RecSet bClientName := {| rec_set := fun v b =>
  Build_Builder v (bExchange b) (bTopicMappings b) (bDefaultXform b) (bMandatory b) (bPersistent b)
  (bConfirmMode b) (bWireFormat b) (bLogger b) (bMeterProvider b) (bTracerProvider b) |}.
#[export] Instance set_bExchange : RecSet bExchange := {| rec_set := fun v b =>
  Build_Builder (bClientName b) v (bTopicMappings b) (bDefaultXform b) (bMandatory b) (bPersistent b)
  (bConfirmMode b) (bWireFormat b) (bLogger b) (bMeterProvider b) (bTracerProvider b) |}.
#[export] Instance set_bTopicMappings : RecSet bTopicMappings := {| rec_set := fun v b =>
  Build_Builder (bClientName b) (bExchange b) v (bDefaultXform b) (bMandatory b) (bPersistent b)
  (bConfirmMode b) (bWireFormat b) (bLogger b) (bMeterProvider b) (bTracerProvider b) |}.
#[export] Instance set_bDefaultXform : RecSet bDefaultXform := {| rec_set := fun v b =>
  Build_Builder (bClientName b) (bExchange b) (bTopicMappings b) v (bMandatory b) (bPersistent b)
  (bConfirmMode b) (bWireFormat b) (bLogger b) (bMeterProvider b) (bTracerProvider b) |}.
#[export] Instance set_bMandatory : RecSet bMandatory := {| rec_set := fun v b =>
  Build_Builder (bClientName b) (bExchange b) (bTopicMappings b) (bDefaultXform b) v (bPersistent b)
  (bConfirmMode b) (bWireFormat b) (bLogger b) (bMeterProvider b) (bTracerProvider b) |}.
#[export] Instance set_bPersistent : RecSet bPersistent := {| rec_set := fun v b =>
  Build_Builder (bClientName b) (bExchange b) (bTopicMappings b) (bDefaultXform b) (bMandatory b) v
  (bConfirmMode b) (bWireFormat b) (bLogger b) (bMeterProvider b) (bTracerProvider b) |}.
#[export] Instance set_bConfirmMode : RecSet bConfirmMode := {| rec_set := fun v b =>
  Build_Builder (bClientName b) (bExchange b) (bTopicMappings b) (bDefaultXform b) (bMandatory b)
  (bPersistent b) v (bWireFormat b) (bLogger b) (bMeterProvider b) (bTracerProvider b) |}.
#[export] Instance set_bWireFormat : RecSet bWireFormat := {| rec_set := fun v b =>
  Build_Builder (bClientName b) (bExchange b) (bTopicMappings b) (bDefaultXform b) (bMandatory b)
  (bPersistent b) (bConfirmMode b) v (bLogger b) (bMeterProvider b) (bTracerProvider b) |}.
#[export] Instance set_bLogger : RecSet bLogger := {| rec_set := fun v b =>
  Build_Builder (bClientName b) (bExchange b) (bTopicMappings b) (bDefaultXform b) (bMandatory b)
  (bPersistent b) (bConfirmMode b) (bWireFormat b) v (bMeterProvider b) (bTracerProvider b) |}.
#[export] Instance set_bMeterProvider : RecSet bMeterProvider := {| rec_set := fun v b =>
  Build_Builder (bClientName b) (bExchange b) (bTopicMappings b) (bDefaultXform b) (bMandatory b)
  (bPersistent b) (bConfirmMode b) (bWireFormat b) (bLogger b) v (bTracerProvider b) |}.
#[export] Instance set_bTracerProvider : RecSet bTracerProvider := {| rec_set := fun v b =>
  Build_Builder (bClientName b) (bExchange b) (bTopicMappings b) (bDefaultXform b) (bMandatory b)
  (bPersistent b) (bConfirmMode b) (bWireFormat b) (bLogger b) (bMeterProvider b) v |}.

(** The zero value of the struct, and the constructor. *)
Definition zero : Builder :=
  {| bClientName := ""; bExchange := ""; bTopicMappings := []; bDefaultXform := DefaultTopicSlashToDot;
     bMandatory := false; bPersistent := false; bConfirmMode := false; bWireFormat := None;
     bLogger := None; bMeterProvider := false; bTracerProvider := None |}.
Definition NewSender : Builder :=
  zero <| bDefaultXform := DefaultTopicSlashToDot |> <| bPersistent := true |> <| bMandatory := false |>
       <| bConfirmMode := false |> <| bLogger := Some Nop |>.

Definition WithClientName (name : string) (b : Builder) : Builder := b <| bClientName := name |>.
Definition WithExchange (exchange : string) (b : Builder) : Builder := b <| bExchange := exchange |>.
Definition WithTopicMapping (tm : TopicMapping) (b : Builder) : Builder :=
  b <| bTopicMappings := bTopicMappings b ++ [tm] |>.
Definition WithDefaultTransform (t : DefaultTopicTransform) (b : Builder) : Builder := b <| bDefaultXform := t |>.
Definition WithMandatory (mandatory : bool) (b : Builder) : Builder := b <| bMandatory := mandatory |>.
Definition WithPersistent (persistent : bool) (b : Builder) : Builder := b <| bPersistent := persistent |>.
Definition WithConfirmMode (v : bool) (b : Builder) : Builder := b <| bConfirmMode := v |>.
Definition WithWireFormat (f : option WireFormat) (b : Builder) : Builder := b <| bWireFormat := f |>.
(** [ByName] is [wire.ByName]. *)
Definition WithWireFormatName (ByName : string -> option WireFormat) (name : string) (b : Builder) : Builder :=
  b <| bWireFormat := ByName name |>.
Definition WithLogger (l : option Logger) (b : Builder) : Builder :=
  match l with Some _ => b <| bLogger := l |> | None => b end.
Definition WithMeterProvider (p : bool) (b : Builder) : Builder := b <| bMeterProvider := p |>.
Definition WithTracerProvider (tp : option nat) (b : Builder) : Builder := b <| bTracerProvider := tp |>.

Definition fmt_mapping : string := "rabbitmq sender: topic mapping %d has empty Pattern".

(** An [RMQSender]: what publishing uses, and where its logs and spans go. *)
Record Built := { config : SenderCfg; logger : Logger; tracer : option nat }.

(** The receiver [b] is written to: the defaults stay in the builder. *)
Definition Build (Auto : WireFormat) (b : Builder) : (Built + error) * Builder :=
  let wf := default Auto (bWireFormat b) in
  let lg := default Nop (bLogger b) in
  let b := b <| bWireFormat := Some wf |> <| bLogger := Some lg |> in
  match first_empty Pattern 0 (bTopicMappings b) with
  | Some i => (inr (Errorf fmt_mapping [pretty i]), b)
  | None =>
      (inl {| config :=
                {| clientName := bClientName b; exchange_ := bExchange b; topicMappings := bTopicMappings b;
                   defaultXform := bDefaultXform b; mandatory_ := bMandatory b; persistent_ := bPersistent b;
                   confirmMode := bConfirmMode b; wireFormat := wf;
                   metrics_ := Metrics.Sender.NewSenderMetrics (bClientName b) (bMeterProvider b) |};
              logger := lg; tracer := bTracerProvider b |}, b)
  end.

(** ** A host's calls *)

Inductive Call :=
| CClientName (name : string)
| CExchange (exchange : string)
| CTopicMapping (tm : TopicMapping)
| CDefaultTransform (t : DefaultTopicTransform)
| CMandatory (v : bool)
| CPersistent (v : bool)
| CConfirmMode (v : bool)
| CWireFormat (f : option WireFormat)
| CLogger (l : option Logger)
| CMeterProvider (p : bool)
| CTracerProvider (tp : option nat).

Definition do_call (b : Builder) (c : Call) : Builder :=
  match c with
  | CClientName name => WithClientName name b
  | CExchange exchange => WithExchange exchange b
  | CTopicMapping tm => WithTopicMapping tm b
  | CDefaultTransform t => WithDefaultTransform t b
  | CMandatory v => WithMandatory v b
  | CPersistent v => WithPersistent v b
  | CConfirmMode v => WithConfirmMode v b
  | CWireFormat f => WithWireFormat f b
  | CLogger l => WithLogger l b
  | CMeterProvider p => WithMeterProvider p b
  | CTracerProvider tp => WithTracerProvider tp b
  end.

(** The builder a sequence of calls leaves. *)
Definition built_by (cs : list Call) : Builder :=
  {| bClientName := last_set (fun c => match c with CClientName n => Some n | _ => None end) "" cs;
     bExchange := last_set (fun c => match c with CExchange x => Some x | _ => None end) "" cs;
     bTopicMappings := omap (fun c => match c with CTopicMapping tm => Some tm | _ => None end) cs;
     bDefaultXform := last_set (fun c => match c with CDefaultTransform t => Some t | _ => None end)
                        DefaultTopicSlashToDot cs;
     bMandatory := last_set (fun c => match c with CMandatory v => Some v | _ => None end) false cs;
     bPersistent := last_set (fun c => match c with CPersistent v => Some v | _ => None end) true cs;
     bConfirmMode := last_set (fun c => match c with CConfirmMode v => Some v | _ => None end) false cs;
     bWireFormat := last_set (fun c => match c with CWireFormat f => Some f | _ => None end) None cs;
     bLogger := Some (last_set (fun c => match c with CLogger l => l | _ => None end) Nop cs);
     bMeterProvider := last_set (fun c => match c with CMeterProvider v => Some v | _ => None end) false cs;
     bTracerProvider := last_set (fun c => match c with CTracerProvider v => Some v | _ => None end) None cs |}.
End SenderBuilder.

(** ** src/receiver/builder.go *)

Module ReceiverBuilder.
Import Subscription Settle Receiver ReceiverLife.

Record Builder := {
  bClientName : string;
  bQueue : string;
  bSubscriber : bool;
  bSubscriptions : list Subscription;
  bDefaultXform : DefaultRoutingKeyTransform;
  bPrefetch : Z;
  bExclusive : bool;
  bAckMode : AckMode;
  bWireFormat : option WireFormat;
  bOnDecodeError : bool;
  bConsumerTag : string;
  bDeclare : option Declare_;
  bBindings : list Binding;
  bLogger : option Logger;
  bMeterProvider : bool;
  bTracerProvider : option nat;
}.

#[export] Instance set_bClientName : RecSet bClientName := {| rec_set := fun v b =>
  Build_Builder v (bQueue b) (bSubscriber b) (bSubscriptions b) (bDefaultXform b) (bPrefetch b) (bExclusive b)
  (bAckMode b) (bWireFormat b) (bOnDecodeError b) (bConsumerTag b) (bDeclare b) (bBindings b) (bLogger b)
  (bMeterProvider b) (bTracerProvider b) |}.
#[export] Instance set_bQueue : RecSet bQueue := {| rec_set := fun v b =>
  Build_Builder (bClientName b) v (bSubscriber b) (bSubscriptions b) (bDefaultXform b) (bPrefetch b)
  (bExclusive b) (bAckMode b) (bWireFormat b) (bOnDecodeError b) (bConsumerTag b) (bDeclare b) (bBindings b)
  (bLogger b) (bMeterProvider b) (bTracerProvider b) |}.
#[export] Instance set_bSubscriber : RecSet bSubscriber := {| rec_set := fun v b =>
  Build_Builder (bClientName b) (bQueue b) v (bSubscriptions b) (bDefaultXform b) (bPrefetch b) (bExclusive b)
  (bAckMode b) (bWireFormat b) (bOnDecodeError b) (bConsumerTag b) (bDeclare b) (bBindings b) (bLogger b)
  (bMeterProvider b) (bTracerProvider b) |}.
#[export] Instance set_bSubscriptions : RecSet bSubscriptions := {| rec_set := fun v b =>
  Build_Builder (bClientName b) (bQueue b) (bSubscriber b) v (bDefaultXform b) (bPrefetch b) (bExclusive b)
  (bAckMode b) (bWireFormat b) (bOnDecodeError b) (bConsumerTag b) (bDeclare b) (bBindings b) (bLogger b)
  (bMeterProvider b) (bTracerProvider b) |}.
#[export] Instance set_bDefaultXform : RecSet bDefaultXform := {| rec_set := fun v b =>
  Build_Builder (bClientName b) (bQueue b) (bSubscriber b) (bSubscriptions b) v (bPrefetch b) (bExclusive b)
  (bAckMode b) (bWireFormat b) (bOnDecodeError b) (bConsumerTag b) (bDeclare b) (bBindings b) (bLogger b)
  (bMeterProvider b) (bTracerProvider b) |}.
#[export] Instance set_bPrefetch : RecSet bPrefetch := {| rec_set := fun v b =>
  Build_Builder (bClientName b) (bQueue b) (bSubscriber b) (bSubscriptions b) (bDefaultXform b) v
  (bExclusive b) (bAckMode b) (bWireFormat b) (bOnDecodeError b) (bConsumerTag b) (bDeclare b) (bBindings b)
  (bLogger b) (bMeterProvider b) (bTracerProvider b) |}.
#[export] Instance set_bExclusive : RecSet bExclusive := {| rec_set := fun v b =>
  Build_Builder (bClientName b) (bQueue b) (bSubscriber b) (bSubscriptions b) (bDefaultXform b) (bPrefetch b) v
  (bAckMode b) (bWireFormat b) (bOnDecodeError b) (bConsumerTag b) (bDeclare b) (bBindings b) (bLogger b)
  (bMeterProvider b) (bTracerProvider b) |}.
#[export] Instance set_bAckMode : RecSet bAckMode := {| rec_set := fun v b =>
  Build_Builder (bClientName b) (bQueue b) (bSubscriber b) (bSubscriptions b) (bDefaultXform b) (bPrefetch b)
  (bExclusive b) v (bWireFormat b) (bOnDecodeError b) (bConsumerTag b) (bDeclare b) (bBindings b) (bLogger b)
  (bMeterProvider b) (bTracerProvider b) |}.
#[export] Instance set_bWireFormat : RecSet bWireFormat := {| rec_set := fun v b =>
  Build_Builder (bClientName b) (bQueue b) (bSubscriber b) (bSubscriptions b) (bDefaultXform b) (bPrefetch b)
  (bExclusive b) (bAckMode b) v (bOnDecodeError b) (bConsumerTag b) (bDeclare b) (bBindings b) (bLogger b)
  (bMeterProvider b) (bTracerProvider b) |}.
#[export] Instance set_bOnDecodeError : RecSet bOnDecodeError := {| rec_set := fun v b =>
  Build_Builder (bClientName b) (bQueue b) (bSubscriber b) (bSubscriptions b) (bDefaultXform b) (bPrefetch b)
  (bExclusive b) (bAckMode b) (bWireFormat b) v (bConsumerTag b) (bDeclare b) (bBindings b) (bLogger b)
  (bMeterProvider b) (bTracerProvider b) |}.
#[export] Instance set_bConsumerTag : RecSet bConsumerTag := {| rec_set := fun v b =>
  Build_Builder (bClientName b) (bQueue b) (bSubscriber b) (bSubscriptions b) (bDefaultXform b) (bPrefetch b)
  (bExclusive b) (bAckMode b) (bWireFormat b) (bOnDecodeError b) v (bDeclare b) (bBindings b) (bLogger b)
  (bMeterProvider b) (bTracerProvider b) |}.
#[export] Instance set_bDeclare : RecSet bDeclare := {| rec_set := fun v b =>
  Build_Builder (bClientName b) (bQueue b) (bSubscriber b) (bSubscriptions b) (bDefaultXform b) (bPrefetch b)
  (bExclusive b) (bAckMode b) (bWireFormat b) (bOnDecodeError b) (bConsumerTag b) v (bBindings b) (bLogger b)
  (bMeterProvider b) (bTracerProvider b) |}.
#[export] Instance set_bBindings : RecSet bBindings := {| rec_set := fun v b =>
  Build_Builder (bClientName b) (bQueue b) (bSubscriber b) (bSubscriptions b) (bDefaultXform b) (bPrefetch b)
  (bExclusive b) (bAckMode b) (bWireFormat b) (bOnDecodeError b) (bConsumerTag b) (bDeclare b) v (bLogger b)
  (bMeterProvider b) (bTracerProvider b) |}.
#[export] Instance set_bLogger : RecSet bLogger := {| rec_set := fun v b =>
  Build_Builder (bClientName b) (bQueue b) (bSubscriber b) (bSubscriptions b) (bDefaultXform b) (bPrefetch b)
  (bExclusive b) (bAckMode b) (bWireFormat b) (bOnDecodeError b) (bConsumerTag b) (bDeclare b) (bBindings b) v
  (bMeterProvider b) (bTracerProvider b) |}.
#[export] Instance set_bMeterProvider : RecSet bMeterProvider := {| rec_set := fun v b =>
  Build_Builder (bClientName b) (bQueue b) (bSubscriber b) (bSubscriptions b) (bDefaultXform b) (bPrefetch b)
  (bExclusive b) (bAckMode b) (bWireFormat b) (bOnDecodeError b) (bConsumerTag b) (bDeclare b) (bBindings b)
  (bLogger b) v (bTracerProvider b) |}.
#[export] Instance set_bTracerProvider : RecSet bTracerProvider := {| rec_set := fun v b =>
  Build_Builder (bClientName b) (bQueue b) (bSubscriber b) (bSubscriptions b) (bDefaultXform b) (bPrefetch b)
  (bExclusive b) (bAckMode b) (bWireFormat b) (bOnDecodeError b) (bConsumerTag b) (bDeclare b) (bBindings b)
  (bLogger b) (bMeterProvider b) v |}.

(** The zero value of the struct, and the constructor. *)
Definition zero : Builder :=
  {| bClientName := ""; bQueue := ""; bSubscriber := false; bSubscriptions := [];
     bDefaultXform := DefaultRKDotToSlash; bPrefetch := 0; bExclusive := false; bAckMode := AckAfterHandling;
     bWireFormat := None; bOnDecodeError := false; bConsumerTag := ""; bDeclare := None; bBindings := [];
     bLogger := None; bMeterProvider := false; bTracerProvider := None |}.
Definition NewReceiver : Builder :=
  zero <| bDefaultXform := DefaultRKDotToSlash |> <| bPrefetch := 10%Z |> <| bLogger := Some Nop |>.

Definition WithClientName (name : string) (b : Builder) : Builder := b <| bClientName := name |>.
Definition WithQueue (queue : string) (b : Builder) : Builder := b <| bQueue := queue |>.
Definition WithSubscriber (s : bool) (b : Builder) : Builder := b <| bSubscriber := s |>.
Definition WithSubscription (sub : Subscription) (b : Builder) : Builder :=
  b <| bSubscriptions := bSubscriptions b ++ [sub] |>.
Definition WithDefaultTransform (t : DefaultRoutingKeyTransform) (b : Builder) : Builder :=
  b <| bDefaultXform := t |>.
Definition WithPrefetch (n : Z) (b : Builder) : Builder := b <| bPrefetch := n |>.
Definition WithExclusive (v : bool) (b : Builder) : Builder := b <| bExclusive := v |>.
Definition WithAckMode (m : AckMode) (b : Builder) : Builder := b <| bAckMode := m |>.
Definition WithWireFormat (f : option WireFormat) (b : Builder) : Builder := b <| bWireFormat := f |>.
(** [ByName] is [wire.ByName]. *)
Definition WithWireFormatName (ByName : string -> option WireFormat) (name : string) (b : Builder) : Builder :=
  b <| bWireFormat := ByName name |>.
Definition WithDecodeErrorHook (h : bool) (b : Builder) : Builder := b <| bOnDecodeError := h |>.
Definition WithConsumerTag (tag : string) (b : Builder) : Builder := b <| bConsumerTag := tag |>.
Definition WithDeclare (d : Declare_) (b : Builder) : Builder := b <| bDeclare := Some d |>.
Definition WithBinding (binding : Binding) (b : Builder) : Builder := b <| bBindings := bBindings b ++ [binding] |>.
Definition WithLogger (l : option Logger) (b : Builder) : Builder :=
  match l with Some _ => b <| bLogger := l |> | None => b end.
Definition WithMeterProvider (p : bool) (b : Builder) : Builder := b <| bMeterProvider := p |>.
Definition WithTracerProvider (tp : option nat) (b : Builder) : Builder := b <| bTracerProvider := tp |>.

(** An [RMQReceiver], by the part that uses each field. *)
Record Built := { recv : RecvCfg; route : RouteCfg; life : LifeCfg; logger : Logger; tracer : option nat }.

Definition fmt_subscription : string := "rabbitmq receiver: subscription %d has empty RoutingKeyPattern".

(** The receiver [b] is written to, once it is valid. *)
Definition Build (Auto : WireFormat) (b : Builder) : (Built + error) * Builder :=
  if bool_decide (bQueue b = "") then (inr (New "rabbitmq receiver: queue is required"), b)
  else if negb (bSubscriber b) then (inr (New "rabbitmq receiver: subscriber is required"), b)
  else
    match first_empty RoutingKeyPattern 0 (bSubscriptions b) with
    | Some i => (inr (Errorf fmt_subscription [pretty i]), b)
    | None =>
        let wf := default Auto (bWireFormat b) in
        let lg := default Nop (bLogger b) in
        let b := b <| bWireFormat := Some wf |> <| bLogger := Some lg |> in
        (inl {| recv := {| rClientName := bClientName b; queue_ := bQueue b; ackMode := bAckMode b;
                           rMetrics := Metrics.Receiver.NewReceiverMetrics (bClientName b) (bMeterProvider b) |};
                route := {| subscriptions := bSubscriptions b; defaultXform := bDefaultXform b;
                            wireFormat := wf; onDecodeError := bOnDecodeError b |};
                life := {| lClientName := bClientName b; queue := bQueue b; prefetch := bPrefetch b;
                           exclusive := bExclusive b; lAckMode := bAckMode b; consumerTag := bConsumerTag b;
                           declare := bDeclare b; bindings := bBindings b |};
                logger := lg; tracer := bTracerProvider b |}, b)
    end.

(** ** A host's calls *)

Inductive Call :=
| CClientName (name : string)
| CQueue (queue : string)
| CSubscriber (v : bool)
| CSubscription (sub : Subscription)
| CDefaultTransform (t : DefaultRoutingKeyTransform)
| CPrefetch (n : Z)
| CExclusive (v : bool)
| CAckMode (m : AckMode)
| CWireFormat (f : option WireFormat)
| CDecodeErrorHook (h : bool)
| CConsumerTag (tag : string)
| CDeclare (d : Declare_)
| CBinding (binding : Binding)
| CLogger (l : option Logger)
| CMeterProvider (p : bool)
| CTracerProvider (tp : option nat).

Definition do_call (b : Builder) (c : Call) : Builder :=
  match c with
  | CClientName name => WithClientName name b
  | CQueue queue => WithQueue queue b
  | CSubscriber v => WithSubscriber v b
  | CSubscription sub => WithSubscription sub b
  | CDefaultTransform t => WithDefaultTransform t b
  | CPrefetch n => WithPrefetch n b
  | CExclusive v => WithExclusive v b
  | CAckMode m => WithAckMode m b
  | CWireFormat f => WithWireFormat f b
  | CDecodeErrorHook h => WithDecodeErrorHook h b
  | CConsumerTag tag => WithConsumerTag tag b
  | CDeclare d => WithDeclare d b
  | CBinding binding => WithBinding binding b
  | CLogger l => WithLogger l b
  | CMeterProvider p => WithMeterProvider p b
  | CTracerProvider tp => WithTracerProvider tp b
  end.

(** The builder a sequence of calls leaves. *)
Definition built_by (cs : list Call) : Builder :=
  {| bClientName := last_set (fun c => match c with CClientName n => Some n | _ => None end) "" cs;
     bQueue := last_set (fun c => match c with CQueue q => Some q | _ => None end) "" cs;
     bSubscriber := last_set (fun c => match c with CSubscriber v => Some v | _ => None end) false cs;
     bSubscriptions := omap (fun c => match c with CSubscription x => Some x | _ => None end) cs;
     bDefaultXform := last_set (fun c => match c with CDefaultTransform t => Some t | _ => None end)
                        DefaultRKDotToSlash cs;
     bPrefetch := last_set (fun c => match c with CPrefetch n => Some n | _ => None end) 10%Z cs;
     bExclusive := last_set (fun c => match c with CExclusive v => Some v | _ => None end) false cs;
     bAckMode := last_set (fun c => match c with CAckMode m => Some m | _ => None end) AckAfterHandling cs;
     bWireFormat := last_set (fun c => match c with CWireFormat f => Some f | _ => None end) None cs;
     bOnDecodeError := last_set (fun c => match c with CDecodeErrorHook v => Some v | _ => None end) false cs;
     bConsumerTag := last_set (fun c => match c with CConsumerTag t => Some t | _ => None end) "" cs;
     bDeclare := last_set (fun c => match c with CDeclare d => Some (Some d) | _ => None end) None cs;
     bBindings := omap (fun c => match c with CBinding x => Some x | _ => None end) cs;
     bLogger := Some (last_set (fun c => match c with CLogger l => l | _ => None end) Nop cs);
     bMeterProvider := last_set (fun c => match c with CMeterProvider v => Some v | _ => None end) false cs;
     bTracerProvider := last_set (fun c => match c with CTracerProvider v => Some v | _ => None end) None cs |}.
End ReceiverBuilder.

(** ** Properties *)

(** [Build] of the sender fails exactly when a topic mapping has an empty
    pattern, and names the first such mapping; otherwise the sender has the
    builder's mappings in the order they were added, and a wire format. *)
Theorem sender_Build_validates Auto b :
  match (SenderBuilder.Build Auto b).1 with
  | inl r =>
      Forall (fun m => Topic.Pattern m <> "") (Sender.topicMappings (SenderBuilder.config r)) /\
      Sender.topicMappings (SenderBuilder.config r) = SenderBuilder.bTopicMappings b /\
      Sender.wireFormat (SenderBuilder.config r) = default Auto (SenderBuilder.bWireFormat b)
  | inr e =>
      exists l1 m l2, SenderBuilder.bTopicMappings b = l1 ++ m :: l2 /\ Topic.Pattern m = "" /\
        Forall (fun m => Topic.Pattern m <> "") l1 /\
        e = Errorf SenderBuilder.fmt_mapping [pretty (length l1)]
  end.
Proof.
  unfold SenderBuilder.Build. unfold rec_set. simpl.
  pose proof (first_empty_spec Topic.Pattern 0 (SenderBuilder.bTopicMappings b)) as H.
  destruct (first_empty Topic.Pattern 0 _) as [i|]; [|by simpl].
  destruct H as (l1 & m & l2 & Hl & Hm & -> & Hf). exists l1, m, l2. done.
Qed.

(** [Build] of the receiver checks, in this order, the queue, the subscriber
    and the subscriptions' patterns, and the receiver it yields polls that
    queue with non-empty patterns, in the order they were added. *)
Theorem receiver_Build_validates Auto b :
  match (ReceiverBuilder.Build Auto b).1 with
  | inl r =>
      ReceiverLife.queue (ReceiverBuilder.life r) <> "" /\
      ReceiverLife.queue (ReceiverBuilder.life r) = Settle.queue_ (ReceiverBuilder.recv r) /\
      ReceiverBuilder.bSubscriber b = true /\
      Receiver.subscriptions (ReceiverBuilder.route r) = ReceiverBuilder.bSubscriptions b /\
      Forall (fun s => Receiver.RoutingKeyPattern s <> "") (ReceiverBuilder.bSubscriptions b)
  | inr e =>
      ReceiverBuilder.bQueue b = "" \/ ReceiverBuilder.bSubscriber b = false \/
      exists l1 x l2, ReceiverBuilder.bSubscriptions b = l1 ++ x :: l2 /\ Receiver.RoutingKeyPattern x = "" /\
        Forall (fun s => Receiver.RoutingKeyPattern s <> "") l1 /\
        e = Errorf ReceiverBuilder.fmt_subscription [pretty (length l1)]
  end.
Proof.
  unfold ReceiverBuilder.Build. case_bool_decide as Hq; [by left|].
  destruct (ReceiverBuilder.bSubscriber b) eqn:Hs; simpl; [|by right; left].
  pose proof (first_empty_spec Receiver.RoutingKeyPattern 0 (ReceiverBuilder.bSubscriptions b)) as H.
  destruct (first_empty Receiver.RoutingKeyPattern 0 _) as [i|]; [|by simpl].
  destruct H as (l1 & x & l2 & Hl & Hx & -> & Hf). right. right. exists l1, x, l2. done.
Qed.

(** A call adds to what the calls before it left. *)
Lemma sender_calls cs :
  foldl SenderBuilder.do_call SenderBuilder.NewSender cs = SenderBuilder.built_by cs.
Proof.
  induction cs as [|c cs IH] using rev_ind; [done|]. rewrite foldl_app. simpl. rewrite IH.
  unfold SenderBuilder.built_by. rewrite !last_set_app, omap_app.
  destruct c as [| | | | | | | |[l|]| |]; cbn -[last_set omap]; by rewrite ?app_nil_r.
Qed.

Lemma receiver_calls cs :
  foldl ReceiverBuilder.do_call ReceiverBuilder.NewReceiver cs = ReceiverBuilder.built_by cs.
Proof.
  induction cs as [|c cs IH] using rev_ind; [done|]. rewrite foldl_app. simpl. rewrite IH.
  unfold ReceiverBuilder.built_by. rewrite !last_set_app, !omap_app.
  destruct c as [| | | | | | | | | | | | |[l|]| |]; cbn -[last_set omap]; by rewrite ?app_nil_r.
Qed.

(** Whatever methods a host calls, in whatever order, the sender has the last
    value of each setting, the mappings in the order they were added and a
    logger -- a nil one never replaces another -- and building again yields
    the same sender. *)
Theorem sender_built_from_calls Auto cs :
  let b := SenderBuilder.built_by cs in
  let '(r, b') := SenderBuilder.Build Auto (foldl SenderBuilder.do_call SenderBuilder.NewSender cs) in
  (SenderBuilder.Build Auto b').1 = r /\
  match r with
  | inl s =>
      Sender.exchange_ (SenderBuilder.config s) = SenderBuilder.bExchange b /\
      Sender.topicMappings (SenderBuilder.config s) = SenderBuilder.bTopicMappings b /\
      Sender.persistent_ (SenderBuilder.config s) = SenderBuilder.bPersistent b /\
      Sender.confirmMode (SenderBuilder.config s) = SenderBuilder.bConfirmMode b /\
      Some (SenderBuilder.logger s) = SenderBuilder.bLogger b /\ SenderBuilder.tracer s = SenderBuilder.bTracerProvider b
  | inr e => ~ Forall (fun m => Topic.Pattern m <> "") (SenderBuilder.bTopicMappings b)
  end.
Proof.
  cbv zeta. rewrite sender_calls. pose proof (sender_Build_validates Auto (SenderBuilder.built_by cs)) as Hv.
  remember (SenderBuilder.built_by cs) as b eqn:Hb. assert (is_Some (SenderBuilder.bLogger b)) as [lg Hl] by by subst.
  clear Hb. unfold SenderBuilder.Build, rec_set in *. simpl in *. rewrite Hl in *.
  destruct (first_empty Topic.Pattern 0 _) as [i|] eqn:He; simpl in *; rewrite He; split; try done.
  destruct Hv as (l1 & m & l2 & -> & Hm & _). intros [_ [Hx _]%Forall_cons]%Forall_app. by apply Hx.
Qed.

(** The same for the receiver; a receiver needs a queue and a subscriber. *)
Theorem receiver_built_from_calls Auto cs :
  let b := ReceiverBuilder.built_by cs in
  let '(r, b') := ReceiverBuilder.Build Auto (foldl ReceiverBuilder.do_call ReceiverBuilder.NewReceiver cs) in
  (ReceiverBuilder.Build Auto b').1 = r /\
  match r with
  | inl s =>
      ReceiverLife.queue (ReceiverBuilder.life s) = ReceiverBuilder.bQueue b /\ ReceiverBuilder.bQueue b <> "" /\
      ReceiverLife.prefetch (ReceiverBuilder.life s) = ReceiverBuilder.bPrefetch b /\
      ReceiverLife.bindings (ReceiverBuilder.life s) = ReceiverBuilder.bBindings b /\
      ReceiverLife.declare (ReceiverBuilder.life s) = ReceiverBuilder.bDeclare b /\
      Receiver.subscriptions (ReceiverBuilder.route s) = ReceiverBuilder.bSubscriptions b /\
      Settle.ackMode (ReceiverBuilder.recv s) = ReceiverLife.lAckMode (ReceiverBuilder.life s) /\
      Some (ReceiverBuilder.logger s) = ReceiverBuilder.bLogger b
  | inr e => ReceiverBuilder.bQueue b = "" \/ ReceiverBuilder.bSubscriber b = false \/
             ~ Forall (fun x => Receiver.RoutingKeyPattern x <> "") (ReceiverBuilder.bSubscriptions b)
  end.
Proof.
  cbv zeta. rewrite receiver_calls. pose proof (receiver_Build_validates Auto (ReceiverBuilder.built_by cs)) as Hv.
  remember (ReceiverBuilder.built_by cs) as b eqn:Hb. assert (is_Some (ReceiverBuilder.bLogger b)) as [lg Hl] by by subst.
  clear Hb. unfold ReceiverBuilder.Build, rec_set in *. simpl in *.
  case_bool_decide as Hq; [by rewrite ?bool_decide_eq_true_2; auto|].
  destruct (ReceiverBuilder.bSubscriber b) eqn:Hs; simpl in *.
  2:{ rewrite ?Hs, ?bool_decide_eq_false_2 by done. auto. }
  rewrite Hl in *. destruct (first_empty Receiver.RoutingKeyPattern 0 _) as [i|] eqn:He; simpl in *;
    rewrite ?bool_decide_eq_false_2 by done; rewrite ?Hs, ?He; simpl; (split; [done|]); [|done].
  right. right. destruct Hv as [|[|(l1 & m & l2 & -> & Hm & _)]]; [done..|].
  intros [_ [Hx _]%Forall_cons]%Forall_app. by apply Hx.
Qed.
