(* ===== verification/ClientAlone.v ===== *)
(** * The interleaved client, one goroutine at a time

    The programs of ClientRun.v and the functions of Client.v translate the
    same code twice, once cut into atomic actions and once whole. Here they
    are shown to agree: a program run by itself is the function. *)

From stdpp Require Import pretty.
From S2P Require Import Prelude GoLib Config Metrics Links Client ClientSetup ClientLife ClientRun.

(** ** Run by itself, a program is the function of Client.v *)

Section sequential.
Context {S R : Type} `{!SenderLink S, !ReceiverLink R} (cfg : Config) (env : Env).
Context (closed : list CEvent -> ChannelClosed).
Implicit Types s : CState S R.

Lemma alone_bind {A B} (f : A -> Prog (CState S R) B) (p : Prog (CState S R) A) s :
  alone (p ≫= f) s = let '(a, s') := alone p s in alone (f a) s'.
Proof.
  unfold mbind, Prog_bind. revert s.
  induction p as [a|X l m k IH|i g k IH|p IH|p IH|p IH|p IH]; intros s; simpl; try apply IH.
  - done.
  - unfold mbind, M_bind. destruct (m s) as [x s']. apply IH.
  - unfold mbind, M_bind. destruct (on_receiver i (method g) s) as [x s']. apply IH.
Qed.

Lemma alone_rcall i f s : alone (rcall i f) s = on_receiver i (method f) s.
Proof. simpl. unfold mbind, M_bind. by destruct (on_receiver i (method f) s). Qed.
Lemma alone_act {X} (m : M (CState S R) X) s : alone (act m) s = m s.
Proof. simpl. unfold mbind, M_bind. by destruct (m s). Qed.
Lemma alone_crit {X} (m : M (CState S R) X) s : alone (crit m) s = m s.
Proof. apply alone_act. Qed.
Lemma alone_ret {A} (a : A) s : alone (mret a : Prog (CState S R) A) s = (a, s).
Proof. done. Qed.
Lemma M_ret_run {A} (a : A) s : (mret a : M (CState S R) A) s = (a, s).
Proof. done. Qed.

Lemma alone_for_each {A} (l : list A) (f : A -> M (CState S R) unit) s :
  alone (for_each_p l (fun x => act (f x))) s = for_each l f s.
Proof.
  revert s. induction l as [|x l IH]; intros s; cbn [for_each_p for_each]; [done|].
  rewrite alone_bind, alone_act, M_bind_run. destruct (f x s) as [[] s']. apply IH.
Qed.

(** One after the other is all at once. *)
Lemma alone_each_receiver f j n s :
  j + n = length (receivers s) ->
  alone (collect_p (seq j n) (fun i => rcall i f)) s =
  ((fun r => (method f r).1) <$> drop j (receivers s),
   s <| receivers := take j (receivers s) ++ ((fun r => (method f r).2) <$> drop j (receivers s)) |>).
Proof.
  revert j s. induction n as [|n IH]; intros j s Hn; cbn [seq collect_p].
  - rewrite drop_ge, take_ge by lia. simpl. rewrite app_nil_r. by destruct s.
  - rewrite alone_bind, alone_rcall. destruct (lookup_lt_is_Some_2 (receivers s) j) as [r Hr]; [lia|].
    unfold on_receiver at 1. rewrite Hr, alone_bind, IH by (unfold rec_set; simpl; rewrite length_insert; lia).
    rewrite alone_ret. rewrite (drop_S _ _ _ Hr).
    assert (j < length (receivers s)) by lia.
    unfold rec_set. simpl. rewrite drop_insert_lt by lia. f_equal. f_equal.
    rewrite (take_S_r _ _ (method f r).2) by (by rewrite list_lookup_insert_eq).
    by rewrite take_insert_ge, <- app_assoc by lia.
Qed.

Lemma alone_receivers_Stop s : alone receivers_Stop_p s = receivers_Stop s.
Proof.
  unfold receivers_Stop_p. rewrite alone_bind, alone_act. unfold gets at 1.
  by rewrite alone_each_receiver by lia.
Qed.

Lemma alone_each_sender j n s :
  j + n = length (senders s) ->
  alone (for_each_p (seq j n) (fun i => act (sender_SetChannel i None))) s =
  (tt, s <| senders := take j (senders s) ++ (SetChannel None <$> drop j (senders s)) |>).
Proof.
  revert j s. induction n as [|n IH]; intros j s Hn; cbn [seq for_each_p].
  - rewrite drop_ge, take_ge by lia. simpl. rewrite app_nil_r. by destruct s.
  - rewrite alone_bind, alone_act. destruct (lookup_lt_is_Some_2 (senders s) j) as [x Hx]; [lia|].
    unfold sender_SetChannel at 1, modify. rewrite IH by (unfold rec_set; simpl; rewrite length_alter; lia).
    rewrite (drop_S _ _ _ Hx). unfold rec_set. simpl. f_equal. f_equal.
    rewrite (take_S_r _ _ (SetChannel None x)) by (by rewrite list_lookup_alter_eq, Hx).
    rewrite take_alter_ge, drop_alter_lt by lia. by rewrite <- app_assoc.
Qed.

Lemma alone_senders_off s : alone senders_off_p s = senders_off s.
Proof.
  unfold senders_off_p. rewrite alone_bind, alone_act. unfold gets at 1.
  by rewrite alone_each_sender by lia.
Qed.

Create Rewrite HintDb alone.
#[local] Hint Rewrite @alone_act @alone_rcall @alone_crit @alone_ret @M_ret_run @alone_for_each @alone_receivers_Stop
  @alone_senders_off : alone.

(** Take the next action of a program and of the function it is. *)
Ltac lockstep :=
  repeat first
    [ done
    | rewrite alone_bind
    | rewrite M_bind_run
    | progress autorewrite with alone
    | progress cbn [fst snd alone method recheck_sender_p recheck_receiver_p]
    | match goal with
      | |- context [let '(_, _) := alone (match ?x with _ => _ end) _ in _] => destruct x
      | |- context [let '(_, _) := (match ?x with _ => _ end) _ in _] => destruct x
      | |- ?l = ?r =>
          match l with context [let '(_, _) := ?m ?s in _] =>
            match r with context [let '(_, _) := m s in _] => destruct (m s) as [? ?] end end
      | |- alone (match ?x with _ => _ end) _ = _ => destruct x
      end ].

Lemma alone_cleanup sChs rChs s : alone (cleanup_p sChs rChs) s = cleanup sChs rChs s.
Proof. unfold cleanup_p, cleanup. lockstep. Qed.

Lemma alone_failed sChs rChs e s : alone (failed_p sChs rChs e) s = failed sChs rChs e s.
Proof. unfold failed_p, failed. rewrite alone_bind, alone_cleanup. lockstep. Qed.
#[local] Hint Rewrite @alone_failed : alone.

Lemma alone_setup_senders k i n sChs s :
  alone (setup_senders_p cfg env k i n sChs) s = setup_senders cfg env k i n sChs s.
Proof.
  revert i sChs s. induction n as [|n IH]; intros i sChs s; cbn [setup_senders_p setup_senders]; lockstep.
Qed.

Lemma alone_setup_receivers k i n sChs rChs s :
  alone (setup_receivers_p cfg env k i n sChs rChs) s = setup_receivers cfg env k i n sChs rChs s.
Proof.
  revert i rChs s. induction n as [|n IH]; intros i rChs s; cbn [setup_receivers_p setup_receivers]; lockstep.
Qed.

Lemma alone_go_all g i chs s : alone (go_all_p g i chs) s = go_all g i chs s.
Proof. revert i s. induction chs as [|ch chs IH]; intros i s; cbn [go_all_p go_all]; lockstep. Qed.
#[local] Hint Rewrite alone_setup_senders alone_setup_receivers alone_go_all : alone.

Lemma alone_setupChannels k s : alone (setupChannels_p cfg env k) s = setupChannels cfg env k s.
Proof. unfold setupChannels_p, setupChannels. lockstep. Qed.
#[local] Hint Rewrite alone_setupChannels : alone.

Lemma alone_established initial url k s :
  alone (established_p cfg env initial url k) s = established cfg env initial url k s.
Proof. unfold established_p, established, when_p, when. lockstep. Qed.
#[local] Hint Rewrite alone_established : alone.

Lemma alone_walk initial urls s : alone (walk_p cfg env initial urls) s = walk cfg env initial urls s.
Proof.
  revert s. induction urls as [|url urls IH]; intros s; cbn [walk_p walk]; lockstep.
Qed.
#[local] Hint Rewrite alone_walk : alone.

Lemma alone_attempt initial attempt fuel s :
  connect cfg env (Datatypes.S fuel) initial attempt s =
  let '(r, s') := alone (attempt_p cfg env initial attempt) s in
  match r with
  | Some res => (res, s')
  | None => connect cfg env fuel initial (attempt + 1) s'
  end.
Proof. unfold attempt_p. cbn [connect]. lockstep. Qed.

Lemma alone_handleDisconnect s : alone (handleDisconnect_p cfg) s = handleDisconnect cfg s.
Proof. unfold handleDisconnect_p, handleDisconnect, when_p, when. lockstep. Qed.
#[local] Hint Rewrite alone_handleDisconnect : alone.

Lemma alone_Start s : alone (Start_p cfg) s = Start cfg s.
Proof. unfold Start_p, Start, claim_start. lockstep. Qed.

Lemma alone_Stop_tail s : alone (Stop_tail_p cfg env) s = Stop_tail cfg env s.
Proof. unfold Stop_tail_p, Stop_tail, when_p, when. lockstep. Qed.

Lemma alone_Stop s : alone (Stop_p cfg env) s = Stop cfg env (mret tt) s.
Proof.
  pose proof alone_Stop_tail as Ht. unfold Stop_p, Stop.
  set (tail_p := Stop_tail_p cfg env) in *. set (tail := Stop_tail cfg env) in *. clearbody tail tail_p.
  destruct s as [ss rs [] []]; try done. apply Ht.
Qed.

Lemma alone_Drain s : alone (Drain_p (seq 0 (length (receivers s)))) s = Drain s.
Proof.
  unfold Drain_p, Drain. rewrite alone_bind, alone_crit, M_bind_run. unfold modify.
  by rewrite alone_bind, alone_each_receiver by done.
Qed.

Lemma alone_recoverSender idx s :
  alone (recoverSenderChannel_p env idx) s = recoverSenderChannel env (mret tt) idx s.
Proof. unfold recoverSenderChannel_p, recoverSenderChannel. lockstep. Qed.

Lemma alone_recoverReceiver idx s :
  alone (recoverReceiverChannel_p env idx) s = recoverReceiverChannel env (mret tt) idx s.
Proof. unfold recoverReceiverChannel_p, recoverReceiverChannel. lockstep. Qed.

(** One iteration of a watcher, for any recovery. *)
Lemma alone_watch who (recover : nat -> M (CState S R) (nat + error)) p declined fuel idx ch s :
  (forall s', alone (p idx) s' = recover idx s') ->
  watchChannel cfg env closed who recover declined (Datatypes.S fuel) idx ch s =
  let '(next, s') := alone (watch_p cfg env closed who p declined idx ch) s in
  match next with
  | Some ch' => watchChannel cfg env closed who recover declined fuel idx ch' s'
  | None => (true, s')
  end.
Proof.
  intros Hp. unfold watch_p. cbn [watchChannel]. lockstep.
  all: rewrite Hp; lockstep.
Qed.

Lemma alone_await_loss fuel cfuel k s :
  watchConnAndReconnect cfg env (Datatypes.S fuel) cfuel k s =
  let '(lost, s') := alone (await_loss_p cfg env k) s in
  if lost : bool then
    let '(r, s'') := connect cfg env cfuel false 0 s' in
    match r with
    | Connected k' => watchConnAndReconnect cfg env fuel cfuel k' s''
    | GaveUp => (true, s'')
    | NoFuel => (false, s'')
    end
  else (true, s').
Proof.
  unfold await_loss_p. cbn [watchConnAndReconnect].
  set (conn_ := connect cfg env cfuel false 0). clearbody conn_. lockstep.
  all: try match goal with r : ConnResult |- _ => by destruct r end.
Qed.
End sequential.

(** Every goroutine's program, run by itself, is the function of Client.v: one
    iteration of [connect], of [watchConnAndReconnect] and of a channel's
    watcher, and the whole of [Start], [Stop], [Drain] and the recoveries. *)
Theorem programs_alone {S R} `{!SenderLink S, !ReceiverLink R} cfg env closed (s : CState S R) :
  (forall fuel initial attempt,
     connect cfg env (Datatypes.S fuel) initial attempt s =
     let '(r, s') := alone (attempt_p cfg env initial attempt) s in
     match r with
     | Some res => (res, s')
     | None => connect cfg env fuel initial (attempt + 1) s'
     end) /\
  (forall fuel cfuel k,
     watchConnAndReconnect cfg env (Datatypes.S fuel) cfuel k s =
     let '(lost, s') := alone (await_loss_p cfg env k) s in
     if lost : bool then
       let '(r, s'') := connect cfg env cfuel false 0 s' in
       match r with
       | Connected k' => watchConnAndReconnect cfg env fuel cfuel k' s''
       | GaveUp => (true, s'')
       | NoFuel => (false, s'')
       end
     else (true, s')) /\
  alone (Start_p cfg) s = Start cfg s /\
  alone (Stop_p cfg env) s = Stop cfg env (mret tt) s /\
  alone (Drain_p (seq 0 (length (receivers s)))) s = Drain s /\
  (forall idx, alone (recoverSenderChannel_p env idx) s = recoverSenderChannel env (mret tt) idx s) /\
  (forall idx, alone (recoverReceiverChannel_p env idx) s = recoverReceiverChannel env (mret tt) idx s) /\
  (forall fuel idx ch,
     watchSenderChannel cfg env closed (mret tt) (Datatypes.S fuel) idx ch s =
     let '(next, s') := alone (watchSender_p cfg env closed idx ch) s in
     match next with
     | Some ch' => watchSenderChannel cfg env closed (mret tt) fuel idx ch' s'
     | None => (true, s')
     end) /\
  (forall fuel idx ch,
     watchReceiverChannel cfg env closed (mret tt) (Datatypes.S fuel) idx ch s =
     let '(next, s') := alone (watchReceiver_p cfg env closed idx ch) s in
     match next with
     | Some ch' => watchReceiverChannel cfg env closed (mret tt) fuel idx ch' s'
     | None => (true, s')
     end).
Proof.
  split_and!; intros.
  - apply alone_attempt.
  - apply alone_await_loss.
  - apply alone_Start.
  - apply alone_Stop.
  - apply alone_Drain.
  - apply alone_recoverSender.
  - apply alone_recoverReceiver.
  - apply alone_watch. intros. apply alone_recoverSender.
  - apply alone_watch. intros. apply alone_recoverReceiver.
Qed.
