(* ===== verification/System.v ===== *)
(** * The whole system: the client's goroutines and the receivers they manage

    ClientRun.v lets a receiver's methods return what and when they like.
    Here each receiver is the one of ReceiverTags.v -- its calls part by part,
    its delivery loops, its settlers -- and a goroutine of the client that
    calls a method waits until that call has returned ([SBegin], [SReturn]),
    with every other goroutine, loop and settle running meanwhile. A call is
    only ever made by the client ([SRecv] excludes [LCall]). Senders stay
    behind their interface. *)

From S2P Require Import Prelude GoLib Metrics Config Settle ReceiverLife ReceiverTags Links LinkInstances.
From S2P Require Client.
From S2P Require Import ClientRun ClientLogic.
From S2P Require ClientRunLife.

Abbreviation Goroutine St := (Prog St (option Routine)).

(** ** A receiver *)

(** A receiver with its configuration, its metrics, and the calls
    [DeclareTopology] made. *)
Record Real := {
  rlife : LifeCfg;
  rmetrics : option Metrics.Receiver.ReceiverMetrics;
  rtag : Tagged;
  rdecl : list WEvent;
}.

Definition sys (r : Real) : Sys := life (rtag r).
Definition with_tag (x : Tagged) (r : Real) : Real :=
  {| rlife := rlife r; rmetrics := rmetrics r; rtag := x; rdecl := rdecl r |}.
Definition with_decl (w : list WEvent) (r : Real) : Real :=
  {| rlife := rlife r; rmetrics := rmetrics r; rtag := rtag r; rdecl := w |}.
Definition with_sys (s : Sys) (r : Real) : Real :=
  with_tag {| life := s; del := del (rtag r) <| epoch := epoch_ s |>; origin := origin (rtag r);
              stamped := stamped (rtag r) |} r.

(** A receiver as built: [NewReceiver]'s, with nothing started. *)
Definition new_real (cfg : LifeCfg) (m : option Metrics.Receiver.ReceiverMetrics) : Real :=
  {| rlife := cfg; rmetrics := m; rtag := tagged_init; rdecl := [] |}.

Definition real_call (a : Answers) (p : PC) (r : Real) : option error * Real :=
  let '(e, s) := call (rlife r) a p (sys r) in (e, with_sys s r).
Definition real_declare (a : Answers) (ch : nat) (r : Real) : option error * Real :=
  let '(e, w) := DeclareTopology (rlife r) (aDeclare a) ch (rdecl r) in (e, with_decl w r).

Lemma real_call_err a p r : (real_call a p r).1 = (call (rlife r) a p (sys r)).1.
Proof. unfold real_call. by destruct (call _ _ _ _). Qed.
Lemma real_call_sys a p r : sys (real_call a p r).2 = (call (rlife r) a p (sys r)).2.
Proof. unfold real_call. by destruct (call _ _ _ _). Qed.
Lemma real_declare_sys a ch r : sys (real_declare a ch r).2 = sys r.
Proof. unfold real_declare. by destruct (DeclareTopology _ _ _ _). Qed.

(** Its methods one at a time keep the client's interface. *)
#[export] Program Instance real_link (a : Answers) : ReceiverLink Real :=
  {| Queue := fun r => queue (rlife r);
     Stop_ := real_call a PStop;
     DeclareTopology_ := real_declare a;
     Start_ := fun ch => real_call a (PStart ch);
     Drain_ := real_call a PDrain;
     receiver_channel := fun r => ch_ (sys r);
     receiver_drained := fun r => drained (sys r) |}.
Next Obligation. intros a r. cbv beta. rewrite real_call_sys. apply stop_call. Qed.
Next Obligation. intros a ch r. cbv beta. by rewrite real_declare_sys. Qed.
Next Obligation.
  intros a ch r. cbv beta. rewrite real_call_sys, real_call_err. pose proof (starting_call (rlife r) a ch (sys r)) as H.
  destruct (call _ _ _ _) as [e s]. cbn [fst snd]. by intros ->.
Qed.
Next Obligation.
  intros a ch r. cbv beta. rewrite real_call_sys, real_call_err. pose proof (starting_call (rlife r) a ch (sys r)) as H.
  destruct (call _ _ _ _) as [e s]. cbn [fst snd]. by intros [? ->].
Qed.
Next Obligation. intros a r. cbv beta. rewrite real_call_sys. apply drain_call. Qed.
Next Obligation. intros a r. cbv beta. rewrite real_call_sys. apply drain_call. Qed.
Next Obligation. intros a ch r Hd. cbv beta. rewrite real_call_err. by apply refused_call. Qed.
Next Obligation.
  intros a r Hd. cbv beta. split; [rewrite real_call_sys; by apply drained_call|]. intros ch. cbv beta.
  rewrite real_declare_sys, real_call_sys. split; [done|]. by apply drained_call.
Qed.

(** ** The machine *)

Section system.
Context {S : Type} `{!SenderLink S} (cfg : Config) (env : Client.Env).
Context (closed : list Client.CEvent -> Client.ChannelClosed).
(** The broker's answers to declarations, and to acknowledgements. *)
Context (a : Answers) (senv : Settle.Env).
#[local] Existing Instance real_link.
#[local] Instance link : ReceiverLink Real := real_link a.
Abbreviation CPool := (@Pool S Real).
Abbreviation pexec := (ClientRun.exec (S := S) (R := Real) cfg env closed).

(** The goroutines, and the calls they wait for: the receiver and its thread. *)
Record System := {
  pool : CPool;
  inflight : gmap nat (nat * nat);
}.

Inductive slabel :=
| SCall (r : Routine)
| SRun (t : nat)
| SBegin (t : nat)
| SReturn (t : nat)
| SRecv (i : nat) (l : tlabel).

(** Where a call begins; [DeclareTopology] touches no state of the receiver. *)
Definition entry_of (f : RMethod) : PC + nat :=
  match f with
  | MStop => inl PStop
  | MStart ch => inl (PStart ch)
  | MDrain => inl PDrain
  | MDeclare ch => inr ch
  end.

Definition real (i : nat) (x : System) : option Real := Client.receivers (shared (pool x)) !! i.

(** A step of receiver [i]. *)
Definition step_receiver (i : nat) (l : tlabel) (x : CPool) : option CPool :=
  r ← Client.receivers (shared x) !! i;
  y ← texec (rlife r) (rmetrics r) senv (rtag r) l;
  Some (set_receiver i (with_tag y r) x).

(** The goroutine calls the receiver. A declaration is over at once. *)
Definition begin_call (t : nat) (x : System) : option System :=
  p ← threads (pool x) !! t;
  match p with
  | PRecv i f k =>
      if decide (is_Some (inflight x !! t)) then None
      else
        r ← real i x;
        match entry_of f with
        | inl q =>
            let u := fresh (dom (ReceiverLife.threads (sys r))) in
            y ← step_receiver i (TLife (ReceiverLife.LCall u q)) (pool x);
            Some {| pool := y; inflight := <[t := (i, u)]> (inflight x) |}
        | inr ch =>
            let '(e, r') := real_declare a ch r in
            y ← pexec (set_receiver i r' (pool x)) (LReturn t e);
            Some {| pool := y; inflight := inflight x |}
        end
  | _ => None
  end.

Definition end_call (t : nat) (x : System) : option System :=
  c ← inflight x !! t;
  r ← real c.1 x;
  match ReceiverLife.threads (sys r) !! c.2 with
  | Some (PReturned _ e) =>
      y ← pexec (pool x) (LReturn t e);
      Some {| pool := y; inflight := delete t (inflight x) |}
  | _ => None
  end.

Definition with_pool (x : System) (y : CPool) : System := {| pool := y; inflight := inflight x |}.

Definition sexec (x : System) (l : slabel) : option System :=
  match l with
  | SCall r => with_pool x <$> pexec (pool x) (LCall r)
  | SRun t => with_pool x <$> pexec (pool x) (LRun t)
  | SBegin t => begin_call t x
  | SReturn t => end_call t x
  | SRecv i (TLife (ReceiverLife.LCall _ _)) => None
  | SRecv i l => with_pool x <$> step_receiver i l (pool x)
  end.

Definition sstep (x : System) (l : slabel) (x' : System) : Prop := sexec x l = Some x'.

(** A client with its senders and receivers added, before any call. *)
Definition sready (ss : list S) (rs : list (LifeCfg * option Metrics.Receiver.ReceiverMetrics)) : System :=
  {| pool := ready ss ((fun c => new_real c.1 c.2) <$> rs); inflight := ∅ |}.
End system.

(** ** The client leaves the receivers alone *)

Section leaves.
Context {S R : Type} `{!SenderLink S, !ReceiverLink R} (cfg : Config) (env : Client.Env).
Context (closed : list Client.CEvent -> Client.ChannelClosed).
Abbreviation CS := (Client.CState S R).
Implicit Types s : CS.

(** No action of a goroutine writes [c.receivers] or a receiver: they are
    reached through their methods only. *)
Definition same_receivers (_ _ : unit) s s' : Prop := Client.receivers s' = Client.receivers s.
Abbreviation rwp := (wp (fun _ : CS => True) (fun _ => tt) (fun _ : unit => false) same_receivers
  (fun _ _ => True) (fun _ _ => True) (fun _ _ _ => True)).
Abbreviation rstill := (still (fun _ : CS => True) (fun _ => tt) same_receivers).
Abbreviation rstill_p := (still_p (fun _ : CS => True) (fun _ => tt) same_receivers).
Definition leaves (p : Goroutine CS) : Prop := rwp p tt tt (fun _ _ _ => True).

Lemma leaves_intro {X} (m : M CS X) : (forall s, Client.receivers (m s).2 = Client.receivers s) -> rstill m.
Proof. intros Hm s. split; [done|]. split; [done|]. intros k. apply Hm. Qed.
Lemma keeps_leaves {X} (m : M CS X) : keeps m -> rstill m.
Proof. intros Hm. apply leaves_intro. intros s. by destruct (Hm s) as (_ & _ & ?). Qed.
Lemma leaves_SetChannel i c : rstill (Client.sender_SetChannel i c).
Proof. by apply leaves_intro. Qed.
Lemma leaves_modify (f : CS -> CS) : (forall s, Client.receivers (f s) = Client.receivers s) -> rstill (modify f).
Proof. intros Hf. by apply leaves_intro. Qed.
Lemma leaves_emit e : rstill (Client.emit e).
Proof. by apply leaves_intro. Qed.
#[local] Hint Resolve keeps_leaves leaves_SetChannel leaves_modify leaves_emit : still.
#[local] Hint Extern 4 (keeps _) => auto with keeps : still.
#[local] Hint Extern 5 (still _ _ _ _) => (by apply leaves_intro) : still.

Lemma leaves_receivers_Stop : rstill_p (receivers_Stop_p : Prog CS _).
Proof. apply still_receivers_Stop; auto with still. Qed.
Lemma leaves_senders_off : rstill_p (senders_off_p : Prog CS _).
Proof. apply still_senders_off; auto with still. Qed.
Lemma leaves_setupChannels k : rstill_p (setupChannels_p cfg env k : Prog CS _).
Proof. apply still_setupChannels; auto with still. Qed.
Lemma leaves_closes chs : rstill_p (for_each_p chs (fun c => act (Client.ch_Close c)) : Prog CS _).
Proof. apply still_closes; auto with still. Qed.
#[local] Hint Resolve leaves_receivers_Stop leaves_senders_off leaves_setupChannels leaves_closes : still.

Lemma leaves_walk initial urls : rstill_p (walk_p cfg env initial urls : Prog CS _).
Proof. induction urls; cbn [walk_p]; unfold established_p; still. Qed.
#[local] Hint Resolve leaves_walk : still.
Lemma leaves_attempt initial attempt : rstill_p (attempt_p cfg env initial attempt : Prog CS _).
Proof. unfold attempt_p. still. Qed.
Lemma leaves_await_loss k : rstill_p (await_loss_p cfg env k : Prog CS _).
Proof. unfold await_loss_p, handleDisconnect_p. still. Qed.
#[local] Hint Resolve leaves_attempt leaves_await_loss : still.

Lemma rwp_true {A} (p : Prog CS A) k : rstill_p p -> rwp p k tt (fun _ _ _ => True).
Proof. intros Hp. by apply wp_still. Qed.

Lemma rwp_Stop k : rwp (Stop_p cfg env : Prog CS _) k tt (fun _ _ _ => True).
Proof.
  unfold Stop_p. apply wp_bind, wp_still; [unfold claim_stop; split; [by apply leaves_intro|done]|]. intros [|]; [done|].
  apply wp_bind, wp_still; [still|]. intros _. exists k. split; [done|]. intros [] _. apply rwp_true.
  unfold Stop_tail_p. still.
Qed.

Lemma leaves_body r : leaves (body cfg env closed r).
Proof.
  unfold leaves, body. destruct r as [initial attempt|k|idx ch|idx ch| | |order].
  - apply wp_bind, wp_still; [auto with still|]. intros [[k| |]|]; try done; by exists tt.
  - apply wp_bind, wp_still; [auto with still|]. intros [|]; [done|by exists tt].
  - apply wp_bind, wp_still; [|done]. apply still_watch; [auto with still|]. apply still_recoverSender; auto with still.
  - apply wp_bind, wp_still; [|done]. apply still_watch; [auto with still|]. apply still_recoverReceiver; auto with still.
  - apply wp_bind, wp_still; [|done]. unfold Start_p. destruct (decide _); [done|]. still.
    apply leaves_intro. intros s. unfold claim_start. rewrite M_bind_run. unfold gets at 1. by destruct (Client.started s).
  - apply wp_bind. eapply wp_mono; [|apply rwp_Stop]. done.
  - apply wp_bind, wp_still; [|done]. apply still_Drain; auto with still.
Qed.

(** In the pool: whatever a goroutine does next leaves the receivers alone. *)
Definition all_leave (x : Pool (S := S) (R := R)) : Prop := map_Forall (fun _ p => leaves p) (threads x).

Lemma all_leave_at t p m d x : leaves p -> all_leave x -> all_leave (at_prog t p m d x).
Proof. intros Hp Hx. by apply map_Forall_insert_2. Qed.

Lemma all_leave_spawn (ts : gmap nat (Goroutine CS)) rs :
  map_Forall (fun _ p => leaves p) ts -> map_Forall (fun _ p => leaves p) (foldl add_thread ts rs).
Proof.
  revert ts. induction rs as [|r rs IH]; intros ts Hts; [done|]. apply IH. by apply map_Forall_insert_2.
Qed.

Definition is_recv (l : label (R := R)) : bool := match l with LRecv _ _ => true | _ => false end.

Lemma all_leave_step x l x' :
  all_leave x -> exec cfg env closed x l = Some x' ->
  all_leave x' /\ (is_recv l = false -> Client.receivers (shared x') = Client.receivers (shared x)).
Proof.
  intros Hx. destruct l as [r|t|t e|i r]; cbn [exec].
  - destruct (is_call _ r); [|done]. intros [= <-]. split; [|done]. apply (all_leave_spawn _ [r] Hx).
  - unfold run_thread. intros (p & Ht & Hp)%bind_Some. pose proof (Hx _ _ Ht) as Hl.
    destruct p as [[r|]|X locks m f|i c f|p|p|p|p]; simplify_eq.
    + split; [|done]. apply all_leave_at; [apply leaves_body|done].
    + destruct (locks && _); [done|]. destruct (Hl (shared x) I (fun _ => eq_refl)) as ([] & _ & Hm & Hw).
      destruct (m (shared x)) as [a s]. simplify_eq. split; [|done]. apply all_leave_spawn. by apply map_Forall_insert_2.
    + destruct (mu x); simplify_eq. split; [|done]. by apply all_leave_at.
    + split; [|done]. by apply all_leave_at.
    + destruct (done_ x); simplify_eq. destruct Hl as ([] & _ & Hw). split; [|done].
      apply all_leave_at; [|done]. by apply (Hw tt).
    + destruct Hl as ([] & _ & Hw). split; [|done]. by apply all_leave_at.
  - unfold return_thread. intros (p & Ht & Hp)%bind_Some. pose proof (Hx _ _ Ht) as Hl.
    destruct p; simplify_eq. split; [|done]. apply all_leave_at; [apply Hl|done].
  - intros [= <-]. by split.
Qed.
End leaves.

(** ** Projections *)

Section projections.
Context {S : Type} `{!SenderLink S} (cfg : Config) (env : Client.Env).
Context (closed : list Client.CEvent -> Client.ChannelClosed) (a : Answers) (senv : Settle.Env).
#[local] Instance link' : ReceiverLink Real := real_link a.
Abbreviation CPool := (@Pool S Real).
Abbreviation step := (sstep (S := S) cfg env closed a senv).
Implicit Types (x : System (S := S)) (y : CPool).

Lemma step_receiver_Some i l (y y' : CPool) :
  step_receiver senv i l y = Some y' ->
  exists r z, Client.receivers (shared y) !! i = Some r /\ tstep (rlife r) (rmetrics r) senv (rtag r) l z /\
    y' = set_receiver i (with_tag z r) y.
Proof.
  unfold step_receiver. intros (r & Hr & (z & Hz & [= <-])%bind_Some)%bind_Some. by exists r, z.
Qed.

(** What a step of the system is: one of the goroutines with the receivers as
    they were, the beginning of a call, its return, a declaration, or a step
    inside a receiver. *)
Inductive sys_step x : slabel -> System -> Prop :=
| ss_client l l' y :
    pstep cfg env closed (pool x) l' y -> is_recv l' = false -> (forall t e, l' <> LReturn t e) ->
    (forall t, l' = LRun t -> l = SRun t) ->
    sys_step x l (with_pool x y)
| ss_begin t i f k q r z :
    threads (pool x) !! t = Some (PRecv i f k) -> inflight x !! t = None -> real i x = Some r ->
    entry_of f = inl q ->
    let u := fresh (dom (ReceiverLife.threads (sys r))) in
    tstep (rlife r) (rmetrics r) senv (rtag r) (TLife (ReceiverLife.LCall u q)) z ->
    sys_step x (SBegin t) {| pool := set_receiver i (with_tag z r) (pool x); inflight := <[t := (i, u)]> (inflight x) |}
| ss_declare t i f k ch r e y :
    threads (pool x) !! t = Some (PRecv i f k) -> inflight x !! t = None -> real i x = Some r ->
    entry_of f = inr ch ->
    return_thread t e (set_receiver i (real_declare a ch r).2 (pool x)) = Some y ->
    sys_step x (SBegin t) (with_pool x y)
| ss_return t i u r k e y :
    inflight x !! t = Some (i, u) -> real i x = Some r ->
    ReceiverLife.threads (sys r) !! u = Some (PReturned k e) -> return_thread t e (pool x) = Some y ->
    sys_step x (SReturn t) {| pool := y; inflight := delete t (inflight x) |}
| ss_recv i l r z :
    real i x = Some r -> tstep (rlife r) (rmetrics r) senv (rtag r) l z ->
    (forall u q, l <> TLife (ReceiverLife.LCall u q)) ->
    sys_step x (SRecv i l) (with_pool x (set_receiver i (with_tag z r) (pool x))).

Lemma sstep_cases x l x' : step x l x' -> sys_step x l x'.
Proof.
  unfold sstep. destruct l as [r|t|t|t|i l]; cbn [sexec].
  - intros (y & Hy & ->)%fmap_Some. by eapply ss_client.
  - intros (y & Hy & ->)%fmap_Some. eapply ss_client; [exact Hy|done..|]. by intros ? [= ->].
  - unfold begin_call. intros (p & Hp & H)%bind_Some. destruct p as [| |i f k| | | |]; try done.
    case_decide as Hin; [done|]. apply eq_None_not_Some in Hin. apply bind_Some in H as (r & Hr & H).
    destruct (entry_of f) as [q|ch] eqn:Hf.
    + apply bind_Some in H as (y & Hy & [= <-]). apply step_receiver_Some in Hy as (r' & z & Hr' & Hz & ->).
      unfold real in Hr. simplify_eq. by eapply ss_begin.
    + destruct (real_declare a ch r) as [e r'] eqn:Hd. apply bind_Some in H as (y & Hy & [= <-]).
      eapply (ss_declare _ _ _ _ _ _ _ e); [done..|]. by rewrite Hd.
  - unfold end_call. intros ([i u] & Hin & (r & Hr & H)%bind_Some)%bind_Some. simpl in *.
    destruct (ReceiverLife.threads (sys r) !! u) as [q|] eqn:Hu; [|done]. destruct q; try done.
    apply bind_Some in H as (y & Hy & [= <-]). by eapply ss_return.
  - intros H. assert ((forall u q, l <> TLife (ReceiverLife.LCall u q)) /\
      with_pool x <$> step_receiver senv i l (pool x) = Some x') as [Hl (y & Hy & ->)%fmap_Some].
    { destruct l as [[]| |]; done. }
    apply step_receiver_Some in Hy as (r & z & Hr & Hz & ->). by eapply ss_recv.
Qed.

(** The client's part of a run is a run of the client's goroutines alone. *)
Lemma erase_step x l x' : step x l x' -> exists ls, run (pstep cfg env closed) (pool x) ls (pool x').
Proof.
  intros Hst. destruct (sstep_cases _ _ _ Hst) as
    [l l' y Hy _ _ _|t i f k q r z _ _ _ _ u _|t i f k ch r e y _ _ _ _ Hy|t i u r k e y _ _ _ Hy|i l r z _ _ _]; simpl.
  - exists [l']. by econstructor; [|constructor].
  - exists [LRecv i (with_tag z r)]. by econstructor; [|constructor].
  - exists [LRecv i (real_declare a ch r).2; LReturn t e]. econstructor; [done|]. by econstructor; [|constructor].
  - exists [LReturn t e]. by econstructor; [|constructor].
  - exists [LRecv i (with_tag z r)]. by econstructor; [|constructor].
Qed.

Lemma erase_run x ls x' : run step x ls x' -> exists ls', run (pstep cfg env closed) (pool x) ls' (pool x').
Proof.
  induction 1 as [x|x l x1 ls x' Hst _ [ls' IH]]; [exists []; constructor|].
  destruct (erase_step _ _ _ Hst) as [l1 H1]. exists (l1 ++ ls'). by eapply run_app.
Qed.

Lemma all_leave_run x ls x' : run step x ls x' -> all_leave (pool x) -> all_leave (pool x').
Proof.
  intros (ls' & Hrun)%erase_run Hx. refine (run_invariant _ (fun y => all_leave y) _ _ _ _ Hx Hrun).
  intros y l y' Hy Hst. by destruct (all_leave_step _ _ _ _ _ _ Hy Hst).
Qed.

(** A receiver of the system takes the steps of its own machine and no others. *)
Definition moves (r r' : Real) : Prop :=
  rlife r' = rlife r /\ rmetrics r' = rmetrics r /\
  (rtag r' = rtag r \/ exists l, tstep (rlife r) (rmetrics r) senv (rtag r) l (rtag r')).

Lemma real_set i j r y :
  Client.receivers (shared (set_receiver i r y)) !! j =
  if decide (i = j) then (fun _ => r) <$> Client.receivers (shared y) !! j else Client.receivers (shared y) !! j.
Proof.
  unfold set_receiver, rec_set. simpl. case_decide as Hij; subst.
  - destruct (Client.receivers (shared y) !! j) as [r0|] eqn:Hj; simpl.
    + apply list_lookup_insert_eq. by eapply lookup_lt_Some.
    + apply lookup_ge_None. rewrite length_insert. by apply lookup_ge_None.
  - by apply list_lookup_insert_ne.
Qed.

Lemma receiver_step x l x' j r :
  all_leave (pool x) -> step x l x' -> real j x = Some r -> exists r', real j x' = Some r' /\ moves r r'.
Proof.
  intros Hx Hst Hr. unfold real in *.
  assert (forall i r' y, Client.receivers (shared y) = Client.receivers (shared (pool x)) ->
      (i = j -> moves r r') -> exists r2, Client.receivers (shared (set_receiver i r' y)) !! j = Some r2 /\ moves r r2)
    as Hset.
  { intros i r' y Hy Hm. rewrite real_set, Hy, Hr. case_decide; simpl; [by eauto|].
    exists r. split; [done|]. split_and!; [done..|by left]. }
  destruct (sstep_cases _ _ _ Hst) as
    [l l' y Hy Hl _ _|t i f k q r0 z _ _ Hr0 _ u Hz|t i f k ch r0 e y _ _ Hr0 _ Hy|t i u r0 k e y _ _ _ Hy|i l r0 z Hr0 Hz _];
    simpl.
  - destruct (all_leave_step _ _ _ _ _ _ Hx Hy) as [_ Hs]. rewrite (Hs Hl). exists r. split; [done|].
    split_and!; [done..|by left].
  - apply Hset; [done|]. intros ->. unfold real in Hr0. simplify_eq. split_and!; [done..|right]. by eexists.
  - unfold return_thread in Hy. apply bind_Some in Hy as (p & _ & Hp). destruct p; simplify_eq.
    apply Hset; [done|]. intros ->. unfold real in Hr0. simplify_eq.
    unfold real_declare. destruct (DeclareTopology _ _ _ _). split_and!; [done..|by left].
  - unfold return_thread in Hy. apply bind_Some in Hy as (p & _ & Hp). destruct p; simplify_eq.
    exists r. split; [done|]. split_and!; [done..|by left].
  - apply Hset; [done|]. intros ->. unfold real in Hr0. simplify_eq. split_and!; [done..|right]. by eexists.
Qed.

Lemma receiver_run x ls x' j r :
  all_leave (pool x) -> run step x ls x' -> real j x = Some r ->
  exists r' ls', real j x' = Some r' /\ rlife r' = rlife r /\ rmetrics r' = rmetrics r /\
    run (tstep (rlife r) (rmetrics r) senv) (rtag r) ls' (rtag r').
Proof.
  intros Hx Hrun. revert r. induction Hrun as [x|x l x1 ls x' Hst Hrun IH]; intros r Hr.
  - exists r, []. split_and!; try done. constructor.
  - destruct (receiver_step _ _ _ _ _ Hx Hst Hr) as (r1 & Hr1 & Hl & Hm & Ht).
    assert (run step x [l] x1) as H1 by by econstructor; [|constructor].
    destruct (IH (all_leave_run _ _ _ H1 Hx) r1 Hr1) as (r' & ls' & Hr' & Hl' & Hm' & Ht').
    exists r'. rewrite Hl', Hm', Hl, Hm in *. destruct Ht as [Ht|[tl Ht]].
    + exists ls'. by rewrite <- Ht.
    + exists (tl :: ls'). split_and!; try done. by econstructor.
Qed.
End projections.

(** ** Draining the client *)

Section drain.
Context {S : Type} `{!SenderLink S} (cfg : Config) (env : Client.Env).
Context (closed : list Client.CEvent -> Client.ChannelClosed) (a : Answers) (senv : Settle.Env).
#[local] Instance link'' : ReceiverLink Real := real_link a.
Abbreviation CPool := (@Pool S Real).
Abbreviation step := (sstep (S := S) cfg env closed a senv).
Abbreviation CS := (Client.CState S Real).
Implicit Types (x : System (S := S)) (y : CPool).

(** What is left of a client's [Drain]: of [n] receivers, those in [D] have
    been drained. *)
Fixpoint drains (n : nat) (D : gset nat) (p : Goroutine CS) : Prop :=
  match p with
  | PRet None => forall i, i < n -> i ∈ D
  | PRet (Some r) => exists order, r = RDrain order /\ order ≡ₚ seq 0 n
  | PAct _ m k => forall v, drains n D (k v)
  | PRecv i f k => f = MDrain /\ forall e, drains n ({[i]} ∪ D) (k e)
  | _ => False
  end.

Lemma drains_assoc {A B} n D (p : Prog CS A) (f : A -> Prog CS B) g :
  drains n D (p ≫= fun v => f v ≫= g) -> drains n D ((p ≫= f) ≫= g).
Proof.
  unfold mbind, Prog_bind. revert D. induction p as [v|X l m h IH|j c h IH|p IH|p IH|p IH|p IH]; intros D; simpl; auto.
  intros [-> H]. split; [done|]. auto.
Qed.

Lemma drains_collect n D order (k : list (option error) -> Goroutine CS) :
  (forall D' errs, (forall i, i ∈ order \/ i ∈ D -> i ∈ D') -> drains n D' (k errs)) ->
  drains n D (collect_p order (fun i => rcall i MDrain) ≫= k).
Proof.
  revert D k. induction order as [|i order IH]; intros D k Hk; cbn [collect_p]; [apply Hk; set_solver|].
  apply drains_assoc. split; [done|]. intros e. apply drains_assoc, IH. intros D' errs HD. apply Hk. set_solver.
Qed.

Lemma drains_body n D order : order ≡ₚ seq 0 n -> drains n D (body cfg env closed (RDrain order)).
Proof.
  intros Ho. cbn [body]. unfold Drain_p. apply drains_assoc. intros v. apply drains_assoc, drains_collect.
  intros D' _ HD i Hi. apply HD. left. rewrite Ho. apply elem_of_seq. lia.
Qed.

(** A call of [Drain] in a receiver: not begun, or past the point where it
    has drained the receiver. *)
Definition on_drain (u : nat) (r : Real) : Prop :=
  exists q, ReceiverLife.threads (sys r) !! u = Some q /\ (q = PDrain \/ drained (sys r) = true).

Lemma on_drain_lstep c s l s' u :
  lstep c s l s' ->
  (exists q, ReceiverLife.threads s !! u = Some q /\ (q = PDrain \/ drained s = true)) ->
  exists q, ReceiverLife.threads s' !! u = Some q /\ (q = PDrain \/ drained s' = true).
Proof.
  intros Hst (q & Hq & Hd). pose proof (drained_step _ _ _ _ Hst) as Hmono.
  destruct (lstep_cases _ _ _ _ Hst) as
    [(? & ? & ? & _ & _ & ->)|[(t & p & _ & Ht & _ & ->)|(t & v & p & _ & Hp & Hgo)]].
  - by exists q.
  - exists q. simpl. rewrite lookup_insert_ne by congruence. split; [done|]. naive_solver.
  - destruct (decide (t = u)) as [->|Hne].
    2:{ exists q. rewrite (go_threads _ _ _ _ _ _ _ Hgo) by done. split; [done|]. naive_solver. }
    destruct (go_at _ _ _ _ _ _ Hgo) as [q' Hq']. exists q'. split; [done|]. right.
    destruct Hd as [->|Hd]; [|auto]. rewrite Hp in Hq. injection Hq as ->. simpl in Hgo. unfold drain_take, goto in Hgo.
    split_in Hgo; by injection Hgo as <-.
Qed.

Lemma moves_life r r' :
  moves senv r r' -> sys r' = sys r \/ exists l, lstep (rlife r) (sys r) l (sys r').
Proof.
  unfold sys. intros (_ & _ & [->|[l Hst]]); [by left|]. apply tstep_cases in Hst as
    [(l' & Hst & _)|[(c & y & d & _ & _ & _ & Hli & _)|(Hli & _)]]; [right; eauto|by left..].
Qed.

Lemma moves_on_drain u r r' : moves senv r r' -> on_drain u r -> on_drain u r'.
Proof. unfold on_drain. intros [->|[l Hst]]%moves_life H; [done|]. by eapply on_drain_lstep. Qed.

Lemma moves_drained r r' : moves senv r r' -> drained (sys r) = true -> drained (sys r') = true.
Proof. intros [->|[l Hst]]%moves_life; [done|]. by eapply drained_step. Qed.

(** The goroutine [t] of a client's [Drain], along a run. *)
Record tracked (t n : nat) x : Prop := {
  tr_leave : all_leave (pool x);
  tr_all i : is_Some (real i x) -> i < n;
  tr_at : exists p D, threads (pool x) !! t = Some p /\ drains n D p /\
    (forall i r, i ∈ D -> real i x = Some r -> drained (sys r) = true) /\
    (forall i u, inflight x !! t = Some (i, u) ->
       exists k r, p = PRecv i MDrain k /\ real i x = Some r /\ on_drain u r);
}.

(** A step of another goroutine, or of none, leaves [t] where it is. *)
Lemma spawn_threads (ts : gmap nat (Goroutine CS)) rs t p :
  ts !! t = Some p -> foldl add_thread ts rs !! t = Some p.
Proof.
  revert ts. induction rs as [|r rs IH]; intros ts Ht; [done|]. apply IH. unfold add_thread.
  rewrite lookup_insert_ne; [done|]. intros <-. apply elem_of_dom_2 in Ht. by apply is_fresh in Ht.
Qed.

Lemma other_threads y l y' t p :
  pstep cfg env closed y l y' -> l <> LRun t -> (forall e, l <> LReturn t e) ->
  threads y !! t = Some p -> threads y' !! t = Some p.
Proof.
  unfold pstep. destruct l as [r|t'|t' e|i r]; cbn [exec]; intros Hst Hr He Ht.
  - destruct (is_call _ r); [|done]. injection Hst as <-. by apply (spawn_threads _ [r]).
  - unfold run_thread in Hst. apply bind_Some in Hst as (p' & Hp' & Hst). assert (t' <> t) as Hne by congruence.
    destruct p' as [[r|]|X locks m f|i c f|p'|p'|p'|p']; simplify_eq.
    all: try (simpl; by rewrite lookup_insert_ne).
    + destruct (locks && _); [done|]. destruct (m (shared y)) as [v s]. simplify_eq. apply spawn_threads.
      by rewrite lookup_insert_ne.
    + destruct (mu y); simplify_eq. simpl. by rewrite lookup_insert_ne.
    + destruct (done_ y); simplify_eq. simpl. by rewrite lookup_insert_ne.
  - unfold return_thread in Hst. apply bind_Some in Hst as (p' & Hp' & Hst). assert (t' <> t) as Hne by congruence.
    destruct p'; simplify_eq. simpl. by rewrite lookup_insert_ne.
  - by injection Hst as <-.
Qed.

Lemma receivers_length x l x' :
  all_leave (pool x) -> step x l x' ->
  length (Client.receivers (shared (pool x'))) = length (Client.receivers (shared (pool x))).
Proof.
  intros Hx Hst. destruct (sstep_cases _ _ _ _ _ _ _ _ Hst) as
    [l l' y Hy Hl _ _|t i f k q r0 z _ _ _ _ u _|t i f k ch r0 e y _ _ _ _ Hy|t i u r0 k e y _ _ _ Hy|i l r0 z _ _ _];
    simpl.
  - destruct (all_leave_step _ _ _ _ _ _ Hx Hy) as [_ Hs]. by rewrite Hs.
  - apply length_insert.
  - unfold return_thread in Hy. apply bind_Some in Hy as (p & _ & Hp). destruct p; simplify_eq. apply length_insert.
  - unfold return_thread in Hy. apply bind_Some in Hy as (p & _ & Hp). by destruct p; simplify_eq.
  - apply length_insert.
Qed.

(** A receiver after a step was one before it. *)
Lemma receiver_back x l x' i r' :
  all_leave (pool x) -> step x l x' -> real i x' = Some r' -> exists r, real i x = Some r /\ moves senv r r'.
Proof.
  intros Hx Hst Hr'. destruct (lookup_lt_is_Some_2 (Client.receivers (shared (pool x))) i) as [r Hr].
  { erewrite <- receivers_length by done. apply lookup_lt_is_Some. by exists r'. }
  destruct (receiver_step _ _ _ _ _ _ _ _ _ _ Hx Hst Hr) as (r2 & Hr2 & Hm). simplify_eq. by exists r.
Qed.

(** What carries over a step, given where [t] is after it. *)
Lemma tracked_put t n x l x' p D :
  tracked t n x -> step x l x' -> threads (pool x') !! t = Some p -> drains n D p ->
  (forall i r, i ∈ D -> real i x = Some r -> drained (sys r) = true) ->
  (forall i u, inflight x' !! t = Some (i, u) ->
     exists k r, p = PRecv i MDrain k /\ real i x' = Some r /\ on_drain u r) ->
  tracked t n x'.
Proof.
  intros [Hx Hall _] Hst Hp Hdr HD Hin. split.
  - eapply all_leave_run; [|exact Hx]. by econstructor; [|constructor].
  - intros i [r' (r & Hr & _)%(receiver_back _ _ _ _ _ Hx Hst)]. apply Hall. by exists r.
  - exists p, D. split_and!; try done. intros i r' Hi Hr'.
    destruct (receiver_back _ _ _ _ _ Hx Hst Hr') as (r & Hr & Hm). eapply moves_drained; [done|]. by eapply HD.
Qed.

Lemma tracked_other t n x l x' :
  tracked t n x -> step x l x' -> threads (pool x') !! t = threads (pool x) !! t ->
  inflight x' !! t = inflight x !! t -> tracked t n x'.
Proof.
  intros Ht Hst Hp Hi. destruct (tr_at _ _ _ Ht) as (p & D & Hp0 & Hdr & HD & Hin).
  eapply tracked_put; [done|done|by rewrite Hp|done|done|]. intros i u Hiu. rewrite Hi in Hiu.
  destruct (Hin i u Hiu) as (k & r & -> & Hr & Hon).
  destruct (receiver_step _ _ _ _ _ _ _ _ _ _ (tr_leave _ _ _ Ht) Hst Hr) as (r' & Hr' & Hm).
  exists k, r'. split_and!; [done..|]. by eapply moves_on_drain.
Qed.

(** [t] runs an action of its own. *)
Lemma tracked_run t n x y :
  tracked t n x -> step x (SRun t) (with_pool x y) -> pstep cfg env closed (pool x) (LRun t) y ->
  tracked t n (with_pool x y).
Proof.
  intros Ht Hst Hy. destruct (tr_at _ _ _ Ht) as (p & D & Hp & Hdr & HD & Hin).
  assert (inflight x !! t = None) as Hno.
  { destruct (inflight x !! t) as [[i u]|]; [|done]. destruct (Hin i u eq_refl) as (k & r & -> & _).
    unfold pstep in Hy. cbn [exec] in Hy. unfold run_thread in Hy. by rewrite Hp in Hy. }
  assert (exists p', threads y !! t = Some p' /\ drains n D p') as (p' & Hp' & Hdr').
  { unfold pstep in Hy. cbn [exec] in Hy. unfold run_thread in Hy. rewrite Hp in Hy. simpl in Hy.
    destruct p as [[r|]|X locks m f|i c f|p|p|p|p]; try done.
    - destruct Hdr as (order & -> & Ho). injection Hy as <-. eexists. split; [apply lookup_insert_eq|].
      by apply drains_body.
    - destruct (locks && _); [done|]. destruct (m (shared (pool x))) as [v s]. injection Hy as <-.
      exists (f v). split; [apply spawn_threads, lookup_insert_eq|apply Hdr]. }
  eapply tracked_put; [done..|]. simpl. by rewrite Hno.
Qed.

Lemma tracked_step t n x l x' : tracked t n x -> step x l x' -> tracked t n x'.
Proof.
  intros Ht Hst. destruct (tr_at _ _ _ Ht) as (p & D & Hp & Hdr & HD & Hin).
  destruct (sstep_cases _ _ _ _ _ _ _ _ Hst) as
    [l l' y Hy Hl Hret Hrun|t' i f k q r z Hp' Hno Hr Hf u Hz|t' i f k ch r e y Hp' Hno Hr Hf Hy|
     t' i u r k e y Hiu Hr Hu Hy|i l r z Hr Hz _].
  - destruct l' as [ro|t'|t' e|i r]; [| |by edestruct Hret|done].
    + eapply tracked_other; [done..| |done]. simpl. rewrite Hp. by eapply other_threads.
    + pose proof (Hrun t' eq_refl) as ->. destruct (decide (t' = t)) as [->|Hne]; [by eapply tracked_run|].
      eapply tracked_other; [done..| |done]. simpl. rewrite Hp. eapply other_threads; [done|congruence|done..].
  - destruct (decide (t' = t)) as [->|Hne].
    2:{ eapply tracked_other; [done..|]. simpl. by rewrite lookup_insert_ne. }
    simplify_eq. destruct Hdr as [-> Hdr]. injection Hf as <-.
    eapply tracked_put; [done|done|simpl; exact Hp|split; [done|exact Hdr]|done|]. simpl. intros i' u'.
    rewrite lookup_insert_eq. intros [= <- <-]. exists k, (with_tag z r). split; [done|]. split.
    + unfold real. simpl. apply list_lookup_insert_eq. by eapply lookup_lt_Some.
    + exists PDrain. split; [|by left]. unfold tstep in Hz. cbn [texec] in Hz. unfold life_step in Hz.
      apply bind_Some in Hz as (s & Hs & [= <-]). cbn [ReceiverLife.exec] in Hs. fold (sys r) in Hs.
      destruct (ReceiverLife.threads (sys r) !! u); [done|]. simpl in Hs. injection Hs as <-. apply lookup_insert_eq.
  - assert (t' <> t) as Hne by (intros ->; simplify_eq; destruct Hdr as [-> _]; done).
    eapply tracked_other; [done..| |done]. simpl. rewrite Hp. eapply (other_threads _ (LReturn t' e)); try done.
    intros e'. congruence.
  - destruct (decide (t' = t)) as [->|Hne].
    + destruct (Hin i u Hiu) as (k' & r' & -> & Hr' & (q & Hq & Hon)). simplify_eq.
      destruct Hon as [|Hon]; [done|]. destruct Hdr as [_ Hdr].
      unfold return_thread in Hy. rewrite Hp in Hy. simpl in Hy. injection Hy as <-.
      eapply (tracked_put _ _ _ _ _ (k' e)); [done|done|apply lookup_insert_eq|apply Hdr| |].
      * intros j rj [->%elem_of_singleton|Hj]%elem_of_union Hrj; [by simplify_eq|by eapply HD].
      * simpl. by rewrite lookup_delete_eq.
    + eapply tracked_other; [done..| |].
      * simpl. rewrite Hp. eapply (other_threads _ (LReturn t' e)); try done. intros e'. congruence.
      * simpl. by rewrite lookup_delete_ne.
  - by eapply tracked_other.
Qed.

(** A goroutine waits for a call only once it exists. *)
Lemma threads_stay y l y' t : pstep cfg env closed y l y' -> is_Some (threads y !! t) -> is_Some (threads y' !! t).
Proof.
  intros Hst [p Hp].
  assert (l <> LRun t -> (forall e, l <> LReturn t e) -> is_Some (threads y' !! t)) as Hother.
  { intros Hr He. exists p. by eapply other_threads. }
  destruct l as [ro|t'|t' e|i r]; try (by apply Hother); (destruct (decide (t' = t)) as [->|Hne];
    [|apply Hother; congruence]); unfold pstep in Hst; cbn [exec] in Hst.
  - unfold run_thread in Hst. rewrite Hp in Hst. simpl in Hst.
    destruct p as [[r|]|X locks m f|i c f|p|p|p|p]; simplify_eq; try (eexists; apply lookup_insert_eq).
    + destruct (locks && _); [done|]. destruct (m (shared y)) as [v s]. simplify_eq. eexists.
      apply spawn_threads, lookup_insert_eq.
    + destruct (mu y); simplify_eq. eexists. apply lookup_insert_eq.
    + destruct (done_ y); simplify_eq. eexists. apply lookup_insert_eq.
  - unfold return_thread in Hst. rewrite Hp in Hst. simpl in Hst. destruct p; simplify_eq.
    eexists. apply lookup_insert_eq.
Qed.

Lemma inflight_step x l x' :
  step x l x' -> (forall t, is_Some (inflight x !! t) -> is_Some (threads (pool x) !! t)) ->
  forall t, is_Some (inflight x' !! t) -> is_Some (threads (pool x') !! t).
Proof.
  intros Hst Hx t Ht.
  assert (is_Some (threads (pool x) !! t)) as Hp.
  { destruct (sstep_cases _ _ _ _ _ _ _ _ Hst) as
      [l l' y _ _ _ _|t' i f k q r z Hp' _ _ _ u _|t' i f k ch r e y _ _ _ _ _|t' i u r k e y _ _ _ _|i l r z _ _ _];
      simpl in Ht; auto.
    - destruct (decide (t' = t)) as [->|Hne]; [by rewrite Hp'|]. rewrite lookup_insert_ne in Ht by done. auto.
    - destruct (decide (t' = t)) as [->|Hne]; [by rewrite lookup_delete_eq in Ht; destruct Ht|].
      rewrite lookup_delete_ne in Ht by done. auto. }
  destruct (erase_step _ _ _ _ _ _ _ _ Hst) as [ls Hrun].
  refine (run_invariant (pstep cfg env closed) (fun y => is_Some (threads y !! t)) _ _ _ _ Hp Hrun).
  intros. by eapply threads_stay.
Qed.

Lemma tracked_run_all t n x ls x' : run step x ls x' -> tracked t n x -> tracked t n x'.
Proof.
  intros Hrun Hx. refine (run_invariant step (tracked t n) x ls x' _ Hx Hrun). intros. by eapply tracked_step.
Qed.
End drain.

(** ** Properties *)

(** C4: Once a [Drain] of the client has returned, in every interleaving with the
    supervisor, the channel recoveries, other calls, the delivery loops and
    outside code, every receiver refuses to start, and stays so; and one with
    no Start half-way registers no consumer and begins no cycle ever again. *)
Theorem drained_system_never_consumes {S} `{!SenderLink S} cfg env closed a senv
    (ss : list S) (rs : list (LifeCfg * option Metrics.Receiver.ReceiverMetrics)) order ls0 x x1 ls x2 ls' x3 i r2 :
  run (sstep cfg env closed a senv) (sready ss rs) ls0 x ->
  sstep cfg env closed a senv x (SCall (RDrain order)) x1 ->
  run (sstep cfg env closed a senv) x1 ls x2 ->
  threads (pool x2) !! fresh (dom (threads (pool x))) = Some (PRet None) ->
  run (sstep cfg env closed a senv) x2 ls' x3 -> real i x2 = Some r2 ->
  drained (sys r2) = true /\
  exists r3, real i x3 = Some r3 /\ drained (sys r3) = true /\
    (no_start (sys r2) -> consumes (wire (sys r3)) = consumes (wire (sys r2)) /\
                          dom (cycles (sys r3)) = dom (cycles (sys r2))).
Proof.
  intros Hrun0 Hst Hrun Hret Hrun' Hr2. set (t := fresh _) in *.
  assert (all_leave (pool (sready ss rs))) as H0 by exact (map_Forall_empty _).
  pose proof (all_leave_run _ _ _ _ _ _ _ _ Hrun0 H0) as Hx.
  assert (tracked t (length (Client.receivers (shared (pool x)))) x1) as Ht1.
  { unfold sstep in Hst. cbn [sexec ClientRun.exec] in Hst. apply fmap_Some in Hst as (y & Hy & ->).
    destruct (is_call _ _) eqn:Hc; [|done]. injection Hy as <-. simpl in Hc. apply bool_decide_eq_true in Hc.
    split; simpl.
    - apply (all_leave_spawn _ [RDrain order] Hx).
    - intros j Hj. by apply lookup_lt_is_Some in Hj.
    - exists (PRet (Some (RDrain order))), ∅. split; [apply lookup_insert_eq|]. split; [by exists order|].
      split; [set_solver|]. intros j u Hin.
      assert (is_Some (threads (pool x) !! t)) as Hin'.
      { refine (run_invariant (sstep cfg env closed a senv)
          (fun x => forall t, is_Some (inflight x !! t) -> is_Some (threads (pool x) !! t)) _ _ _ _ _ Hrun0 t _).
        - intros. by eapply inflight_step.
        - intros v. simpl. rewrite lookup_empty. by intros [].
        - by exists (j, u). }
      apply elem_of_dom in Hin'. by apply is_fresh in Hin'. }
  pose proof (tracked_run_all _ _ _ _ _ _ _ _ _ _ Hrun Ht1) as Ht2.
  destruct (tr_at _ _ _ Ht2) as (p & D & Hp & Hdr & HD & _). rewrite Hret in Hp. injection Hp as <-.
  assert (drained (sys r2) = true) as Hd.
  { apply (HD i); [|done]. apply Hdr. apply (tr_all _ _ _ Ht2). by exists r2. }
  split; [done|].
  destruct (receiver_run _ _ _ _ _ _ _ _ _ _ (tr_leave _ _ _ Ht2) Hrun' Hr2) as (r3 & lsr & Hr3 & _ & _ & Htr).
  destruct (life_run _ _ _ _ _ _ Htr) as (lsl & Hl). exists r3. split; [done|]. split.
  - refine (run_invariant (lstep (rlife r2)) (fun s => drained s = true) _ _ _ _ Hd Hl). intros. by eapply drained_step.
  - intros Hn. destruct (shut_run _ _ _ _ Hl Hd Hn) as [_ _ Hc Hy _ _]. done.
Qed.

(** ** Runs *)

(** One sender and one receiver, a broker that agrees to everything, and
    goroutines that look at a life context done once it has been cancelled;
    the client is told that a connection has failed whenever it asks. *)
Definition ok_answers : Answers :=
  {| aQos := fun _ => None; aConsume := fun _ => None; aDeclare := fun _ => None; aDrain := fun _ _ => COk |}.
Definition lost_env : Client.Env :=
  {| Client.envDial := fun _ _ => None; Client.envChannel := fun _ => None; Client.envCloseConn := fun _ => None;
     Client.envDone := existsb ClientRunLife.is_cancel; Client.envDrained := fun _ => false;
     Client.envClosed := fun l => if existsb ClientRunLife.is_cancel l then Client.NDone
                                  else Client.NError (New "connection reset");
     Client.envParseURI := fun _ => None |}.
#[local] Existing Instance ClientSetup.plain_sender.
Abbreviation plain := (sexec (S := option nat) ClientSetup.plain_cfg lost_env ClientRunLife.busy_closed ok_answers tag_env).
Abbreviation plain_step := (sstep (S := option nat) ClientSetup.plain_cfg lost_env ClientRunLife.busy_closed ok_answers tag_env).
Definition plain_system : System := sready [None : option nat] [(sample_life, None)].

(** What goroutine [t] does next: an action of its own, or a part of the call
    it waits for. *)
Definition turn (x : System (S := option nat)) (t : nat) : slabel :=
  match inflight x !! t with
  | Some (i, u) =>
      match real i x ≫= fun r => ReceiverLife.threads (sys r) !! u with
      | Some (PReturned _ _) => SReturn t
      | _ => SRecv i (TLife (LGo u COk))
      end
  | None => match threads (pool x) !! t with Some (PRecv _ _ _) => SBegin t | _ => SRun t end
  end.
Fixpoint schedule (x : System (S := option nat)) (cs : list (slabel + nat)) : list slabel :=
  match cs with
  | [] => []
  | c :: cs' =>
      let l := match c with inl l => l | inr t => turn x t end in
      l :: match plain x l with Some x' => schedule x' cs' | None => [] end
  end.
Definition turns (t n : nat) : list (slabel + nat) := repeat (inr t) n.
Definition labels (cs : list (slabel + nat)) : list slabel := schedule plain_system cs.
Definition after (cs : list (slabel + nat)) : System := default plain_system (exec_all plain plain_system (labels cs)).
Definition runs (cs : list (slabel + nat)) : bool :=
  match exec_all plain plain_system (labels cs) with Some _ => true | None => false end.

Lemma after_run cs : runs cs = true -> run plain_step plain_system (labels cs) (after cs).
Proof.
  unfold runs, after. destruct (exec_all _ _ _) as [x|] eqn:He; [|done]. intros _.
  by apply (exec_all_run plain plain_step).
Qed.

(** The channel of cycle [c] is gone and its loop has ended. *)
Definition gone (c : nat) : list (slabel + nat) :=
  [inl (SRecv 0 (TLife (LDie c))); inl (SRecv 0 (TLife (LExit c)))].

(** Goroutine 0 starts the client, 1 connects it; 2 and 3 watch the channels of
    the sender and of the receiver. *)
Definition connected_run : list (slabel + nat) := [inl (SCall RStart)] ++ turns 0 3 ++ turns 1 25.

(** A channel recovery is past its look at [drained] when Stop, goroutine 4,
    stops the receivers; it starts the receiver and still finds the client
    connected. *)
Definition outlive_run : list (slabel + nat) :=
  connected_run ++ turns 1 1 ++ gone 0 ++ turns 3 16 ++
  [inl (SCall RStop)] ++ turns 4 3 ++ turns 1 2 ++ turns 4 6 ++ turns 3 12 ++ turns 4 9 ++ turns 3 2 ++ turns 2 2.

(** A channel recovery has its consumer and is about to install it when the
    connection is lost and repaired (goroutine 1). Then it installs it,
    notices, and stops the receiver. Goroutine 6 drains the client. *)
Definition stale_run : list (slabel + nat) :=
  connected_run ++ gone 0 ++ turns 3 20 ++ turns 1 40 ++
  map inl [SRecv 0 (TLife (LSend 2 sample_delivery)); SRecv 0 (TLife (LTake 2)); SRecv 0 (TStamp 2)] ++
  turns 3 8 ++ gone 1 ++ turns 3 6 ++ [inl (SCall (RDrain [0]))] ++ turns 6 6.

(** C37: Stop stops the receivers before it clears [connected]. A channel recovery
    that has already looked at [drained] can start its receiver in between and
    pass its second look at the connection; Stop then closes the new channel,
    every goroutine returns, and the receiver is left started on it for good. *)
Theorem recovery_outlives_stop :
  run plain_step plain_system (labels outlive_run) (after outlive_run) /\ at_rest (pool (after outlive_run)) /\
  let s := shared (pool (after outlive_run)) in
  Client.CCancelLife ∈ Client.clog s /\ Client.connected s = false /\
  exists r ch, real 0 (after outlive_run) = Some r /\
    is_Some (stopWork (sys r)) /\ ch_ (sys r) = Some ch /\ ch ∉ Client.openChs s.
Proof.
  split; [apply after_run; vm_compute; reflexivity|].
  split; [apply map_Forall_to_list; vm_compute; repeat constructor|].
  cbv zeta. split; [apply list_elem_of_In; vm_compute; tauto|]. split; [vm_compute; reflexivity|].
  eexists _, 3. split; [vm_compute; reflexivity|]. split; [by eexists; vm_compute|]. split; [vm_compute; reflexivity|].
  refine (bool_decide_eq_true_1 _ _). vm_compute. reflexivity.
Qed.

(** C36: A recovery that installs its consumer after the connection was replaced
    overwrites the cycle the reconnect started; its rollback then stops the
    receiver. The client stays connected, a Drain of it returns with every
    receiver's Drain nil, and yet the consumer on the new channel was never
    withdrawn, its loop is handling a delivery, and that delivery's tag is
    refused although its channel is open. *)
Theorem stale_recovery_defeats_drain :
  run plain_step plain_system (labels stale_run) (after stale_run) /\
  Client.connected (shared (pool (after stale_run))) = true /\
  threads (pool (after stale_run)) !! 6 = Some (PRet None) /\
  exists r y, real 0 (after stale_run) = Some r /\
    ReceiverLife.threads (sys r) !! 6 = Some (PReturned KDrain None) /\
    stopWork (sys r) = None /\
    cycles (sys r) !! 2 = Some y /\ cySpawned y = true /\ cyExited y = false /\ cyClosed y = false /\
    cyRead y = false /\ cyBusy y = Some sample_delivery /\
    consumes (wire (sys r)) = (fun ch => EConsume ch "q" "vinculum-c-q" false false) <$> [2; 3; 6] /\
    filter (fun e => match e with ECancel _ _ => true | _ => false end = true) (wire (sys r)) = [] /\
    6 ∈ Client.openChs (shared (pool (after stale_run))) /\
    (Valid 0 (del (rtag r))).1 = (false, "channel reconnected").
Proof.
  split; [apply after_run; vm_compute; reflexivity|].
  split; [vm_compute; reflexivity|]. split; [vm_compute; reflexivity|].
  eexists _, _. split; [vm_compute; reflexivity|]. split; [vm_compute; reflexivity|].
  split; [vm_compute; reflexivity|]. split; [vm_compute; reflexivity|].
  split_and!; try (vm_compute; reflexivity).
Qed.

(** ** Witnesses *)

(** Goroutine 4 drains the connected client; afterwards goroutine 3 declines to
    recover the channel. *)
Definition drained_run : list (slabel + nat) :=
  connected_run ++ [inl (SCall (RDrain [0]))] ++ turns 4 6 ++ gone 0 ++ turns 4 2.

Lemma drained_system_never_consumes_witness :
  let x2 := after drained_run in
  let ls' := schedule x2 (turns 3 8) in
  let x3 := default x2 (exec_all plain x2 ls') in
  exists r2 r3, real 0 x2 = Some r2 /\ real 0 x3 = Some r3 /\
    consumes (wire (sys r3)) = consumes (wire (sys r2)) /\ drained (sys r3) = true.
Proof.
  intros x2 ls' x3.
  set (x := after connected_run).
  set (x1 := after (connected_run ++ [inl (SCall (RDrain [0]))])).
  set (ls := schedule x1 (turns 4 6 ++ gone 0 ++ turns 4 2)).
  destruct (real 0 x2) as [r2|] eqn:Hr2; [|vm_compute in Hr2; discriminate].
  assert (no_start (sys r2)) as Hn.
  { vm_compute in Hr2. injection Hr2 as <-. apply map_Forall_to_list. vm_compute. repeat constructor. }
  destruct (drained_system_never_consumes ClientSetup.plain_cfg lost_env ClientRunLife.busy_closed ok_answers tag_env
    [None] [(sample_life, None)] [0] (labels connected_run) x x1 ls x2 ls' x3 0 r2) as (_ & r3 & Hr3 & Hd & H).
  - apply after_run. vm_compute. reflexivity.
  - vm_compute. reflexivity.
  - apply (exec_all_run plain plain_step); [done|]. vm_compute. reflexivity.
  - vm_compute. reflexivity.
  - apply (exec_all_run plain plain_step); [done|]. vm_compute. reflexivity.
  - exact Hr2.
  - exists r2, r3. destruct (H Hn) as [Hc _]. split_and!; [reflexivity|exact Hr3|exact Hc|exact Hd].
Defined.
